(** * pairtree: an in-memory B-tree of pairs

    A shallow embedding of [pairtree.go] and the properties of its
    insertion, deletion, range scans, cursor and copy-on-write cloning.

    Conventions of the embedding.
    - A Go slice is a [list]; an index expression that would panic in Go
      (index out of range) makes the embedded function return [None].
    - Recursive methods and loops whose recursion is not structural take a
      [fuel] argument; [None] is also the result when the fuel runs out.
      The theorems give the fuel for which a result is produced.
    - The item type [pair.Pair] is external to the package.  It is a type
      [Pair] with decidable equality, the zero value [nilPair] and the
      comparator [less]. *)

From Stdlib Require Import ZArith Lia String.
From stdpp Require Import base option list sorting gmap.

Open Scope nat_scope.

(** ** Slices: [items] and [children] *)

Section Slices.
Context {A : Type}.

(** [s[index]] *)
Definition at_index (s : list A) (index : nat) : option A := s !! index.

(** [s[index] = x] *)
Definition store (s : list A) (index : nat) (x : A) : option (list A) :=
  if decide (index < length s) then Some (<[index := x]> s) else None.

(** [s[index:]] *)
Definition slice_from (s : list A) (index : nat) : option (list A) :=
  if decide (index ≤ length s) then Some (drop index s) else None.

(** [insertAt] appends a zero value, shifts the tail and stores [item];
    the final store panics when [index] is beyond the old length. *)
Definition insertAt (s : list A) (index : nat) (item : A) : option (list A) :=
  if decide (index ≤ length s)
  then Some (take index s ++ item :: drop index s)
  else None.

Definition removeAt (s : list A) (index : nat) : option (A * list A) :=
  item ← s !! index;
  Some (item, take index s ++ drop (S index) s).

Definition pop (s : list A) : option (A * list A) :=
  match length s with
  | 0 => None
  | S index => out ← s !! index; Some (out, take index s)
  end.

(** [truncate]: "index must be less than or equal to length". *)
Definition truncate (s : list A) (index : nat) : option (list A) :=
  if decide (index ≤ length s) then Some (take index s) else None.
End Slices.

(** ** Nodes *)

Inductive toRemove := removePair | removeMin | removeMax.

Inductive direction := descend | ascend.

Section Node.
Context {Pair : Type} `{EqDecision Pair}.
Variable nilPair : Pair.
Variable less : Pair → Pair → bool.

#[warnings="-register-all"]
Inductive node : Type :=
  Node { items : list Pair; children : list node }.

(** The binary search loop of [find]. *)
Fixpoint find_loop (fuel : nat) (s : list Pair) (item : Pair) (i j : nat)
  : option nat :=
  if decide (i < j) then
    match fuel with
    | 0 => None
    | S fuel' =>
        let h := i + (j - i) / 2 in
        sh ← s !! h;
        if negb (less item sh)
        then find_loop fuel' s item (h + 1) j
        else find_loop fuel' s item i h
    end
  else Some i.

Definition find (s : list Pair) (item : Pair) : option (nat * bool) :=
  i ← find_loop (length s) s item 0 (length s);
  match i with
  | S i' =>
      p ← s !! i';
      if negb (less p item) then Some (i', true) else Some (i, false)
  | 0 => Some (0, false)
  end.

(** In this model a node is a value, so [mutableFor] is the identity and
    [mutableChild] reads the child; the ownership tags are the subject of
    the store model below. *)
Definition mutableChild (n : node) (i : nat) : option node :=
  children n !! i.

Definition split (n : node) (i : nat) : option (node * Pair * node) :=
  item ← items n !! i;
  next_items ← slice_from (items n) (i + 1);
  n_items ← truncate (items n) i;
  if decide (0 < length (children n)) then
    next_children ← slice_from (children n) (i + 1);
    n_children ← truncate (children n) (i + 1);
    Some (Node n_items n_children, item, Node next_items next_children)
  else
    Some (Node n_items (children n), item, Node next_items []).

Definition maybeSplitChild (n : node) (i maxPairs : nat)
  : option (node * bool) :=
  c ← children n !! i;
  if decide (length (items c) < maxPairs) then Some (n, false)
  else
    first ← mutableChild n i;
    '(first', item, second) ← split first (maxPairs / 2);
    n_children ← store (children n) i first';
    n_items ← insertAt (items n) i item;
    n_children' ← insertAt n_children (i + 1) second;
    Some (Node n_items n_children', true).

Fixpoint insert (fuel : nat) (n : node) (item : Pair) (maxPairs : nat)
  : option (Pair * node) :=
  match fuel with
  | 0 => None
  | S fuel' =>
      '(i, found) ← find (items n) item;
      if found : bool then
        out ← items n !! i;
        n_items ← store (items n) i item;
        Some (out, Node n_items (children n))
      else if decide (length (children n) = 0) then
        n_items ← insertAt (items n) i item;
        Some (nilPair, Node n_items (children n))
      else
        '(n1, didSplit) ← maybeSplitChild n i maxPairs;
        let descend_into (i : nat) :=
          c ← mutableChild n1 i;
          '(out, c') ← insert fuel' c item maxPairs;
          n_children ← store (children n1) i c';
          Some (out, Node (items n1) n_children) in
        if didSplit : bool then
          inTree ← items n1 !! i;
          if less item inTree then descend_into i
          else if less inTree item then descend_into (i + 1)
          else
            out ← items n1 !! i;
            n_items ← store (items n1) i item;
            Some (out, Node n_items (children n1))
        else descend_into i
  end.

Fixpoint get (fuel : nat) (n : node) (key : Pair) : option Pair :=
  match fuel with
  | 0 => None
  | S fuel' =>
      '(i, found) ← find (items n) key;
      if found : bool then items n !! i
      else if decide (0 < length (children n)) then
        c ← children n !! i; get fuel' c key
      else Some nilPair
  end.

(** [min] and [max] on a non-nil node: the loop down the spine. *)
Fixpoint min_loop (fuel : nat) (n : node) : option Pair :=
  if decide (0 < length (children n)) then
    match fuel with
    | 0 => None
    | S fuel' => c ← children n !! 0; min_loop fuel' c
    end
  else if decide (length (items n) = 0) then Some nilPair
  else items n !! 0.

Fixpoint max_loop (fuel : nat) (n : node) : option Pair :=
  if decide (0 < length (children n)) then
    match fuel with
    | 0 => None
    | S fuel' =>
        c ← children n !! (length (children n) - 1); max_loop fuel' c
    end
  else if decide (length (items n) = 0) then Some nilPair
  else items n !! (length (items n) - 1).

Definition min (fuel : nat) (n : option node) : option Pair :=
  match n with
  | None => Some nilPair
  | Some n => min_loop fuel n
  end.

Definition max (fuel : nat) (n : option node) : option Pair :=
  match n with
  | None => Some nilPair
  | Some n => max_loop fuel n
  end.

(** [growChildAndRemove]: the rebalancing step, followed by the call of
    [remove] on the same node, which is passed as [remove_again]. *)
Definition growChildAndRemove
    (remove_again : node → Pair → nat → toRemove → option (Pair * node))
    (n : node) (i : nat) (item : Pair) (minPairs : nat) (typ : toRemove)
  : option (Pair * node) :=
  let stealLeft :=
    match i with
    | 0 => Some false
    | S i' => l ← children n !! i'; Some (bool_decide (minPairs < length (items l)))
    end in
  fromLeft ← stealLeft;
  if fromLeft : bool then
    (* steal from left child *)
    child ← mutableChild n i;
    stealFrom ← mutableChild n (i - 1);
    '(stolenPair, from_items) ← pop (items stealFrom);
    sep ← items n !! (i - 1);
    child_items ← insertAt (items child) 0 sep;
    n_items ← store (items n) (i - 1) stolenPair;
    '(from_children, child_children) ←
      (if decide (0 < length (children stealFrom)) then
         '(c, from_children) ← pop (children stealFrom);
         child_children ← insertAt (children child) 0 c;
         Some (from_children, child_children)
       else Some (children stealFrom, children child));
    n_children ← store (children n) i (Node child_items child_children);
    n_children' ← store n_children (i - 1) (Node from_items from_children);
    remove_again (Node n_items n_children') item minPairs typ
  else
    fromRight ←
      (if decide (i < length (items n)) then
         r ← children n !! (i + 1);
         Some (bool_decide (minPairs < length (items r)))
       else Some false);
    if fromRight : bool then
      (* steal from right child *)
      child ← mutableChild n i;
      stealFrom ← mutableChild n (i + 1);
      '(stolenPair, from_items) ← removeAt (items stealFrom) 0;
      sep ← items n !! i;
      let child_items := items child ++ [sep] in
      n_items ← store (items n) i stolenPair;
      '(from_children, child_children) ←
        (if decide (0 < length (children stealFrom)) then
           '(c, from_children) ← removeAt (children stealFrom) 0;
           Some (from_children, children child ++ [c])
         else Some (children stealFrom, children child));
      n_children ← store (children n) i (Node child_items child_children);
      n_children' ← store n_children (i + 1) (Node from_items from_children);
      remove_again (Node n_items n_children') item minPairs typ
    else
      i ← (if decide (length (items n) ≤ i)
           then match i with 0 => None | S i' => Some i' end
           else Some i);
      child ← mutableChild n i;
      (* merge with right child *)
      '(mergePair, n_items) ← removeAt (items n) i;
      n_children ← store (children n) i child;
      '(mergeChild, n_children') ← removeAt n_children (i + 1);
      let child_items := (items child ++ [mergePair]) ++ items mergeChild in
      let child_children := children child ++ children mergeChild in
      n_children'' ← store n_children' i (Node child_items child_children);
      remove_again (Node n_items n_children'') item minPairs typ.

Fixpoint remove (fuel : nat) (n : node) (item : Pair) (minPairs : nat)
    (typ : toRemove) : option (Pair * node) :=
  match fuel with
  | 0 => None
  | S fuel' =>
      (* the switch: either a result at a leaf, or the index to follow *)
      sw ←
        match typ with
        | removeMax =>
            if decide (length (children n) = 0) then
              '(out, n_items) ← pop (items n);
              Some (inl (out, Node n_items (children n)))
            else Some (inr (length (items n), false))
        | removeMin =>
            if decide (length (children n) = 0) then
              '(out, n_items) ← removeAt (items n) 0;
              Some (inl (out, Node n_items (children n)))
            else Some (inr (0, false))
        | removePair =>
            '(i, found) ← find (items n) item;
            if decide (length (children n) = 0) then
              if found : bool then
                '(out, n_items) ← removeAt (items n) i;
                Some (inl (out, Node n_items (children n)))
              else Some (inl (nilPair, n))
            else Some (inr (i, found))
        end;
      match sw with
      | inl r => Some r
      | inr (i, found) =>
          (* If we get to here, we have children. *)
          c ← children n !! i;
          if decide (length (items c) ≤ minPairs) then
            growChildAndRemove (remove fuel') n i item minPairs typ
          else
            child ← mutableChild n i;
            if found : bool then
              out ← items n !! i;
              '(pred, child') ← remove fuel' child nilPair minPairs removeMax;
              n_items ← store (items n) i pred;
              n_children ← store (children n) i child';
              Some (out, Node n_items n_children)
            else
              '(out, child') ← remove fuel' child item minPairs typ;
              n_children ← store (children n) i child';
              Some (out, Node (items n) n_children)
      end
  end.

(** ** Range iteration

    The callback [iter] is a function of the item and of the state [St]
    it may update; its boolean result is the one of the Go callback. *)
Section Iterate.
Context {St : Type}.
Variable iter : Pair → St → bool * St.

Definition notNil (p : Pair) : bool := bool_decide (p ≠ nilPair).

(** The loop of the ascending case over the items [i], [i + 1], ...;
    [under i] iterates over the child [i], if any.  The result is
    [(hit, ok)] and the state: [ok] is false when the iteration was
    stopped. *)
Definition ascend_loop
    (under : nat → bool → St → option (bool * bool * St))
    (its : list Pair) (start stop : Pair) (includeStart : bool)
  : nat → nat → bool → St → option (bool * bool * St) :=
  fix loop (todo i : nat) (hit : bool) (st : St) :=
    match todo with
    | 0 => Some (hit, true, st)
    | S todo' =>
        it ← its !! i;
        if notNil start && less it start
        then loop todo' (i + 1) hit st
        else
          '(hit, ok, st) ← under i hit st;
          if negb ok then Some (hit, false, st)
          else if negb includeStart && negb hit
                  && notNil start && negb (less start it)
          then loop todo' (i + 1) true st
          else if notNil stop && negb (less it stop)
          then Some (true, false, st)
          else
            let '(continue, st) := iter it st in
            if negb continue then Some (true, false, st)
            else loop todo' (i + 1) true st
    end.

(** The loop of the descending case over the items [todo - 1], ..., 0. *)
Definition descend_loop
    (under : nat → bool → St → option (bool * bool * St))
    (its : list Pair) (start stop : Pair) (includeStart : bool)
  : nat → bool → St → option (bool * bool * St) :=
  fix loop (todo : nat) (hit : bool) (st : St) :=
    match todo with
    | 0 => Some (hit, true, st)
    | S i =>
        it ← its !! i;
        if notNil start && negb (less it start)
           && (negb includeStart || hit || less start it)
        then loop i hit st
        else
          '(hit, ok, st) ← under (i + 1) hit st;
          if negb ok then Some (hit, false, st)
          else if notNil stop && negb (less stop it)
          then Some (hit, false, st)
          else
            let '(continue, st) := iter it st in
            if negb continue then Some (true, false, st)
            else loop i true st
    end.

Fixpoint iterate (fuel : nat) (n : node) (dir : direction)
    (start stop : Pair) (includeStart : bool) (hit : bool) (st : St)
  : option (bool * bool * St) :=
  match fuel with
  | 0 => None
  | S fuel' =>
      let under (i : nat) (hit : bool) (st : St) :=
        if decide (0 < length (children n)) then
          c ← children n !! i;
          iterate fuel' c dir start stop includeStart hit st
        else Some (hit, true, st) in
      r ← match dir with
          | ascend =>
              ascend_loop under (items n) start stop includeStart
                (length (items n)) 0 hit st
          | descend =>
              descend_loop under (items n) start stop includeStart
                (length (items n)) hit st
          end;
      let '(hit, ok, st) := r in
      if negb ok then Some (hit, false, st)
      else if decide (0 < length (children n)) then
        match dir with
        | ascend => under (length (children n) - 1) hit st
        | descend => under 0 hit st
        end
      else Some (hit, true, st)
  end.
End Iterate.
End Node.

(** ** The tree handle *)

Definition defaultDegrees : nat := 9.

(** The result of a call that may stop in [panic]. *)
Inductive exit {Pair : Type} :=
  | Return (out : Pair)
  | Panic (msg : string).
Arguments exit : clear implicits.

Section Tree.
Context {Pair : Type} `{EqDecision Pair}.
Variable nilPair : Pair.
Variable less : Pair → Pair → bool.

(** [t_length] is the Go field [length]; the comparator is the section
    variable [less], and the copy-on-write context belongs to the store
    model. *)
Record PairTree := {
  degree : nat;
  t_length : Z;
  root : option (@node Pair);
}.

Definition New : PairTree :=
  {| degree := defaultDegrees; t_length := 0; root := None |}.

Definition maxPairs (t : PairTree) : nat := degree t * 2 - 1.
Definition minPairs (t : PairTree) : nat := degree t - 1.

Definition Len (t : PairTree) : Z := t_length t.

Definition ReplaceOrInsert (fuel : nat) (t : PairTree) (item : Pair)
  : option (exit Pair * PairTree) :=
  if decide (item = nilPair) then
    Some (Panic "nil item being added to BTree", t)
  else
    match root t with
    | None =>
        Some (Return nilPair,
              {| degree := degree t;
                 t_length := t_length t + 1;
                 root := Some (Node [item] []) |})
    | Some r =>
        r1 ← (if decide (maxPairs t ≤ length (items r)) then
                '(oldroot, item2, second) ← split r (maxPairs t / 2);
                Some (Node [item2] [oldroot; second])
              else Some r);
        '(out, r2) ← insert nilPair less fuel r1 item (maxPairs t);
        Some (Return out,
              {| degree := degree t;
                 t_length := if decide (out = nilPair)
                             then t_length t + 1 else t_length t;
                 root := Some r2 |})
    end.

Definition deletePair (fuel : nat) (t : PairTree) (item : Pair)
    (typ : toRemove) : option (Pair * PairTree) :=
  match root t with
  | None => Some (nilPair, t)
  | Some r =>
      if decide (length (items r) = 0) then Some (nilPair, t)
      else
        '(out, r1) ← remove nilPair less fuel r item (minPairs t) typ;
        r2 ← (if decide (length (items r1) = 0 ∧ 0 < length (children r1))
              then children r1 !! 0
              else Some r1);
        Some (out,
              {| degree := degree t;
                 t_length := if decide (out ≠ nilPair)
                             then t_length t - 1 else t_length t;
                 root := Some r2 |})
  end.

Definition Delete (fuel : nat) (t : PairTree) (item : Pair) :=
  deletePair fuel t item removePair.
Definition DeleteMin (fuel : nat) (t : PairTree) :=
  deletePair fuel t nilPair removeMin.
Definition DeleteMax (fuel : nat) (t : PairTree) :=
  deletePair fuel t nilPair removeMax.

Definition Get (fuel : nat) (t : PairTree) (key : Pair) : option Pair :=
  match root t with
  | None => Some nilPair
  | Some r => get nilPair less fuel r key
  end.

Definition Min (fuel : nat) (t : PairTree) : option Pair :=
  min nilPair fuel (root t).
Definition Max (fuel : nat) (t : PairTree) : option Pair :=
  max nilPair fuel (root t).

Definition Has (fuel : nat) (t : PairTree) (key : Pair) : option bool :=
  p ← Get fuel t key; Some (bool_decide (p ≠ nilPair)).

Section Scans.
Context {St : Type}.
Variable iterator : Pair → St → bool * St.

Definition scan (fuel : nat) (t : PairTree) (dir : direction)
    (start stop : Pair) (includeStart : bool) (st : St) : option St :=
  match root t with
  | None => Some st
  | Some r =>
      '(_, _, st') ←
        iterate nilPair less iterator fuel r dir start stop
                includeStart false st;
      Some st'
  end.

Definition AscendRange fuel t (greaterOrEqual lessThan : Pair) st :=
  scan fuel t ascend greaterOrEqual lessThan true st.
Definition AscendLessThan fuel t (pivot : Pair) st :=
  scan fuel t ascend nilPair pivot false st.
Definition AscendGreaterOrEqual fuel t (pivot : Pair) st :=
  scan fuel t ascend pivot nilPair true st.
Definition Ascend fuel t st :=
  scan fuel t ascend nilPair nilPair false st.
Definition DescendRange fuel t (lessOrEqual greaterThan : Pair) st :=
  scan fuel t descend lessOrEqual greaterThan true st.
Definition DescendLessOrEqual fuel t (pivot : Pair) st :=
  scan fuel t descend pivot nilPair true st.
Definition DescendGreaterThan fuel t (pivot : Pair) st :=
  scan fuel t descend nilPair pivot false st.
Definition Descend fuel t st :=
  scan fuel t descend nilPair nilPair false st.
End Scans.

(** ** Cursor

    A frame is [stackPair]; the stack is kept with its top first.  The
    position [i] is a Go [int] and takes the value -1, so it is in [Z]. *)
Record Cursor := {
  c_t : PairTree;
  stack : list (@node Pair * Z);
}.

Definition zindex {A} (s : list A) (i : Z) : option A :=
  if decide (0 ≤ i)%Z then s !! Z.to_nat i else None.

Definition zlen {A} (s : list A) : Z := Z.of_nat (length s).

Definition NewCursor (t : PairTree) : Cursor := {| c_t := t; stack := [] |}.

Definition with_stack (c : Cursor) (s : list (@node Pair * Z)) : Cursor :=
  {| c_t := c_t c; stack := s |}.

Fixpoint First_loop (fuel : nat) (n : @node Pair)
    (s : list (@node Pair * Z)) : option (@node Pair * list (@node Pair * Z)) :=
  if decide (0 < length (children n)) then
    match fuel with
    | 0 => None
    | S fuel' =>
        n' ← children n !! 0;
        First_loop fuel' n' ((n', 0%Z) :: s)
    end
  else Some (n, s).

Definition First (fuel : nat) (c : Cursor) : option (Pair * Cursor) :=
  match root (c_t c) with
  | None => Some (nilPair, with_stack c [])
  | Some n =>
      '(n', s) ← First_loop fuel n [(n, 0%Z)];
      if decide (length (items n') = 0) then Some (nilPair, with_stack c s)
      else it ← items n' !! 0; Some (it, with_stack c s)
  end.

Fixpoint Next (fuel : nat) (c : Cursor) : option (Pair * Cursor) :=
  match stack c with
  | [] => Some (nilPair, c)
  | (n, i0) :: below =>
      match fuel with
      | 0 => None
      | S fuel' =>
          let i := (i0 + 1)%Z in
          if decide (i = zlen (children n) + zlen (items n))%Z then
            Next fuel' (with_stack c below)
          else if decide (length (children n) = 0) then
            if decide (zlen (items n) ≤ i)%Z then
              Next fuel' (with_stack c below)
            else
              it ← zindex (items n) i;
              Some (it, with_stack c ((n, i) :: below))
          else if decide (Z.rem i 2 = 1)%Z then
            it ← zindex (items n) (Z.quot i 2);
            Some (it, with_stack c ((n, i) :: below))
          else
            child ← zindex (children n) (Z.quot i 2);
            Next fuel' (with_stack c ((child, (-1)%Z) :: (n, i) :: below))
      end
  end.

Definition last_pos (n : @node Pair) : Z :=
  (zlen (children n) + zlen (items n) - 1)%Z.

Fixpoint Last_loop (fuel : nat) (n : @node Pair)
    (s : list (@node Pair * Z)) : option (@node Pair * list (@node Pair * Z)) :=
  if decide (0 < length (children n)) then
    match fuel with
    | 0 => None
    | S fuel' =>
        n' ← children n !! (length (children n) - 1);
        Last_loop fuel' n' ((n', last_pos n') :: s)
    end
  else Some (n, s).

Definition Last (fuel : nat) (c : Cursor) : option (Pair * Cursor) :=
  match root (c_t c) with
  | None => Some (nilPair, with_stack c [])
  | Some n =>
      '(n', s) ← Last_loop fuel n [(n, last_pos n)];
      if decide (length (items n') = 0) then Some (nilPair, with_stack c s)
      else it ← items n' !! (length (items n') - 1); Some (it, with_stack c s)
  end.

Fixpoint Prev (fuel : nat) (c : Cursor) : option (Pair * Cursor) :=
  match stack c with
  | [] => Some (nilPair, c)
  | (n, i0) :: below =>
      match fuel with
      | 0 => None
      | S fuel' =>
          let i := (i0 - 1)%Z in
          if decide (i = -1)%Z then
            Prev fuel' (with_stack c below)
          else if decide (length (children n) = 0) then
            it ← zindex (items n) i;
            Some (it, with_stack c ((n, i) :: below))
          else if decide (Z.rem i 2 = 1)%Z then
            it ← zindex (items n) (Z.quot i 2);
            Some (it, with_stack c ((n, i) :: below))
          else
            child ← zindex (children n) (Z.quot i 2);
            Prev fuel'
              (with_stack c
                 ((child, (zlen (children child) + zlen (items child))%Z)
                    :: (n, i) :: below))
      end
  end.

(** The loop of [Seek]; [fuel] bounds the descent and the final [Next]. *)
Fixpoint Seek_loop (fuel : nat) (c : Cursor) (n : @node Pair)
    (s : list (@node Pair * Z)) (pivot : Pair) : option (Pair * Cursor) :=
  match fuel with
  | 0 => None
  | S fuel' =>
      '(i, found) ← find less (items n) pivot;
      if found : bool then
        it ← items n !! i;
        if decide (length (children n) = 0)
        then Some (it, with_stack c ((n, Z.of_nat i) :: s))
        else Some (it, with_stack c ((n, (Z.of_nat i * 2 + 1)%Z) :: s))
      else if decide (length (children n) = 0) then
        if decide (i = length (items n)) then
          Next fuel' (with_stack c ((n, (Z.of_nat i + 1)%Z) :: s))
        else
          it ← items n !! i;
          Some (it, with_stack c ((n, Z.of_nat i) :: s))
      else
        n' ← children n !! i;
        Seek_loop fuel' c n' ((n, (Z.of_nat i * 2)%Z) :: s) pivot
  end.

Definition Seek (fuel : nat) (c : Cursor) (pivot : Pair)
  : option (Pair * Cursor) :=
  match root (c_t c) with
  | None => Some (nilPair, with_stack c [])
  | Some n => Seek_loop fuel c n [] pivot
  end.

(** A client of a cursor: having received [p], it keeps calling [step]
    until the sentinel comes back, and lists the items it received, [p]
    first; [count] bounds the number of calls. *)
Fixpoint collect (step : Cursor → option (Pair * Cursor)) (count : nat)
    (p : Pair) (c : Cursor) : option (list Pair) :=
  if decide (p = nilPair) then Some []
  else
    match count with
    | 0 => None
    | S count' =>
        '(p', c') ← step c;
        l ← collect step count' p' c';
        Some (p :: l)
    end.

(** [First] then [Next] until the sentinel, and [Last] then [Prev]. *)
Definition forward (fuel count : nat) (t : PairTree) : option (list Pair) :=
  '(p, c) ← First fuel (NewCursor t);
  collect (Next fuel) count p c.

Definition backward (fuel count : nat) (t : PairTree) : option (list Pair) :=
  '(p, c) ← Last fuel (NewCursor t);
  collect (Prev fuel) count p c.
End Tree.

(** ** Specification: ordered lists and the shape of a B-tree *)

Section Spec.
Context {Pair : Type} `{EqDecision Pair}.
Variable nilPair : Pair.
Variable less : Pair → Pair → bool.

(** The contract of the comparator: a strict weak order. *)
Record StrictWeak : Prop := {
  less_irrefl : ∀ a, less a a = false;
  less_trans : ∀ a b c, less a b = true → less b c = true → less a c = true;
  less_incomp : ∀ a b c, less a b = false → less b c = false → less a c = false;
}.

Definition lt (a b : Pair) : Prop := less a b = true.
Definition equiv_key (a b : Pair) : Prop := less a b = false ∧ less b a = false.
Definition increasing (l : list Pair) : Prop := StronglySorted lt l.

(** The items of a subtree, in order: the first child, then every item
    followed by the child to its right. *)
Definition weave (its : list Pair) (subs : list (list Pair)) : list Pair :=
  match subs with
  | [] => its
  | s :: subs' => s ++ concat (zip_with cons its subs')
  end.

Fixpoint inorder (n : @node Pair) : list Pair :=
  weave (items n) (map inorder (children n)).

(** The part of a node to the right of a child: the items [its], each
    followed by its right child from [cs]; and the part to the left of a
    child: each child from [cs] followed by its item. *)
Definition post (its : list Pair) (cs : list (@node Pair)) : list Pair :=
  concat (zip_with cons its (map inorder cs)).

Definition pre (its : list Pair) (cs : list (@node Pair)) : list Pair :=
  concat (zip_with (λ c it, c ++ [it]) (map inorder cs) its).

(** The callback of a scan fed with the items of a list, until it returns
    false: whether it asked for more, and the final state. *)
Fixpoint feed {St : Type} (iter : Pair → St → bool * St)
    (l : list Pair) (st : St) : bool * St :=
  match l with
  | [] => (true, st)
  | x :: l' =>
      let '(continue, st') := iter x st in
      if continue then feed iter l' st' else (false, st')
  end.

(** The callback that lists the items it is called on. *)
Definition record (p : Pair) (st : list Pair) : bool * list Pair :=
  (true, st ++ [p]).

(** The items of an increasing list from the first one not below [x]. *)
Fixpoint seek_list (x : Pair) (l : list Pair) : list Pair :=
  match l with
  | [] => []
  | y :: l' => if less y x then seek_list x l' else l
  end.

(** The items of the range from [start] to [stop], [stop] excluded. *)
Definition in_range (start stop x : Pair) : bool :=
  negb (less x start) && less x stop.

(** Upsert, lookup and removal on an increasing list. *)
Fixpoint ins_list (x : Pair) (l : list Pair) : list Pair :=
  match l with
  | [] => [x]
  | y :: l' =>
      if less x y then x :: l
      else if less y x then y :: ins_list x l'
      else x :: l'
  end.

Fixpoint find_list (x : Pair) (l : list Pair) : Pair :=
  match l with
  | [] => nilPair
  | y :: l' =>
      if less x y then nilPair
      else if less y x then find_list x l'
      else y
  end.

Fixpoint del_list (x : Pair) (l : list Pair) : list Pair :=
  match l with
  | [] => []
  | y :: l' =>
      if less x y then l
      else if less y x then y :: del_list x l'
      else l'
  end.

Definition rm_list (typ : toRemove) (x : Pair) (l : list Pair)
  : Pair * list Pair :=
  match typ with
  | removePair => (find_list x l, del_list x l)
  | removeMin => (hd nilPair l, tl l)
  | removeMax => (default nilPair (last l), take (length l - 1) l)
  end.

(** [btree lo hi h n]: [n] is a B-tree of height [h] whose leaves are all
    at depth [h], every node has at most [hi] items, every node but the
    top one at least [lo], and every internal node one child more than
    items. *)
Fixpoint btree (lo hi : nat) (h : nat) (n : @node Pair) : Prop :=
  match h with
  | 0 => children n = [] ∧ length (items n) ≤ hi
  | S h' =>
      length (children n) = length (items n) + 1 ∧
      length (items n) ≤ hi ∧
      Forall (λ c, lo ≤ length (items c) ∧ btree lo hi h' c) (children n)
  end.

(** The invariant of claim C1, node by node. *)
#[warnings="-register-all"]
Inductive node_ok (d : nat) : bool → @node Pair → Prop :=
  | node_ok_intro (is_root : bool) n :
      (children n = [] ∨ length (children n) = length (items n) + 1) →
      increasing (items n) →
      (is_root = false → d - 1 ≤ length (items n) ≤ 2 * d - 1) →
      Forall (node_ok d false) (children n) →
      node_ok d is_root n.

Definition tree_ok (t : @PairTree Pair) : Prop :=
  match root t with
  | None => True
  | Some r =>
      node_ok (degree t) true r ∧ increasing (inorder r)
  end.

(** The items of a tree, in order. *)
Definition contents (t : @PairTree Pair) : list Pair :=
  match root t with None => [] | Some r => inorder r end.

(** The number of levels below the top node, along the first children. *)
Fixpoint height (n : @node Pair) : nat :=
  match children n with
  | [] => 0
  | c :: _ => S (height c)
  end.

Definition tree_height (t : @PairTree Pair) : nat :=
  match root t with None => 0 | Some r => height r end.

(** Fuel that suffices for every operation on [t]. *)
Definition enough (t : @PairTree Pair) : nat := 3 * tree_height t + 3.

(** The invariant kept by the operations of a tree handle. *)
Definition tree_inv (t : @PairTree Pair) : Prop :=
  2 ≤ degree t ∧
  match root t with
  | None => t_length t = 0%Z
  | Some r =>
      btree (minPairs t) (maxPairs t) (height r) r ∧
      (children r = [] ∨ 1 ≤ length (items r)) ∧
      increasing (inorder r) ∧
      nilPair ∉ inorder r ∧
      t_length t = Z.of_nat (length (inorder r))
  end.

(** The empty tree of degree [d]; [New] is [empty_tree defaultDegrees]. *)
Definition empty_tree (d : nat) : @PairTree Pair :=
  {| degree := d; t_length := 0; root := None |}.

(** The trees built from an empty tree of degree [d] by calls that
    returned. *)
Inductive built (d : nat) : @PairTree Pair → Prop :=
  | built_empty : built d (empty_tree d)
  | built_insert t fuel item out t' :
      built d t →
      ReplaceOrInsert nilPair less fuel t item = Some (Return out, t') →
      built d t'
  | built_delete t fuel item typ out t' :
      built d t →
      deletePair nilPair less fuel t item typ = Some (out, t') →
      built d t'.

(** Keys no two of which are equal under the comparator. *)
Fixpoint distinct_keys (ks : list Pair) : Prop :=
  match ks with
  | [] => True
  | k :: ks' => Forall (λ y, ¬ equiv_key k y) ks' ∧ distinct_keys ks'
  end.

(** Inserting a list of items, and deleting a list of keys while
    collecting what [Delete] returns. *)
Fixpoint insert_all (fuel : nat) (t : @PairTree Pair) (ks : list Pair)
  : option (@PairTree Pair) :=
  match ks with
  | [] => Some t
  | k :: ks' =>
      '(e, t') ← ReplaceOrInsert nilPair less fuel t k;
      match e with
      | Return _ => insert_all fuel t' ks'
      | Panic _ => None
      end
  end.

Fixpoint delete_all (fuel : nat) (t : @PairTree Pair) (ks : list Pair)
  : option (list Pair * @PairTree Pair) :=
  match ks with
  | [] => Some ([], t)
  | k :: ks' =>
      '(out, t') ← Delete nilPair less fuel t k;
      '(outs, t'') ← delete_all fuel t' ks';
      Some (out :: outs, t'')
  end.
End Spec.

Arguments inorder {Pair} n : simpl never.
Arguments post {Pair} its cs : simpl never.
Arguments pre {Pair} its cs : simpl never.

(** ** A concrete item type

    Keys and values are integers, the zero value is [None], and the
    comparator orders by key, as the default comparator of [New] does. *)

Definition ZPair : Type := option (Z * Z).

Definition zless (a b : ZPair) : bool :=
  match a, b with
  | Some (k1, _), Some (k2, _) => (k1 <? k2)%Z
  | None, Some _ => true
  | _, _ => false
  end.

Definition znil : ZPair := None.

Definition zpair (k v : Z) : ZPair := Some (k, v).

(** The tree of degree 9 holding the keys 1 to 40, and the same tree after
    the keys 11 to 30 were deleted. *)
Definition example_keys : list ZPair := (λ k, zpair k (10 * k)) <$> seqZ 1 40.

Definition example_tree : option (@PairTree ZPair) :=
  Eval vm_compute in insert_all znil zless 100 (empty_tree 9) example_keys.

Definition example_tree' : option (@PairTree ZPair) :=
  Eval vm_compute in
    (t ← example_tree;
     '(_, t') ← delete_all znil zless 100 t ((λ k, zpair k 0) <$> seqZ 11 20);
     Some t').

(** * The store model

    The nodes as the Go program has them: records in a heap, reached
    through pointers, each tagged with the copy-on-write context that may
    modify it.  The model follows the tree created by [New] and its clones,
    which share the free list of [New].  A slice is modelled by the list of
    its elements: no two nodes share a backing array, since a node only ever
    appends to its own slices or to a new one. *)
Module Store.
Definition loc := nat.

Definition defaultFreeListSize : nat := 32.

Section Store.
Context {Pair : Type} `{EqDecision Pair}.
Variable nilPair : Pair.
Variable less : Pair → Pair → bool.

(** A node; [h_cow] is the pointer to its context, [None] for nil. *)
Record hnode := HNode {
  h_items : list Pair;
  h_children : list loc;
  h_cow : option nat;
}.

(** The heap of nodes, the free list, and the number of contexts
    allocated so far. *)
Record memory := Memory {
  nodes : gmap loc hnode;
  freelist : list loc;
  contexts : nat;
}.

(** Computations on the memory that may panic. *)
Definition M (A : Type) : Type := memory → option (A * memory).

#[global] Instance M_ret : MRet M := λ A x m, Some (x, m).
#[global] Instance M_bind : MBind M := λ A B f k m,
  match k m with
  | Some (x, m') => f x m'
  | None => None
  end.

Definition lift {A} (o : option A) : M A := λ m, x ← o; Some (x, m).

Definition load (l : loc) : M hnode := λ m, n ← nodes m !! l; Some (n, m).

Definition save (l : loc) (n : hnode) : M unit := λ m,
  Some (tt, Memory (<[l := n]> (nodes m)) (freelist m) (contexts m)).

Definition get_items (l : loc) : M (list Pair) := n ← load l; mret (h_items n).
Definition get_children (l : loc) : M (list loc) := n ← load l; mret (h_children n).
Definition get_cow (l : loc) : M (option nat) := n ← load l; mret (h_cow n).

Definition set_items (l : loc) (its : list Pair) : M unit :=
  n ← load l; save l (HNode its (h_children n) (h_cow n)).
Definition set_children (l : loc) (cs : list loc) : M unit :=
  n ← load l; save l (HNode (h_items n) cs (h_cow n)).
Definition set_cow (l : loc) (c : option nat) : M unit :=
  n ← load l; save l (HNode (h_items n) (h_children n) c).

(** [freeList.newNode]: the last node of the free list, or a new one. *)
Definition freeList_newNode : M loc := λ m,
  match pop (freelist m) with
  | None =>
      let l := fresh (dom (nodes m)) in
      Some (l, Memory (<[l := HNode [] [] None]> (nodes m)) (freelist m) (contexts m))
  | Some (l, fl) => Some (l, Memory (nodes m) fl (contexts m))
  end.

(** [freeList.freeNode]: kept if the list is below its capacity. *)
Definition freeList_freeNode (l : loc) : M unit := λ m,
  if decide (length (freelist m) < defaultFreeListSize)
  then Some (tt, Memory (nodes m) (freelist m ++ [l]) (contexts m))
  else Some (tt, m).

(** [copyOnWriteContext.newNode]; a nil context panics. *)
Definition newNode (c : option nat) : M loc :=
  match c with
  | None => λ _, None
  | Some _ => n ← freeList_newNode; set_cow n c;; mret n
  end.

(** [copyOnWriteContext.freeNode]; the free list of a nil context
    panics. *)
Definition freeNode (c : option nat) : loc → M unit := λ l,
  cow ← get_cow l;
  if decide (cow = c) then
    set_items l [];; set_children l [];; set_cow l None;;
    match c with
    | None => λ _, None
    | Some _ => freeList_freeNode l
    end
  else mret tt.

Definition mutableFor (l : loc) (cow : option nat) : M loc :=
  c ← get_cow l;
  if decide (c = cow) then mret l
  else
    out ← newNode cow;
    its ← get_items l; set_items out its;;
    cs ← get_children l; set_children out cs;;
    mret out.

Definition mutableChild (l : loc) (i : nat) : M loc :=
  cs ← get_children l; ci ← lift (cs !! i); cow ← get_cow l;
  c ← mutableFor ci cow;
  cs ← get_children l; cs' ← lift (store cs i c); set_children l cs';;
  mret c.

Definition split (l : loc) (i : nat) : M (Pair * loc) :=
  its ← get_items l; item ← lift (its !! i);
  cow ← get_cow l; next ← newNode cow;
  its ← get_items l; tail ← lift (slice_from its (i + 1));
  nits ← get_items next; set_items next (nits ++ tail);;
  its ← get_items l; its' ← lift (truncate its i); set_items l its';;
  cs ← get_children l;
  (if decide (0 < length cs) then
     ctail ← lift (slice_from cs (i + 1));
     ncs ← get_children next; set_children next (ncs ++ ctail);;
     cs ← get_children l; cs' ← lift (truncate cs (i + 1)); set_children l cs'
   else mret tt);;
  mret (item, next).

Definition maybeSplitChild (l : loc) (i maxPairs : nat) : M bool :=
  cs ← get_children l; ci ← lift (cs !! i); cits ← get_items ci;
  if decide (length cits < maxPairs) then mret false
  else
    first ← mutableChild l i;
    '(item, second) ← split first (maxPairs / 2);
    its ← get_items l; its' ← lift (insertAt its i item); set_items l its';;
    cs ← get_children l; cs' ← lift (insertAt cs (i + 1) second); set_children l cs';;
    mret true.

Fixpoint insert (fuel : nat) (l : loc) (item : Pair) (maxPairs : nat) : M Pair :=
  match fuel with
  | 0 => λ _, None
  | S fuel' =>
      its ← get_items l;
      '(i, found) ← lift (find less its item);
      if found : bool then
        out ← lift (its !! i);
        its' ← lift (store its i item); set_items l its';;
        mret out
      else
        cs ← get_children l;
        if decide (length cs = 0) then
          its' ← lift (insertAt its i item); set_items l its';;
          mret nilPair
        else
          didSplit ← maybeSplitChild l i maxPairs;
          let descend_into (i : nat) :=
            c ← mutableChild l i; insert fuel' c item maxPairs in
          if didSplit : bool then
            its ← get_items l; inTree ← lift (its !! i);
            if less item inTree then descend_into i
            else if less inTree item then descend_into (i + 1)
            else
              out ← lift (its !! i);
              its' ← lift (store its i item); set_items l its';;
              mret out
          else descend_into i
  end.

(** [get] only reads the memory. *)
Fixpoint get (m : memory) (fuel : nat) (l : loc) (key : Pair) : option Pair :=
  match fuel with
  | 0 => None
  | S fuel' =>
      n ← nodes m !! l;
      '(i, found) ← find less (h_items n) key;
      if found : bool then h_items n !! i
      else if decide (0 < length (h_children n)) then
        c ← h_children n !! i; get m fuel' c key
      else Some nilPair
  end.

Definition growChildAndRemove
    (remove_again : loc → Pair → nat → toRemove → M Pair)
    (l : loc) (i : nat) (item : Pair) (minPairs : nat) (typ : toRemove)
  : M Pair :=
  fromLeft ←
    match i with
    | 0 => mret false
    | S i' =>
        cs ← get_children l; li ← lift (cs !! i'); lits ← get_items li;
        mret (bool_decide (minPairs < length lits))
    end;
  if fromLeft : bool then
    (* steal from left child *)
    child ← mutableChild l i;
    stealFrom ← mutableChild l (i - 1);
    sits ← get_items stealFrom;
    '(stolenPair, sits') ← lift (pop sits); set_items stealFrom sits';;
    its ← get_items l; sep ← lift (its !! (i - 1));
    cits ← get_items child; cits' ← lift (insertAt cits 0 sep);
    set_items child cits';;
    its ← get_items l; its' ← lift (store its (i - 1) stolenPair);
    set_items l its';;
    scs ← get_children stealFrom;
    (if decide (0 < length scs) then
       '(c, scs') ← lift (pop scs); set_children stealFrom scs';;
       ccs ← get_children child; ccs' ← lift (insertAt ccs 0 c);
       set_children child ccs'
     else mret tt);;
    remove_again l item minPairs typ
  else
    fromRight ←
      (its ← get_items l;
       if decide (i < length its) then
         cs ← get_children l; ri ← lift (cs !! (i + 1)); rits ← get_items ri;
         mret (bool_decide (minPairs < length rits))
       else mret false);
    if fromRight : bool then
      (* steal from right child *)
      child ← mutableChild l i;
      stealFrom ← mutableChild l (i + 1);
      sits ← get_items stealFrom;
      '(stolenPair, sits') ← lift (removeAt sits 0); set_items stealFrom sits';;
      its ← get_items l; sep ← lift (its !! i);
      cits ← get_items child; set_items child (cits ++ [sep]);;
      its ← get_items l; its' ← lift (store its i stolenPair);
      set_items l its';;
      scs ← get_children stealFrom;
      (if decide (0 < length scs) then
         '(c, scs') ← lift (removeAt scs 0); set_children stealFrom scs';;
         ccs ← get_children child; set_children child (ccs ++ [c])
       else mret tt);;
      remove_again l item minPairs typ
    else
      its ← get_items l;
      i ← lift (if decide (length its ≤ i)
                then match i with 0 => None | S i' => Some i' end
                else Some i);
      child ← mutableChild l i;
      (* merge with right child *)
      its ← get_items l;
      '(mergePair, its') ← lift (removeAt its i); set_items l its';;
      cs ← get_children l;
      '(mergeChild, cs') ← lift (removeAt cs (i + 1)); set_children l cs';;
      cits ← get_items child; set_items child (cits ++ [mergePair]);;
      cits ← get_items child; mits ← get_items mergeChild;
      set_items child (cits ++ mits);;
      ccs ← get_children child; mcs ← get_children mergeChild;
      set_children child (ccs ++ mcs);;
      cow ← get_cow l; freeNode cow mergeChild;;
      remove_again l item minPairs typ.

Fixpoint remove (fuel : nat) (l : loc) (item : Pair) (minPairs : nat)
    (typ : toRemove) : M Pair :=
  match fuel with
  | 0 => λ _, None
  | S fuel' =>
      sw ←
        match typ with
        | removeMax =>
            cs ← get_children l;
            if decide (length cs = 0) then
              its ← get_items l;
              '(out, its') ← lift (pop its); set_items l its';;
              mret (inl out)
            else its ← get_items l; mret (inr (length its, false))
        | removeMin =>
            cs ← get_children l;
            if decide (length cs = 0) then
              its ← get_items l;
              '(out, its') ← lift (removeAt its 0); set_items l its';;
              mret (inl out)
            else mret (inr (0, false))
        | removePair =>
            its ← get_items l;
            '(i, found) ← lift (find less its item);
            cs ← get_children l;
            if decide (length cs = 0) then
              if found : bool then
                '(out, its') ← lift (removeAt its i); set_items l its';;
                mret (inl out)
              else mret (inl nilPair)
            else mret (inr (i, found))
        end;
      match sw with
      | inl out => mret out
      | inr (i, found) =>
          (* If we get to here, we have children. *)
          cs ← get_children l; ci ← lift (cs !! i); cits ← get_items ci;
          if decide (length cits ≤ minPairs) then
            growChildAndRemove (remove fuel') l i item minPairs typ
          else
            child ← mutableChild l i;
            if found : bool then
              its ← get_items l; out ← lift (its !! i);
              pred ← remove fuel' child nilPair minPairs removeMax;
              its' ← lift (store its i pred); set_items l its';;
              mret out
            else remove fuel' child item minPairs typ
      end
  end.

(** The handle of a tree; [cow] is its context. *)
Record PairTree := {
  degree : nat;
  t_length : Z;
  root : option loc;
  cow : nat;
}.

Definition maxPairs (t : PairTree) : nat := degree t * 2 - 1.
Definition minPairs (t : PairTree) : nat := degree t - 1.

(** [newFreeList]: a new, empty free list.  The memory has one free
    list, so this is the memory of a program that has no tree yet. *)
Definition newFreeList : memory := Memory ∅ [] 0.

(** [newWithFreeList]: a tree without root, with a context of its own
    that uses the free list of the memory. *)
Definition newWithFreeList : M PairTree := λ m,
  Some ({| degree := defaultDegrees; t_length := 0; root := None;
           cow := contexts m |},
        Memory (nodes m) (freelist m) (S (contexts m))).

(** [New] is [newWithFreeList] on a new free list: the first tree of
    the program, and the memory it starts with. *)
Definition New : option (PairTree * memory) := newWithFreeList newFreeList.

(** [Clone] gives the tree and its clone a new context each; the
    result is the updated tree and the clone. *)
Definition Clone (t : PairTree) : M (PairTree * PairTree) := λ m,
  let cow1 := contexts m in
  let cow2 := S (contexts m) in
  Some (({| degree := degree t; t_length := t_length t; root := root t;
            cow := cow1 |},
         {| degree := degree t; t_length := t_length t; root := root t;
            cow := cow2 |}),
        Memory (nodes m) (freelist m) (S (S (contexts m)))).

Definition ReplaceOrInsert (fuel : nat) (t : PairTree) (item : Pair)
  : M (exit Pair * PairTree) :=
  if decide (item = nilPair) then
    mret (Panic "nil item being added to BTree", t)
  else
    match root t with
    | None =>
        r ← newNode (Some (cow t));
        its ← get_items r; set_items r (its ++ [item]);;
        mret (Return nilPair,
              {| degree := degree t; t_length := t_length t + 1;
                 root := Some r; cow := cow t |})
    | Some r =>
        r ← mutableFor r (Some (cow t));
        its ← get_items r;
        r ← (if decide (maxPairs t ≤ length its) then
               '(item2, second) ← split r (maxPairs t / 2);
               let oldroot := r in
               r ← newNode (Some (cow t));
               its ← get_items r; set_items r (its ++ [item2]);;
               cs ← get_children r; set_children r (cs ++ [oldroot; second]);;
               mret r
             else mret r);
        out ← insert fuel r item (maxPairs t);
        mret (Return out,
              {| degree := degree t;
                 t_length := if decide (out = nilPair)
                             then t_length t + 1 else t_length t;
                 root := Some r; cow := cow t |})
    end.

Definition deletePair (fuel : nat) (t : PairTree) (item : Pair)
    (typ : toRemove) : M (Pair * PairTree) :=
  match root t with
  | None => mret (nilPair, t)
  | Some r =>
      its ← get_items r;
      if decide (length its = 0) then mret (nilPair, t)
      else
        r ← mutableFor r (Some (cow t));
        out ← remove fuel r item (minPairs t) typ;
        its ← get_items r; cs ← get_children r;
        r' ← (if decide (length its = 0 ∧ 0 < length cs) then
                let oldroot := r in
                r' ← lift (cs !! 0);
                freeNode (Some (cow t)) oldroot;;
                mret r'
              else mret r);
        mret (out,
              {| degree := degree t;
                 t_length := if decide (out ≠ nilPair)
                             then t_length t - 1 else t_length t;
                 root := Some r'; cow := cow t |})
  end.

Definition Delete (fuel : nat) (t : PairTree) (item : Pair) :=
  deletePair fuel t item removePair.

Definition Get (m : memory) (fuel : nat) (t : PairTree) (key : Pair)
  : option Pair :=
  match root t with
  | None => Some nilPair
  | Some r => get m fuel r key
  end.

Definition Has (m : memory) (fuel : nat) (t : PairTree) (key : Pair)
  : option bool :=
  p ← Get m fuel t key; Some (bool_decide (p ≠ nilPair)).

Definition Len (t : PairTree) : Z := t_length t.
End Store.
End Store.

(** * Properties *)

Section Order.
Context {Pair : Type} `{EqDecision Pair}.
Variable nilPair : Pair.
Variable less : Pair → Pair → bool.
Hypothesis SW : StrictWeak less.


Lemma lt_asym a b : lt less a b → less b a = false.
Proof.
  unfold lt. intros Hab. destruct (less b a) eqn:Hba; [|done].
  pose proof (less_trans _ SW _ _ _ Hab Hba) as Haa.
  rewrite (less_irrefl _ SW) in Haa. done.
Qed.

Lemma lt_equiv_r a b c : lt less a b → less c b = false → lt less a c.
Proof.
  unfold lt. intros Hab Hcb. destruct (less a c) eqn:Hac; [done|].
  rewrite (less_incomp _ SW _ _ _ Hac Hcb) in Hab. done.
Qed.

Lemma lt_equiv_l a b c : lt less b c → less b a = false → lt less a c.
Proof.
  unfold lt. intros Hbc Hba. destruct (less a c) eqn:Hac; [done|].
  rewrite (less_incomp _ SW _ _ _ Hba Hac) in Hbc. done.
Qed.

#[local] Instance lt_transitive : Transitive (lt less).
Proof. intros a b c. apply (less_trans _ SW). Qed.

Lemma increasing_lookup l i j x y :
  increasing less l → i < j → l !! i = Some x → l !! j = Some y → lt less x y.
Proof.
  intros Hl Hij Hi Hj.
  rewrite <- (take_drop j l) in Hl.
  apply (StronglySorted_app_1_elem_of _ _ _ x y) in Hl; [done| |].
  - apply list_elem_of_lookup. exists i. rewrite lookup_take_lt; done.
  - apply list_elem_of_lookup. exists 0. rewrite lookup_drop. by rewrite Nat.add_0_r.
Qed.

Lemma find_loop_spec s item fuel i j :
  increasing less s → j - i ≤ fuel → i ≤ j → j ≤ length s →
  (∀ k p, k < i → s !! k = Some p → less item p = false) →
  (∀ k p, j ≤ k → s !! k = Some p → less item p = true) →
  ∃ r, find_loop less fuel s item i j = Some r ∧ r ≤ length s ∧
       (∀ k p, k < r → s !! k = Some p → less item p = false) ∧
       (∀ k p, r ≤ k → s !! k = Some p → less item p = true).
Proof.
  intros Hs. revert i j. induction fuel as [|fuel IH]; intros i j Hf Hij Hj Hlo Hhi.
  - simpl. case_decide; [lia|]. exists i. split_and!; [done|lia|done|].
    intros k p ?. apply Hhi. lia.
  - cbn [find_loop]. case_decide as Hlt.
    + cbv zeta. set (h := i + (j - i) / 2).
      assert (i ≤ h < j) as Hh.
      { unfold h. pose proof (Nat.div_mod_eq (j - i) 2).
        pose proof (Nat.mod_upper_bound (j - i) 2). lia. }
      destruct (lookup_lt_is_Some_2 s h) as [sh Hsh]; [lia|].
      rewrite Hsh. simpl. destruct (less item sh) eqn:Hc; simpl.
      * apply IH; [lia..|done|].
        intros k p Hk Hp. destruct (decide (k = h)) as [->|]; [congruence|].
        eapply (less_trans _ SW); [exact Hc|].
        eapply increasing_lookup; [done| |exact Hsh|exact Hp]. lia.
      * apply IH; [lia..| |done].
        intros k p Hk Hp. destruct (decide (k = h)) as [->|]; [congruence|].
        destruct (less item p) eqn:Hip; [|done].
        assert (lt less p sh) as Hpsh.
        { eapply increasing_lookup; [done| |exact Hp|exact Hsh]. lia. }
        rewrite (less_trans _ SW _ _ _ Hip Hpsh) in Hc. done.
    + exists i. split_and!; [done|lia|done|].
      intros k p ?. apply Hhi. lia.
Qed.

(** What [find] returns on an increasing less slice. *)
Lemma find_spec s item :
  increasing less s →
  ∃ i found, find less s item = Some (i, found) ∧
    Forall (λ y, lt less y item) (take i s) ∧
    if found
    then (∃ y, s !! i = Some y ∧ equiv_key less y item) ∧
         Forall (λ y, lt less item y) (drop (S i) s)
    else i ≤ length s ∧ Forall (λ y, lt less item y) (drop i s).
Proof.
  intros Hs. unfold find.
  destruct (find_loop_spec s item (length s) 0 (length s))
    as (r & -> & Hr & Hlo & Hhi); [done|lia|lia|lia|intros; lia| |].
  { intros k p Hk Hp. apply lookup_lt_Some in Hp. lia. }
  simpl.
  assert (Forall (λ y, lt less item y) (drop r s)) as Hdrop.
  { apply Forall_lookup. intros k p Hp. rewrite lookup_drop in Hp.
    eapply Hhi; [|done]. lia. }
  destruct r as [|r'].
  - exists 0, false. split_and!; [done|by rewrite take_0|lia|done].
  - destruct (lookup_lt_is_Some_2 s r') as [p Hp]; [lia|].
    rewrite Hp. simpl. destruct (less p item) eqn:Hc; simpl.
    + exists (S r'), false. split_and!; [done| |done|done].
      apply Forall_lookup. intros k q Hq.
      apply lookup_take_Some in Hq as [Hq Hk].
      destruct (decide (k = r')) as [->|]; [congruence|].
      eapply (less_trans _ SW); [|exact Hc].
      eapply increasing_lookup; [done| |exact Hq|exact Hp]. lia.
    + exists r', true. split_and!; [done| | |done].
      * apply Forall_lookup. intros k q Hq.
        apply lookup_take_Some in Hq as [Hq Hk].
        eapply (lt_equiv_r q p item).
        -- eapply increasing_lookup; [done| |exact Hq|exact Hp]. lia.
        -- eapply Hlo; [|exact Hp]. lia.
      * exists p. split; [done|]. split; [done|]. eapply Hlo; [|done]. lia.
Qed.
End Order.

Section Weave.
Context {Pair : Type} `{EqDecision Pair}.
Implicit Types (A B : list Pair) (CA CB cs : list (@node Pair)) (c n : @node Pair).

Lemma inorder_leaf A : inorder (Node A []) = A.
Proof. done. Qed.

Lemma inorder_cons A c cs : inorder (Node A (c :: cs)) = inorder c ++ post A cs.
Proof. done. Qed.

Lemma post_nil_l cs : post [] cs = [].
Proof. done. Qed.

Lemma post_nil_r A : post A [] = [].
Proof. by destruct A. Qed.

Lemma post_cons b B c CB : post (b :: B) (c :: CB) = b :: inorder c ++ post B CB.
Proof. done. Qed.

Lemma post_app B1 B2 CB1 CB2 :
  length CB1 = length B1 →
  post (B1 ++ B2) (CB1 ++ CB2) = post B1 CB1 ++ post B2 CB2.
Proof.
  intros Hl. unfold post. rewrite map_app, zip_with_app, concat_app; [done|].
  by rewrite length_map.
Qed.

Lemma pre_nil : pre [] [] = @nil Pair.
Proof. done. Qed.

Lemma pre_cons a A c CA : pre (a :: A) (c :: CA) = inorder c ++ a :: pre A CA.
Proof. unfold pre. simpl. by rewrite <- app_assoc. Qed.

Lemma pre_app A1 A2 CA1 CA2 :
  length CA1 = length A1 →
  pre (A1 ++ A2) (CA1 ++ CA2) = pre A1 CA1 ++ pre A2 CA2.
Proof.
  intros Hl. unfold pre. rewrite map_app, zip_with_app, concat_app; [done|].
  by rewrite length_map.
Qed.

Lemma pre_snoc A a CA c :
  length CA = length A →
  pre (A ++ [a]) (CA ++ [c]) = pre A CA ++ inorder c ++ [a].
Proof. intros Hl. rewrite pre_app by done. unfold pre at 2. simpl. by rewrite app_nil_r. Qed.

Lemma inorder_app A B CA CB :
  length CA = length A + 1 →
  inorder (Node (A ++ B) (CA ++ CB)) = inorder (Node A CA) ++ post B CB.
Proof.
  intros Hl. destruct CA as [|c CA]; simpl in Hl; [lia|].
  change ((c :: CA) ++ CB) with (c :: (CA ++ CB)).
  rewrite !inorder_cons, post_app, app_assoc; [done|lia].
Qed.

Lemma inorder_snoc_child A CA c :
  length CA = length A →
  inorder (Node A (CA ++ [c])) = pre A CA ++ inorder c.
Proof.
  revert CA c. induction A as [|a A IH] using rev_ind; intros CA c Hl.
  - destruct CA; [|done]. simpl. rewrite inorder_cons, post_nil_l. by rewrite app_nil_r.
  - destruct CA as [|c' CA _] using rev_ind.
    { rewrite length_app in Hl. simpl in Hl. lia. }
    rewrite !length_app in Hl. simpl in Hl.
    rewrite inorder_app by (rewrite length_app; simpl; lia).
    rewrite IH by lia. rewrite pre_snoc by lia.
    rewrite post_cons, post_nil_l, app_nil_r. by rewrite <- !app_assoc.
Qed.

(** The items of a node around one child. *)
Lemma inorder_mid A B CA c CB :
  length CA = length A →
  inorder (Node (A ++ B) (CA ++ c :: CB)) = pre A CA ++ inorder c ++ post B CB.
Proof.
  intros Hl. rewrite (cons_middle c CA CB), app_assoc.
  rewrite inorder_app by (rewrite length_app; simpl; lia).
  rewrite inorder_snoc_child by done. by rewrite <- app_assoc.
Qed.

(** The items of a node around one item. *)
Lemma inorder_mid_item A a B CA c1 c2 CB :
  length CA = length A →
  inorder (Node (A ++ a :: B) (CA ++ c1 :: c2 :: CB)) =
  (pre A CA ++ inorder c1) ++ a :: (inorder c2 ++ post B CB).
Proof.
  intros Hl. rewrite inorder_mid by done. rewrite post_cons. by rewrite <- app_assoc.
Qed.

Lemma pre_last A CA : length CA = length A → last (pre A CA) = last A.
Proof.
  intros Hl. destruct A as [|a A _] using rev_ind.
  - by destruct CA.
  - destruct CA as [|c' CA _] using rev_ind.
    { rewrite length_app in Hl. simpl in Hl. lia. }
    rewrite !length_app in Hl. simpl in Hl.
    rewrite pre_snoc by lia. by rewrite !app_assoc, !last_snoc.
Qed.

Lemma post_head B CB : length CB = length B → head (post B CB) = head B.
Proof. intros Hl. destruct B, CB; try done. Qed.

Lemma pre_length_nil A CA : length CA = length A → A = [] → pre A CA = [].
Proof. intros Hl ->. by destruct CA. Qed.
End Weave.

Section SortedLists.
Context {Pair : Type} `{EqDecision Pair}.
Variable nilPair : Pair.
Variable less : Pair → Pair → bool.
Hypothesis SW : StrictWeak less.

Local Abbreviation ins_list := (ins_list less).
Local Abbreviation find_list := (find_list nilPair less).
Local Abbreviation del_list := (del_list less).

Lemma increasing_app L R :
  increasing less (L ++ R) ↔
  increasing less L ∧ increasing less R ∧ ∀ x y, x ∈ L → y ∈ R → lt less x y.
Proof.
  unfold increasing. rewrite StronglySorted_app. split.
  - intros (Hlt & HL & HR). split_and!; [done..|]. intros x y Hx Hy. by apply Hlt.
  - intros (HL & HR & Hlt). split_and!; [|done..]. intros x Hx y Hy. by apply Hlt.
Qed.

Lemma increasing_sublist l1 l2 : sublist l1 l2 → increasing less l2 → increasing less l1.
Proof.
  unfold increasing.
  induction 1 as [|x l1 l2 Hs IH|x l1 l2 Hs IH]; intros Hl2; [done|..].
  - apply StronglySorted_cons in Hl2 as [Hx Hl2].
    apply StronglySorted_cons. split; [|auto].
    apply Forall_forall. intros y Hy. rewrite Forall_forall in Hx.
    apply Hx. eapply elem_of_sublist; done.
  - apply StronglySorted_cons in Hl2 as [Hx Hl2]. auto.
Qed.

Lemma below_of_last L x :
  increasing less L → (∀ a, last L = Some a → lt less a x) → Forall (λ y, lt less y x) L.
Proof.
  intros HL Hlast. destruct L as [|a L _] using rev_ind; [done|].
  specialize (Hlast a (last_snoc _ _)).
  apply Forall_app. split; [|by repeat constructor].
  apply increasing_app in HL as (_ & _ & HL).
  apply Forall_forall. intros y Hy.
  eapply (less_trans _ SW); [|exact Hlast]. apply HL; [done|]. by left.
Qed.

Lemma above_of_head R x :
  increasing less R → (∀ r, head R = Some r → lt less x r) → Forall (λ y, lt less x y) R.
Proof.
  intros HR Hhead. destruct R as [|r R]; [done|].
  specialize (Hhead r eq_refl).
  apply StronglySorted_cons in HR as [Hr _].
  constructor; [done|]. eapply Forall_impl; [done|].
  intros y Hy. eapply (less_trans _ SW); done.
Qed.

Lemma ins_list_below L R x :
  Forall (λ y, lt less y x) L → ins_list x (L ++ R) = L ++ ins_list x R.
Proof.
  induction 1 as [|y L Hy _ IH]; [done|]. simpl.
  rewrite (lt_asym _ SW _ _ Hy), Hy. by rewrite IH.
Qed.

Lemma find_list_below L R x :
  Forall (λ y, lt less y x) L → find_list x (L ++ R) = find_list x R.
Proof.
  induction 1 as [|y L Hy _ IH]; [done|]. simpl.
  by rewrite (lt_asym _ SW _ _ Hy), Hy.
Qed.

Lemma del_list_below L R x :
  Forall (λ y, lt less y x) L → del_list x (L ++ R) = L ++ del_list x R.
Proof.
  induction 1 as [|y L Hy _ IH]; [done|]. simpl.
  rewrite (lt_asym _ SW _ _ Hy), Hy. by rewrite IH.
Qed.

Lemma ins_list_above S R x :
  (∀ r, head R = Some r → lt less x r) → ins_list x (S ++ R) = ins_list x S ++ R.
Proof.
  intros HR. induction S as [|y S IH]; simpl.
  - destruct R as [|r R]; [done|]. simpl. by rewrite (HR r eq_refl).
  - destruct (less x y); [done|]. destruct (less y x); [|done]. by rewrite IH.
Qed.

Lemma find_list_above S R x :
  (∀ r, head R = Some r → lt less x r) → find_list x (S ++ R) = find_list x S.
Proof.
  intros HR. induction S as [|y S IH]; simpl.
  - destruct R as [|r R]; [done|]. simpl. by rewrite (HR r eq_refl).
  - destruct (less x y); [done|]. destruct (less y x); done.
Qed.

Lemma del_list_above S R x :
  (∀ r, head R = Some r → lt less x r) → del_list x (S ++ R) = del_list x S ++ R.
Proof.
  intros HR. induction S as [|y S IH]; simpl.
  - destruct R as [|r R]; [done|]. simpl. by rewrite (HR r eq_refl).
  - destruct (less x y); [done|]. destruct (less y x); [|done]. by rewrite IH.
Qed.

(** The three list operations act inside a segment [S] when everything
    to its left is below [x] and everything to its right above. *)
Lemma ins_list_ctx L S R x :
  Forall (λ y, lt less y x) L → (∀ r, head R = Some r → lt less x r) →
  ins_list x (L ++ S ++ R) = L ++ ins_list x S ++ R.
Proof. intros. by rewrite ins_list_below, ins_list_above. Qed.

Lemma find_list_ctx L S R x :
  Forall (λ y, lt less y x) L → (∀ r, head R = Some r → lt less x r) →
  find_list x (L ++ S ++ R) = find_list x S.
Proof. intros. by rewrite find_list_below, find_list_above. Qed.

Lemma del_list_ctx L S R x :
  Forall (λ y, lt less y x) L → (∀ r, head R = Some r → lt less x r) →
  del_list x (L ++ S ++ R) = L ++ del_list x S ++ R.
Proof. intros. by rewrite del_list_below, del_list_above. Qed.

Lemma around_equiv L y R x :
  increasing less (L ++ y :: R) → equiv_key less y x →
  Forall (λ z, lt less z x) L ∧ (∀ r, head R = Some r → lt less x r).
Proof.
  intros HS [Hyx Hxy]. apply increasing_app in HS as (HL & HyR & Hlt).
  apply StronglySorted_cons in HyR as [HyR HR]. split.
  - apply Forall_forall. intros z Hz. eapply (lt_equiv_r _ SW z y x); [|done].
    apply Hlt; [done|]. by left.
  - intros r Hr. destruct R as [|r' R]; simplify_eq/=.
    apply Forall_cons in HyR as [HyR _].
    eapply (lt_equiv_l _ SW x y r); done.
Qed.

Lemma ins_list_found L y R x :
  increasing less (L ++ y :: R) → equiv_key less y x →
  ins_list x (L ++ y :: R) = L ++ x :: R.
Proof.
  intros HS Heq. destruct (around_equiv _ _ _ _ HS Heq) as [HL HR].
  rewrite ins_list_below by done. simpl. destruct Heq as [-> ->]. done.
Qed.

Lemma find_list_found L y R x :
  increasing less (L ++ y :: R) → equiv_key less y x →
  find_list x (L ++ y :: R) = y.
Proof.
  intros HS Heq. destruct (around_equiv _ _ _ _ HS Heq) as [HL HR].
  rewrite find_list_below by done. simpl. destruct Heq as [-> ->]. done.
Qed.

Lemma del_list_found L y R x :
  increasing less (L ++ y :: R) → equiv_key less y x →
  del_list x (L ++ y :: R) = L ++ R.
Proof.
  intros HS Heq. destruct (around_equiv _ _ _ _ HS Heq) as [HL HR].
  rewrite del_list_below by done. simpl. destruct Heq as [-> ->]. done.
Qed.
End SortedLists.

Section SliceFacts.
Context {X : Type}.
Implicit Types (l : list X) (x y : X) (i : nat).

Lemma lookup_at l1 x l2 i : i = length l1 → (l1 ++ x :: l2) !! i = Some x.
Proof. intros ->. apply list_lookup_middle. done. Qed.

Lemma store_at l1 x l2 i y :
  i = length l1 → store (l1 ++ x :: l2) i y = Some (l1 ++ y :: l2).
Proof.
  intros ->. unfold store. rewrite decide_True.
  - by rewrite insert_app_r_alt, Nat.sub_diag.
  - rewrite length_app. simpl. lia.
Qed.

Lemma insertAt_at l1 l2 i x :
  i = length l1 → insertAt (l1 ++ l2) i x = Some (l1 ++ x :: l2).
Proof.
  intros ->. unfold insertAt. rewrite decide_True.
  - by rewrite take_app_length, drop_app_length.
  - rewrite length_app. lia.
Qed.

Lemma removeAt_at l1 x l2 i :
  i = length l1 → removeAt (l1 ++ x :: l2) i = Some (x, l1 ++ l2).
Proof.
  intros ->. unfold removeAt. rewrite list_lookup_middle by done. simpl.
  rewrite take_app_length. rewrite (cons_middle x l1 l2), app_assoc.
  rewrite drop_app_length'; [done|]. rewrite length_app. simpl. lia.
Qed.

Lemma pop_snoc l x : pop (l ++ [x]) = Some (x, l).
Proof.
  unfold pop. rewrite length_app. simpl. rewrite Nat.add_1_r.
  rewrite list_lookup_middle by done. simpl. by rewrite take_app_length.
Qed.

Lemma slice_from_at l1 l2 i : i = length l1 → slice_from (l1 ++ l2) i = Some l2.
Proof.
  intros ->. unfold slice_from. rewrite decide_True.
  - by rewrite drop_app_length.
  - rewrite length_app. lia.
Qed.

Lemma truncate_at l1 l2 i : i = length l1 → truncate (l1 ++ l2) i = Some l1.
Proof.
  intros ->. unfold truncate. rewrite decide_True.
  - by rewrite take_app_length.
  - rewrite length_app. lia.
Qed.

Lemma split_at l i :
  i < length l → ∃ l1 x l2, l = l1 ++ x :: l2 ∧ length l1 = i.
Proof.
  intros Hi. destruct (lookup_lt_is_Some_2 l i Hi) as [x Hx].
  exists (take i l), x, (drop (S i) l). split.
  - by rewrite take_drop_middle.
  - rewrite length_take. lia.
Qed.

Lemma split_at_le l i :
  i ≤ length l → ∃ l1 l2, l = l1 ++ l2 ∧ length l1 = i.
Proof.
  intros Hi. exists (take i l), (drop i l). split.
  - by rewrite take_drop.
  - rewrite length_take. lia.
Qed.

Lemma snoc_of_length l : 0 < length l → ∃ l' x, l = l' ++ [x].
Proof.
  intros Hl. destruct l as [|x l _] using rev_ind; [simpl in Hl; lia|]. eauto.
Qed.
End SliceFacts.

Section FindFacts.
Context {Pair : Type} `{EqDecision Pair}.
Variable less : Pair → Pair → bool.
Hypothesis SW : StrictWeak less.

(** [find] splits an increasing slice around the place of the item. *)
Lemma find_decomp s x :
  increasing less s →
  ∃ A B found, find less s x = Some (length A, found) ∧
    Forall (λ y, lt less y x) A ∧ Forall (λ y, lt less x y) B ∧
    if found then ∃ y, s = A ++ y :: B ∧ equiv_key less y x
    else s = A ++ B.
Proof.
  intros Hs. destruct (find_spec less SW s x Hs) as (i & found & Hf & Hlo & Hhi).
  destruct found.
  - destruct Hhi as [(y & Hy & Heq) Hhi].
    exists (take i s), (drop (S i) s), true.
    pose proof (lookup_lt_Some _ _ _ Hy).
    rewrite length_take, Nat.min_l by lia.
    split_and!; [done..|]. exists y. by rewrite take_drop_middle.
  - destruct Hhi as [Hi Hhi]. exists (take i s), (drop i s), false.
    rewrite length_take, Nat.min_l by lia.
    split_and!; [done..|]. by rewrite take_drop.
Qed.
End FindFacts.

Section Shape.
Context {Pair : Type} `{EqDecision Pair}.
Variable less : Pair → Pair → bool.
Hypothesis SW : StrictWeak less.
Variables lo hi : nat.

Implicit Types (A B : list Pair) (CA CB cs : list (@node Pair)) (c n : @node Pair).

Local Abbreviation btree := (btree lo hi).
Local Abbreviation child_ok h := (λ c : @node Pair, lo ≤ length (items c) ∧ btree h c).

Lemma btree_leaf A : btree 0 (Node A []) ↔ length A ≤ hi.
Proof. simpl. split; [by intros [_ ?]|done]. Qed.

Lemma btree_internal h A cs :
  btree (S h) (Node A cs) ↔
  length cs = length A + 1 ∧ length A ≤ hi ∧ Forall (child_ok h) cs.
Proof. done. Qed.

Lemma pre_sublist A CA : length CA = length A → A `sublist_of` pre A CA.
Proof.
  revert CA. induction A as [|a A IH]; intros [|c CA] Hl; simplify_eq/=.
  - done.
  - rewrite pre_cons. apply sublist_inserts_l. constructor. by apply IH.
Qed.

Lemma items_sublist h n : btree h n → items n `sublist_of` inorder n.
Proof.
  destruct n as [A cs]. destruct h as [|h].
  - intros [Hc _]. simpl in *. by subst.
  - intros (Hl & _ & _). simpl in *.
    destruct (snoc_of_length cs) as (CA & c & ->); [lia|].
    rewrite length_app in Hl. simpl in Hl.
    rewrite inorder_snoc_child by lia.
    apply sublist_inserts_r, pre_sublist. lia.
Qed.

Lemma items_increasing h n : btree h n → increasing less (inorder n) → increasing less (items n).
Proof. intros Hb. apply increasing_sublist, (items_sublist h), Hb. Qed.

(** An internal node seen around its child [length A]. *)
Lemma internal_at_child h A B cs :
  btree (S h) (Node (A ++ B) cs) →
  ∃ CA c CB, cs = CA ++ c :: CB ∧ length CA = length A ∧ length CB = length B ∧
    Forall (child_ok h) CA ∧ child_ok h c ∧ Forall (child_ok h) CB.
Proof.
  intros Hb. apply btree_internal in Hb as (Hl & _ & Hcs).
  cbn [items children] in *. rewrite length_app in Hl.
  destruct (split_at cs (length A)) as (CA & c & CB & -> & HCA); [lia|].
  rewrite length_app in Hl. simpl in Hl.
  apply Forall_app in Hcs as [? Hcs]. apply Forall_cons in Hcs as [? ?].
  exists CA, c, CB. repeat split; try done; try lia; naive_solver.
Qed.

(** An internal node seen around its item [length A]. *)
Lemma internal_at_item h A y B cs :
  btree (S h) (Node (A ++ y :: B) cs) →
  ∃ CA c1 c2 CB, cs = CA ++ c1 :: c2 :: CB ∧ length CA = length A ∧
    length CB = length B ∧
    Forall (child_ok h) CA ∧ child_ok h c1 ∧ child_ok h c2 ∧ Forall (child_ok h) CB.
Proof.
  intros Hb. destruct (internal_at_child h A (y :: B) cs Hb)
    as (CA & c1 & CB & -> & HCA & HCB & ? & ? & HF).
  destruct CB as [|c2 CB]; [done|]. apply Forall_cons in HF as [? ?].
  exists CA, c1, c2, CB. simpl in HCB. repeat split; try done; try lia; naive_solver.
Qed.

Lemma btree_mid h A B CA c CB :
  btree (S h) (Node (A ++ B) (CA ++ c :: CB)) ↔
    length CA + length CB = length A + length B ∧
    length A + length B ≤ hi ∧
    Forall (child_ok h) CA ∧ child_ok h c ∧ Forall (child_ok h) CB.
Proof.
  rewrite btree_internal, Forall_app, Forall_cons, !length_app. simpl.
  split; intros; destruct_and?; split_and!; try done; lia.
Qed.

Hypothesis Hhi : hi = 2 * lo + 1.

Lemma half_hi : hi / 2 = lo.
Proof. subst hi. replace (2 * lo + 1) with (1 + lo * 2) by lia. by rewrite Nat.div_add. Qed.

Lemma split_spec h c :
  btree h c → length (items c) = hi →
  ∃ c1 m c2, split c (hi / 2) = Some (c1, m, c2) ∧
    inorder c = inorder c1 ++ m :: inorder c2 ∧
    btree h c1 ∧ btree h c2 ∧
    length (items c1) = lo ∧ length (items c2) = lo.
Proof.
  rewrite half_hi. destruct c as [its cs]. intros Hb Hlen. simpl in Hlen.
  destruct (split_at its lo) as (I1 & m & I2 & -> & HI1); [lia|].
  rewrite length_app in Hlen. simpl in Hlen.
  unfold split. cbn [items children].
  rewrite lookup_at by lia. cbn [mbind option_bind].
  rewrite (cons_middle m I1 I2), app_assoc.
  rewrite slice_from_at by (rewrite length_app; simpl; lia).
  rewrite <- app_assoc, <- cons_middle. rewrite truncate_at by done.
  cbn [mbind option_bind].
  destruct h as [|h].
  - destruct Hb as [Hc _]. simpl in Hc. subst cs. simpl.
    exists (Node I1 []), m, (Node I2 []).
    split; [done|]. split; [done|].
    split; [apply btree_leaf; lia|]. split; [apply btree_leaf; lia|].
    simpl. lia.
  - destruct Hb as (Hl & _ & Hcs). simpl in Hl, Hcs.
    rewrite length_app in Hl. simpl in Hl.
    destruct (split_at_le cs (lo + 1)) as (C1 & C2 & -> & HC1); [lia|].
    rewrite length_app in Hl.
    rewrite decide_True by (rewrite length_app; lia).
    rewrite slice_from_at by lia. rewrite truncate_at by lia.
    cbn [mbind option_bind].
    apply Forall_app in Hcs as [? ?].
    exists (Node I1 C1), m, (Node I2 C2).
    split; [done|]. split.
    { rewrite inorder_app by lia. f_equal.
      destruct C2 as [|c' C2]; [simpl in *; lia|].
      by rewrite post_cons, inorder_cons. }
    split; [apply btree_internal; split_and!; [lia|lia|done]|].
    split; [apply btree_internal; split_and!; [lia|lia|done]|].
    simpl. lia.
Qed.

Lemma maybeSplitChild_no A B CA c CB :
  length CA = length A → length (items c) < hi →
  maybeSplitChild (Node (A ++ B) (CA ++ c :: CB)) (length A) hi =
    Some (Node (A ++ B) (CA ++ c :: CB), false).
Proof.
  intros HCA Hc. unfold maybeSplitChild. cbn [items children].
  rewrite lookup_at by lia. cbn [mbind option_bind].
  by rewrite decide_True.
Qed.

Lemma maybeSplitChild_yes h A B CA c CB :
  length CA = length A → btree h c → length (items c) = hi →
  ∃ c1 m c2,
    maybeSplitChild (Node (A ++ B) (CA ++ c :: CB)) (length A) hi =
      Some (Node (A ++ m :: B) (CA ++ c1 :: c2 :: CB), true) ∧
    inorder c = inorder c1 ++ m :: inorder c2 ∧
    btree h c1 ∧ btree h c2 ∧
    length (items c1) = lo ∧ length (items c2) = lo.
Proof.
  intros HCA Hb Hc.
  destruct (split_spec h c Hb Hc) as (c1 & m & c2 & Hs & Hin & Hb1 & Hb2 & Hl1 & Hl2).
  exists c1, m, c2. split; [|done].
  unfold maybeSplitChild, mutableChild. cbn [items children].
  rewrite lookup_at by lia. cbn [mbind option_bind].
  rewrite decide_False by lia. rewrite Hs. cbn [mbind option_bind].
  rewrite store_at by lia. cbn [mbind option_bind].
  rewrite (insertAt_at A B) by lia. cbn [mbind option_bind].
  rewrite (cons_middle c1 CA CB), app_assoc.
  rewrite insertAt_at by (rewrite length_app; simpl; lia).
  cbn [mbind option_bind]. by rewrite <- app_assoc, <- cons_middle.
Qed.
End Shape.

Section Context_.
Context {Pair : Type} `{EqDecision Pair}.
Variable nilPair : Pair.
Variable less : Pair → Pair → bool.
Hypothesis SW : StrictWeak less.


Lemma Forall_last_1 (P : Pair → Prop) l a : Forall P l → last l = Some a → P a.
Proof. intros Hl Ha. rewrite Forall_forall in Hl. by apply Hl, last_Some_elem_of. Qed.

Lemma Forall_head_1 (P : Pair → Prop) l a : Forall P l → head l = Some a → P a.
Proof. intros Hl Ha. rewrite Forall_forall in Hl. by apply Hl, head_Some_elem_of. Qed.

Lemma below_last A x :
  Forall (λ y, lt less y x) A → ∀ a, last A = Some a → lt less a x.
Proof. intros HA a. by apply (Forall_last_1 (λ y, lt less y x)). Qed.

Lemma above_head B x :
  Forall (λ y, lt less x y) B → ∀ r, head B = Some r → lt less x r.
Proof. intros HB r. by apply (Forall_head_1 (λ y, lt less x y)). Qed.

(** A segment [S] of an increasing less list, with everything to its left
    below [x] and everything to its right above: the list operations act
    on the segment. *)
Lemma segment_facts L S R x :
  increasing less (L ++ S ++ R) →
  (∀ a, last L = Some a → lt less a x) → (∀ r, head R = Some r → lt less x r) →
  increasing less S ∧
  ins_list less x (L ++ S ++ R) = L ++ ins_list less x S ++ R ∧
  find_list nilPair less x (L ++ S ++ R) = find_list nilPair less x S ∧
  del_list less x (L ++ S ++ R) = L ++ del_list less x S ++ R.
Proof.
  intros Hinc HL HR.
  pose proof Hinc as (HiL & HiSR & _)%increasing_app.
  pose proof HiSR as (HiS & _ & _)%increasing_app.
  pose proof (below_of_last less SW L x HiL HL) as HbL.
  split; [done|].
  by rewrite (ins_list_ctx less SW), (find_list_ctx nilPair less SW),
    (del_list_ctx less SW).
Qed.

Lemma increasing_ins_list x l : increasing less l → increasing less (ins_list less x l).
Proof.
  unfold increasing.
  induction l as [|y l IH]; intros Hl; simpl.
  - repeat constructor.
  - apply StronglySorted_cons in Hl as [Hy Hl].
    destruct (less x y) eqn:Hxy.
    + apply StronglySorted_cons. split; [|by apply StronglySorted_cons; split].
      constructor; [done|]. eapply Forall_impl; [done|].
      intros z Hz. eapply (less_trans _ SW); done.
    + destruct (less y x) eqn:Hyx.
      * apply StronglySorted_cons. split; [|auto].
        assert (∀ l', Forall (lt less y) l' →
                      Forall (lt less y) (ins_list less x l')) as Hins.
        { induction 1 as [|z l' Hz Hl' IH']; simpl; [by repeat constructor|].
          destruct (less x z); [by repeat constructor|].
          destruct (less z x); by constructor. }
        by apply Hins.
      * apply StronglySorted_cons. split; [|done].
        eapply Forall_impl; [done|]. intros z Hz.
        eapply (lt_equiv_l _ SW x y z); done.
Qed.

Lemma del_list_sublist x l : del_list less x l `sublist_of` l.
Proof.
  induction l as [|y l IH]; simpl; [done|].
  destruct (less x y); [done|]. destruct (less y x).
  - by constructor.
  - by constructor.
Qed.

Lemma increasing_del_list x l : increasing less l → increasing less (del_list less x l).
Proof. apply (increasing_sublist less), del_list_sublist. Qed.
End Context_.

Section InsertProof.
Context {Pair : Type} `{EqDecision Pair}.
Variable nilPair : Pair.
Variable less : Pair → Pair → bool.
Hypothesis SW : StrictWeak less.
Variables lo hi : nat.
Hypothesis Hhi : hi = 2 * lo + 1.

Local Abbreviation btree := (btree lo hi).
Local Abbreviation ins_list := (ins_list less).
Local Abbreviation find_list := (find_list nilPair less).

Ltac step := cbn [mbind option_bind items children].
Ltac lens :=
  cbn [items children] in *;
  repeat match goal with
    | H : context [length (_ ++ _)] |- _ => rewrite length_app in H
    | |- context [length (_ ++ _)] => rewrite length_app
    end;
  cbn [length] in *; lia.

Lemma insert_spec h : ∀ fuel n x,
  h < fuel → btree h n → length (items n) < hi → increasing less (inorder n) →
  ∃ n', insert nilPair less fuel n x hi = Some (find_list x (inorder n), n') ∧
    btree h n' ∧ inorder n' = ins_list x (inorder n) ∧
    length (items n) ≤ length (items n').
Proof.
  induction h as [|h IH]; intros fuel n x Hfuel Hb Hfull Hinc;
    (destruct fuel as [|fuel]; [lia|]);
    assert (increasing less (items n)) as Hits by (by eapply items_increasing);
    destruct (find_decomp less SW (items n) x Hits)
      as (A & B & found & Hfind & HA & HB & Hform);
    destruct n as [its cs]; cbn [items children] in *;
    cbn [insert]; step; rewrite Hfind; step.
  - (* a leaf *)
    destruct Hb as [Hcs Hlen]; cbn [items children] in *; subst cs.
    rewrite inorder_leaf in *. destruct found.
    + destruct Hform as (y & -> & Heq).
      rewrite lookup_at, store_at by done. step.
      eexists. split; [by rewrite (find_list_found nilPair less SW)|].
      split; [apply btree_leaf; lens|].
      split; [by rewrite inorder_leaf, (ins_list_found less SW)|].
      lens.
    + subst its. rewrite decide_True by done. rewrite insertAt_at by done. step.
      destruct (segment_facts nilPair less SW A [] B x) as (_ & Hi & Hf & _);
        [done|by apply (below_last less)|by apply (above_head less)|].
      simpl in Hi, Hf. eexists. split; [by rewrite Hf|].
      split; [apply btree_leaf; lens|].
      split; [by rewrite inorder_leaf, Hi|].
      lens.
  - (* an internal node *)
    destruct found.
    + destruct Hform as (y & -> & Heq).
      destruct (internal_at_item lo hi h A y B cs Hb)
        as (CA & c1 & c2 & CB & -> & HCA & HCB & HFA & Hc1 & Hc2 & HFB).
      rewrite lookup_at, store_at by done. step.
      rewrite inorder_mid_item in Hinc |- * by done.
      eexists. split; [by rewrite (find_list_found nilPair less SW)|].
      split.
      { apply btree_internal. apply btree_internal in Hb.
        destruct Hb as (? & ? & ?). split_and!; [lens|lens|done]. }
      split; [by rewrite inorder_mid_item, (ins_list_found less SW)|].
      lens.
    + subst its.
      destruct (internal_at_child lo hi h A B cs Hb)
        as (CA & c & CB & -> & HCA & HCB & HFA & [Hclo Hc] & HFB).
      rewrite decide_False by lens.
      pose proof Hb as (Hlen & Hle & _)%btree_mid.
      assert (length (items c) ≤ hi) as Hchi.
      { destruct h; [apply Hc|]. apply Hc. }
      rewrite inorder_mid in Hinc |- * by done.
      assert (∀ a, last (pre A CA) = Some a → lt less a x) as Hlast.
      { rewrite pre_last by done. by apply (below_last less). }
      assert (∀ r, head (post B CB) = Some r → lt less x r) as Hhead.
      { rewrite post_head by done. by apply (above_head less). }
      destruct (decide (length (items c) < hi)) as [Hnf|Hnf].
      * (* the child has room *)
        rewrite (maybeSplitChild_no lo hi) by done. step.
        unfold mutableChild. step. rewrite lookup_at by done. step.
        destruct (segment_facts nilPair less SW _ _ _ x Hinc Hlast Hhead)
          as (Hic & Hi & Hf & _).
        destruct (IH fuel c x) as (c' & -> & Hb' & Hin' & Hl'); [lia|done..|].
        step. rewrite store_at by done. step.
        eexists. split; [by rewrite Hf|].
        split; [apply btree_mid; split_and!; first [done | lens]|].
        split; [by rewrite inorder_mid, Hi, Hin'|done].
      * (* the child is full and is split first *)
        destruct (maybeSplitChild_yes lo hi Hhi h A B CA c CB)
          as (c1 & m & c2 & -> & Hin & Hb1 & Hb2 & Hl1 & Hl2); [done|done|lia|].
        step. rewrite lookup_at by done. step.
        rewrite Hin in Hinc |- *.
        destruct (less x m) eqn:Hxm; [|destruct (less m x) eqn:Hmx].
        -- (* into the first half *)
          unfold mutableChild. step. rewrite lookup_at by done. step.
          rewrite <- (app_assoc (inorder c1)) in Hinc |- *.
          destruct (segment_facts nilPair less SW _ _ _ x Hinc Hlast)
            as (Hic & Hi & Hf & _).
          { simpl. by intros r [= <-]. }
          destruct (IH fuel c1 x) as (c' & -> & Hb' & Hin' & Hl'); [lia|done|lia|done|].
          step. rewrite store_at by done. step.
          eexists. split; [by rewrite Hf|].
          split.
          { apply (btree_mid _ _ _ _ (m :: B) _ _ (c2 :: CB)).
            cbn [length]. split_and!;
              first [done | lens | constructor; [split; [lia|done]|done]]. }
          split; [|lens].
          rewrite (inorder_mid A (m :: B)) by done.
          by rewrite post_cons, Hi, Hin', <- ?app_assoc.
        -- (* into the second half *)
          unfold mutableChild. step.
          rewrite (cons_middle c1 CA), app_assoc.
          rewrite lookup_at by lens. step.
          assert (inorder c1 ++ m :: inorder c2 = (inorder c1 ++ [m]) ++ inorder c2) as E
            by (by rewrite <- app_assoc).
          rewrite E in Hinc |- *. clear E.
          rewrite <- (app_assoc (inorder c1 ++ [m])) in Hinc |- *.
          rewrite (app_assoc (pre A CA)) in Hinc |- *.
          destruct (segment_facts nilPair less SW _ _ _ x Hinc)
            as (Hic & Hi & Hf & _); [|done|].
          { rewrite !app_assoc, last_snoc. by intros a [= <-]. }
          destruct (IH fuel c2 x) as (c' & -> & Hb' & Hin' & Hl'); [lia|done|lia|done|].
          step. rewrite store_at by lens. step.
          eexists. split; [by rewrite Hf|].
          rewrite (cons_middle m A), (app_assoc A).
          split.
          { apply btree_mid. rewrite !length_app. simpl.
            split_and!;
              first [done | lens
                    | apply Forall_app; split; [done|];
                      constructor; [split; [lia|done]|done]]. }
          split; [|lens].
          rewrite inorder_mid by (lens).
          rewrite pre_snoc by done. by rewrite Hi, Hin', <- ?app_assoc.
        -- (* the promoted item is the match *)
          rewrite store_at by done. step.
          assert (pre A CA ++ (inorder c1 ++ m :: inorder c2) ++ post B CB =
                  (pre A CA ++ inorder c1) ++ m :: (inorder c2 ++ post B CB)) as E
            by (by rewrite <- !app_assoc).
          rewrite E in Hinc |- *. clear E.
          eexists. split; [by rewrite (find_list_found nilPair less SW)|].
          split.
          { apply (btree_mid _ _ _ _ (x :: B) _ _ (c2 :: CB)).
            cbn [length]. split_and!;
              first [done | lens | constructor; [split; [lia|done]|done]]. }
          split; [|lens].
          rewrite inorder_mid_item by done.
          rewrite (ins_list_found less SW) by done. by rewrite <- ?app_assoc.
Qed.
End InsertProof.

Section Target.
Context {Pair : Type} `{EqDecision Pair}.
Variable nilPair : Pair.
Variable less : Pair → Pair → bool.
Hypothesis SW : StrictWeak less.

Local Abbreviation equiv_key := (equiv_key less).

Lemma partition_unique (P Q : Pair → Prop) A B A2 B2 :
  (∀ z, P z → Q z → False) →
  A ++ B = A2 ++ B2 → Forall P A → Forall Q B → Forall P A2 → Forall Q B2 →
  length A = length A2.
Proof.
  intros HPQ. revert A2. induction A as [|a A IH]; intros [|a2 A2] E HA HB HA2 HB2;
    simplify_eq/=; [done|..].
  - apply Forall_cons in HA2 as [? _], HB as [? _]. naive_solver.
  - apply Forall_cons in HA as [? _], HB2 as [? _]. naive_solver.
  - apply Forall_cons in HA as [_ ?], HA2 as [_ ?]. f_equal. eauto.
Qed.

Lemma not_below_of_above x B :
  Forall (λ y, lt less x y) B → Forall (λ y, less y x = false) B.
Proof.
  intros HB. eapply Forall_impl; [exact HB|]. intros y. apply (lt_asym _ SW).
Qed.

(** [find] is determined by the partition of the slice. *)
Lemma find_unique s x A B found :
  increasing less s → Forall (λ y, lt less y x) A →
  (if found : bool then ∃ y B0, B = y :: B0 ∧ equiv_key y x ∧ Forall (λ y, lt less x y) B0
   else Forall (λ y, lt less x y) B) →
  s = A ++ B →
  find less s x = Some (length A, found).
Proof.
  intros Hs HA HB ->.
  destruct (find_decomp less SW _ x Hs) as (A2 & B2 & found2 & -> & HA2 & HB2 & Hform).
  assert (Forall (λ y, less y x = false) B) as HB'.
  { destruct found.
    - destruct HB as (y & B0 & -> & [Hyx _] & HB0). constructor; [done|].
      by apply not_below_of_above.
    - by apply not_below_of_above. }
  assert (∀ z, lt less z x → less z x = false → False) as Hex
    by (unfold lt; congruence).
  destruct found2.
  - destruct Hform as (y2 & E & [Hy2 Hy2']).
    assert (length A = length A2) as Hlen.
    { eapply (partition_unique _ _ _ _ _ (y2 :: B2) Hex E); try done.
      constructor; [done|]. by apply not_below_of_above. }
    rewrite Hlen. apply app_inj_1 in E as [-> ->]; [|done].
    destruct found; [done|]. apply Forall_cons in HB as [HB _].
    unfold lt in HB. congruence.
  - assert (length A = length A2) as Hlen.
    { eapply (partition_unique _ _ _ _ _ B2 Hex Hform); try done.
      by apply not_below_of_above. }
    rewrite Hlen. apply app_inj_1 in Hform as [-> ->]; [|done].
    destruct found; [|done]. destruct HB as (y & B0 & -> & [_ Hxy] & _).
    apply Forall_cons in HB2 as [HB2 _]. unfold lt in HB2. congruence.
Qed.

(** The index followed by [remove] in an internal node, and whether the
    item is at that index. *)
Definition target (typ : toRemove) (n : @node Pair) (x : Pair)
  : option (nat * bool) :=
  match typ with
  | removeMax => Some (length (items n), false)
  | removeMin => Some (0, false)
  | removePair => find less (items n) x
  end.

Lemma remove_internal fuel n x lo typ :
  0 < length (children n) →
  remove nilPair less (S fuel) n x lo typ =
    '(i, found) ← target typ n x;
    c ← children n !! i;
    if decide (length (items c) ≤ lo) then
      growChildAndRemove (remove nilPair less fuel) n i x lo typ
    else
      child ← mutableChild n i;
      if found : bool then
        out ← items n !! i;
        '(pred, child') ← remove nilPair less fuel child nilPair lo removeMax;
        n_items ← store (items n) i pred;
        n_children ← store (children n) i child';
        Some (out, Node n_items n_children)
      else
        '(out, child') ← remove nilPair less fuel child x lo typ;
        n_children ← store (children n) i child';
        Some (out, Node (items n) n_children).
Proof.
  intros Hc. cbn [remove]. unfold target.
  destruct typ.
  - destruct (find less (items n) x) as [[i found]|]; [|done].
    cbn [mbind option_bind]. rewrite decide_False by lia. done.
  - rewrite decide_False by lia. done.
  - rewrite decide_False by lia. done.
Qed.

(** What [find] or the end of the node tells about the two sides. *)
Definition route (typ : toRemove) (x : Pair) (found : bool)
    (A B : list Pair) : Prop :=
  match typ with
  | removePair =>
      Forall (λ y, lt less y x) A ∧
      if found then ∃ y B0, B = y :: B0 ∧ equiv_key y x ∧ Forall (λ y, lt less x y) B0
      else Forall (λ y, lt less x y) B
  | removeMin => A = [] ∧ found = false
  | removeMax => B = [] ∧ found = false
  end.

Lemma target_spec typ x its :
  increasing less its →
  ∃ A B found, its = A ++ B ∧
    (∀ cs, target typ (Node its cs) x = Some (length A, found)) ∧
    route typ x found A B.
Proof.
  intros Hits. destruct typ; simpl.
  - destruct (find_decomp less SW its x Hits) as (A & B & found & Hf & HA & HB & Hform).
    destruct found.
    + destruct Hform as (y & -> & Heq). exists A, (y :: B), true.
      split_and!; [done|done|done|]. eauto.
    + exists A, B, false. done.
  - exists [], its, false. done.
  - exists its, [], false. by rewrite app_nil_r.
Qed.

Lemma route_target typ x found A B cs :
  increasing less (A ++ B) → route typ x found A B →
  target typ (Node (A ++ B) cs) x = Some (length A, found).
Proof.
  intros Hinc Hr. destruct typ; simpl in *.
  - destruct Hr as [HA HB]. by apply (find_unique (A ++ B) x A B found).
  - by destruct Hr as [-> ->].
  - destruct Hr as [-> ->]. by rewrite app_nil_r.
Qed.

Lemma rm_list_segment typ x A B CA CB S :
  route typ x false A B → length CA = length A → length CB = length B →
  increasing less (pre A CA ++ S ++ post B CB) → S ≠ [] →
  rm_list nilPair less typ x (pre A CA ++ S ++ post B CB) =
    ((rm_list nilPair less typ x S).1,
     pre A CA ++ (rm_list nilPair less typ x S).2 ++ post B CB).
Proof.
  intros Hr HCA HCB Hinc HS. destruct typ; simpl in *.
  - destruct Hr as [HA HB].
    destruct (segment_facts nilPair less SW _ _ _ x Hinc) as (_ & _ & -> & ->); [| |done].
    + rewrite pre_last by done. by apply (below_last less).
    + rewrite post_head by done. by apply (above_head less).
  - destruct Hr as [-> _]. destruct CA; [|done]. rewrite pre_nil. simpl.
    by destruct S.
  - destruct Hr as [-> _]. rewrite post_nil_l, !app_nil_r.
    destruct S as [|z S _] using rev_ind; [done|].
    rewrite app_assoc, !last_snoc. simpl. f_equal.
    rewrite !length_app. simpl. rewrite !Nat.add_sub.
    rewrite <- length_app, !take_app_length. done.
Qed.
End Target.

Section SliceFacts2.
Context {X : Type}.
Implicit Types (l : list X) (x y : X) (i : nat).

Lemma lookup_at2 l1 x y l2 i :
  i = S (length l1) → (l1 ++ x :: y :: l2) !! i = Some y.
Proof.
  intros ->. rewrite (cons_middle x l1), app_assoc.
  apply lookup_at. rewrite length_app. simpl. lia.
Qed.

Lemma store_at2 l1 x y l2 i z :
  i = S (length l1) → store (l1 ++ x :: y :: l2) i z = Some (l1 ++ x :: z :: l2).
Proof.
  intros ->. rewrite (cons_middle x l1), app_assoc.
  rewrite store_at by (rewrite length_app; simpl; lia).
  by rewrite <- app_assoc.
Qed.

Lemma removeAt_at2 l1 x y l2 i :
  i = S (length l1) → removeAt (l1 ++ x :: y :: l2) i = Some (y, l1 ++ x :: l2).
Proof.
  intros ->. rewrite (cons_middle x l1), app_assoc.
  rewrite removeAt_at by (rewrite length_app; simpl; lia).
  by rewrite <- app_assoc.
Qed.

Lemma removeAt_head x l : removeAt (x :: l) 0 = Some (x, l).
Proof. done. Qed.

Lemma insertAt_head x l : insertAt l 0 x = Some (x :: l).
Proof. unfold insertAt. rewrite decide_True by lia. by rewrite take_0, drop_0. Qed.
End SliceFacts2.

Section Grow.
Context {Pair : Type} `{EqDecision Pair}.
Variable nilPair : Pair.
Variable less : Pair → Pair → bool.
Variables lo : nat.

Implicit Types (A B : list Pair) (CA CB cs : list (@node Pair)) (c n l r : @node Pair).
Implicit Types R : @node Pair → Pair → nat → toRemove → option (Pair * @node Pair).

Ltac step := cbn [mbind option_bind items children].

(** The moved child: none between leaves, one between internal nodes. *)
Definition moved (mv rest : list (@node Pair)) : Prop :=
  (mv = [] ∧ rest = []) ∨ ∃ c, mv = [c].

Lemma grow_steal_left R A' a B CA' LI s LC' mv CI CC CB x typ :
  length CA' = length A' → moved mv LC' → lo < length (LI ++ [s]) →
  growChildAndRemove R
    (Node (A' ++ a :: B)
       (CA' ++ Node (LI ++ [s]) (LC' ++ mv) :: Node CI CC :: CB))
    (S (length A')) x lo typ =
  R (Node (A' ++ s :: B)
       (CA' ++ Node LI LC' :: Node (a :: CI) (mv ++ CC) :: CB)) x lo typ.
Proof.
  intros HCA Hmv Hbig. unfold growChildAndRemove, mutableChild. step.
  replace (S (length A') - 1) with (length A') by lia.
  rewrite (lookup_at CA' _ _ (length A')) by lia. step.
  rewrite bool_decide_true by done. step.
  rewrite (lookup_at2 CA' _ _ _ (S (length A'))) by lia. step.
  rewrite pop_snoc. step. rewrite (lookup_at A') by done. step.
  rewrite insertAt_head. step. rewrite (store_at A') by done. step.
  destruct Hmv as [[-> ->]|[lc ->]].
  - simpl. rewrite (store_at2 CA' _ _ _ (S (length A'))) by lia. step.
    rewrite (store_at CA') by lia. done.
  - rewrite decide_True by (rewrite length_app; simpl; lia).
    rewrite pop_snoc. step. rewrite insertAt_head. step.
    rewrite (store_at2 CA' _ _ _ (S (length A'))) by lia. step.
    rewrite (store_at CA') by lia. done.
Qed.

(** Nothing to steal on the left of child [length CA]. *)
Definition no_left CA : Prop :=
  ∀ CA' l, CA = CA' ++ [l] → length (items l) ≤ lo.

Lemma stealLeft_no CA rest i :
  no_left CA → i = length CA →
  match i with
  | 0 => Some false
  | S i' => l ← (CA ++ rest) !! i'; Some (bool_decide (lo < length (items l)))
  end = Some false.
Proof.
  intros Hno ->. destruct CA as [|l CA _] using rev_ind; [done|].
  rewrite length_app. simpl length. rewrite Nat.add_1_r.
  rewrite <- app_assoc, <- cons_middle. rewrite lookup_at by done. step.
  rewrite bool_decide_false; [done|]. specialize (Hno CA l eq_refl). lia.
Qed.

Lemma grow_steal_right R A b B CA CI CC s RI mv RC' CB x typ :
  length CA = length A → no_left CA → moved mv RC' → lo < length (s :: RI) →
  growChildAndRemove R
    (Node (A ++ b :: B)
       (CA ++ Node CI CC :: Node (s :: RI) (mv ++ RC') :: CB))
    (length A) x lo typ =
  R (Node (A ++ s :: B)
       (CA ++ Node (CI ++ [b]) (CC ++ mv) :: Node RI RC' :: CB)) x lo typ.
Proof.
  intros HCA Hno Hmv Hbig. unfold growChildAndRemove, mutableChild. step.
  rewrite stealLeft_no by done. step.
  rewrite (decide_True (P := length A < length (A ++ b :: B)))
    by (rewrite length_app; simpl; lia).
  rewrite (lookup_at2 CA _ _ _ (length A + 1)) by lia. step.
  rewrite bool_decide_true by done. step.
  rewrite (lookup_at CA _ _ (length A)) by lia. step.
  rewrite removeAt_head. step.
  rewrite (lookup_at A) by done. step. rewrite (store_at A) by done. step.
  destruct Hmv as [[-> ->]|[rc ->]].
  - simpl. rewrite app_nil_r. rewrite (store_at CA _ _ (length A)) by lia. step.
    rewrite (store_at2 CA) by lia. done.
  - rewrite decide_True by (simpl; lia). simpl.
    rewrite (store_at CA _ _ (length A)) by lia. step.
    rewrite (store_at2 CA) by lia. done.
Qed.

Lemma grow_merge R A b B CA c r CB x typ :
  length CA = length A → no_left CA → length (items r) ≤ lo →
  growChildAndRemove R (Node (A ++ b :: B) (CA ++ c :: r :: CB))
    (length A) x lo typ =
  R (Node (A ++ B)
       (CA ++ Node ((items c ++ [b]) ++ items r) (children c ++ children r) :: CB))
    x lo typ.
Proof.
  intros HCA Hno Hr. unfold growChildAndRemove, mutableChild. step.
  rewrite stealLeft_no by done. step.
  rewrite (decide_True (P := length A < length (A ++ b :: B)))
    by (rewrite length_app; simpl; lia).
  rewrite (lookup_at2 CA _ _ _ (length A + 1)) by lia. step.
  rewrite bool_decide_false by lia. step.
  rewrite (decide_False (P := length (A ++ b :: B) ≤ length A))
    by (rewrite length_app; simpl; lia). step.
  rewrite (lookup_at CA _ _ (length A)) by lia. step.
  rewrite (removeAt_at A) by done. step.
  rewrite (store_at CA _ _ (length A)) by lia. step.
  rewrite (removeAt_at2 CA) by lia. step. rewrite (store_at CA) by lia. done.
Qed.

Lemma grow_merge_last R A' a CA' l c x typ :
  length CA' = length A' → length (items l) ≤ lo →
  growChildAndRemove R (Node (A' ++ [a]) (CA' ++ [l; c]))
    (S (length A')) x lo typ =
  R (Node A'
       (CA' ++ [Node ((items l ++ [a]) ++ items c) (children l ++ children c)]))
    x lo typ.
Proof.
  intros HCA Hl. unfold growChildAndRemove, mutableChild. step.
  rewrite (lookup_at CA' _ _ (length A')) by lia. step.
  rewrite bool_decide_false by lia. step.
  rewrite (decide_False (P := S (length A') < length (A' ++ [a])))
    by (rewrite length_app; simpl; lia). step.
  rewrite (decide_True (P := length (A' ++ [a]) ≤ S (length A')))
    by (rewrite length_app; simpl; lia). step.
  rewrite (lookup_at CA' _ _ (length A')) by lia. step.
  rewrite (removeAt_at A') by done. step.
  rewrite (store_at CA' _ _ (length A')) by lia. step.
  rewrite (removeAt_at2 CA') by lia. step. rewrite (store_at CA') by lia.
  by rewrite app_nil_r.
Qed.
End Grow.

Section GrowShape.
Context {Pair : Type} `{EqDecision Pair}.
Variable nilPair : Pair.
Variable less : Pair → Pair → bool.
Hypothesis SW : StrictWeak less.
Variables lo hi : nat.
Hypothesis Hhi : hi = 2 * lo + 1.

Implicit Types (A B : list Pair) (CA CB cs mv : list (@node Pair)) (c n l r : @node Pair).

Local Abbreviation btree := (btree lo hi).
Local Abbreviation child_ok h := (λ c : @node Pair, lo ≤ length (items c) ∧ btree h c).

Ltac lens :=
  cbn [items children] in *;
  repeat match goal with
    | H : context [length (_ ++ _)] |- _ => rewrite length_app in H
    | |- context [length (_ ++ _)] => rewrite length_app
    end;
  cbn [length] in *; lia.

(** The children moved along with a stolen item, by height. *)
Definition mv_ok (h : nat) (mv : list (@node Pair)) : Prop :=
  match h with
  | 0 => mv = []
  | S h' => ∃ c, mv = [c] ∧ child_ok h' c
  end.

Definition flat (mv : list (@node Pair)) : list Pair := concat (inorder <$> mv).

Lemma node_snoc h l :
  btree h l → 0 < length (items l) →
  ∃ LI s LC' mv, l = Node (LI ++ [s]) (LC' ++ mv) ∧ moved mv LC' ∧ mv_ok h mv ∧
    btree h (Node LI LC') ∧ inorder l = inorder (Node LI LC') ++ s :: flat mv.
Proof.
  destruct l as [its cs]. intros Hb Hlen. cbn [items] in Hlen.
  destruct (snoc_of_length its Hlen) as (LI & s & ->).
  destruct h as [|h].
  - destruct Hb as [Hc Hle]. cbn [items children] in *. subst cs.
    exists LI, s, [], []. split_and!; [done|by left|done| |].
    + apply btree_leaf. lens.
    + by rewrite !inorder_leaf.
  - apply btree_internal in Hb as (Hl & Hle & Hcs).
    destruct (snoc_of_length cs) as (LC' & lc & ->); [lens|].
    apply Forall_app in Hcs as [HLC Hlc]. apply Forall_cons in Hlc as [Hlc _].
    exists LI, s, LC', [lc]. split_and!; [done|right; eauto|simpl; eauto| |].
    + apply btree_internal. split_and!; [lens|lens|done].
    + rewrite inorder_app by lens. unfold flat. simpl.
      by rewrite post_cons, post_nil_l.
Qed.

Lemma node_cons h r :
  btree h r → 0 < length (items r) →
  ∃ s RI mv RC', r = Node (s :: RI) (mv ++ RC') ∧ moved mv RC' ∧ mv_ok h mv ∧
    btree h (Node RI RC') ∧ inorder r = flat mv ++ s :: inorder (Node RI RC').
Proof.
  destruct r as [[|s RI] cs]; intros Hb Hlen; cbn [items length] in Hlen; [lia|].
  destruct h as [|h].
  - destruct Hb as [Hc Hle]. cbn [items children] in *. subst cs.
    exists s, RI, [], []. split_and!; [done|by left|done| |done].
    apply btree_leaf. lens.
  - apply btree_internal in Hb as (Hl & Hle & Hcs).
    destruct cs as [|rc RC']; [simpl in Hl; lia|].
    apply Forall_cons in Hcs as [Hrc HRC].
    exists s, RI, [rc], RC'. split_and!; [done|right; eauto|simpl; eauto| |].
    + apply btree_internal. split_and!; [lens|lens|done].
    + rewrite inorder_cons. unfold flat. simpl. rewrite app_nil_r.
      destruct RC' as [|rc' RC']; [simpl in Hl; lia|].
      by rewrite post_cons, inorder_cons.
Qed.

Lemma node_push_front h c a mv :
  btree h c → mv_ok h mv → length (items c) < hi →
  btree h (Node (a :: items c) (mv ++ children c)) ∧
  inorder (Node (a :: items c) (mv ++ children c)) = flat mv ++ a :: inorder c.
Proof.
  destruct c as [CI CC]. intros Hb Hmv Hlen. cbn [items children] in *.
  destruct h as [|h].
  - destruct Hb as [Hc Hle]. cbn [items children] in *. subst CC.
    simpl in Hmv. subst mv. split; [|done]. apply btree_leaf. lens.
  - apply btree_internal in Hb as (Hl & Hle & Hcs).
    destruct Hmv as (lc & -> & Hlc). split.
    + apply btree_internal. split_and!; [lens|lens|by constructor].
    + simpl. rewrite inorder_cons. unfold flat. simpl. rewrite app_nil_r.
      destruct CC as [|c0 CC]; [simpl in Hl; lia|].
      by rewrite post_cons, inorder_cons.
Qed.

Lemma node_push_back h c b mv :
  btree h c → mv_ok h mv → length (items c) < hi →
  btree h (Node (items c ++ [b]) (children c ++ mv)) ∧
  inorder (Node (items c ++ [b]) (children c ++ mv)) = inorder c ++ b :: flat mv.
Proof.
  destruct c as [CI CC]. intros Hb Hmv Hlen. cbn [items children] in *.
  destruct h as [|h].
  - destruct Hb as [Hc Hle]. cbn [items children] in *. subst CC.
    simpl in Hmv. subst mv. split; [|done]. apply btree_leaf. lens.
  - apply btree_internal in Hb as (Hl & Hle & Hcs).
    destruct Hmv as (lc & -> & Hlc). split.
    + apply btree_internal. split_and!; [lens|lens|].
      apply Forall_app. split; [done|by constructor].
    + rewrite inorder_app by lens. unfold flat. simpl.
      by rewrite post_cons, post_nil_l.
Qed.

Lemma node_merge h c b r :
  btree h c → btree h r → length (items c) + 1 + length (items r) ≤ hi →
  btree h (Node ((items c ++ [b]) ++ items r) (children c ++ children r)) ∧
  inorder (Node ((items c ++ [b]) ++ items r) (children c ++ children r)) =
    inorder c ++ b :: inorder r.
Proof.
  destruct c as [CI CC], r as [RI RC]. intros Hc Hr Hlen. cbn [items children] in *.
  destruct h as [|h].
  - destruct Hc as [Hc _], Hr as [Hr _]. cbn [items children] in *. subst CC RC.
    split; [apply btree_leaf; lens|]. simpl. rewrite !inorder_leaf.
    by rewrite <- app_assoc.
  - apply btree_internal in Hc as (Hlc & _ & Hcs), Hr as (Hlr & _ & Hrs).
    split.
    + apply btree_internal. split_and!; [lens|lens|]. by apply Forall_app.
    + rewrite <- app_assoc. rewrite inorder_app by lens. f_equal.
      destruct RC as [|r0 RC]; [simpl in Hlr; lia|]. simpl.
      by rewrite post_cons, inorder_cons.
Qed.

(** The node after the rebalancing step of [growChildAndRemove] at child
    [i], by its items. *)
Inductive grown_shape : list Pair → nat → @node Pair → Prop :=
  | gs_left A' a B s CA' l' c' CB :
      length CA' = length A' → lo < length (items c') → lt less s a →
      grown_shape (A' ++ a :: B) (S (length A'))
        (Node (A' ++ s :: B) (CA' ++ l' :: c' :: CB))
  | gs_right A b B s CA c' r' CB :
      length CA = length A → lo < length (items c') → lt less b s →
      grown_shape (A ++ b :: B) (length A)
        (Node (A ++ s :: B) (CA ++ c' :: r' :: CB))
  | gs_merge A b B CA m CB :
      length CA = length A → lo < length (items m) →
      grown_shape (A ++ b :: B) (length A) (Node (A ++ B) (CA ++ m :: CB))
  | gs_merge_last A a CA m :
      length CA = length A → lo < length (items m) →
      grown_shape (A ++ [a]) (S (length A)) (Node A (CA ++ [m])).

Lemma increasing_around L a R :
  increasing less (L ++ a :: R) →
  (∀ y, y ∈ L → lt less y a) ∧ (∀ y, y ∈ R → lt less a y).
Proof.
  intros (_ & HaR & Hlt)%increasing_app.
  apply StronglySorted_cons in HaR as [HaR _]. rewrite Forall_forall in HaR.
  split; [|done]. intros y Hy. apply Hlt; [done|]. by left.
Qed.

Lemma grow_spec h n i c :
  btree (S h) n → increasing less (inorder n) →
  1 ≤ length (items n) → children n !! i = Some c → length (items c) ≤ lo →
  ∃ n1,
    (∀ R x typ, growChildAndRemove R n i x lo typ = R n1 x lo typ) ∧
    btree (S h) n1 ∧ inorder n1 = inorder n ∧
    length (items n) ≤ length (items n1) + 1 ∧
    grown_shape (items n) i n1.
Proof.
  destruct n as [its cs]. intros Hb Hinc Hits Hc Hsmall. cbn [items children] in *.
  assert (i ≤ length its) as Hi.
  { apply lookup_lt_Some in Hc. destruct Hb as (Hl & _).
    cbn [items children] in Hl. lia. }
  destruct (split_at_le its i Hi) as (A & B & -> & <-). clear Hi.
  destruct (internal_at_child lo hi h A B cs Hb)
    as (CA & c0 & CB & -> & HCA & HCB & HFA & [Hclo Hbc] & HFB).
  rewrite lookup_at in Hc by lia. injection Hc as ->.
  pose proof Hb as (Hlen & Hle & _)%btree_mid.
  (* can we steal on the left? *)
  assert ((∃ CA' l, CA = CA' ++ [l] ∧ lo < length (items l)) ∨ no_left lo CA)
    as [(CA' & l & -> & Hl)|Hno].
  { destruct CA as [|l CA' _] using rev_ind.
    - right. intros CA' l E. by destruct CA'.
    - destruct (decide (lo < length (items l))); [left; eauto|right].
      intros CA'' l' E. apply app_inj_tail in E as [-> ->]. lia. }
  { (* steal from the left child *)
    destruct (snoc_of_length A) as (A' & a & ->); [lens|].
    apply Forall_app in HFA as [HFA' Hlok]. apply Forall_cons in Hlok as [[Hllo Hbl] _].
    destruct (node_snoc h l Hbl) as (LI & s & LC' & mv & -> & Hmv & Hmvok & Hbl' & Hinl); [lia|].
    destruct (node_push_front h c a mv Hbc Hmvok) as [Hbc' Hinc']; [lia|].
    destruct c as [CI CC]. cbn [items children] in *.
    assert (length CA' = length A') as HCA' by lens.
    assert (length (A' ++ [a]) = S (length A')) as -> by lens.
    rewrite <- ?(app_assoc A'), <- ?(app_assoc CA') in *. cbn [app] in *.
    eexists. split; [intros; apply (grow_steal_left lo); [done|done|lens]|].
    rewrite !inorder_mid_item in * by done.
    split.
    { apply (btree_mid _ _ _ _ (s :: B) _ _ (_ :: CB)).
      split_and!; first [done | lens | constructor; [split; [lens|done]|done]]. }
    split; [rewrite Hinc', Hinl; by rewrite <- !app_assoc|].
    split; [lens|].
    apply gs_left; [done|lens|].
    destruct (increasing_around _ _ _ Hinc) as [Hlt _]. apply Hlt.
    rewrite Hinl. set_solver. }
  destruct B as [|b B].
  { (* the last child: merge with its left neighbour *)
    destruct CB; [|done]. rewrite app_nil_r in *.
    destruct (snoc_of_length A) as (A' & a & ->); [lens|].
    destruct (snoc_of_length CA) as (CA' & l & ->); [lens|].
    apply Forall_app in HFA as [HFA' Hlok]. apply Forall_cons in Hlok as [[Hllo Hbl] _].
    pose proof (Hno CA' l eq_refl) as Hlsmall.
    destruct (node_merge h l a c Hbl Hbc) as [Hbm Hinm]; [lia|].
    assert (length CA' = length A') as HCA' by lens.
    assert (length (A' ++ [a]) = S (length A')) as -> by lens.
    rewrite <- ?(app_assoc A'), <- ?(app_assoc CA') in *. cbn [app] in *.
    eexists. split; [intros; apply (grow_merge_last lo); done|].
    split.
    { apply btree_internal. split_and!; [lens|lens|].
      apply Forall_app. split; [done|]. apply Forall_singleton. split; [lens|done]. }
    split.
    { rewrite inorder_snoc_child by done. rewrite Hinm.
      rewrite (inorder_mid_item A' a [] CA' l c []) by done.
      by rewrite post_nil_l, app_nil_r, <- !app_assoc. }
    split; [lens|].
    apply gs_merge_last; [done|lens]. }
  destruct CB as [|r CB]; [done|]. apply Forall_cons in HFB as [[Hrlo Hbr] HFB].
  destruct (decide (lo < length (items r))) as [Hr|Hr].
  - (* steal from the right child *)
    destruct (node_cons h r Hbr) as (s & RI & mv & RC' & -> & Hmv & Hmvok & Hbr' & Hinr); [lia|].
    destruct (node_push_back h c b mv Hbc Hmvok) as [Hbc' Hinc']; [lia|].
    destruct c as [CI CC]. cbn [items children] in *.
    eexists. split; [intros; apply (grow_steal_right lo); [done|done|done|lens]|].
    rewrite !inorder_mid_item in * by done.
    split.
    { apply (btree_mid _ _ _ _ (s :: B) _ _ (_ :: CB)).
      split_and!; first [done | lens | constructor; [split; [lens|done]|done]]. }
    split; [rewrite Hinc', Hinr; by rewrite <- !app_assoc|].
    split; [lens|].
    apply gs_right; [done|lens|].
    destruct (increasing_around _ _ _ Hinc) as [_ Hlt]. apply Hlt.
    rewrite Hinr. set_solver.
  - (* merge with the right child *)
    destruct (node_merge h c b r Hbc Hbr) as [Hbm Hinm]; [lia|].
    eexists. split; [intros; apply (grow_merge lo); [done|done|lia]|].
    split.
    { apply btree_mid. split_and!; first [done | lens]. }
    split.
    { rewrite inorder_mid by done. rewrite Hinm.
      rewrite inorder_mid_item by done. by rewrite <- !app_assoc. }
    split; [lens|].
    apply gs_merge; [done|lens].
Qed.
End GrowShape.

Section RemoveProof.
Context {Pair : Type} `{EqDecision Pair}.
Variable nilPair : Pair.
Variable less : Pair → Pair → bool.
Hypothesis SW : StrictWeak less.
Variables lo hi : nat.
Hypothesis Hhi : hi = 2 * lo + 1.

Implicit Types (A B : list Pair) (CA CB cs mv : list (@node Pair)) (c n l r : @node Pair).

Local Abbreviation btree := (btree lo hi).
Local Abbreviation child_ok h := (λ c : @node Pair, lo ≤ length (items c) ∧ btree h c).
Local Abbreviation rm_list := (rm_list nilPair less).
Local Abbreviation target := (target less).
Local Abbreviation route := (route less).
Local Abbreviation grown_shape := (grown_shape less lo).

Ltac step := cbn [mbind option_bind items children].
Ltac lens :=
  cbn [items children] in *;
  repeat match goal with
    | H : context [length (_ ++ _)] |- _ => rewrite length_app in H
    | |- context [length (_ ++ _)] => rewrite length_app
    end;
  cbn [length] in *; lia.

Definition remove_ok (h fuel : nat) (n : @node Pair) (x : Pair) (typ : toRemove) : Prop :=
  ∃ n', remove nilPair less fuel n x lo typ = Some ((rm_list typ x (inorder n)).1, n') ∧
    btree h n' ∧ inorder n' = (rm_list typ x (inorder n)).2 ∧
    length (items n) ≤ length (items n') + 1.

Lemma inorder_nonempty h n : btree h n → 0 < length (items n) → inorder n ≠ [].
Proof.
  intros Hb Hlen Hnil. apply (items_sublist lo hi) in Hb.
  apply sublist_length in Hb. rewrite Hnil in Hb. simpl in Hb. lia.
Qed.

Lemma take_last (l : list Pair) :
  l ≠ [] → take (length l - 1) l ++ [default nilPair (last l)] = l.
Proof.
  destruct l as [|z l _] using rev_ind; [done|]. intros _.
  rewrite length_app, last_snoc. simpl. rewrite Nat.add_sub.
  by rewrite take_app_length.
Qed.

Lemma target_route typ x its cs i found :
  increasing less its → target typ (Node its cs) x = Some (i, found) →
  ∃ A B, its = A ++ B ∧ length A = i ∧ route typ x found A B.
Proof.
  intros Hits Ht.
  destruct (target_spec less SW typ x its Hits) as (A & B & found' & -> & Ht' & Hr).
  rewrite Ht' in Ht. injection Ht as <- <-. eauto.
Qed.

(** Removal at a leaf. *)
Lemma remove_leaf fuel n x typ :
  1 ≤ fuel → btree 0 n → 1 ≤ length (items n) → increasing less (inorder n) →
  remove_ok 0 fuel n x typ.
Proof.
  intros Hfuel Hb Hlen Hinc. destruct fuel as [|fuel]; [lia|].
  destruct n as [its cs]. destruct Hb as [Hc Hle]. cbn [items children] in *.
  subst cs. rewrite inorder_leaf in Hinc. unfold remove_ok.
  rewrite inorder_leaf. cbn [remove]. step.
  destruct typ; simpl rm_list.
  - destruct (find_decomp less SW its x Hinc) as (A & B & found & Hf & HA & HB & Hform).
    rewrite Hf. step. rewrite decide_True by done.
    destruct found.
    + destruct Hform as (y & -> & Heq). rewrite removeAt_at by done. step.
      rewrite (find_list_found nilPair less SW), (del_list_found less SW) by done.
      eexists. split; [done|]. split; [apply (btree_leaf lo hi); lens|].
      split; [done|lens].
    + subst its.
      destruct (segment_facts nilPair less SW A [] B x) as (_ & _ & Hfi & Hd);
        [done|by apply (below_last less)|by apply (above_head less)|].
      simpl in Hfi, Hd. rewrite Hfi, Hd.
      eexists. split; [done|]. split; [by apply (btree_leaf lo hi)|]. split; [done|lens].
  - rewrite decide_True by done. destruct its as [|y its]; [simpl in Hlen; lia|].
    rewrite removeAt_head. step. simpl.
    eexists. split; [done|]. split; [apply (btree_leaf lo hi); lens|]. split; [done|lens].
  - rewrite decide_True by done.
    destruct its as [|y its _] using rev_ind; [simpl in Hlen; lia|].
    rewrite pop_snoc. step. rewrite last_snoc, length_app. simpl.
    rewrite Nat.add_sub, take_app_length.
    eexists. split; [done|]. split; [apply (btree_leaf lo hi); lens|]. split; [done|lens].
Qed.

(** Removal below a child that can spare an item. *)
Lemma remove_descend h :
  (∀ fuel c x typ, 2 * h + 1 ≤ fuel → btree h c → 1 ≤ length (items c) →
     increasing less (inorder c) → remove_ok h fuel c x typ) →
  ∀ fuel n x typ i found c,
    2 * h + 2 ≤ fuel → btree (S h) n → increasing less (inorder n) →
    target typ n x = Some (i, found) → children n !! i = Some c →
    lo < length (items c) →
    ∃ n', remove nilPair less fuel n x lo typ = Some ((rm_list typ x (inorder n)).1, n') ∧
      btree (S h) n' ∧ inorder n' = (rm_list typ x (inorder n)).2 ∧
      length (items n') = length (items n).
Proof.
  intros IH fuel n x typ i found c Hfuel Hb Hinc Ht Hc Hbig.
  destruct fuel as [|fuel]; [lia|].
  assert (increasing less (items n)) as Hits by (by eapply items_increasing).
  destruct n as [its cs]. cbn [items children] in *.
  destruct (target_route typ x its cs i found Hits Ht) as (A & B & -> & <- & Hr).
  destruct (internal_at_child lo hi h A B cs Hb)
    as (CA & c0 & CB & -> & HCA & HCB & HFA & [Hclo Hbc] & HFB).
  rewrite lookup_at in Hc by lia. injection Hc as ->.
  pose proof Hb as (Hlen & Hle & _)%btree_mid.
  rewrite remove_internal by lens. rewrite Ht. step.
  rewrite lookup_at by lia. step. rewrite decide_False by lia.
  unfold mutableChild. step. rewrite lookup_at by lia. step.
  assert (inorder c ≠ []) as Hne by (eapply inorder_nonempty; [done|lia]).
  destruct found.
  - (* the item is in this node: its predecessor takes its place *)
    destruct typ; simpl in Hr; [|by destruct Hr..].
    destruct Hr as (HA & y & B0 & -> & Heq & HB0).
    destruct CB as [|c2 CB]; [done|]. apply Forall_cons in HFB as [Hc2 HFB].
    rewrite lookup_at by done. step.
    rewrite inorder_mid_item in Hinc |- * by done.
    assert (increasing less (inorder c)) as Hic.
    { apply increasing_app in Hinc as (Hl & _). by apply increasing_app in Hl as (_ & ? & _). }
    destruct (IH fuel c nilPair removeMax) as (c' & -> & Hb' & Hin' & Hl'); [lia|done|lia|done|].
    step. rewrite store_at by done. step. rewrite store_at by lia. step.
    simpl in Hin'. simpl.
    rewrite (find_list_found nilPair less SW), (del_list_found less SW) by done.
    eexists. split; [done|]. split.
    { apply (btree_mid _ _ _ _ (_ :: B0) _ _ (c2 :: CB)).
      split_and!; first [done | lens | by constructor]. }
    split; [|lens].
    rewrite inorder_mid_item by done. rewrite Hin'.
    pose proof (take_last (inorder c) Hne) as Ec.
    set (T := take _ (inorder c)) in *. set (P := default _ _) in *.
    rewrite <- Ec. by rewrite <- !app_assoc.
  - (* the item, if any, is below the child *)
    rewrite inorder_mid in Hinc |- * by done.
    assert (increasing less (inorder c)) as Hic.
    { apply increasing_app in Hinc as (_ & Hl & _). by apply increasing_app in Hl as (? & _). }
    destruct (IH fuel c x typ) as (c' & -> & Hb' & Hin' & Hl'); [lia|done|lia|done|].
    step. rewrite store_at by lia. step.
    rewrite (rm_list_segment nilPair less SW) by done. simpl.
    eexists. split; [done|]. split.
    { apply btree_mid. split_and!; first [done | lens]. }
    split; [|done].
    rewrite inorder_mid by done. by rewrite Hin'.
Qed.

Lemma route_left typ x found A' a s B :
  route typ x found (A' ++ [a]) B → lt less s a → route typ x found (A' ++ [s]) B.
Proof.
  intros Hr Hsa. destruct typ; simpl in *.
  - destruct Hr as [HA HB]. split; [|done].
    apply Forall_app in HA as [HA' Ha]. apply Forall_cons in Ha as [Ha _].
    apply Forall_app. split; [done|]. apply Forall_singleton.
    exact (less_trans _ SW s a x Hsa Ha).
  - destruct Hr as [Hr _]. by destruct A'.
  - done.
Qed.

Lemma route_right typ x found A b s B :
  route typ x found A (b :: B) → lt less b s → route typ x false A (s :: B).
Proof.
  intros Hr Hbs. destruct typ; simpl in *.
  - destruct Hr as [HA HB]. split; [done|]. destruct found.
    + destruct HB as (y & B0 & [= <- <-] & [Hbx _] & HB0). constructor; [|done].
      exact (lt_equiv_l _ SW x b s Hbs Hbx).
    + apply Forall_cons in HB as [Hxb HB]. constructor; [|done].
      exact (less_trans _ SW x b s Hxb Hbs).
  - destruct Hr as [-> _]. done.
  - by destruct Hr.
Qed.

Lemma route_merge typ x found A b B :
  route typ x found A (b :: B) → route typ x false A B.
Proof.
  intros Hr. destruct typ; simpl in *.
  - destruct Hr as [HA HB]. split; [done|]. destruct found.
    + by destruct HB as (y & B0 & [= <- <-] & _ & HB0).
    + by apply Forall_cons in HB as [_ HB].
  - destruct Hr as [-> _]. done.
  - by destruct Hr.
Qed.

Lemma route_merge_last typ x found A a :
  route typ x found (A ++ [a]) [] → route typ x false A [].
Proof.
  intros Hr. destruct typ; simpl in *.
  - destruct Hr as [HA HB]. apply Forall_app in HA as [HA _]. done.
  - destruct Hr as [Hr _]. by destruct A.
  - done.
Qed.

(** After the rebalancing step the child to follow can spare an item. *)
Lemma retarget typ x its cs i found n1 :
  grown_shape its i n1 → increasing less its → increasing less (items n1) →
  target typ (Node its cs) x = Some (i, found) →
  ∃ i1 found1 c1, target typ n1 x = Some (i1, found1) ∧
    children n1 !! i1 = Some c1 ∧ lo < length (items c1).
Proof.
  intros Hg Hits Hits1 Ht.
  destruct (target_route typ x its cs i found Hits Ht) as (A0 & B0 & E & Hi & Hr).
  destruct Hg as [A' a B s CA' l' c' CB HCA Hbig Hsa
                 |A b B s CA c' r' CB HCA Hbig Hbs
                 |A b B CA m CB HCA Hbig
                 |A a CA m HCA Hbig]; cbn [items children] in *.
  - rewrite (cons_middle a A') , app_assoc in E.
    apply app_inj_1 in E as [<- <-]; [|lens].
    apply (route_left _ _ _ _ _ s) in Hr; [|done].
    rewrite (cons_middle s A'), app_assoc in Hits1 |- *.
    exists (length (A' ++ [s])), found, c'. split; [by apply route_target|].
    split; [|done]. apply lookup_at2. lens.
  - apply app_inj_1 in E as [<- <-]; [|lens].
    apply (route_right _ _ _ _ _ s) in Hr; [|done].
    exists (length A), false, c'. split; [by apply route_target|].
    split; [|done]. apply lookup_at. lens.
  - apply app_inj_1 in E as [<- <-]; [|lens].
    apply route_merge in Hr.
    exists (length A), false, m. split; [by apply route_target|].
    split; [|done]. apply lookup_at. lens.
  - rewrite <- (app_nil_r (A ++ [a])) in E.
    apply app_inj_1 in E as [<- <-]; [|lens].
    apply route_merge_last in Hr.
    exists (length A), false, m. split.
    + replace (Node A (CA ++ [m])) with (Node (A ++ []) (CA ++ [m]))
        by (by rewrite app_nil_r).
      apply (route_target less SW typ x false A [] (CA ++ [m])); [|done].
      by rewrite app_nil_r.
    + split; [|done]. apply lookup_at. lens.
Qed.

(** Removal from a subtree whose top node holds an item. *)
Theorem remove_spec h : ∀ fuel n x typ,
  2 * h + 1 ≤ fuel → btree h n → 1 ≤ length (items n) →
  increasing less (inorder n) → remove_ok h fuel n x typ.
Proof.
  induction h as [|h IH]; intros fuel n x typ Hfuel Hb Hlen Hinc.
  { by apply remove_leaf. }
  assert (increasing less (items n)) as Hits by (by eapply items_increasing).
  destruct (target_spec less SW typ x (items n) Hits) as (A & B & found & E & Ht & Hr).
  destruct n as [its cs]. cbn [items children] in *.
  specialize (Ht cs). subst its.
  destruct (internal_at_child lo hi h A B cs Hb)
    as (CA & c & CB & -> & HCA & HCB & HFA & [Hclo Hbc] & HFB).
  assert ((CA ++ c :: CB) !! length A = Some c) as Hc by (apply lookup_at; lia).
  destruct (decide (length (items c) ≤ lo)) as [Hsmall|Hbig].
  - destruct (grow_spec less SW lo hi Hhi h _ _ c Hb Hinc Hlen Hc Hsmall)
      as (n1 & Hgrow & Hb1 & Hin1 & Hlen1 & Hshape).
    cbn [items children] in *.
    assert (increasing less (items n1)) as Hits1.
    { eapply items_increasing; [done|]. by rewrite Hin1. }
    destruct (retarget typ x _ _ _ found n1 Hshape Hits Hits1 Ht)
      as (i1 & found1 & c1 & Ht1 & Hc1 & Hbig1).
    destruct fuel as [|fuel]; [lia|].
    destruct (remove_descend h IH fuel n1 x typ i1 found1 c1)
      as (n' & Hrem & Hb' & Hin' & Hl'); [lia|done|by rewrite Hin1|done..|].
    exists n'. rewrite remove_internal by lens. rewrite Ht. step.
    rewrite Hc. step. rewrite decide_True by done.
    rewrite Hgrow, Hrem, <- Hin1.
    split_and!; [done|done|done|lens].
  - destruct (remove_descend h IH fuel (Node (A ++ B) (CA ++ c :: CB))
                x typ (length A) found c)
      as (n' & Hrem & Hb' & Hin' & Hl'); [lia|done|done|done|done|lia|].
    exists n'. split_and!; [done|done|done|lens].
Qed.
End RemoveProof.

Section Fuel.
Context {Pair : Type} `{EqDecision Pair}.
Variable nilPair : Pair.
Variable less : Pair → Pair → bool.

Implicit Types (n c : @node Pair).

(** Destructs the next bind or test of a computation known to return. *)
Ltac unbind H :=
  match type of H with
  | (?m ≫= _) = Some _ =>
      let E := fresh "E" in
      destruct m eqn:E; cbn [mbind option_bind] in H |- *; [|discriminate H]
  | (if ?b then _ else _) = Some _ =>
      let E := fresh "E" in destruct b eqn:E
  | (let '(_, _) := ?p in _) = Some _ => destruct p
  | match ?x with _ => _ end = Some _ =>
      let E := fresh "E" in destruct x eqn:E
  | None = Some _ => discriminate H
  end.

(** More fuel does not change a result. *)
Lemma insert_mono f : ∀ f' n x m r,
  f ≤ f' → insert nilPair less f n x m = Some r →
  insert nilPair less f' n x m = Some r.
Proof.
  induction f as [|f IH]; intros f' n x m r Hle Hr; [done|].
  destruct f' as [|f']; [lia|]. cbn [insert] in Hr |- *.
  assert (∀ c r, insert nilPair less f c x m = Some r →
                 insert nilPair less f' c x m = Some r) as IH'
    by (intros; eapply IH; [lia|done]).
  repeat first
    [ done
    | match type of Hr with
      | (insert _ _ f ?c _ _ ≫= _) = Some _ =>
          let E := fresh "E" in
          destruct (insert nilPair less f c x m) eqn:E;
          cbn [mbind option_bind] in Hr; [|discriminate Hr];
          rewrite (IH' _ _ E); cbn [mbind option_bind]
      end
    | unbind Hr ].
Qed.

Lemma growChildAndRemove_mono (R R' : @node Pair → Pair → nat → toRemove → option (Pair * @node Pair)) :
  (∀ n x lo typ r, R n x lo typ = Some r → R' n x lo typ = Some r) →
  ∀ n i x lo typ r,
    growChildAndRemove R n i x lo typ = Some r →
    growChildAndRemove R' n i x lo typ = Some r.
Proof.
  intros HR n i x lo typ r Hr. unfold growChildAndRemove in *.
  repeat first
    [ done
    | match type of Hr with
      | R _ _ _ _ = Some _ => by apply HR
      end
    | unbind Hr ].
Qed.

Lemma remove_mono f : ∀ f' n x lo typ r,
  f ≤ f' → remove nilPair less f n x lo typ = Some r →
  remove nilPair less f' n x lo typ = Some r.
Proof.
  induction f as [|f IH]; intros f' n x lo typ r Hle Hr; [done|].
  destruct f' as [|f']; [lia|]. cbn [remove] in Hr |- *.
  assert (∀ c x lo typ r, remove nilPair less f c x lo typ = Some r →
                 remove nilPair less f' c x lo typ = Some r) as IH'
    by (intros; eapply IH; [lia|done]).
  repeat first
    [ done
    | match type of Hr with
      | growChildAndRemove _ _ _ _ _ _ = Some _ =>
          by apply (growChildAndRemove_mono _ _ IH')
      | (remove _ _ f ?c ?y ?l ?t ≫= _) = Some _ =>
          let E := fresh "E" in
          destruct (remove nilPair less f c y l t) eqn:E;
          cbn [mbind option_bind] in Hr; [|discriminate Hr];
          rewrite (IH' _ _ _ _ _ E); cbn [mbind option_bind]
      end
    | unbind Hr ].
Qed.
End Fuel.

Section ListFacts.
Context {Pair : Type} `{EqDecision Pair}.
Variable nilPair : Pair.
Variable less : Pair → Pair → bool.
Hypothesis SW : StrictWeak less.

Local Abbreviation ins_list := (ins_list less).
Local Abbreviation find_list := (find_list nilPair less).
Local Abbreviation del_list := (del_list less).
Local Abbreviation rm_list := (rm_list nilPair less).

Lemma equiv_key_refl x : equiv_key less x x.
Proof. split; apply (less_irrefl _ SW). Qed.

(** The two cases of an upsert or a removal on an increasing list. *)
Lemma list_cases x l :
  increasing less l →
  (∃ l1 y l2, l = l1 ++ y :: l2 ∧ equiv_key less y x ∧ find_list x l = y ∧
     ins_list x l = l1 ++ x :: l2 ∧ del_list x l = l1 ++ l2) ∨
  ((∀ y, y ∈ l → ¬ equiv_key less y x) ∧ find_list x l = nilPair ∧
     del_list x l = l ∧ ∃ l1 l2, l = l1 ++ l2 ∧ ins_list x l = l1 ++ x :: l2).
Proof.
  induction l as [|z l IH]; intros Hl.
  - right. split_and!; [by intros ? ?%elem_of_nil|done|done|]. by exists [], [].
  - apply StronglySorted_cons in Hl as [Hz Hl]. simpl.
    destruct (less x z) eqn:Hxz; [|destruct (less z x) eqn:Hzx].
    + right. split_and!; [|done|done|by exists [], (z :: l)].
      intros y [->|Hy]%elem_of_cons [Hyx Hxy]; [congruence|].
      rewrite Forall_forall in Hz. specialize (Hz y Hy).
      pose proof (less_trans _ SW _ _ _ Hxz Hz). congruence.
    + destruct (IH Hl) as [(l1 & y & l2 & -> & Heq & Hf & Hi & Hd)
                          |(Hno & Hf & Hd & l1 & l2 & -> & Hi)].
      * left. exists (z :: l1), y, l2. rewrite Hi, Hd. done.
      * right. rewrite Hi, Hd. split_and!; [|done|done|by exists (z :: l1), l2].
        intros y [->|Hy]%elem_of_cons; [|by apply Hno]. intros [? ?]. congruence.
    + left. exists [], z, l. done.
Qed.

Lemma find_list_nil_iff x l :
  increasing less l → nilPair ∉ l →
  find_list x l = nilPair ↔ ∀ y, y ∈ l → ¬ equiv_key less y x.
Proof.
  intros Hl Hnil.
  destruct (list_cases x l Hl) as [(l1 & y & l2 & -> & Heq & Hf & _)|(Hno & Hf & _)].
  - rewrite Hf. split.
    + intros ->. exfalso. apply Hnil. set_solver.
    + intros Hno. exfalso. apply (Hno y); [set_solver|done].
  - done.
Qed.

Lemma ins_list_elem x l y : y ∈ ins_list x l → y = x ∨ y ∈ l.
Proof.
  induction l as [|z l IH]; simpl.
  - set_solver.
  - destruct (less x z); [|destruct (less z x)]; set_solver.
Qed.

Lemma ins_list_length x l :
  increasing less l → nilPair ∉ l →
  length (ins_list x l) =
    if decide (find_list x l = nilPair) then S (length l) else length l.
Proof.
  intros Hl Hnil.
  destruct (list_cases x l Hl) as [(l1 & y & l2 & -> & Heq & Hf & Hi & _)
                                  |(Hno & Hf & _ & l1 & l2 & -> & Hi)];
    rewrite Hf, Hi.
  - rewrite decide_False; [by rewrite !length_app|].
    intros ->. apply Hnil. set_solver.
  - rewrite decide_True by done. rewrite !length_app. simpl. lia.
Qed.

(** What a removal returns and leaves, on a list without the sentinel. *)
Lemma rm_list_facts typ x l :
  increasing less l → nilPair ∉ l →
  (rm_list typ x l).2 `sublist_of` l ∧
  if decide ((rm_list typ x l).1 = nilPair) then (rm_list typ x l).2 = l
  else (rm_list typ x l).1 ∈ l ∧ length l = S (length (rm_list typ x l).2).
Proof.
  intros Hl Hnil. destruct typ; simpl.
  - split; [apply del_list_sublist|].
    destruct (list_cases x l Hl) as [(l1 & y & l2 & -> & Heq & Hf & _ & Hd)
                                    |(Hno & Hf & Hd & _)]; rewrite Hf, Hd.
    + rewrite decide_False by (intros ->; apply Hnil; set_solver).
      split; [set_solver|]. rewrite !length_app. simpl. lia.
    + by rewrite decide_True.
  - destruct l as [|z l]; simpl; [by rewrite decide_True|].
    split; [by constructor|]. rewrite decide_False by set_solver.
    split; [set_solver|done].
  - destruct l as [|z l _] using rev_ind; simpl; [by rewrite decide_True|].
    rewrite last_snoc, length_app. simpl. rewrite Nat.add_sub, take_app_length.
    split; [by apply sublist_inserts_r|]. rewrite decide_False by set_solver.
    split; [set_solver|]. rewrite ?length_app. simpl. lia.
Qed.

Lemma rm_list_nil typ x : rm_list typ x [] = (nilPair, []).
Proof. by destruct typ. Qed.
End ListFacts.

Section TreeProofs.
Context {Pair : Type} `{EqDecision Pair}.
Variable nilPair : Pair.
Variable less : Pair → Pair → bool.
Hypothesis SW : StrictWeak less.

Implicit Types (A B : list Pair) (CA CB cs : list (@node Pair)) (c n r : @node Pair).
Implicit Types t : @PairTree Pair.

Local Abbreviation ins_list := (ins_list less).
Local Abbreviation find_list := (find_list nilPair less).
Local Abbreviation rm_list := (rm_list nilPair less).
Local Abbreviation tree_inv := (tree_inv nilPair less).

Ltac step := cbn [mbind option_bind items children].
Ltac lens :=
  cbn [items children] in *;
  repeat match goal with
    | H : context [length (_ ++ _)] |- _ => rewrite length_app in H
    | |- context [length (_ ++ _)] => rewrite length_app
    end;
  cbn [length] in *; lia.

Lemma btree_height lo hi h n : btree lo hi h n → height n = h.
Proof.
  revert n. induction h as [|h IH]; intros [its cs] Hb.
  - destruct Hb as [Hc _]. cbn [items children] in Hc. by subst.
  - destruct Hb as (Hl & _ & Hcs). cbn [items children] in *.
    destruct cs as [|c cs]; [simpl in Hl; lia|].
    apply Forall_cons in Hcs as [[_ Hc] _]. simpl. f_equal. by apply IH.
Qed.

Lemma child_increasing lo hi h n c :
  btree lo hi (S h) n → increasing less (inorder n) → c ∈ children n →
  increasing less (inorder c).
Proof.
  destruct n as [its cs]. intros Hb Hinc Hc. cbn [children] in Hc.
  apply list_elem_of_split in Hc as (CA & CB & ->).
  pose proof Hb as (Hl & _). cbn [items children] in Hl.
  destruct (split_at_le its (length CA)) as (A & B & -> & HA); [lens|].
  rewrite inorder_mid in Hinc by done.
  apply increasing_app in Hinc as (_ & Hinc & _).
  by apply increasing_app in Hinc as (? & _).
Qed.

(** The structural invariant of claim C1 follows from the shape kept by
    the operations. *)
Lemma btree_node_ok d h : ∀ n top,
  2 ≤ d → btree (d - 1) (d * 2 - 1) h n → increasing less (inorder n) →
  (top = false → d - 1 ≤ length (items n)) →
  node_ok less d top n.
Proof.
  induction h as [|h IH]; intros n top Hd Hb Hinc Htop.
  - pose proof (items_increasing less _ _ _ _ Hb Hinc) as Hits.
    destruct Hb as [Hc Hle]. constructor; [by left|done| |].
    + intros Ht. specialize (Htop Ht). lia.
    + rewrite Hc. constructor.
  - pose proof (items_increasing less _ _ _ _ Hb Hinc) as Hits.
    pose proof Hb as (Hl & Hle & Hcs). constructor; [by right|done| |].
    + intros Ht. specialize (Htop Ht). lia.
    + apply Forall_forall. intros c Hc. rewrite Forall_forall in Hcs.
      destruct (Hcs c Hc) as [Hclo Hbc].
      apply IH; [done|done| |done].
      by eapply child_increasing.
Qed.

Lemma get_spec lo hi h : ∀ fuel n x,
  h < fuel → btree lo hi h n → increasing less (inorder n) →
  get nilPair less fuel n x = Some (find_list x (inorder n)).
Proof.
  induction h as [|h IH]; intros fuel n x Hfuel Hb Hinc;
    (destruct fuel as [|fuel]; [lia|]);
    assert (increasing less (items n)) as Hits by (by eapply items_increasing);
    destruct (find_decomp less SW (items n) x Hits)
      as (A & B & found & Hfind & HA & HB & Hform);
    destruct n as [its cs]; cbn [items children] in *;
    cbn [get]; step; rewrite Hfind; step.
  - destruct Hb as [Hcs Hlen]; cbn [items children] in *; subst cs.
    rewrite inorder_leaf in *. destruct found.
    + destruct Hform as (y & -> & Heq). rewrite lookup_at by done.
      by rewrite (find_list_found nilPair less SW).
    + subst its. rewrite decide_False by (simpl; lia).
      destruct (segment_facts nilPair less SW A [] B x) as (_ & _ & Hf & _);
        [done|by apply (below_last less)|by apply (above_head less)|].
      simpl in Hf. by rewrite Hf.
  - destruct found.
    + destruct Hform as (y & -> & Heq).
      destruct (internal_at_item lo hi h A y B cs Hb)
        as (CA & c1 & c2 & CB & -> & HCA & HCB & _).
      rewrite lookup_at by done. rewrite inorder_mid_item in Hinc |- * by done.
      by rewrite (find_list_found nilPair less SW).
    + subst its.
      destruct (internal_at_child lo hi h A B cs Hb)
        as (CA & c & CB & -> & HCA & HCB & HFA & [Hclo Hc] & HFB).
      rewrite decide_True by lens. rewrite lookup_at by lia. step.
      rewrite inorder_mid in Hinc |- * by done.
      destruct (segment_facts nilPair less SW _ _ _ x Hinc) as (Hic & _ & Hf & _).
      { rewrite pre_last by done. by apply (below_last less). }
      { rewrite post_head by done. by apply (above_head less). }
      rewrite Hf. apply IH; [lia|done..].
Qed.

Lemma size_height lo hi h n :
  1 ≤ lo → btree lo hi h n → 1 ≤ length (items n) → h + 1 ≤ length (inorder n).
Proof.
  intros Hlo. revert n. induction h as [|h IH]; intros n Hb Hlen.
  - apply (items_sublist lo hi) in Hb. apply sublist_length in Hb. lia.
  - destruct n as [its cs]. pose proof Hb as (Hl & _ & Hcs). cbn [items children] in *.
    destruct its as [|a its]; [simpl in Hlen; lia|].
    destruct cs as [|c cs]; [simpl in Hl; lia|].
    destruct cs as [|c2 cs]; [simpl in Hl; lia|].
    apply Forall_cons in Hcs as [[Hclo Hbc] _].
    rewrite inorder_cons, post_cons, !length_app. simpl.
    specialize (IH c Hbc). lia.
Qed.

Lemma tree_inv_height t :
  tree_inv t → tree_height t ≤ length (contents t).
Proof.
  intros [Hd Hinv]. unfold tree_height, contents. destruct (root t) as [r|]; [|done].
  destruct Hinv as (Hb & Hroot & _).
  destruct Hroot as [Hleaf|Hits].
  - destruct r as [its cs]. simpl in *. subst. simpl. lia.
  - assert (1 ≤ minPairs t) as Hlo by (unfold minPairs; lia).
    pose proof (size_height _ _ _ r Hlo Hb Hits). lia.
Qed.

Lemma degree_bounds t : 2 ≤ degree t → maxPairs t = 2 * minPairs t + 1.
Proof. unfold maxPairs, minPairs. lia. Qed.

(** [ReplaceOrInsert] on a tree that satisfies the invariant. *)
Lemma ReplaceOrInsert_spec fuel t item :
  tree_inv t → item ≠ nilPair → tree_height t + 2 ≤ fuel →
  ∃ t', ReplaceOrInsert nilPair less fuel t item =
          Some (Return (find_list item (contents t)), t') ∧
    tree_inv t' ∧
    contents t' = ins_list item (contents t) ∧
    degree t' = degree t ∧
    t_length t' = (if decide (find_list item (contents t) = nilPair)
                   then t_length t + 1 else t_length t)%Z.
Proof.
  intros [Hd Hinv] Hitem Hfuel. unfold ReplaceOrInsert, tree_height, contents in *.
  rewrite decide_False by done.
  destruct (root t) as [r|] eqn:Hroot.
  - destruct Hinv as (Hb & Hr & Hinc & Hnil & Hlen).
    pose proof (degree_bounds t Hd) as Hhi.
    set (lo := minPairs t) in *. set (hi := maxPairs t) in *.
    assert (∃ h1 r1, (if decide (hi ≤ length (items r))
                      then '(oldroot, item2, second) ← split r (hi / 2);
                           Some (Node [item2] [oldroot; second])
                      else Some r) = Some r1 ∧
              btree lo hi h1 r1 ∧ h1 ≤ height r + 1 ∧
              length (items r1) < hi ∧ inorder r1 = inorder r ∧
              (h1 = 0 ∨ 1 ≤ length (items r1)))
      as (h1 & r1 & -> & Hb1 & Hh1 & Hroom & Hin1 & Hr1).
    { destruct (decide (hi ≤ length (items r))) as [Hfull|Hfull].
      - assert (length (items r) = hi) as Hlenr.
        { destruct (height r); [destruct Hb as [_ ?]|destruct Hb as (_ & ? & _)]; lia. }
        destruct (split_spec lo hi Hhi _ r Hb Hlenr)
          as (c1 & m & c2 & -> & Hin & Hb1 & Hb2 & Hl1 & Hl2).
        step. exists (S (height r)), (Node [m] [c1; c2]).
        split_and!; [done| |lia|simpl; unfold hi, maxPairs; lia| |right; simpl; lia];
          [|by rewrite Hin, inorder_cons, post_cons, post_nil_l, app_nil_r].
        apply btree_internal. split_and!; [done|simpl; unfold hi, maxPairs; lia|].
        repeat constructor; first [lia|done].
      - exists (height r), r. split_and!; [done|done|lia|lia|done|].
        destruct Hr as [Hleaf|?]; [left|by right].
        destruct r as [? cs]. simpl in Hleaf. subst cs. done. }
    step. rewrite <- Hin1 in *.
    destruct (insert_spec nilPair less SW lo hi Hhi h1 fuel r1 item)
      as (r2 & -> & Hb2 & Hin2 & Hl2); [lia|done..|].
    step. eexists. split; [done|]. cbn [root degree t_length].
    split; [|split; [done|split; done]].
    split; [done|]. cbn [root t_length degree].
    pose proof (btree_height _ _ _ _ Hb2) as ->.
    split_and!; [done| | | |].
    + destruct Hr1 as [->|?]; [left|right; lia].
      destruct Hb2 as [? _]. done.
    + rewrite Hin2. by apply (increasing_ins_list less SW).
    + rewrite Hin2. intros [?|?]%(ins_list_elem less); done.
    + rewrite Hin2, (ins_list_length nilPair less SW) by done.
      cbn [t_length]. case_decide; lia.
  - simpl. eexists. split; [done|]. cbn [root degree t_length].
    split; [|split; [done|split; [done|]]].
    + split; [done|]. cbn [root height children items].
      split_and!; [ |by left|repeat constructor|set_solver|simpl; lia].
      split; [done|]. unfold maxPairs. cbn [degree items length]. lia.
    + by rewrite decide_True.
Qed.

(** [Delete], [DeleteMin] and [DeleteMax] on a tree that satisfies the
    invariant. *)
Lemma deletePair_spec fuel t x typ :
  tree_inv t → 2 * tree_height t + 1 ≤ fuel →
  ∃ t', deletePair nilPair less fuel t x typ =
          Some ((rm_list typ x (contents t)).1, t') ∧
    tree_inv t' ∧
    contents t' = (rm_list typ x (contents t)).2 ∧
    degree t' = degree t ∧
    t_length t' = (if decide ((rm_list typ x (contents t)).1 = nilPair)
                   then t_length t else t_length t - 1)%Z.
Proof.
  intros [Hd Hinv] Hfuel. unfold deletePair, tree_height, contents in *.
  destruct (root t) as [r|] eqn:Hroot.
  - destruct Hinv as (Hb & Hr & Hinc & Hnil & Hlen).
    pose proof (degree_bounds t Hd) as Hhi.
    set (lo := minPairs t) in *. set (hi := maxPairs t) in *.
    case_decide as Hempty.
    + (* an empty root is a leaf *)
      destruct Hr as [Hleaf|?]; [|lia].
      destruct r as [its cs]. cbn [items children] in *. subst cs.
      destruct its; [|done]. rewrite inorder_leaf, (rm_list_nil nilPair less).
      exists t. rewrite Hroot. cbn [fst snd]. rewrite decide_True by done.
      split_and!; try done. split; [done|]. rewrite Hroot. split_and!; try done. by left.
    + destruct (remove_spec nilPair less SW lo hi Hhi (height r) fuel r x typ)
        as (r1 & -> & Hb1 & Hin1 & Hl1); [lia|done|lia|done|].
      step.
      destruct (rm_list_facts nilPair less SW typ x (inorder r) Hinc Hnil) as [Hsub Hout].
      rewrite <- Hin1 in Hsub, Hout.
      assert (increasing less (inorder r1)) as Hinc1 by (by eapply increasing_sublist).
      assert (nilPair ∉ inorder r1) as Hnil1.
      { intros ?. apply Hnil. by eapply elem_of_sublist. }
      assert (∃ r2, (if decide (length (items r1) = 0 ∧ 0 < length (children r1))
                     then children r1 !! 0 else Some r1) = Some r2 ∧
                btree lo hi (height r2) r2 ∧ inorder r2 = inorder r1 ∧
                (children r2 = [] ∨ 1 ≤ length (items r2)))
        as (r2 & -> & Hb2 & Hin2 & Hr2).
      { destruct (decide (length (items r1) = 0 ∧ 0 < length (children r1)))
          as [Hcollapse|Hcollapse].
        - destruct Hcollapse as [Hz Hch]. destruct r1 as [its1 cs1].
          cbn [items children] in *. destruct its1; [|simpl in Hz; lia].
          destruct (height r) as [|h].
          { destruct Hb1 as [Hc _]. cbn [children] in Hc. subst. simpl in Hch. lia. }
          apply btree_internal in Hb1 as (Hl & _ & Hcs).
          destruct cs1 as [|c [|??]]; simpl in Hl; try lia.
          apply Forall_cons in Hcs as [[Hclo Hbc] _].
          exists c. split_and!; [done| | |right; unfold lo, minPairs in Hclo; lia].
          + by rewrite (btree_height _ _ _ _ Hbc).
          + by rewrite inorder_cons, post_nil_l, app_nil_r.
        - exists r1. split_and!; [done| |done|].
          + by rewrite (btree_height _ _ _ _ Hb1).
          + destruct (decide (length (items r1) = 0)) as [Hz|?]; [|right; lia].
            left. destruct (children r1); [done|]. exfalso. apply Hcollapse.
            split; [done|simpl; lia]. }
      step. rewrite <- Hin2 in *. eexists. split; [done|]. cbn [root degree t_length].
      split; [|split; [by rewrite Hin1|split; [done|]]].
      * split; [done|]. cbn [root]. split_and!; try done. cbn [t_length].
        destruct (decide ((rm_list typ x (inorder r)).1 = nilPair)) as [Hd1|Hd1].
        -- rewrite decide_False by (by intros ?). by rewrite Hout.
        -- rewrite decide_True by done. destruct Hout as [_ Hout]. lia.
      * destruct (decide ((rm_list typ x (inorder r)).1 = nilPair)) as [Hd1|Hd1].
        -- by rewrite decide_False by (by intros ?).
        -- by rewrite decide_True by done.
  - exists t. rewrite Hroot, (rm_list_nil nilPair less). cbn [fst snd].
    rewrite decide_True by done. split_and!; try done. split; [done|]. by rewrite Hroot.
Qed.
End TreeProofs.

Section Handle.
Context {Pair : Type} `{EqDecision Pair}.
Variable nilPair : Pair.
Variable less : Pair → Pair → bool.
Hypothesis SW : StrictWeak less.

Implicit Types t : @PairTree Pair.

Local Abbreviation ins_list := (ins_list less).
Local Abbreviation find_list := (find_list nilPair less).
Local Abbreviation rm_list := (rm_list nilPair less).
Local Abbreviation tree_inv := (tree_inv nilPair less).
Local Abbreviation built := (built nilPair less).
Local Abbreviation ReplaceOrInsert := (ReplaceOrInsert nilPair less).
Local Abbreviation deletePair := (deletePair nilPair less).
Local Abbreviation Delete := (Delete nilPair less).

Lemma ReplaceOrInsert_mono f f' t item r :
  f ≤ f' → ReplaceOrInsert f t item = Some r → ReplaceOrInsert f' t item = Some r.
Proof.
  intros Hle. unfold ReplaceOrInsert.
  case_decide; [done|]. destruct (root t) as [r0|]; [|done].
  destruct (if decide (maxPairs t ≤ length (items r0)) then _ else _) as [r1|];
    [|done]. cbn [mbind option_bind].
  destruct (insert nilPair less f r1 item (maxPairs t)) as [[out r2]|] eqn:E; [|done].
  by rewrite (insert_mono nilPair less f f' _ _ _ _ Hle E).
Qed.

Lemma deletePair_mono f f' t item typ r :
  f ≤ f' → deletePair f t item typ = Some r → deletePair f' t item typ = Some r.
Proof.
  intros Hle. unfold deletePair.
  destruct (root t) as [r0|]; [|done]. case_decide; [done|].
  destruct (remove nilPair less f r0 item (minPairs t) typ) as [[out r1]|] eqn:E; [|done].
  by rewrite (remove_mono nilPair less f f' _ _ _ _ _ Hle E).
Qed.

Lemma empty_tree_inv d : 2 ≤ d → tree_inv (empty_tree d).
Proof. by split. Qed.

(** Every tree built by the operations satisfies the invariant. *)
Lemma built_inv d t : 2 ≤ d → built d t → tree_inv t ∧ degree t = d.
Proof.
  intros Hd. induction 1 as [|t fuel item out t' _ [Hinv Hdeg] Hop
                            |t fuel item typ out t' _ [Hinv Hdeg] Hop].
  - split; [by apply empty_tree_inv|done].
  - assert (item ≠ nilPair) as Hitem.
    { intros ->. unfold ReplaceOrInsert in Hop.
      by rewrite decide_True in Hop. }
    destruct (ReplaceOrInsert_spec nilPair less SW (fuel `max` (tree_height t + 2))
                t item Hinv Hitem) as (t1 & Hop1 & Hinv1 & _ & Hdeg1 & _); [lia|].
    apply (ReplaceOrInsert_mono fuel (fuel `max` (tree_height t + 2))) in Hop; [|lia].
    rewrite Hop in Hop1. injection Hop1 as _ ->. split; [done|congruence].
  - destruct (deletePair_spec nilPair less SW (fuel `max` (2 * tree_height t + 1))
                t item typ Hinv) as (t1 & Hop1 & Hinv1 & _ & Hdeg1 & _); [lia|].
    apply (deletePair_mono fuel (fuel `max` (2 * tree_height t + 1))) in Hop; [|lia].
    rewrite Hop in Hop1. injection Hop1 as _ ->. split; [done|congruence].
Qed.

Lemma tree_inv_ok t : tree_inv t → tree_ok less t.
Proof.
  intros [Hd Hinv]. unfold tree_ok. destruct (root t) as [r|]; [|done].
  destruct Hinv as (Hb & _ & Hinc & _). split; [|done].
  eapply (btree_node_ok less); [done| |done|done].
  exact Hb.
Qed.

Lemma increasing_distinct l : increasing less l → distinct_keys less l.
Proof.
  induction l as [|a l IH]; [done|]. intros [Ha Hl]%StronglySorted_cons.
  split; [|by apply IH]. eapply Forall_impl; [exact Ha|].
  intros y Hay [Hlt _]. unfold lt in Hay. congruence.
Qed.

Lemma tree_inv_empty t :
  tree_inv t → contents t = [] →
  root t = None ∨ root t = Some (Node [] []).
Proof.
  intros [_ Hinv] Hc. unfold contents in Hc. destruct (root t) as [r|]; [|by left].
  right. destruct Hinv as (Hb & Hr & _). f_equal.
  apply (items_sublist _ _ _ _) in Hb. rewrite Hc in Hb.
  apply sublist_nil_r in Hb. destruct r as [its cs]. cbn [items children] in *.
  subst its. destruct Hr as [->|Hr]; [done|simpl in Hr; lia].
Qed.

Lemma tree_inv_len t : tree_inv t → t_length t = Z.of_nat (length (contents t)).
Proof.
  intros [_ Hinv]. unfold contents. destruct (root t); [|done]. apply Hinv.
Qed.

Lemma insert_all_spec fuel : ∀ ks t,
  tree_inv t → distinct_keys less ks → nilPair ∉ ks →
  (∀ k y, k ∈ ks → y ∈ contents t → ¬ equiv_key less y k) →
  2 * (length (contents t) + length ks) + 3 ≤ fuel →
  ∃ t1, insert_all nilPair less fuel t ks = Some t1 ∧ tree_inv t1 ∧
    contents t1 ≡ₚ ks ++ contents t ∧ degree t1 = degree t.
Proof.
  induction ks as [|k ks IH]; intros t Hinv Hdist Hnil Hfresh Hfuel.
  - exists t. done.
  - destruct Hdist as [Hk Hdist]. simpl in Hfuel.
    pose proof (tree_inv_height nilPair less t Hinv) as Hh.
    destruct (ReplaceOrInsert_spec nilPair less SW fuel t k Hinv)
      as (t' & Hop & Hinv' & Hc' & Hdeg' & _); [set_solver|lia|].
    cbn [insert_all]. rewrite Hop. cbn [mbind option_bind].
    pose proof Hinv as (_ & Hi). pose proof Hinv' as (_ & Hi').
    assert (increasing less (contents t)) as Hinc.
    { unfold contents. destruct (root t); [apply Hi|constructor]. }
    destruct (list_cases nilPair less SW k (contents t) Hinc)
      as [(l1 & y & l2 & E & Heq & _)|(_ & _ & _ & l1 & l2 & E & Hi1)].
    { exfalso. apply (Hfresh k y); [set_solver|rewrite E; set_solver|done]. }
    assert (contents t' ≡ₚ k :: contents t) as Hperm.
    { rewrite Hc', Hi1, E. symmetry. apply Permutation_middle. }
    destruct (IH t') as (t1 & Hall & Hinv1 & Hc1 & Hdeg1); [done|done|set_solver| | |].
    + intros k' y Hk' Hy. rewrite Hperm in Hy.
      apply elem_of_cons in Hy as [->|Hy]; [|apply Hfresh; set_solver].
      rewrite Forall_forall in Hk. by apply Hk.
    + rewrite Hperm. simpl. lia.
    + exists t1. split_and!; [done|done| |congruence].
      rewrite Hc1, Hperm. symmetry. apply Permutation_middle.
Qed.

(** Deleting the items [ks] among those of the tree, each with a key
    equal to it under the comparator: the stored items are returned, and
    the others are left. *)
Lemma delete_all_spec fuel : ∀ qs ks rest t,
  tree_inv t → contents t ≡ₚ ks ++ rest → Forall2 (equiv_key less) qs ks →
  2 * length (ks ++ rest) + 3 ≤ fuel →
  ∃ t2, delete_all nilPair less fuel t qs = Some (ks, t2) ∧ tree_inv t2 ∧
    contents t2 ≡ₚ rest.
Proof.
  intros qs ks rest t Hinv Hperm HF. revert t Hinv Hperm.
  induction HF as [|q k qs ks Hqk HF IH]; intros t Hinv Hperm Hfuel.
  - exists t. done.
  - simpl in Hfuel.
    pose proof (tree_inv_height nilPair less t Hinv) as Hh.
    rewrite Hperm in Hh. simpl in Hh.
    destruct (deletePair_spec nilPair less SW fuel t q removePair Hinv)
      as (t' & Hop & Hinv' & Hc' & _); [lia|].
    cbn [delete_all]. unfold Delete. rewrite Hop. cbn [mbind option_bind].
    assert (increasing less (contents t)) as Hinc.
    { pose proof Hinv as (_ & Hi). unfold contents.
      destruct (root t); [apply Hi|constructor]. }
    assert (k ∈ contents t) as Hk by (rewrite Hperm; set_solver).
    apply list_elem_of_split in Hk as (l1 & l2 & E).
    assert (equiv_key less k q) as Hkq by (by destruct Hqk).
    simpl in Hc' |- *. rewrite E in Hinc, Hc', Hperm |- *.
    rewrite (find_list_found nilPair less SW) by done.
    rewrite (del_list_found less SW) in Hc' by done.
    destruct (IH t') as (t2 & -> & Hinv2 & Hc2); [done| |lia|].
    { rewrite Hc'. symmetry in Hperm. simpl in Hperm.
      apply Permutation_cons_app_inv in Hperm. by symmetry. }
    cbn [mbind option_bind]. by exists t2.
Qed.

Lemma distinct_keys_take n : ∀ ks,
  distinct_keys less ks → distinct_keys less (take n ks).
Proof.
  induction n as [|n IH]; intros [|k ks]; simpl; try done.
  intros [Hk Hks]. split; [by apply Forall_take|by apply IH].
Qed.
End Handle.

Lemma zless_strict : StrictWeak zless.
Proof.
  split.
  - intros [[k v]|]; simpl; [apply Z.ltb_irrefl|done].
  - intros [[k1 v1]|] [[k2 v2]|] [[k3 v3]|]; simpl; try done.
    rewrite !Z.ltb_lt. lia.
  - intros [[k1 v1]|] [[k2 v2]|] [[k3 v3]|]; simpl; try done.
    rewrite !Z.ltb_ge. lia.
Qed.

Section Claims.
Context {Pair : Type} `{EqDecision Pair}.
Variable nilPair : Pair.
Variable less : Pair → Pair → bool.
Hypothesis SW : StrictWeak less.

Implicit Types t : @PairTree Pair.

Lemma built_insert_all d fuel : ∀ ks t t',
  built nilPair less d t → insert_all nilPair less fuel t ks = Some t' →
  built nilPair less d t'.
Proof.
  induction ks as [|k ks IH]; intros t t' Hb Hall; simpl in Hall.
  - by injection Hall as <-.
  - destruct (ReplaceOrInsert nilPair less fuel t k) as [[[out|msg] t1]|] eqn:E;
      simpl in Hall; [|done..].
    eapply IH; [|done]. by eapply built_insert.
Qed.

Lemma built_delete_all d fuel : ∀ ks t outs t',
  built nilPair less d t → delete_all nilPair less fuel t ks = Some (outs, t') →
  built nilPair less d t'.
Proof.
  induction ks as [|k ks IH]; intros t outs t' Hb Hall; simpl in Hall.
  - by injection Hall as _ <-.
  - unfold Delete in Hall.
    destruct (deletePair nilPair less fuel t k removePair) as [[out t1]|] eqn:E;
      simpl in Hall; [|done].
    destruct (delete_all nilPair less fuel t1 ks) as [[outs' t2]|] eqn:E2;
      simpl in Hall; [|done]. injection Hall as _ <-.
    eapply IH; [|done]. by eapply built_delete.
Qed.

(** C1: every tree built from an empty tree of degree [d] by calls of
    ReplaceOrInsert, Delete, DeleteMin and DeleteMax satisfies the
    structural invariant: every node has no child or one child more than
    items, the items of every node and the in-order traversal of the tree
    are strictly increasing, and every node but the root holds between
    [d - 1] and [2 * d - 1] items. *)
Theorem C1_structural_invariant d t :
  2 ≤ d → built nilPair less d t → tree_ok less t.
Proof.
  intros Hd Hb. apply (tree_inv_ok nilPair less).
  by apply (built_inv nilPair less SW d).
Qed.

(** C2: ReplaceOrInsert is an upsert.  For an item other than the
    sentinel, either an equal item is stored: it is replaced in place, the
    stored item is returned and Len is unchanged; or none is stored: the
    sentinel is returned, the item is added at its place and Len grows by
    one.  The items of the resulting tree have pairwise different keys. *)
Theorem C2_upsert d t item fuel :
  2 ≤ d → built nilPair less d t → item ≠ nilPair → enough t ≤ fuel →
  ∃ out t',
    ReplaceOrInsert nilPair less fuel t item = Some (Return out, t') ∧
    distinct_keys less (contents t') ∧
    ((∃ l1 y l2, contents t = l1 ++ y :: l2 ∧ equiv_key less y item ∧
        out = y ∧ out ≠ nilPair ∧ contents t' = l1 ++ item :: l2 ∧
        Len t' = Len t) ∨
     ((∀ y, y ∈ contents t → ¬ equiv_key less y item) ∧
        out = nilPair ∧
        (∃ l1 l2, contents t = l1 ++ l2 ∧ contents t' = l1 ++ item :: l2) ∧
        Len t' = (Len t + 1)%Z)).
Proof.
  intros Hd Hb Hitem Hfuel. unfold enough in Hfuel.
  destruct (built_inv nilPair less SW d t Hd Hb) as [Hinv _].
  destruct (ReplaceOrInsert_spec nilPair less SW fuel t item Hinv Hitem)
    as (t' & Hop & Hinv' & Hc' & _ & Hlen'); [lia|].
  eexists _, t'. split; [done|].
  assert (increasing less (contents t)) as Hinc.
  { pose proof Hinv as (_ & Hi). unfold contents.
    destruct (root t); [apply Hi|constructor]. }
  assert (nilPair ∉ contents t) as Hnil.
  { pose proof Hinv as (_ & Hi). unfold contents.
    destruct (root t); [apply Hi|set_solver]. }
  split.
  { apply increasing_distinct. rewrite Hc'. by apply (increasing_ins_list less SW). }
  unfold Len. rewrite Hlen', Hc'.
  destruct (list_cases nilPair less SW item (contents t) Hinc)
    as [(l1 & y & l2 & E & Heq & Hf & Hi & _)|(Hno & Hf & _ & l1 & l2 & E & Hi)].
  - left. exists l1, y, l2.
    assert (y ≠ nilPair) by (intros ->; apply Hnil; rewrite E; set_solver).
    rewrite Hf, decide_False by done. done.
  - right. rewrite Hf, decide_True by done. split_and!; [done|done| |done].
    by exists l1, l2.
Qed.

(** C5: the pairwise different items [ks], none the sentinel, are
    inserted into an empty tree and then deleted one by one, in any order
    [ks'], each with a key of [qs] that is equal to it under the
    comparator and may differ from it otherwise.  Every call returns.
    After the first [n] insertions the tree holds the first [n] items and
    Len is [n].  The deletions return the stored items, not their
    arguments, each once and in the order of the calls; after the first
    [n] of them the tree holds the items not yet deleted and Len is their
    number.  After the last one the tree has no items, Len is 0, and
    one more Delete, of any key, returns the sentinel. *)
Theorem C5_round_trip d ks ks' qs fuel :
  2 ≤ d → distinct_keys less ks → nilPair ∉ ks → ks' ≡ₚ ks →
  Forall2 (equiv_key less) qs ks' →
  2 * length ks + 3 ≤ fuel →
  ∃ t1 t2,
    insert_all nilPair less fuel (empty_tree d) ks = Some t1 ∧
    delete_all nilPair less fuel t1 qs = Some (ks', t2) ∧
    Len t2 = 0%Z ∧ contents t2 = [] ∧
    (∀ q, Delete nilPair less fuel t2 q = Some (nilPair, t2)) ∧
    (∀ n, n ≤ length ks →
       ∃ t, insert_all nilPair less fuel (empty_tree d) (take n ks) = Some t ∧
         Len t = Z.of_nat n ∧ contents t ≡ₚ take n ks) ∧
    (∀ n, n ≤ length ks' →
       ∃ t, delete_all nilPair less fuel t1 (take n qs) = Some (take n ks', t) ∧
         Len t = Z.of_nat (length ks' - n) ∧ contents t ≡ₚ drop n ks').
Proof.
  intros Hd Hdist Hnil Hperm HF Hfuel.
  assert (∀ n, ∃ t,
            insert_all nilPair less fuel (empty_tree d) (take n ks) = Some t ∧
            tree_inv nilPair less t ∧ contents t ≡ₚ take n ks) as Hins.
  { intros n.
    destruct (insert_all_spec nilPair less SW fuel (take n ks) (empty_tree d))
      as (t & Hi & Hinv & Hc & _).
    - by apply empty_tree_inv.
    - by apply (distinct_keys_take less).
    - intros Hin. apply Hnil. by apply (subseteq_take n ks).
    - intros k y _ Hy. by apply elem_of_nil in Hy.
    - simpl. rewrite length_take. lia.
    - simpl in Hc. rewrite app_nil_r in Hc. by exists t. }
  destruct (Hins (length ks)) as (t1 & Hi1 & Hinv1 & Hc1).
  rewrite firstn_all in Hi1, Hc1.
  pose proof (Permutation_length Hperm) as Hlen.
  pose proof (Forall2_length _ _ _ HF) as Hlenq.
  assert (∀ n, ∃ t,
            delete_all nilPair less fuel t1 (take n qs) = Some (take n ks', t) ∧
            tree_inv nilPair less t ∧ contents t ≡ₚ drop n ks') as Hdel.
  { intros n.
    apply (delete_all_spec nilPair less SW fuel (take n qs) (take n ks') (drop n ks') t1).
    - done.
    - by rewrite take_drop, Hc1.
    - by apply Forall2_take.
    - rewrite take_drop. lia. }
  destruct (Hdel (length ks')) as (t2 & Hd2 & Hinv2 & Hc2).
  rewrite firstn_all in Hd2. rewrite <- Hlenq, firstn_all in Hd2.
  rewrite drop_all in Hc2. apply Permutation_nil_r in Hc2.
  exists t1, t2. split_and!; [done|done| |done| | |].
  - unfold Len. by rewrite (tree_inv_len nilPair less t2 Hinv2), Hc2.
  - intros q. destruct fuel as [|fuel']; [lia|].
    unfold Delete, deletePair.
    by destruct (tree_inv_empty nilPair less t2 Hinv2 Hc2) as [->| ->].
  - intros n Hn. destruct (Hins n) as (t & Hi & Hinv & Hc). exists t.
    split_and!; [done| |done].
    unfold Len. rewrite (tree_inv_len nilPair less t Hinv), Hc, length_take.
    f_equal. lia.
  - intros n Hn. destruct (Hdel n) as (t & Hi & Hinv & Hc). exists t.
    split_and!; [done| |done].
    unfold Len. by rewrite (tree_inv_len nilPair less t Hinv), Hc, length_drop.
Qed.

(** C8: ReplaceOrInsert of the sentinel panics, and the tree at the panic
    is the tree of the call: nothing was modified. *)
Theorem C8_insert_sentinel_panics fuel t :
  ReplaceOrInsert nilPair less fuel t nilPair =
    Some (Panic "nil item being added to BTree", t).
Proof. unfold ReplaceOrInsert. by rewrite decide_True. Qed.

(** C9: on a tree without items Get, Delete, Min, Max, DeleteMin and
    DeleteMax return the sentinel, whatever the argument of Get and
    Delete, and none of them panics. *)
Theorem C9_empty_tree d t key fuel :
  2 ≤ d → built nilPair less d t → contents t = [] → 1 ≤ fuel →
  Get nilPair less fuel t key = Some nilPair ∧
  Delete nilPair less fuel t key = Some (nilPair, t) ∧
  Min nilPair fuel t = Some nilPair ∧
  Max nilPair fuel t = Some nilPair ∧
  DeleteMin nilPair less fuel t = Some (nilPair, t) ∧
  DeleteMax nilPair less fuel t = Some (nilPair, t).
Proof.
  intros Hd Hb Hc Hfuel.
  destruct (built_inv nilPair less SW d t Hd Hb) as [Hinv _].
  destruct fuel as [|fuel]; [lia|].
  unfold Get, Delete, DeleteMin, DeleteMax, deletePair, Min, Max.
  destruct (tree_inv_empty nilPair less t Hinv Hc) as [->| ->]; [done|].
  done.
Qed.

(** C10: Delete of a key that no stored item equals returns the sentinel
    and leaves Len and the in-order sequence of the items as they were. *)
Theorem C10_failed_delete d t key fuel :
  2 ≤ d → built nilPair less d t →
  (∀ y, y ∈ contents t → ¬ equiv_key less y key) → enough t ≤ fuel →
  ∃ t', Delete nilPair less fuel t key = Some (nilPair, t') ∧
    Len t' = Len t ∧ contents t' = contents t.
Proof.
  intros Hd Hb Hno Hfuel. unfold enough in Hfuel.
  destruct (built_inv nilPair less SW d t Hd Hb) as [Hinv _].
  destruct (deletePair_spec nilPair less SW fuel t key removePair Hinv)
    as (t' & Hop & Hinv' & Hc' & _ & Hlen'); [lia|].
  assert (increasing less (contents t)) as Hinc.
  { pose proof Hinv as (_ & Hi). unfold contents.
    destruct (root t); [apply Hi|constructor]. }
  destruct (list_cases nilPair less SW key (contents t) Hinc)
    as [(l1 & y & l2 & E & Heq & _)|(_ & Hf & Hdl & _)].
  { exfalso. apply (Hno y); [rewrite E; set_solver|done]. }
  simpl in Hop, Hc', Hlen'. rewrite Hf in Hop, Hlen'. rewrite Hdl in Hc'.
  rewrite decide_True in Hlen' by done.
  exists t'. by unfold Delete, Len.
Qed.
End Claims.

(** Witnesses on the trees [example_tree] (the keys 1 to 40 inserted into
    a tree of degree 9) and [example_tree'] (the keys 11 to 30 deleted). *)

Definition the_tree (o : option (@PairTree ZPair)) : @PairTree ZPair :=
  default (empty_tree 9) o.

Lemma example_built : built znil zless 9 (the_tree example_tree).
Proof.
  apply (built_insert_all znil zless 9 100 example_keys (empty_tree 9)).
  - constructor.
  - vm_compute. reflexivity.
Qed.

Lemma example_built' : built znil zless 9 (the_tree example_tree').
Proof.
  pose proof example_built as Hb.
  destruct (delete_all znil zless 100 (the_tree example_tree)
              ((λ k, zpair k 0) <$> seqZ 11 20)) as [[outs t']|] eqn:E.
  - apply (built_delete_all znil zless 9 100 _ _ _ _ Hb) in E as Hb'.
    assert (t' = the_tree example_tree') as <-; [|done].
    revert E. vm_compute. by intros [= _ <-].
  - revert E. vm_compute. done.
Qed.

Lemma C1_witness : tree_ok zless (the_tree example_tree').
Proof.
  apply (C1_structural_invariant znil zless zless_strict 9).
  - lia.
  - exact example_built'.
Defined.

Lemma C2_witness :
  ∃ out t',
    ReplaceOrInsert znil zless 6 (the_tree example_tree) (zpair 7 1) =
      Some (Return out, t') ∧
    distinct_keys zless (contents t') ∧
    ((∃ l1 y l2, contents (the_tree example_tree) = l1 ++ y :: l2 ∧
        equiv_key zless y (zpair 7 1) ∧
        out = y ∧ out ≠ znil ∧ contents t' = l1 ++ zpair 7 1 :: l2 ∧
        Len t' = Len (the_tree example_tree)) ∨
     ((∀ y, y ∈ contents (the_tree example_tree) → ¬ equiv_key zless y (zpair 7 1)) ∧
        out = znil ∧
        (∃ l1 l2, contents (the_tree example_tree) = l1 ++ l2 ∧
           contents t' = l1 ++ zpair 7 1 :: l2) ∧
        Len t' = (Len (the_tree example_tree) + 1)%Z)).
Proof.
  apply (C2_upsert znil zless zless_strict 9).
  - lia.
  - exact example_built.
  - discriminate.
  - vm_compute. lia.
Defined.

Lemma C5_witness :
  ∃ t1 t2,
    insert_all znil zless 20 (empty_tree 9)
      [zpair 3 30; zpair 1 10; zpair 2 20] = Some t1 ∧
    delete_all znil zless 20 t1 [zpair 2 0; zpair 3 0; zpair 1 0] =
      Some ([zpair 2 20; zpair 3 30; zpair 1 10], t2) ∧
    Len t2 = 0%Z ∧ contents t2 = [] ∧
    (∀ q, Delete znil zless 20 t2 q = Some (znil, t2)) ∧
    (∀ n, n ≤ length [zpair 3 30; zpair 1 10; zpair 2 20] →
       ∃ t, insert_all znil zless 20 (empty_tree 9)
              (take n [zpair 3 30; zpair 1 10; zpair 2 20]) = Some t ∧
         Len t = Z.of_nat n ∧ contents t ≡ₚ take n [zpair 3 30; zpair 1 10; zpair 2 20]) ∧
    (∀ n, n ≤ length [zpair 2 20; zpair 3 30; zpair 1 10] →
       ∃ t, delete_all znil zless 20 t1 (take n [zpair 2 0; zpair 3 0; zpair 1 0]) =
              Some (take n [zpair 2 20; zpair 3 30; zpair 1 10], t) ∧
         Len t = Z.of_nat (length [zpair 2 20; zpair 3 30; zpair 1 10] - n) ∧
         contents t ≡ₚ drop n [zpair 2 20; zpair 3 30; zpair 1 10]).
Proof.
  apply (C5_round_trip znil zless zless_strict 9).
  - lia.
  - vm_compute. repeat constructor; intros [? ?]; discriminate.
  - intros Hin. repeat (apply elem_of_cons in Hin as [Hin|Hin]; [discriminate Hin|]).
    by apply elem_of_nil in Hin.
  - apply (Permutation_cons_app [zpair 3 30; zpair 1 10] [] (zpair 2 20)). reflexivity.
  - repeat constructor.
  - simpl. lia.
Defined.

Lemma C9_witness :
  Get znil zless 1 (empty_tree 9) (zpair 1 1) = Some znil ∧
  Delete znil zless 1 (empty_tree 9) (zpair 1 1) = Some (znil, empty_tree 9) ∧
  Min znil 1 (empty_tree 9) = Some znil ∧
  Max znil 1 (empty_tree 9) = Some znil ∧
  DeleteMin znil zless 1 (empty_tree 9) = Some (znil, empty_tree 9) ∧
  DeleteMax znil zless 1 (empty_tree 9) = Some (znil, empty_tree 9).
Proof.
  apply (C9_empty_tree znil zless zless_strict 9).
  - lia.
  - constructor.
  - reflexivity.
  - lia.
Defined.

Lemma C10_witness :
  ∃ t', Delete znil zless 6 (the_tree example_tree') (zpair 20 0) = Some (znil, t') ∧
    Len t' = Len (the_tree example_tree') ∧
    contents t' = contents (the_tree example_tree').
Proof.
  apply (C10_failed_delete znil zless zless_strict 9).
  - lia.
  - exact example_built'.
  - intros y Hy. vm_compute in Hy.
    repeat (apply elem_of_cons in Hy as [->|Hy]; [intros [? ?]; discriminate|]).
    by apply elem_of_nil in Hy.
  - vm_compute. lia.
Defined.

Section Scan.
Context {Pair : Type} `{EqDecision Pair}.
Variable nilPair : Pair.
Variable less : Pair → Pair → bool.
Hypothesis SW : StrictWeak less.
Context {St : Type}.
Variable iter : Pair → St → bool * St.

Implicit Types (A B : list Pair) (CA CB cs : list (@node Pair)) (c n : @node Pair).
Implicit Types (st : St) (hit : bool).

Ltac step := cbn [mbind option_bind items children].
Ltac lens :=
  cbn [items children] in *;
  repeat match goal with
    | H : context [length (_ ++ _)] |- _ => rewrite length_app in H
    | |- context [length (_ ++ _)] => rewrite length_app
    end;
  cbn [length] in *; lia.

(** The ascending scan on a list: items below [start] are passed over,
    the first item not below [stop] ends the scan. *)
Fixpoint walk (start stop : Pair) (l : list Pair) (st : St) : bool * St :=
  match l with
  | [] => (true, st)
  | x :: l' =>
      if notNil nilPair start && less x start then walk start stop l' st
      else if notNil nilPair stop && negb (less x stop) then (false, st)
      else
        let '(continue, st') := iter x st in
        if continue then walk start stop l' st' else (false, st')
  end.

Lemma notNil_true p : p ≠ nilPair → notNil nilPair p = true.
Proof. intros. unfold notNil. by rewrite bool_decide_true. Qed.

Lemma notNil_nil : notNil nilPair nilPair = false.
Proof. unfold notNil. rewrite bool_decide_false; [done|]. by intros ?. Qed.

Lemma walk_app s e l1 l2 st :
  walk s e (l1 ++ l2) st =
    if (walk s e l1 st).1 then walk s e l2 (walk s e l1 st).2
    else walk s e l1 st.
Proof.
  revert st. induction l1 as [|x l1 IH]; intros st; simpl; [done|].
  destruct (notNil nilPair s && less x s); [done|].
  destruct (notNil nilPair e && negb (less x e)); [done|].
  destruct (iter x st) as [[] st']; [done|done].
Qed.

Lemma walk_skip s e l st :
  notNil nilPair s = true → Forall (λ x, lt less x s) l →
  walk s e l st = (true, st).
Proof.
  intros Hs. induction 1 as [|x l Hx _ IH]; simpl; [done|].
  unfold lt in Hx. by rewrite Hs, Hx.
Qed.

Lemma feed_app l1 l2 st :
  feed iter (l1 ++ l2) st =
    if (feed iter l1 st).1 then feed iter l2 (feed iter l1 st).2
    else feed iter l1 st.
Proof.
  revert st. induction l1 as [|x l1 IH]; intros st; simpl; [done|].
  destruct (iter x st) as [[] st']; [done|done].
Qed.

Lemma walk_unbounded l st : walk nilPair nilPair l st = feed iter l st.
Proof.
  revert st. induction l as [|x l IH]; intros st; simpl; [done|].
  rewrite notNil_nil. simpl.
  by destruct (iter x st) as [[] st'].
Qed.

Lemma filter_none (P : Pair → Prop) `{∀ x, Decision (P x)} l :
  Forall (λ x, ¬ P x) l → filter P l = [].
Proof.
  induction 1 as [|x l Hx _ IH]; [done|]. by rewrite filter_cons_False.
Qed.

(** On an increasing list the scan between two bounds feeds the items of
    the range. *)
Lemma walk_range s e l st :
  s ≠ nilPair → e ≠ nilPair → increasing less l →
  (walk s e l st).2 = (feed iter (filter (λ x, in_range less s e x = true) l) st).2.
Proof.
  intros Hs He. unfold in_range.
  revert st. induction l as [|x l IH]; intros st Hl; simpl; [done|].
  apply StronglySorted_cons in Hl as [Hx Hl].
  rewrite !notNil_true by done. simpl.
  destruct (less x s) eqn:Hxs; simpl.
  - rewrite filter_cons_False by (by rewrite Hxs). by apply IH.
  - destruct (less x e) eqn:Hxe; simpl.
    + rewrite filter_cons_True by (by rewrite Hxs, Hxe). simpl.
      destruct (iter x st) as [[] st']; [by apply IH|done].
    + rewrite filter_cons_False by (by rewrite Hxs, Hxe).
      assert (filter (λ y, negb (less y s) && less y e = true) l = []) as ->; [|done].
      apply filter_none, Forall_forall. intros y Hy.
      rewrite Forall_forall in Hx. specialize (Hx y Hy).
      destruct (less y e) eqn:Hye; [|by rewrite andb_false_r].
      rewrite (less_trans _ SW _ _ _ Hx Hye) in Hxe. done.
Qed.

(** The items visited from the item [i] on: every child [sub] before its
    item. *)
Fixpoint seq_from (sub : nat → list Pair) (i : nat) (B : list Pair) : list Pair :=
  match B with
  | [] => []
  | it :: B' => sub i ++ it :: seq_from sub (S i) B'
  end.

Definition sub_of (cs : list (@node Pair)) (j : nat) : list Pair :=
  match cs !! j with Some c => inorder c | None => [] end.

Lemma seq_from_pre cs : ∀ B CB i,
  length CB = length B →
  (∀ j c, CB !! j = Some c → cs !! (i + j) = Some c) →
  seq_from (sub_of cs) i B = pre B CB.
Proof.
  induction B as [|it B IH]; intros [|c CB] i Hl Hcs; simplify_eq/=; [done|].
  rewrite pre_cons. unfold sub_of at 1.
  pose proof (Hcs 0 c eq_refl) as Hc0. rewrite Nat.add_0_r in Hc0. rewrite Hc0.
  f_equal. f_equal. apply IH; [done|].
  intros j c' Hj. replace (S i + j) with (i + S j) by lia. by apply (Hcs (S j)).
Qed.

Lemma seq_from_leaf i B : seq_from (λ _, []) i B = B.
Proof. revert i. induction B as [|it B IH]; intros i; simpl; [done|]. by rewrite IH. Qed.

Lemma ascend_loop_S under its s e incl todo i hit st :
  ascend_loop nilPair less iter under its s e incl (S todo) i hit st =
    it ← its !! i;
    if notNil nilPair s && less it s
    then ascend_loop nilPair less iter under its s e incl todo (i + 1) hit st
    else
      '(hit, ok, st) ← under i hit st;
      if negb ok then Some (hit, false, st)
      else if negb incl && negb hit && notNil nilPair s && negb (less s it)
      then ascend_loop nilPair less iter under its s e incl todo (i + 1) true st
      else if notNil nilPair e && negb (less it e)
      then Some (true, false, st)
      else
        let '(continue, st) := iter it st in
        if negb continue then Some (true, false, st)
        else ascend_loop nilPair less iter under its s e incl todo (i + 1) true st.
Proof. done. Qed.

Lemma ascend_loop_spec under its sub s e incl :
  (incl = true ∨ s = nilPair) →
  ∀ B i hit st,
    (∀ j it, B !! j = Some it → its !! (i + j) = Some it) →
    (∀ j hit st, j < length B →
       ∃ hit', under (i + j) hit st =
                 Some (hit', (walk s e (sub (i + j)) st).1,
                       (walk s e (sub (i + j)) st).2)) →
    (∀ j it, B !! j = Some it → Forall (λ x, lt less x it) (sub (i + j))) →
    ∃ hit', ascend_loop nilPair less iter under its s e incl (length B) i hit st =
              Some (hit', (walk s e (seq_from sub i B) st).1,
                    (walk s e (seq_from sub i B) st).2).
Proof.
  intros Hincl. induction B as [|it B IH]; intros i hit st Hits Hunder Hsorted.
  - simpl. eauto.
  - assert (∀ hit st, ∃ hit',
              ascend_loop nilPair less iter under its s e incl (length B) (i + 1) hit st =
                Some (hit', (walk s e (seq_from sub (S i) B) st).1,
                      (walk s e (seq_from sub (S i) B) st).2)) as IH'.
    { intros hit0 st0. replace (i + 1) with (S i) by lia. apply IH.
      - intros j it' Hj. replace (S i + j) with (i + S j) by lia. by apply (Hits (S j)).
      - intros j hit1 st1 Hj. replace (S i + j) with (i + S j) by lia.
        apply Hunder. simpl. lia.
      - intros j it' Hj. replace (S i + j) with (i + S j) by lia.
        by apply (Hsorted (S j)). }
    pose proof (Hits 0 it eq_refl) as Hit. rewrite Nat.add_0_r in Hit.
    pose proof (Hsorted 0 it eq_refl) as Hsub. rewrite Nat.add_0_r in Hsub.
    cbn [length seq_from]. rewrite ascend_loop_S, Hit. step.
    rewrite walk_app. cbn [walk].
    destruct (notNil nilPair s && less it s) eqn:Hskip.
    + apply andb_true_iff in Hskip as [Hs Hlt].
      rewrite walk_skip; [|done|].
      * cbn [fst snd]. apply IH'.
      * eapply Forall_impl; [exact Hsub|]. intros x Hx.
        exact (less_trans _ SW _ _ _ Hx Hlt).
    + destruct (Hunder 0 hit st) as [hit1 Hu]; [simpl; lia|].
      rewrite Nat.add_0_r in Hu. rewrite Hu. step.
      destruct (walk s e (sub i) st) as [ok1 st1]. cbn [fst snd].
      destruct ok1; cbn [negb]; [|eauto].
      assert (negb incl && negb hit1 && notNil nilPair s && negb (less s it) = false)
        as ->.
      { destruct Hincl as [-> | ->]; [done|].
        rewrite notNil_nil. by rewrite andb_false_r. }
      destruct (notNil nilPair e && negb (less it e)); [eauto|].
      destruct (iter it st1) as [[] st2]; cbn [negb]; [apply IH'|eauto].
Qed.

(** The items visited by the descending loop from the item [k - 1] down. *)
Fixpoint rev_seq (sub : nat → list Pair) (its : list Pair) (k : nat) : list Pair :=
  match k with
  | 0 => []
  | S i =>
      reverse (sub (S i)) ++
      match its !! i with
      | Some it => it :: rev_seq sub its i
      | None => []
      end
  end.

Lemma descend_loop_S under its s e incl i hit st :
  descend_loop nilPair less iter under its s e incl (S i) hit st =
    it ← its !! i;
    if notNil nilPair s && negb (less it s) && (negb incl || hit || less s it)
    then descend_loop nilPair less iter under its s e incl i hit st
    else
      '(hit, ok, st) ← under (i + 1) hit st;
      if negb ok then Some (hit, false, st)
      else if notNil nilPair e && negb (less e it)
      then Some (hit, false, st)
      else
        let '(continue, st) := iter it st in
        if negb continue then Some (true, false, st)
        else descend_loop nilPair less iter under its s e incl i true st.
Proof. done. Qed.

Lemma descend_loop_spec under its sub incl :
  ∀ k hit st,
    k ≤ length its →
    (∀ j hit st, 1 ≤ j ≤ k →
       ∃ hit', under j hit st =
                 Some (hit', (feed iter (reverse (sub j)) st).1,
                       (feed iter (reverse (sub j)) st).2)) →
    ∃ hit', descend_loop nilPair less iter under its nilPair nilPair incl k hit st =
              Some (hit', (feed iter (rev_seq sub its k) st).1,
                    (feed iter (rev_seq sub its k) st).2).
Proof.
  induction k as [|k IH]; intros hit st Hk Hunder.
  - simpl. eauto.
  - destruct (lookup_lt_is_Some_2 its k) as [it Hit]; [lia|].
    rewrite descend_loop_S, Hit. step. rewrite notNil_nil. cbn [andb].
    destruct (Hunder (S k) hit st) as [hit1 Hu]; [lia|].
    replace (k + 1) with (S k) by lia. rewrite Hu. step.
    cbn [rev_seq]. rewrite Hit, feed_app.
    destruct (feed iter (reverse (sub (S k))) st) as [ok1 st1]. cbn [fst snd].
    destruct ok1; cbn [negb]; [|eauto]. cbn [feed].
    destruct (iter it st1) as [[] st2]; cbn [negb]; [|eauto].
    apply IH; [lia|]. intros j hit2 st3 Hj. apply Hunder. lia.
Qed.

Lemma rev_seq_post cs its k :
  k ≤ length its → length cs = length its + 1 →
  rev_seq (sub_of cs) its k = reverse (post (take k its) (take k (drop 1 cs))).
Proof.
  intros Hk Hl. induction k as [|k IH]; [done|].
  destruct (lookup_lt_is_Some_2 its k) as [it Hit]; [lia|].
  destruct (lookup_lt_is_Some_2 cs (S k)) as [c Hc]; [lia|].
  cbn [rev_seq]. rewrite Hit, IH by lia. unfold sub_of. rewrite Hc.
  rewrite (take_S_r its k it Hit).
  rewrite (take_S_r (drop 1 cs) k c) by (by rewrite lookup_drop).
  rewrite post_app by (rewrite !length_take, length_drop; lia).
  rewrite post_cons, post_nil_l, app_nil_r, reverse_app, reverse_cons.
  by rewrite <- app_assoc.
Qed.
End Scan.

Section Iterate.
Context {Pair : Type} `{EqDecision Pair}.
Variable nilPair : Pair.
Variable less : Pair → Pair → bool.
Hypothesis SW : StrictWeak less.
Context {St : Type}.
Variable iter : Pair → St → bool * St.
Variables lo hi : nat.

Implicit Types (A B : list Pair) (CA CB cs : list (@node Pair)) (c n : @node Pair).
Implicit Types (st : St) (hit : bool).

Local Abbreviation iterate := (iterate nilPair less iter).
Local Abbreviation walk := (walk nilPair less iter).

Ltac step := cbn [mbind option_bind items children].
Ltac lens :=
  cbn [items children] in *;
  repeat match goal with
    | H : context [length (_ ++ _)] |- _ => rewrite length_app in H
    | |- context [length (_ ++ _)] => rewrite length_app
    end;
  cbn [length] in *; lia.

Lemma iterate_S fuel n dir s e incl hit st :
  iterate (S fuel) n dir s e incl hit st =
    let under (i : nat) (hit : bool) (st : St) :=
      if decide (0 < length (children n)) then
        c ← children n !! i; iterate fuel c dir s e incl hit st
      else Some (hit, true, st) in
    r ← match dir with
        | ascend =>
            ascend_loop nilPair less iter under (items n) s e incl
              (length (items n)) 0 hit st
        | descend =>
            descend_loop nilPair less iter under (items n) s e incl
              (length (items n)) hit st
        end;
    let '(hit, ok, st) := r in
    if negb ok then Some (hit, false, st)
    else if decide (0 < length (children n)) then
      match dir with
      | ascend => under (length (children n) - 1) hit st
      | descend => under 0 hit st
      end
    else Some (hit, true, st).
Proof. done. Qed.

(** Every item of a child is below the item to its right. *)
Lemma child_below_item h its cs j it c :
  btree lo hi (S h) (Node its cs) → increasing less (inorder (Node its cs)) →
  its !! j = Some it → cs !! j = Some c →
  Forall (λ x, lt less x it) (inorder c).
Proof.
  intros Hb Hinc Hit Hc.
  pose proof (take_drop_middle its j it Hit) as Eits.
  rewrite <- Eits in Hb, Hinc.
  destruct (internal_at_item lo hi h _ _ _ cs Hb)
    as (CA & c1 & c2 & CB & -> & HCA & _).
  rewrite length_take_le in HCA by (apply lookup_lt_Some in Hit; lia).
  rewrite lookup_at in Hc by done. injection Hc as ->.
  rewrite inorder_mid_item in Hinc
    by (rewrite length_take_le; [done|apply lookup_lt_Some in Hit; lia]).
  destruct (increasing_around less _ _ _ Hinc) as [Hlt _].
  apply Forall_forall. intros x Hx. apply Hlt. set_solver.
Qed.

Ltac loop_under k :=
  match goal with
  | |- context [ascend_loop _ _ _ ?u _ _ _ _ _ _ _ _] => k u
  | |- context [descend_loop _ _ _ ?u _ _ _ _ _ _ _] => k u
  end.

Lemma iterate_ascend s e incl h : ∀ fuel n hit st,
  h < fuel → btree lo hi h n → increasing less (inorder n) →
  (incl = true ∨ s = nilPair) →
  ∃ hit', iterate fuel n ascend s e incl hit st =
            Some (hit', (walk s e (inorder n) st).1, (walk s e (inorder n) st).2).
Proof.
  induction h as [|h IH]; intros fuel n hit st Hfuel Hb Hinc Hincl;
    (destruct fuel as [|fuel]; [lia|]); rewrite iterate_S; cbv zeta;
    destruct n as [its cs]; cbn [items children] in *.
  - destruct Hb as [Hcs _]. cbn [children] in Hcs. subst cs.
    rewrite inorder_leaf. cbn [length].
    loop_under ltac:(fun u =>
      destruct (ascend_loop_spec nilPair less SW iter u its (λ _, []) s e incl
                  Hincl its 0 hit st) as [hit' ->]);
      [done| |done|].
    { intros j hit0 st0 _. cbv beta. rewrite decide_False by lia. eauto. }
    step. rewrite seq_from_leaf.
    destruct (walk s e its st) as [ok1 st1]. cbn [fst snd].
    destruct ok1; cbn [negb]; [|eauto].
    rewrite decide_False by lia. eauto.
  - pose proof Hb as (Hl & _ & Hcs)%btree_internal.
    cbn [items children] in Hl, Hcs.
    destruct (snoc_of_length cs) as (CB & clast & Ecs); [lia|].
    assert (length CB = length its) as HlCB by (subst cs; lens).
    assert (∀ c, c ∈ cs → ∀ hit st,
              ∃ hit', iterate fuel c ascend s e incl hit st =
                Some (hit', (walk s e (inorder c) st).1, (walk s e (inorder c) st).2))
      as Hchild.
    { intros c Hc hit0 st0. rewrite Forall_forall in Hcs.
      destruct (Hcs c Hc) as [_ Hbc]. apply IH; [lia|done| |done].
      by eapply (child_increasing less). }
    loop_under ltac:(fun u =>
      destruct (ascend_loop_spec nilPair less SW iter u its (sub_of cs) s e incl
                  Hincl its 0 hit st) as [hit' ->]).
    { done. }
    { intros j hit0 st0 Hj. cbv beta. rewrite decide_True by lia. simpl.
      destruct (lookup_lt_is_Some_2 cs j) as [c Hc]; [lia|].
      unfold sub_of. rewrite Hc. step. apply Hchild.
      by eapply list_elem_of_lookup_2. }
    { intros j it Hit. simpl.
      destruct (lookup_lt_is_Some_2 cs j) as [c Hc].
      { apply lookup_lt_Some in Hit. lia. }
      unfold sub_of. rewrite Hc. by eapply child_below_item. }
    step.
    rewrite (seq_from_pre cs its CB 0) by
      (try done; intros j c Hj; subst cs; by apply lookup_app_l_Some).
    subst cs. rewrite inorder_snoc_child by lia. rewrite walk_app.
    destruct (walk s e (pre its CB) st) as [ok1 st1]. cbn [fst snd negb].
    destruct ok1; cbn [negb]; [|eauto].
    rewrite !decide_True by lia.
    rewrite length_app. simpl. rewrite Nat.add_sub.
    rewrite lookup_at by lia. step.
    apply Hchild. set_solver.
Qed.

Lemma rev_seq_leaf (its : list Pair) : ∀ k,
  k ≤ length its → rev_seq (λ _, []) its k = reverse (take k its).
Proof.
  induction k as [|k IHk]; intros Hk; [done|].
  destruct (lookup_lt_is_Some_2 its k) as [it Hit]; [lia|].
  cbn [rev_seq]. rewrite Hit, IHk by lia.
  rewrite (take_S_r its k it Hit), reverse_app. done.
Qed.

Lemma iterate_descend incl h : ∀ fuel n hit st,
  h < fuel → btree lo hi h n →
  ∃ hit', iterate fuel n descend nilPair nilPair incl hit st =
            Some (hit', (feed iter (reverse (inorder n)) st).1,
                  (feed iter (reverse (inorder n)) st).2).
Proof.
  induction h as [|h IH]; intros fuel n hit st Hfuel Hb;
    (destruct fuel as [|fuel]; [lia|]); rewrite iterate_S; cbv zeta;
    destruct n as [its cs]; cbn [items children] in *.
  - destruct Hb as [Hcs _]. cbn [children] in Hcs. subst cs.
    rewrite inorder_leaf. cbn [length].
    loop_under ltac:(fun u =>
      destruct (descend_loop_spec nilPair less iter u its (λ _, []) incl
                  (length its) hit st) as [hit' ->]); [done| |].
    { intros j hit0 st0 _. cbv beta. rewrite decide_False by lia. eauto. }
    step.
    rewrite rev_seq_leaf, firstn_all by done.
    destruct (feed iter (reverse its) st) as [ok1 st1]. cbn [fst snd].
    destruct ok1; cbn [negb]; [|eauto].
    rewrite decide_False by lia. eauto.
  - pose proof Hb as (Hl & _ & Hcs)%btree_internal.
    cbn [items children] in Hl, Hcs.
    assert (∀ c, c ∈ cs → ∀ hit st,
              ∃ hit', iterate fuel c descend nilPair nilPair incl hit st =
                Some (hit', (feed iter (reverse (inorder c)) st).1,
                      (feed iter (reverse (inorder c)) st).2))
      as Hchild.
    { intros c Hc hit0 st0. rewrite Forall_forall in Hcs.
      destruct (Hcs c Hc) as [_ Hbc]. apply IH; [lia|done]. }
    loop_under ltac:(fun u =>
      destruct (descend_loop_spec nilPair less iter u its (sub_of cs) incl
                  (length its) hit st) as [hit' ->]); [done| |].
    { intros j hit0 st0 Hj. cbv beta. rewrite decide_True by lia.
      destruct (lookup_lt_is_Some_2 cs j) as [c Hc]; [lia|].
      unfold sub_of. rewrite Hc. step. apply Hchild.
      by eapply list_elem_of_lookup_2. }
    step. rewrite rev_seq_post by lia. rewrite firstn_all.
    destruct cs as [|c0 cs]; [simpl in Hl; lia|].
    rewrite inorder_cons, reverse_app, feed_app.
    change (drop 1 (c0 :: cs)) with cs.
    rewrite take_ge by (simpl in Hl; lia).
    destruct (feed iter (reverse (post its cs)) st) as [ok1 st1]. cbn [fst snd].
    destruct ok1; cbn [negb]; [|eauto].
    rewrite !decide_True by (simpl; lia).
    cbn [lookup list_lookup]. step.
    apply Hchild. set_solver.
Qed.
End Iterate.

Section ScanClaim.
Context {Pair : Type} `{EqDecision Pair}.
Variable nilPair : Pair.
Variable less : Pair → Pair → bool.
Hypothesis SW : StrictWeak less.
Context {St : Type}.
Variable iterator : Pair → St → bool * St.

Implicit Types t : @PairTree Pair.

Lemma scan_ascend fuel t s e incl st :
  tree_inv nilPair less t → tree_height t < fuel → (incl = true ∨ s = nilPair) →
  scan nilPair less iterator fuel t ascend s e incl st =
    Some (walk nilPair less iterator s e (contents t) st).2.
Proof.
  intros [_ Hinv] Hfuel Hincl. unfold scan, contents, tree_height in *.
  destruct (root t) as [r|]; [|done].
  destruct Hinv as (Hb & _ & Hinc & _).
  destruct (iterate_ascend nilPair less SW iterator _ _ s e incl _
              fuel r false st Hfuel Hb Hinc Hincl) as [hit' ->].
  done.
Qed.

Lemma scan_descend fuel t incl st :
  tree_inv nilPair less t → tree_height t < fuel →
  scan nilPair less iterator fuel t descend nilPair nilPair incl st =
    Some (feed iterator (reverse (contents t)) st).2.
Proof.
  intros [_ Hinv] Hfuel. unfold scan, contents, tree_height in *.
  destruct (root t) as [r|]; [|done].
  destruct Hinv as (Hb & _).
  destruct (iterate_descend nilPair less SW iterator _ _ incl _
              fuel r false st Hfuel Hb) as [hit' ->].
  done.
Qed.

(** C3: Ascend calls the callback on the items of the tree in strictly
    increasing order, until it returns false; Descend on the same items
    in the reverse order; AscendRange, for bounds [a] and [b] other than
    the sentinel, on the items [x] with [a <= x < b], in increasing
    order. *)
Theorem C3_scan_order d t fuel st :
  2 ≤ d → built nilPair less d t → enough t ≤ fuel →
  increasing less (contents t) ∧
  Ascend nilPair less iterator fuel t st =
    Some (feed iterator (contents t) st).2 ∧
  Descend nilPair less iterator fuel t st =
    Some (feed iterator (reverse (contents t)) st).2 ∧
  ∀ a b, a ≠ nilPair → b ≠ nilPair →
    AscendRange nilPair less iterator fuel t a b st =
      Some (feed iterator
              (filter (λ x, in_range less a b x = true) (contents t)) st).2.
Proof.
  intros Hd Hb Hfuel. unfold enough in Hfuel.
  destruct (built_inv nilPair less SW d t Hd Hb) as [Hinv _].
  assert (increasing less (contents t)) as Hinc.
  { pose proof Hinv as (_ & Hi). unfold contents.
    destruct (root t); [apply Hi|constructor]. }
  split; [done|]. unfold Ascend, Descend, AscendRange. split_and!.
  - rewrite scan_ascend by (try done; lia || by right).
    by rewrite walk_unbounded.
  - by rewrite scan_descend by (done || lia).
  - intros a b Ha Hb'. rewrite scan_ascend by (try done; lia || by left).
    by rewrite (walk_range nilPair less SW).
Qed.
End ScanClaim.

Lemma C3_witness :
  increasing zless (contents (the_tree example_tree')) ∧
  Ascend znil zless record 6 (the_tree example_tree') [] =
    Some (feed record (contents (the_tree example_tree')) []).2 ∧
  Descend znil zless record 6 (the_tree example_tree') [] =
    Some (feed record (reverse (contents (the_tree example_tree'))) []).2 ∧
  ∀ a b, a ≠ znil → b ≠ znil →
    AscendRange znil zless record 6 (the_tree example_tree') a b [] =
      Some (feed record
              (filter (λ x, in_range zless a b x = true)
                 (contents (the_tree example_tree'))) []).2.
Proof.
  apply (C3_scan_order znil zless zless_strict record 9).
  - lia.
  - exact example_built'.
  - vm_compute. lia.
Defined.

(** * Cursors *)
Section Positions.
Context {A : Type}.
Implicit Types (s : list A) (j : nat).

Lemma zindex_nat s j : zindex s (Z.of_nat j) = s !! j.
Proof. unfold zindex. rewrite decide_True by lia. by rewrite Nat2Z.id. Qed.

Lemma zindex_neg s i : (i < 0)%Z → zindex s i = None.
Proof. intros. unfold zindex. by rewrite decide_False by lia. Qed.

Lemma rem_even j : Z.rem (Z.of_nat (2 * j)) 2 = 0%Z.
Proof. rewrite Z.rem_mod_nonneg by lia. Z.to_euclidean_division_equations. lia. Qed.

Lemma rem_odd j : Z.rem (Z.of_nat (2 * j + 1)) 2 = 1%Z.
Proof. rewrite Z.rem_mod_nonneg by lia. Z.to_euclidean_division_equations. lia. Qed.

Lemma quot_even j : Z.quot (Z.of_nat (2 * j)) 2 = Z.of_nat j.
Proof. rewrite Z.quot_div_nonneg by lia. Z.to_euclidean_division_equations. lia. Qed.

Lemma quot_odd j : Z.quot (Z.of_nat (2 * j + 1)) 2 = Z.of_nat j.
Proof. rewrite Z.quot_div_nonneg by lia. Z.to_euclidean_division_equations. lia. Qed.

Lemma parity (p : nat) : ∃ j, p = 2 * j ∨ p = 2 * j + 1.
Proof.
  exists (p / 2). pose proof (Nat.div_mod_eq p 2).
  pose proof (Nat.mod_upper_bound p 2). lia.
Qed.
End Positions.

Section CursorNext.
Context {Pair : Type} `{EqDecision Pair}.
Variable nilPair : Pair.
Variables lo hi : nat.
Hypothesis Hlo : 1 ≤ lo.
Variable H : nat.

Implicit Types (n m : @node Pair) (i : Z) (s below : list (@node Pair * Z)).
Implicit Types (c : @Cursor Pair) (its : list Pair) (cs : list (@node Pair)).

(** The number of positions of a node: its items and its children. *)
Definition positions n : Z := (zlen (children n) + zlen (items n))%Z.

(** The items of [n] at the positions from [p] on.  In a leaf position
    [p] is item [p]; in an internal node position [2 * j] is child [j]
    and position [2 * j + 1] item [j]. *)
Definition from_pos n (p : nat) : list Pair :=
  if decide (children n = []) then drop p (items n)
  else if Nat.even p
       then inorder (Node (drop (p / 2) (items n)) (drop (p / 2) (children n)))
       else post (drop (p / 2) (items n)) (drop (p / 2 + 1) (children n)).

(** What a cursor with stack [s] (top first) has left to return: for each
    frame, the items after its position. *)
Definition rest s : list Pair :=
  concat (map (λ f : @node Pair * Z, from_pos f.1 (Z.to_nat (f.2 + 1))) s).

(** The stacks [Next] is called on: frames of nodes of increasing height
    from the top, each at a position within its node. *)
Fixpoint chain (k : nat) s : Prop :=
  match s with
  | [] => True
  | f :: below =>
      k ≤ height f.1 ≤ H ∧ btree lo hi (height f.1) f.1 ∧
      (-1 ≤ f.2)%Z ∧ (children f.1 ≠ [] → (f.2 < positions f.1)%Z) ∧
      chain (S (height f.1)) below
  end.

Lemma chain_weaken k k' s : chain k s → k' ≤ k → chain k' s.
Proof. destruct s as [|f below]; [done|]. simpl. intros ([? ?] & ?) ?. split; [lia|done]. Qed.

Lemma chain_length s : ∀ k, chain k s → length s ≤ S H - k.
Proof.
  induction s as [|f below IH]; intros k; simpl; [lia|].
  intros ([? ?] & _ & _ & _ & Hc). apply IH in Hc. lia.
Qed.

Lemma rest_cons n i below :
  rest ((n, i) :: below) = from_pos n (Z.to_nat (i + 1)) ++ rest below.
Proof. done. Qed.

Lemma from_pos_leaf its p : from_pos (Node its []) p = drop p its.
Proof. done. Qed.

Lemma from_pos_even its cs j :
  cs ≠ [] →
  from_pos (Node its cs) (2 * j) = inorder (Node (drop j its) (drop j cs)).
Proof.
  intros. unfold from_pos. cbn [items children]. rewrite decide_False by done.
  replace (Nat.even (2 * j)) with true
    by (symmetry; apply Nat.even_spec; by exists j).
  replace (2 * j / 2) with j by (symmetry; rewrite Nat.mul_comm; by apply Nat.div_mul).
  done.
Qed.

Lemma from_pos_odd its cs j :
  cs ≠ [] →
  from_pos (Node its cs) (2 * j + 1) = post (drop j its) (drop (j + 1) cs).
Proof.
  clear Hlo. intros. unfold from_pos. cbn [items children]. rewrite decide_False by done.
  replace (Nat.even (2 * j + 1)) with false.
  2:{ symmetry. rewrite <- Nat.negb_odd. apply negb_false_iff, Nat.odd_spec. by exists j. }
  replace ((2 * j + 1) / 2) with j; [done|].
  apply (Nat.div_unique _ 2 j 1); lia.
Qed.

Lemma Next_S fuel c n i0 below :
  stack c = (n, i0) :: below →
  Next nilPair (S fuel) c =
    let i := (i0 + 1)%Z in
    if decide (i = zlen (children n) + zlen (items n))%Z then
      Next nilPair fuel (with_stack c below)
    else if decide (length (children n) = 0) then
      if decide (zlen (items n) ≤ i)%Z then
        Next nilPair fuel (with_stack c below)
      else
        it ← zindex (items n) i;
        Some (it, with_stack c ((n, i) :: below))
    else if decide (Z.rem i 2 = 1)%Z then
      it ← zindex (items n) (Z.quot i 2);
      Some (it, with_stack c ((n, i) :: below))
    else
      child ← zindex (children n) (Z.quot i 2);
      Next nilPair fuel (with_stack c ((child, (-1)%Z) :: (n, i) :: below)).
Proof. intros Hs. cbn [Next]. by rewrite Hs. Qed.

(** What [Next] gives: the item [x], and a cursor that has [l] left. *)
Definition gives (r : option (Pair * @Cursor Pair)) c (l : list Pair) : Prop :=
  ∃ c', r = Some (hd nilPair l, c') ∧ c_t c' = c_t c ∧
        rest (stack c') = tl l ∧ chain 0 (stack c').

(** Entering a subtree from the left returns its first item. *)
Lemma Next_enter h : ∀ fuel c m below,
  h < fuel → height m = h → h ≤ H → btree lo hi h m → 1 ≤ length (items m) →
  stack c = (m, (-1)%Z) :: below → chain (S h) below →
  gives (Next nilPair fuel c) c (inorder m ++ rest below).
Proof.
  induction h as [|h IH]; intros fuel c m below Hf Hh HH Hb Hit Hs Hc;
    (destruct fuel as [|fuel]; [lia|]); rewrite (Next_S _ _ _ _ _ Hs); cbv zeta;
    destruct m as [its cs]; cbn [items children] in *;
    unfold zlen; change (-1 + 1)%Z with 0%Z.
  - pose proof Hb as [Hcs _]. cbn [children] in Hcs. subst cs. cbn [length].
    rewrite decide_False by lia. rewrite decide_True by done.
    rewrite decide_False by lia.
    destruct its as [|it its]; [simpl in Hit; lia|].
    change 0%Z with (Z.of_nat 0). rewrite zindex_nat. cbn.
    eexists. split_and!; [done|done|..].
    + cbn [stack with_stack]. rewrite rest_cons, from_pos_leaf.
      by rewrite inorder_leaf.
    + cbn [stack with_stack chain fst snd]. rewrite Hh.
      split_and!; [lia|lia|done|lia|done|by eapply chain_weaken].
  - pose proof Hb as (Hl & Hle & Hcs)%btree_internal.
    cbn [items children] in Hl, Hcs.
    destruct cs as [|c0 cs]; [simpl in Hl; lia|].
    rewrite decide_False by lia. rewrite decide_False by (simpl; lia).
    rewrite decide_False by done.
    change (Z.quot 0 2) with (Z.of_nat 0). rewrite zindex_nat. cbn [lookup list_lookup mbind option_bind].
    apply Forall_cons in Hcs as [[Hc0 Hb0] Hcs].
    assert (height c0 = h) as Hh0 by (simpl in Hh; lia).
    edestruct (IH fuel (with_stack c ((c0, (-1)%Z) :: (Node its (c0 :: cs), 0%Z) :: below))
                c0 ((Node its (c0 :: cs), 0%Z) :: below))
      as (c' & Hr & Ht & Hrest & Hch); try done; try lia.
    { cbn [chain fst snd]. rewrite Hh. split_and!; try done; try lia.
      intros _. unfold positions, zlen. simpl. lia. }
    exists c'. rewrite Hr. split_and!; try done.
    + rewrite rest_cons. change (Z.to_nat (0 + 1)) with (2 * 0 + 1).
      rewrite from_pos_odd by done. rewrite !drop_0. cbn [drop].
      rewrite inorder_cons. by rewrite <- app_assoc.
    + rewrite Hrest. rewrite rest_cons. change (Z.to_nat (0 + 1)) with (2 * 0 + 1).
      rewrite from_pos_odd by done. rewrite !drop_0. cbn [drop].
      rewrite inorder_cons. by rewrite <- app_assoc.
Qed.

Lemma internal_height n :
  btree lo hi (height n) n → children n ≠ [] →
  ∃ h, height n = S h ∧ length (children n) = length (items n) + 1 ∧
       Forall (λ m, lo ≤ length (items m) ∧ btree lo hi h m ∧ height m = h)
         (children n).
Proof.
  intros Hb Hne. destruct (height n) as [|h] eqn:Hh.
  - by destruct Hb as [? _].
  - exists h. destruct Hb as (Hl & _ & Hcs). split_and!; [done|done|].
    eapply Forall_impl; [exact Hcs|]. intros m [? Hc]. split_and!; [done..|].
    by eapply btree_height.
Qed.

Lemma post_step its cs j it :
  its !! j = Some it → length cs = length its + 1 →
  post (drop j its) (drop (j + 1) cs) =
    it :: inorder (Node (drop (j + 1) its) (drop (j + 1) cs)).
Proof.
  intros Hit Hl. pose proof (lookup_lt_Some _ _ _ Hit) as Hj.
  destruct (lookup_lt_is_Some_2 cs (j + 1)) as [c1 Hc1]; [lia|].
  rewrite (drop_S its it j Hit), (drop_S cs c1 (j + 1) Hc1).
  rewrite post_cons, inorder_cons. by rewrite Nat.add_1_r.
Qed.

Lemma Next_spec s : ∀ fuel c k,
  stack c = s → chain k s → length s + H + 1 ≤ fuel →
  gives (Next nilPair fuel c) c (rest s).
Proof.
  induction s as [|[n i0] below IH]; intros fuel c k Hs Hc Hf.
  { exists c. split_and!; [|done|by rewrite Hs..].
    destruct fuel; cbn [Next]; by rewrite Hs. }
  destruct fuel as [|fuel]; [simpl in Hf; lia|].
  rewrite (Next_S _ _ _ _ _ Hs). cbv zeta.
  cbn [chain fst snd] in Hc. destruct Hc as ([_ HH] & Hb & Hi0 & Hpos & Hc).
  simpl in Hf. rewrite rest_cons.
  assert (∀ r l P, gives r (with_stack c l) (rest below) → P = [] →
            gives r c (P ++ rest below)) as Hpop.
  { intros r l P Hg ->. exact Hg. }
  set (p := Z.to_nat (i0 + 1)).
  assert (i0 + 1 = Z.of_nat p)%Z as Hp by lia. rewrite Hp. clearbody p.
  destruct n as [its cs]; cbn [items children] in *. unfold zlen.
  destruct (decide (Z.of_nat p = Z.of_nat (length cs) + Z.of_nat (length its))%Z)
    as [Hend|Hend].
  { (* past the last position: back to the parent *)
    apply (Hpop _ below); [apply (IH fuel (with_stack c below) _ eq_refl Hc); lia|].
    destruct cs as [|c0 cs'].
    - rewrite from_pos_leaf. apply drop_ge. simpl in Hend. lia.
    - destruct (internal_height _ Hb) as (h & _ & Hl & _); [done|].
      cbn [items children] in Hl.
      replace p with (2 * length its + 1) by lia.
      rewrite from_pos_odd by done.
      rewrite !drop_ge by lia. done. }
  destruct (decide (length cs = 0)) as [Hleaf|Hint].
  - apply length_zero_iff_nil in Hleaf. subst cs. rewrite from_pos_leaf.
    destruct (decide (Z.of_nat (length its) ≤ Z.of_nat p)%Z) as [Hge|Hlt].
    + apply (Hpop _ below); [apply (IH fuel (with_stack c below) _ eq_refl Hc); lia|].
      apply drop_ge. lia.
    + rewrite zindex_nat.
      destruct (lookup_lt_is_Some_2 its p) as [it Hit]; [lia|].
      rewrite Hit. cbn [mbind option_bind].
      rewrite (drop_S its it p Hit). eexists. split_and!; [done|done|..].
      * cbn [stack with_stack hd tl]. rewrite rest_cons, from_pos_leaf.
        by replace (Z.to_nat (Z.of_nat p + 1)) with (S p) by lia.
      * cbn [stack with_stack chain fst snd]. split_and!; [lia|lia|done|lia|done|].
        done.
  - assert (cs ≠ []) as Hne by (by intros ->).
    destruct (internal_height _ Hb Hne) as (h & Hh & Hl & Hcs).
    cbn [items children] in Hl, Hcs. specialize (Hpos Hne).
    unfold positions, zlen in Hpos. cbn [items children] in Hpos.
    destruct (parity p) as [j [-> | ->]].
    + (* a child: enter it *)
      rewrite decide_False by (rewrite rem_even; lia).
      rewrite quot_even, zindex_nat.
      destruct (lookup_lt_is_Some_2 cs j) as [child Hchild]; [lia|].
      rewrite Hchild. cbn [mbind option_bind].
      rewrite Forall_forall in Hcs.
      destruct (Hcs child) as (Hlo' & Hbc & Hhc); [by eapply list_elem_of_lookup_2|].
      rewrite from_pos_even by done.
      rewrite (drop_S cs child j Hchild), inorder_cons, <- app_assoc.
      pose proof (Next_enter h fuel
                    (with_stack c ((child, (-1)%Z) :: (Node its cs, Z.of_nat (2 * j)) :: below))
                    child ((Node its cs, Z.of_nat (2 * j)) :: below)) as Hg.
      rewrite rest_cons in Hg.
      replace (Z.to_nat (Z.of_nat (2 * j) + 1)) with (2 * j + 1) in Hg by lia.
      rewrite from_pos_odd in Hg by done.
      replace (S j) with (j + 1) by lia.
      apply Hg; try done; try lia.
      cbn [chain fst snd]. rewrite Hh in HH, Hb, Hc |- *.
      split_and!; [lia|lia|done|lia| |done].
      intros _. unfold positions, zlen. cbn [items children]. lia.
    + (* an item *)
      rewrite decide_True by apply rem_odd.
      rewrite quot_odd, zindex_nat.
      destruct (lookup_lt_is_Some_2 its j) as [it Hit]; [lia|].
      rewrite Hit. cbn [mbind option_bind].
      rewrite from_pos_odd by done.
      rewrite (post_step its cs j it Hit Hl).
      eexists. split_and!; [done|done|..].
      * cbn [stack with_stack hd tl]. rewrite rest_cons.
        replace (Z.to_nat (Z.of_nat (2 * j + 1) + 1)) with (2 * (j + 1)) by lia.
        by rewrite from_pos_even by done.
      * cbn [stack with_stack chain fst snd].
        split_and!; [lia|lia|done|lia| |done].
        intros _. unfold positions, zlen. cbn [items children]. lia.
Qed.

Lemma First_loop_S fuel n s :
  First_loop (S fuel) n s =
    if decide (0 < length (children n)) then
      n' ← children n !! 0; First_loop fuel n' ((n', 0%Z) :: s)
    else Some (n, s).
Proof. done. Qed.

Lemma First_loop_spec h : ∀ fuel n below,
  h ≤ fuel → height n = h → h ≤ H → btree lo hi h n → chain (S h) below →
  ∃ leaf s, First_loop fuel n ((n, 0%Z) :: below) = Some (leaf, (leaf, 0%Z) :: s) ∧
    children leaf = [] ∧
    items leaf ++ rest s = inorder n ++ rest below ∧
    chain 0 ((leaf, 0%Z) :: s) ∧
    (leaf = n ∧ s = below ∨ 1 ≤ length (items leaf)).
Proof.
  induction h as [|h IH]; intros fuel n below Hf Hh HH Hb Hc;
    destruct n as [its cs].
  - pose proof Hb as [Hcs _]. cbn [children] in Hcs. subst cs.
    exists (Node its []), below. split_and!; [by destruct fuel|done|done| |by left].
    cbn [chain fst snd]. rewrite Hh. split_and!; [lia|lia|done|lia|done|done].
  - destruct fuel as [|fuel]; [lia|]. rewrite First_loop_S.
    pose proof Hb as (Hl & Hle & Hcs)%btree_internal.
    cbn [items children] in Hl, Hcs |- *.
    destruct cs as [|c0 cs]; [simpl in Hl; lia|].
    rewrite decide_True by (simpl; lia). cbn [lookup list_lookup mbind option_bind].
    apply Forall_cons in Hcs as [[Hc0 Hb0] Hcs].
    assert (height c0 = h) as Hh0 by (simpl in Hh; lia).
    destruct (IH fuel c0 ((Node its (c0 :: cs), 0%Z) :: below))
      as (leaf & s & Hr & Hleaf & Hrest & Hch & Hfirst); try done; try lia.
    { cbn [chain fst snd]. rewrite Hh. split_and!; [lia|lia|done|lia| |done].
      intros _. unfold positions, zlen. simpl. lia. }
    exists leaf, s. split_and!; try done.
    2:{ right. destruct Hfirst as [[-> _]|?]; [lia|done]. }
    rewrite Hrest, rest_cons. change (Z.to_nat (0 + 1)) with (2 * 0 + 1).
    rewrite from_pos_odd by done. rewrite !drop_0. cbn [drop].
    rewrite inorder_cons. by rewrite <- app_assoc.
Qed.

Lemma collect_nil step count c :
  collect nilPair step count nilPair c = Some [].
Proof. destruct count; cbn [collect]; by rewrite decide_True. Qed.

Lemma collect_S step count p c :
  p ≠ nilPair →
  collect nilPair step (S count) p c =
    '(p', c') ← step c; l ← collect nilPair step count p' c'; Some (p :: l).
Proof. intros. cbn [collect]. by rewrite decide_False. Qed.

(** Calling [Next] until the sentinel returns what the cursor has left. *)
Lemma collect_Next fuel : ∀ l count c,
  nilPair ∉ l → chain 0 (stack c) → rest (stack c) = tl l →
  length l ≤ count → 2 * H + 2 ≤ fuel →
  collect nilPair (Next nilPair fuel) count (hd nilPair l) c = Some l.
Proof.
  induction l as [|p l IH]; intros count c Hnil Hc Hrest Hcount Hf.
  { apply collect_nil. }
  apply not_elem_of_cons in Hnil as [Hp Hnil].
  destruct count as [|count]; [simpl in Hcount; lia|].
  cbn [hd tl] in *. rewrite collect_S by done.
  pose proof (chain_length _ _ Hc).
  destruct (Next_spec (stack c) fuel c 0 eq_refl Hc) as (c' & -> & _ & Hrest' & Hc');
    [lia|].
  cbn [mbind option_bind]. rewrite Hrest in *.
  rewrite IH; [done..| |]; simpl in Hcount; lia.
Qed.
End CursorNext.

Section Forward.
Context {Pair : Type} `{EqDecision Pair}.
Variable nilPair : Pair.
Variable less : Pair → Pair → bool.

Implicit Types t : @PairTree Pair.

Lemma minPairs_pos t : tree_inv nilPair less t → 1 ≤ minPairs t.
Proof. intros [Hd _]. unfold minPairs. lia. Qed.

Lemma First_spec fuel t :
  tree_inv nilPair less t → tree_height t ≤ fuel →
  gives nilPair (minPairs t) (maxPairs t) (tree_height t)
    (First nilPair fuel (NewCursor t)) (NewCursor t) (contents t).
Proof.
  intros Hinv Hf. pose proof Hinv as [_ Hr].
  unfold First, contents, tree_height in *. cbn [c_t NewCursor].
  destruct (root t) as [r|]; [|by eexists].
  destruct Hr as (Hb & _).
  destruct (First_loop_spec (minPairs t) (maxPairs t) (minPairs_pos t Hinv)
              (height r) (height r) fuel r []) as (leaf & s & -> & Hleaf & Hrest & Hc & Hfirst); try done.
  cbn [mbind option_bind]. rewrite app_nil_r in Hrest.
  destruct leaf as [its cs]. cbn [items children] in *. subst cs.
  destruct its as [|it its].
  - rewrite decide_True by done.
    destruct Hfirst as [[<- ->]|?]; [|simpl in *; lia].
    rewrite inorder_leaf. eexists. split; [done|]. by split_and!.
  - rewrite decide_False by done. cbn. rewrite <- Hrest.
    eexists. split; [done|]. by split_and!.
Qed.

(** [First] and then [Next] until the sentinel list the items of the tree
    in order. *)
Lemma forward_spec fuel count t :
  tree_inv nilPair less t → 2 * tree_height t + 2 ≤ fuel →
  length (contents t) ≤ count →
  forward nilPair fuel count t = Some (contents t).
Proof.
  intros Hinv Hf Hcount. unfold forward.
  destruct (First_spec fuel t Hinv) as (c & -> & _ & Hrest & Hc); [lia|].
  cbn [mbind option_bind].
  eapply (collect_Next nilPair _ _ (minPairs_pos t Hinv)); try done.
  pose proof Hinv as [_ Hr]. unfold contents. destruct (root t); [|set_solver].
  apply Hr.
Qed.
End Forward.

Section CursorPrev.
Context {Pair : Type} `{EqDecision Pair}.
Variable nilPair : Pair.
Variables lo hi : nat.
Hypothesis Hlo : 1 ≤ lo.
Variable H : nat.

Implicit Types (n m : @node Pair) (i : Z) (s below : list (@node Pair * Z)).
Implicit Types (c : @Cursor Pair) (its : list Pair) (cs : list (@node Pair)).

(** The items of [n] at the positions before [p]. *)
Definition upto_pos n (p : nat) : list Pair :=
  if decide (children n = []) then take p (items n)
  else if Nat.even p
       then pre (take (p / 2) (items n)) (take (p / 2) (children n))
       else inorder (Node (take (p / 2) (items n)) (take (p / 2 + 1) (children n))).

(** What a cursor with stack [s] has left to return to [Prev]: for each
    frame, the items before its position, last first. *)
Definition rest_back s : list Pair :=
  concat (map (λ f : @node Pair * Z, reverse (upto_pos f.1 (Z.to_nat f.2))) s).

(** The stacks [Prev] is called on. *)
Fixpoint chain_back (k : nat) s : Prop :=
  match s with
  | [] => True
  | f :: below =>
      k ≤ height f.1 ≤ H ∧ btree lo hi (height f.1) f.1 ∧
      (0 ≤ f.2 ≤ positions f.1)%Z ∧
      chain_back (S (height f.1)) below
  end.

Lemma chain_back_weaken k k' s : chain_back k s → k' ≤ k → chain_back k' s.
Proof.
  destruct s as [|f below]; [done|]. simpl. intros ([? ?] & ?) ?. split; [lia|done].
Qed.

Lemma chain_back_length s : ∀ k, chain_back k s → length s ≤ S H - k.
Proof.
  induction s as [|f below IH]; intros k; simpl; [lia|].
  intros ([? ?] & _ & _ & Hc). apply IH in Hc. lia.
Qed.

Lemma rest_back_cons n i below :
  rest_back ((n, i) :: below) = reverse (upto_pos n (Z.to_nat i)) ++ rest_back below.
Proof. done. Qed.

Lemma upto_pos_leaf its p : upto_pos (Node its []) p = take p its.
Proof. done. Qed.

Lemma upto_pos_even its cs j :
  cs ≠ [] → upto_pos (Node its cs) (2 * j) = pre (take j its) (take j cs).
Proof.
  intros. unfold upto_pos. cbn [items children]. rewrite decide_False by done.
  replace (Nat.even (2 * j)) with true
    by (symmetry; apply Nat.even_spec; by exists j).
  replace (2 * j / 2) with j by (symmetry; rewrite Nat.mul_comm; by apply Nat.div_mul).
  done.
Qed.

Lemma upto_pos_odd its cs j :
  cs ≠ [] →
  upto_pos (Node its cs) (2 * j + 1) = inorder (Node (take j its) (take (j + 1) cs)).
Proof.
  clear Hlo. intros. unfold upto_pos. cbn [items children]. rewrite decide_False by done.
  replace (Nat.even (2 * j + 1)) with false.
  2:{ symmetry. rewrite <- Nat.negb_odd. apply negb_false_iff, Nat.odd_spec. by exists j. }
  replace ((2 * j + 1) / 2) with j; [done|].
  apply (Nat.div_unique _ 2 j 1); lia.
Qed.

Lemma upto_child its cs j m :
  cs !! j = Some m → length cs = length its + 1 →
  inorder (Node (take j its) (take (j + 1) cs)) =
    pre (take j its) (take j cs) ++ inorder m.
Proof.
  intros Hm Hl. pose proof (lookup_lt_Some _ _ _ Hm).
  rewrite Nat.add_1_r, (take_S_r cs j m Hm).
  apply inorder_snoc_child. rewrite !length_take. lia.
Qed.

Lemma upto_item its cs j it m :
  its !! j = Some it → cs !! j = Some m → length cs = length its + 1 →
  pre (take (j + 1) its) (take (j + 1) cs) =
    inorder (Node (take j its) (take (j + 1) cs)) ++ [it].
Proof.
  intros Hit Hm Hl. pose proof (lookup_lt_Some _ _ _ Hit).
  rewrite (upto_child its cs j m Hm Hl).
  rewrite Nat.add_1_r, (take_S_r cs j m Hm), (take_S_r its j it Hit).
  rewrite pre_snoc by (rewrite !length_take; lia).
  by rewrite <- app_assoc.
Qed.

Lemma Prev_S fuel c n i0 below :
  stack c = (n, i0) :: below →
  Prev nilPair (S fuel) c =
    let i := (i0 - 1)%Z in
    if decide (i = -1)%Z then
      Prev nilPair fuel (with_stack c below)
    else if decide (length (children n) = 0) then
      it ← zindex (items n) i;
      Some (it, with_stack c ((n, i) :: below))
    else if decide (Z.rem i 2 = 1)%Z then
      it ← zindex (items n) (Z.quot i 2);
      Some (it, with_stack c ((n, i) :: below))
    else
      child ← zindex (children n) (Z.quot i 2);
      Prev nilPair fuel
        (with_stack c
           ((child, (zlen (children child) + zlen (items child))%Z)
              :: (n, i) :: below)).
Proof. intros Hs. cbn [Prev]. by rewrite Hs. Qed.

(** What [Prev] gives: the item, and a cursor that has the rest of [l]
    left. *)
Definition gives_back (r : option (Pair * @Cursor Pair)) c (l : list Pair) : Prop :=
  ∃ c', r = Some (hd nilPair l, c') ∧ c_t c' = c_t c ∧
        (l ≠ [] → rest_back (stack c') = tl l ∧ chain_back 0 (stack c')).

(** Entering a subtree from the right returns its last item. *)
Lemma Prev_enter h : ∀ fuel c m below,
  h < fuel → height m = h → h ≤ H → btree lo hi h m → 1 ≤ length (items m) →
  stack c = (m, positions m) :: below → chain_back (S h) below →
  gives_back (Prev nilPair fuel c) c (reverse (inorder m) ++ rest_back below).
Proof.
  induction h as [|h IH]; intros fuel c m below Hf Hh HH Hb Hit Hs Hc;
    (destruct fuel as [|fuel]; [lia|]); rewrite (Prev_S _ _ _ _ _ Hs); cbv zeta;
    destruct m as [its cs]; unfold positions; cbn [items children] in *;
    unfold zlen.
  - pose proof Hb as [Hcs _]. cbn [children] in Hcs. subst cs. cbn [length].
    rewrite decide_False by lia. rewrite decide_True by done.
    destruct its as [|it its _] using rev_ind; [simpl in Hit; lia|].
    rewrite length_app. cbn [length].
    replace (Z.of_nat 0 + Z.of_nat (length its + 1) - 1)%Z with (Z.of_nat (length its)) by lia.
    rewrite zindex_nat, list_lookup_middle by done. cbn [mbind option_bind].
    rewrite inorder_leaf, reverse_app. cbn.
    eexists. split; [done|]. split; [done|]. intros _.
    cbn [stack with_stack]. split.
    + rewrite rest_back_cons, upto_pos_leaf, Nat2Z.id.
      by rewrite take_app_length.
    + cbn [chain_back fst snd]. rewrite Hh. unfold positions, zlen.
      cbn [items children]. rewrite length_app. cbn [length].
      split_and!; [lia|lia|done|lia|lia|by eapply chain_back_weaken].
  - pose proof Hb as (Hl & Hle & Hcs)%btree_internal.
    cbn [items children] in Hl, Hcs.
    destruct cs as [|clast cs _] using rev_ind; [simpl in Hl; lia|].
    rewrite length_app in Hl |- *. cbn [length] in Hl |- *.
    assert (length cs = length its) as Hlen by lia.
    replace (Z.of_nat (length cs + 1) + Z.of_nat (length its) - 1)%Z
      with (Z.of_nat (2 * length its)) by lia.
    rewrite decide_False by lia. rewrite decide_False by lia.
    rewrite decide_False by (rewrite rem_even; lia).
    rewrite quot_even, zindex_nat, <- Hlen, list_lookup_middle by done.
    cbn [mbind option_bind].
    apply Forall_app in Hcs as [Hcs [[Hc0 Hb0] _]%Forall_cons].
    assert (height clast = h) as Hh0 by (by eapply btree_height).
    pose proof (IH fuel
                  (with_stack c
                     ((clast, positions clast)
                        :: (Node its (cs ++ [clast]), Z.of_nat (2 * length cs)) :: below))
                  clast
                  ((Node its (cs ++ [clast]), Z.of_nat (2 * length cs)) :: below)) as Hg.
    rewrite rest_back_cons, Nat2Z.id in Hg.
    rewrite upto_pos_even in Hg by (by destruct cs).
    rewrite take_app_length in Hg. rewrite (take_ge its) in Hg by lia.
    rewrite inorder_snoc_child, reverse_app, <- app_assoc by done.
    apply Hg; try done; try lia.
    cbn [chain_back fst snd]. rewrite Hh. unfold positions, zlen.
    cbn [items children]. rewrite length_app. cbn [length].
    split_and!; [lia|lia|done|lia|lia|done].
Qed.

Lemma Prev_spec s : ∀ fuel c k,
  stack c = s → chain_back k s → length s + H + 1 ≤ fuel →
  gives_back (Prev nilPair fuel c) c (rest_back s).
Proof.
  induction s as [|[n i0] below IH]; intros fuel c k Hs Hc Hf.
  { exists c. split_and!; [|done|done].
    destruct fuel; cbn [Prev]; by rewrite Hs. }
  destruct fuel as [|fuel]; [simpl in Hf; lia|].
  rewrite (Prev_S _ _ _ _ _ Hs). cbv zeta.
  cbn [chain_back fst snd] in Hc. destruct Hc as ([_ HH] & Hb & Hpos & Hc).
  simpl in Hf. rewrite rest_back_cons.
  set (p := Z.to_nat i0).
  assert (i0 = Z.of_nat p)%Z as Hp by lia. rewrite Hp. rewrite Hp in Hpos.
  clearbody p. clear Hp.
  destruct n as [its cs]; unfold positions in Hpos; cbn [items children] in *.
  unfold zlen in *.
  destruct p as [|p].
  { (* before the first position: back to the parent *)
    rewrite decide_True by lia.
    replace (upto_pos (Node its cs) 0) with (@nil Pair).
    - apply (IH fuel (with_stack c below) _ eq_refl Hc). lia.
    - destruct cs as [|c0 cs']; [done|].
      change 0 with (2 * 0). by rewrite upto_pos_even. }
  rewrite decide_False by lia.
  replace (Z.of_nat (S p) - 1)%Z with (Z.of_nat p) by lia.
  destruct (decide (length cs = 0)) as [Hleaf|Hint].
  - apply length_zero_iff_nil in Hleaf. subst cs. rewrite upto_pos_leaf.
    rewrite zindex_nat.
    destruct (lookup_lt_is_Some_2 its p) as [it Hit]; [simpl in Hpos; lia|].
    rewrite Hit. cbn [mbind option_bind].
    rewrite (take_S_r its p it Hit), reverse_app. cbn.
    eexists. split; [done|]. split; [done|]. intros _.
    cbn [stack with_stack]. split.
    + by rewrite rest_back_cons, upto_pos_leaf, Nat2Z.id.
    + cbn [chain_back fst snd]. unfold positions, zlen. cbn [items children].
      split_and!; [lia|lia|done|lia|simpl in Hpos; lia|done].
  - assert (cs ≠ []) as Hne by (by intros ->).
    destruct (internal_height lo hi _ Hb Hne) as (h & Hh & Hl & Hcs).
    cbn [items children] in Hl, Hcs.
    destruct (parity p) as [j [-> | ->]].
    + (* a child: enter it from the right *)
      rewrite decide_False by (rewrite rem_even; lia).
      rewrite quot_even, zindex_nat.
      destruct (lookup_lt_is_Some_2 cs j) as [child Hchild]; [lia|].
      rewrite Hchild. cbn [mbind option_bind].
      rewrite Forall_forall in Hcs.
      destruct (Hcs child) as (Hlo' & Hbc & Hhc); [by eapply list_elem_of_lookup_2|].
      replace (S (2 * j)) with (2 * j + 1) by lia.
      rewrite upto_pos_odd by done.
      rewrite (upto_child its cs j child Hchild Hl), reverse_app, <- app_assoc.
      pose proof (Prev_enter h fuel
                    (with_stack c
                       ((child, positions child)
                          :: (Node its cs, Z.of_nat (2 * j)) :: below))
                    child ((Node its cs, Z.of_nat (2 * j)) :: below)) as Hg.
      rewrite rest_back_cons, Nat2Z.id in Hg.
      rewrite upto_pos_even in Hg by done.
      apply Hg; try done; try lia.
      cbn [chain_back fst snd]. rewrite Hh in HH, Hb, Hc |- *.
      unfold positions, zlen. cbn [items children].
      split_and!; [lia|lia|done|lia|lia|done].
    + (* an item *)
      rewrite decide_True by apply rem_odd.
      rewrite quot_odd, zindex_nat.
      destruct (lookup_lt_is_Some_2 its j) as [it Hit]; [lia|].
      destruct (lookup_lt_is_Some_2 cs j) as [child Hchild]; [lia|].
      rewrite Hit. cbn [mbind option_bind].
      replace (S (2 * j + 1)) with (2 * (j + 1)) by lia.
      rewrite upto_pos_even by done.
      rewrite (upto_item its cs j it child Hit Hchild Hl), reverse_app.
      rewrite reverse_singleton. cbn [app hd tl].
      eexists. split; [done|]. split; [done|]. intros _.
      cbn [stack with_stack]. split.
      * rewrite rest_back_cons, Nat2Z.id. by rewrite upto_pos_odd by done.
      * cbn [chain_back fst snd]. unfold positions, zlen. cbn [items children].
        split_and!; [lia|lia|done|lia|lia|done].
Qed.

Lemma Last_loop_S fuel n s :
  Last_loop (S fuel) n s =
    if decide (0 < length (children n)) then
      n' ← children n !! (length (children n) - 1);
      Last_loop fuel n' ((n', last_pos n') :: s)
    else Some (n, s).
Proof. done. Qed.

Lemma Last_loop_spec h : ∀ fuel n below,
  h ≤ fuel → height n = h → h ≤ H → btree lo hi h n → chain_back (S h) below →
  ∃ leaf s,
    Last_loop fuel n ((n, last_pos n) :: below) = Some (leaf, (leaf, last_pos leaf) :: s) ∧
    children leaf = [] ∧
    reverse (items leaf) ++ rest_back s = reverse (inorder n) ++ rest_back below ∧
    (1 ≤ length (items leaf) → chain_back 0 ((leaf, last_pos leaf) :: s)) ∧
    (leaf = n ∧ s = below ∨ 1 ≤ length (items leaf)).
Proof.
  induction h as [|h IH]; intros fuel n below Hf Hh HH Hb Hc;
    destruct n as [its cs].
  - pose proof Hb as [Hcs _]. cbn [children] in Hcs. subst cs.
    exists (Node its []), below. split_and!; [by destruct fuel|done|done| |by left].
    intros Hit. cbn [items] in Hit. cbn [chain_back fst snd]. rewrite Hh.
    unfold last_pos, positions, zlen. cbn [items children length].
    split_and!; [lia|lia|done|lia|lia|done].
  - destruct fuel as [|fuel]; [lia|]. rewrite Last_loop_S.
    pose proof Hb as (Hl & Hle & Hcs)%btree_internal.
    cbn [items children] in Hl, Hcs |- *.
    destruct cs as [|clast cs _] using rev_ind; [simpl in Hl; lia|].
    rewrite length_app in Hl |- *. cbn [length] in Hl |- *.
    assert (length cs = length its) as Hlen by lia.
    rewrite decide_True by lia. rewrite Nat.add_sub.
    rewrite list_lookup_middle by done. cbn [mbind option_bind].
    apply Forall_app in Hcs as [Hcs [[Hc0 Hb0] _]%Forall_cons].
    assert (height clast = h) as Hh0 by (by eapply btree_height).
    destruct (IH fuel clast ((Node its (cs ++ [clast]), last_pos (Node its (cs ++ [clast]))) :: below))
      as (leaf & s & Hr & Hleaf & Hrest & Hch & Hlast); try done; try lia.
    { cbn [chain_back fst snd]. rewrite Hh. unfold last_pos, positions, zlen.
      cbn [items children]. rewrite length_app. cbn [length].
      split_and!; [lia|lia|done|lia|lia|done]. }
    exists leaf, s. split_and!; try done.
    2:{ right. destruct Hlast as [[-> _]|?]; [lia|done]. }
    rewrite Hrest, rest_back_cons. unfold last_pos, zlen. cbn [items children].
    rewrite length_app. cbn [length].
    replace (Z.to_nat (Z.of_nat (length cs + 1) + Z.of_nat (length its) - 1))
      with (2 * length cs) by lia.
    rewrite upto_pos_even by (by destruct cs).
    rewrite take_app_length, Hlen, firstn_all.
    by rewrite inorder_snoc_child, reverse_app, <- app_assoc by done.
Qed.

(** Calling [Prev] until the sentinel returns what the cursor has left. *)
Lemma collect_Prev fuel : ∀ l count c,
  nilPair ∉ l →
  (l ≠ [] → rest_back (stack c) = tl l ∧ chain_back 0 (stack c)) →
  length l ≤ count → 2 * H + 2 ≤ fuel →
  collect nilPair (Prev nilPair fuel) count (hd nilPair l) c = Some l.
Proof.
  induction l as [|p l IH]; intros count c Hnil Hc Hcount Hf.
  { apply collect_nil. }
  apply not_elem_of_cons in Hnil as [Hp Hnil].
  destruct count as [|count]; [simpl in Hcount; lia|].
  destruct Hc as [Hrest Hc]; [done|].
  cbn [hd tl] in *. rewrite collect_S by done.
  pose proof (chain_back_length _ _ Hc).
  destruct (Prev_spec (stack c) fuel c 0 eq_refl Hc) as (c' & -> & _ & Hc');
    [lia|].
  cbn [mbind option_bind]. rewrite Hrest in *.
  rewrite IH; [done..| |]; simpl in Hcount; lia.
Qed.
End CursorPrev.

Section Backward.
Context {Pair : Type} `{EqDecision Pair}.
Variable nilPair : Pair.
Variable less : Pair → Pair → bool.

Implicit Types t : @PairTree Pair.

Lemma Last_spec fuel t :
  tree_inv nilPair less t → tree_height t ≤ fuel →
  gives_back nilPair (minPairs t) (maxPairs t) (tree_height t)
    (Last nilPair fuel (NewCursor t)) (NewCursor t) (reverse (contents t)).
Proof.
  intros Hinv Hf. pose proof Hinv as [_ Hr].
  unfold Last, contents, tree_height in *. cbn [c_t NewCursor].
  destruct (root t) as [r|]; [|by eexists].
  destruct Hr as (Hb & _).
  destruct (Last_loop_spec (minPairs t) (maxPairs t) (minPairs_pos nilPair less t Hinv)
              (height r) (height r) fuel r [])
    as (leaf & s & -> & Hleaf & Hrest & Hc & Hlast); try done.
  cbn [mbind option_bind]. rewrite app_nil_r in Hrest.
  destruct leaf as [its cs]. cbn [items children] in *. subst cs.
  destruct its as [|it its _] using rev_ind.
  - rewrite decide_True by done.
    destruct Hlast as [[<- ->]|?]; [|simpl in *; lia].
    rewrite inorder_leaf. eexists. split; [done|]. by split.
  - rewrite decide_False by (rewrite length_app; simpl; lia).
    rewrite length_app. cbn [length]. rewrite Nat.add_sub.
    rewrite list_lookup_middle by done. cbn [mbind option_bind].
    rewrite <- Hrest, reverse_app, reverse_singleton. cbn [app hd tl].
    eexists. split; [done|]. split; [done|]. intros _.
    cbn [stack with_stack]. split.
    + rewrite rest_back_cons. unfold last_pos, zlen. cbn [items children length].
      rewrite length_app. cbn [length].
      replace (Z.to_nat (Z.of_nat 0 + Z.of_nat (length its + 1) - 1)) with (length its) by lia.
      by rewrite upto_pos_leaf, take_app_length.
    + apply Hc. rewrite length_app. simpl. lia.
Qed.

(** [Last] and then [Prev] until the sentinel list the items of the tree
    in reverse order. *)
Lemma backward_spec fuel count t :
  tree_inv nilPair less t → 2 * tree_height t + 2 ≤ fuel →
  length (contents t) ≤ count →
  backward nilPair fuel count t = Some (reverse (contents t)).
Proof.
  intros Hinv Hf Hcount. unfold backward.
  destruct (Last_spec fuel t Hinv) as (c & -> & _ & Hc); [lia|].
  cbn [mbind option_bind].
  eapply (collect_Prev nilPair _ _ (minPairs_pos nilPair less t Hinv)); try done.
  - pose proof Hinv as [_ Hr]. unfold contents. destruct (root t); [|set_solver].
    rewrite elem_of_reverse. apply Hr.
  - by rewrite length_reverse.
Qed.
End Backward.

Section CursorClaim.
Context {Pair : Type} `{EqDecision Pair}.
Variable nilPair : Pair.
Variable less : Pair → Pair → bool.
Hypothesis SW : StrictWeak less.

Implicit Types t : @PairTree Pair.

Lemma feed_record (l st : list Pair) : feed record l st = (true, st ++ l).
Proof.
  revert st. induction l as [|x l IH]; intros st; simpl.
  - by rewrite app_nil_r.
  - by rewrite IH, <- app_assoc.
Qed.

(** C7: the items returned by First and then Next, until the sentinel,
    are the items Ascend passes to its callback, in the same order; and
    the items returned by Last and then Prev are those Descend passes. *)
Theorem C7_cursor_agrees_with_scans d t fuel count :
  2 ≤ d → built nilPair less d t → enough t ≤ fuel →
  Z.to_nat (Len t) ≤ count →
  forward nilPair fuel count t = Some (contents t) ∧
  Ascend nilPair less record fuel t [] = Some (contents t) ∧
  backward nilPair fuel count t = Some (reverse (contents t)) ∧
  Descend nilPair less record fuel t [] = Some (reverse (contents t)).
Proof.
  intros Hd Hb Hfuel Hcount. unfold enough in Hfuel.
  destruct (built_inv nilPair less SW d t Hd Hb) as [Hinv _].
  unfold Len in Hcount. rewrite (tree_inv_len nilPair less t Hinv), Nat2Z.id in Hcount.
  unfold Ascend, Descend. split_and!.
  - apply (forward_spec nilPair less); [done|lia|done].
  - rewrite (scan_ascend nilPair less SW) by (try done; lia || by right).
    by rewrite walk_unbounded, feed_record.
  - apply (backward_spec nilPair less); [done|lia|done].
  - rewrite (scan_descend nilPair less SW) by (done || lia).
    by rewrite feed_record.
Qed.
End CursorClaim.

Lemma C7_witness :
  forward znil 6 20 (the_tree example_tree') = Some (contents (the_tree example_tree')) ∧
  Ascend znil zless record 6 (the_tree example_tree') [] =
    Some (contents (the_tree example_tree')) ∧
  backward znil 6 20 (the_tree example_tree') =
    Some (reverse (contents (the_tree example_tree'))) ∧
  Descend znil zless record 6 (the_tree example_tree') [] =
    Some (reverse (contents (the_tree example_tree'))).
Proof.
  apply (C7_cursor_agrees_with_scans znil zless zless_strict 9).
  - lia.
  - exact example_built'.
  - vm_compute. lia.
  - vm_compute. lia.
Defined.

Section SeekList.
Context {Pair : Type} `{EqDecision Pair}.
Variable nilPair : Pair.
Variable less : Pair → Pair → bool.
Hypothesis SW : StrictWeak less.

Implicit Types (x y : Pair) (l L R : list Pair).


Lemma seek_list_below x L R :
  Forall (λ y, lt less y x) L → seek_list less x (L ++ R) = seek_list less x R.
Proof.
  induction L as [|y L IH]; intros HL; [done|].
  apply Forall_cons in HL as [Hy HL]. simpl. rewrite Hy. by apply IH.
Qed.

Lemma seek_list_above x R :
  (∀ y, head R = Some y → less y x = false) → seek_list less x R = R.
Proof. destruct R as [|y R]; [done|]. intros Hy. simpl. by rewrite Hy. Qed.

Lemma seek_list_app x L R :
  (∀ y, head R = Some y → less y x = false) →
  seek_list less x (L ++ R) = seek_list less x L ++ R.
Proof.
  intros HR. induction L as [|y L IH]; simpl.
  - by apply seek_list_above.
  - destruct (less y x); [done|]. done.
Qed.

(** [seek_list x l] is the part of [l] after the items below [x]. *)
Lemma seek_list_split x l :
  ∃ L, l = L ++ seek_list less x l ∧ Forall (λ y, lt less y x) L ∧
       ∀ y, head (seek_list less x l) = Some y → less y x = false.
Proof.
  induction l as [|z l (L & Hl & HL & Hh)].
  - by exists [].
  - simpl. destruct (less z x) eqn:Hz.
    + exists (z :: L). split_and!; [by rewrite Hl at 1|by constructor|done].
    + exists []. split_and!; [done|done|]. by intros y [= <-].
Qed.

Lemma seek_list_found x y l :
  increasing less l → y ∈ l → equiv_key less y x → hd nilPair (seek_list less x l) = y.
Proof.
  intros Hinc Hy [Hyx Hxy].
  apply list_elem_of_split in Hy as (L & R & ->).
  destruct (increasing_around less _ _ _ Hinc) as [HL _].
  rewrite seek_list_below.
  - simpl. by rewrite Hyx.
  - apply Forall_forall. intros a Ha. eapply (lt_equiv_r less SW); [by apply HL|done].
Qed.

Lemma seek_list_successor x z l :
  increasing less l → (∀ y, y ∈ l → ¬ equiv_key less y x) → z ∈ l → lt less x z →
  ∃ s, head (seek_list less x l) = Some s ∧ s ∈ l ∧ lt less x s ∧
       ∀ y, y ∈ l → lt less x y → less y s = false.
Proof.
  intros Hinc Hno Hz Hxz.
  destruct (seek_list_split x l) as (L & Hl & HL & Hh).
  destruct (seek_list less x l) as [|s R] eqn:Hseek.
  { exfalso. rewrite app_nil_r in Hl. subst L.
    rewrite Forall_forall in HL. specialize (HL z Hz).
    apply (lt_asym less SW) in HL. unfold lt in Hxz. congruence. }
  exists s. specialize (Hh s eq_refl).
  assert (s ∈ l) as Hs by (rewrite Hl; set_solver).
  assert (lt less x s) as Hxs.
  { unfold lt. destruct (less x s) eqn:E; [done|]. by destruct (Hno s Hs). }
  split_and!; [done..|].
  intros y Hy Hxy. rewrite Hl in Hy, Hinc.
  apply elem_of_app in Hy as [Hy|Hy].
  { rewrite Forall_forall in HL. specialize (HL y Hy).
    apply (lt_asym less SW) in HL. unfold lt in Hxy. congruence. }
  apply elem_of_cons in Hy as [->|Hy]; [apply SW|].
  destruct (increasing_around less _ _ _ Hinc) as [_ HR].
  apply (lt_asym less SW). by apply HR.
Qed.

Lemma seek_list_absent x l :
  (∀ y, y ∈ l → lt less y x) → seek_list less x l = [].
Proof.
  intros Hl. rewrite <- (app_nil_r l). rewrite seek_list_below; [done|].
  by apply Forall_forall.
Qed.

Lemma seek_list_sublist x l : seek_list less x l `sublist_of` l.
Proof.
  destruct (seek_list_split x l) as (L & Hl & _). rewrite Hl at 2.
  by apply sublist_inserts_l.
Qed.
End SeekList.

Section CursorSeek.
Context {Pair : Type} `{EqDecision Pair}.
Variable nilPair : Pair.
Variable less : Pair → Pair → bool.
Hypothesis SW : StrictWeak less.
Variables lo hi : nat.
Hypothesis Hlo : 1 ≤ lo.
Variable H : nat.

Implicit Types (n m : @node Pair) (i : Z) (s below : list (@node Pair * Z)).
Implicit Types (c : @Cursor Pair) (its A B : list Pair) (cs CA CB : list (@node Pair)).

Local Abbreviation gives := (gives nilPair lo hi H).

Ltac step := cbn [mbind option_bind items children].
Ltac lens :=
  cbn [items children] in *;
  repeat match goal with
    | H : context [length (_ ++ _)] |- _ => rewrite length_app in H
    | |- context [length (_ ++ _)] => rewrite length_app
    end;
  cbn [length] in *; lia.

Lemma Seek_loop_S fuel c n s pivot :
  Seek_loop nilPair less (S fuel) c n s pivot =
    '(i, found) ← find less (items n) pivot;
    if found : bool then
      it ← items n !! i;
      if decide (length (children n) = 0)
      then Some (it, with_stack c ((n, Z.of_nat i) :: s))
      else Some (it, with_stack c ((n, (Z.of_nat i * 2 + 1)%Z) :: s))
    else if decide (length (children n) = 0) then
      if decide (i = length (items n)) then
        Next nilPair fuel (with_stack c ((n, (Z.of_nat i + 1)%Z) :: s))
      else
        it ← items n !! i;
        Some (it, with_stack c ((n, Z.of_nat i) :: s))
    else
      n' ← children n !! i;
      Seek_loop nilPair less fuel c n' ((n, (Z.of_nat i * 2)%Z) :: s) pivot.
Proof. done. Qed.

Lemma drop_past {T} (A B : list T) (y : T) :
  drop (S (length A)) (A ++ y :: B) = B.
Proof.
  rewrite (cons_middle y A B), app_assoc.
  apply drop_app_length'. rewrite length_app. simpl. lia.
Qed.

Lemma not_below x y : lt less x y → less y x = false.
Proof. apply (lt_asym less SW). Qed.

Lemma Seek_loop_spec pivot h : ∀ fuel c n below,
  height n = h → h ≤ H → btree lo hi h n → increasing less (inorder n) →
  chain lo hi H (S h) below → 2 * h + length below + H + 3 ≤ fuel →
  gives (Seek_loop nilPair less fuel c n below pivot) c
    (seek_list less pivot (inorder n) ++ rest below).
Proof.
  induction h as [|h IH]; intros fuel c n below Hh HH Hb Hinc Hc Hf;
    (destruct fuel as [|fuel]; [lia|]);
    assert (increasing less (items n)) as Hits by (by eapply items_increasing);
    destruct (find_decomp less SW (items n) pivot Hits)
      as (A & B & found & Hfind & HA & HB & Hform);
    rewrite Seek_loop_S, Hfind; destruct n as [its cs];
    cbn [items children] in *; step.
  - pose proof Hb as [Hcs Hlen]; cbn [items children] in *; subst cs.
    rewrite inorder_leaf in *. cbn [length]. destruct found.
    + destruct Hform as (y & -> & [Hyx Hxy]). rewrite lookup_at by done. step.
      rewrite decide_True by done.
      rewrite seek_list_below by done. cbn [seek_list]. rewrite Hyx.
      eexists. split; [done|]. split; [done|].
      cbn [stack with_stack app hd tl]. split.
      * rewrite rest_cons, from_pos_leaf.
        replace (Z.to_nat (Z.of_nat (length A) + 1)) with (S (length A)) by lia.
        by rewrite drop_past.
      * cbn [chain fst snd]. rewrite Hh.
        split_and!; [lia|lia|done|lia|done|by eapply chain_weaken].
    + subst its. rewrite decide_True by done.
      destruct B as [|b B].
      * rewrite app_nil_r in *. rewrite decide_True by done.
        rewrite seek_list_absent by (by apply Forall_forall).
        pose proof (Next_spec nilPair lo hi Hlo H
                      ((Node A [], (Z.of_nat (length A) + 1)%Z) :: below) fuel
                      (with_stack c ((Node A [], (Z.of_nat (length A) + 1)%Z) :: below))
                      0 eq_refl) as Hg.
        rewrite rest_cons, from_pos_leaf, drop_ge in Hg by lia.
        apply Hg; [|simpl; lia].
        cbn [chain fst snd]. rewrite Hh.
        split_and!; [lia|lia|done|lia|done|done].
      * rewrite decide_False by lens. rewrite lookup_at by done. step.
        apply Forall_cons in HB as [Hb0 HB].
        rewrite seek_list_below by done. cbn [seek_list].
        rewrite (not_below _ _ Hb0).
        eexists. split; [done|]. split; [done|].
        cbn [stack with_stack app hd tl]. split.
        -- rewrite rest_cons, from_pos_leaf.
           replace (Z.to_nat (Z.of_nat (length A) + 1)) with (S (length A)) by lia.
           by rewrite drop_past.
        -- cbn [chain fst snd]. rewrite Hh.
           split_and!; [lia|lia|done|lia|done|by eapply chain_weaken].
  - destruct found.
    + destruct Hform as (y & -> & [Hyx Hxy]).
      destruct (internal_at_item lo hi h A y B cs Hb)
        as (CA & c1 & c2 & CB & -> & HCA & HCB & _).
      rewrite lookup_at by done. step.
      rewrite decide_False by lens.
      rewrite inorder_mid_item in Hinc |- * by done.
      destruct (increasing_around less _ _ _ Hinc) as [Hbelow _].
      rewrite seek_list_below.
      2:{ apply Forall_forall. intros a Ha.
          eapply (lt_equiv_r less SW); [by apply Hbelow|done]. }
      cbn [seek_list]. rewrite Hyx.
      eexists. split; [done|]. split; [done|].
      cbn [stack with_stack app hd tl]. split.
      * rewrite rest_cons.
        replace (Z.to_nat (Z.of_nat (length A) * 2 + 1 + 1))
          with (2 * (length A + 1)) by lia.
        rewrite from_pos_even by (by destruct CA).
        rewrite Nat.add_1_r, drop_past.
        rewrite <- HCA, drop_past.
        by rewrite inorder_cons, <- app_assoc.
      * cbn [chain fst snd]. rewrite Hh.
        split_and!; [lia|lia|done|lia| |by eapply chain_weaken].
        intros _. unfold positions, zlen. lens.
    + subst its.
      destruct (internal_at_child lo hi h A B cs Hb)
        as (CA & ch & CB & -> & HCA & HCB & HFA & [Hclo Hch] & HFB).
      rewrite decide_False by lens. rewrite lookup_at by lia. step.
      rewrite inorder_mid in Hinc |- * by done.
      assert (Forall (λ y, lt less y pivot) (pre A CA)) as Hpre.
      { apply (below_of_last less SW).
        - apply (increasing_app less) in Hinc. apply Hinc.
        - rewrite pre_last by done. by apply (below_last less). }
      assert (∀ y, head (post B CB) = Some y → less y pivot = false) as Hpost.
      { intros y Hy. rewrite post_head in Hy by done.
        apply not_below. by apply (above_head less _ _ HB). }
      rewrite seek_list_below by done.
      rewrite seek_list_app by done. rewrite <- app_assoc.
      pose proof (IH fuel c ch
                    ((Node (A ++ B) (CA ++ ch :: CB), (Z.of_nat (length A) * 2)%Z)
                       :: below)) as Hg.
      rewrite rest_cons in Hg.
      replace (Z.to_nat (Z.of_nat (length A) * 2 + 1)) with (2 * length A + 1)
        in Hg by lia.
      rewrite from_pos_odd in Hg by (by destruct CA).
      rewrite drop_app_length in Hg.
      rewrite <- HCA, Nat.add_1_r, drop_past, HCA in Hg.
      apply Hg; try done.
      * by eapply btree_height.
      * lia.
      * apply (increasing_app less) in Hinc as (_ & Hinc & _).
        apply (increasing_app less) in Hinc. apply Hinc.
      * cbn [chain fst snd]. rewrite Hh.
        split_and!; [lia|lia|done|lia| |done].
        intros _. unfold positions, zlen. lens.
      * simpl. lia.
Qed.
End CursorSeek.

Section SeekClaim.
Context {Pair : Type} `{EqDecision Pair}.
Variable nilPair : Pair.
Variable less : Pair → Pair → bool.
Hypothesis SW : StrictWeak less.

Implicit Types t : @PairTree Pair.

Lemma Seek_spec fuel t pivot :
  tree_inv nilPair less t → 3 * tree_height t + 3 ≤ fuel →
  gives nilPair (minPairs t) (maxPairs t) (tree_height t)
    (Seek nilPair less fuel (NewCursor t) pivot) (NewCursor t)
    (seek_list less pivot (contents t)).
Proof.
  intros Hinv Hf. pose proof Hinv as [_ Hr].
  unfold Seek, contents, tree_height in *. cbn [c_t NewCursor].
  destruct (root t) as [r|]; [|by eexists].
  destruct Hr as (Hb & _ & Hinc & _).
  pose proof (Seek_loop_spec nilPair less SW (minPairs t) (maxPairs t)
                (minPairs_pos nilPair less t Hinv) (height r) pivot (height r)
                fuel (NewCursor t) r []) as Hg.
  rewrite app_nil_r in Hg. apply Hg; try done. simpl. lia.
Qed.

(** C6: Seek returns the first item, in the order of the tree, that is
    not below the pivot, or the sentinel when there is none, and leaves
    the cursor on it: Next goes on with the items after it.  So it
    returns the stored item equal to the pivot when there is one;
    otherwise the smallest stored item above the pivot; and the sentinel
    when every stored item is below the pivot. *)
Theorem C6_seek d t pivot fuel count :
  2 ≤ d → built nilPair less d t → enough t ≤ fuel →
  Z.to_nat (Len t) ≤ count →
  ∃ x c,
    Seek nilPair less fuel (NewCursor t) pivot = Some (x, c) ∧
    x = hd nilPair (seek_list less pivot (contents t)) ∧
    collect nilPair (Next nilPair fuel) count x c =
      Some (seek_list less pivot (contents t)) ∧
    (∀ y, y ∈ contents t → equiv_key less y pivot → x = y) ∧
    ((∀ y, y ∈ contents t → ¬ equiv_key less y pivot) →
     (∃ z, z ∈ contents t ∧ lt less pivot z) →
     x ∈ contents t ∧ lt less pivot x ∧
     ∀ y, y ∈ contents t → lt less pivot y → less y x = false) ∧
    ((∀ y, y ∈ contents t → lt less y pivot) → x = nilPair).
Proof.
  intros Hd Hb Hfuel Hcount. unfold enough in Hfuel.
  destruct (built_inv nilPair less SW d t Hd Hb) as [Hinv _].
  unfold Len in Hcount. rewrite (tree_inv_len nilPair less t Hinv), Nat2Z.id in Hcount.
  assert (increasing less (contents t) ∧ nilPair ∉ contents t) as [Hinc Hnil].
  { pose proof Hinv as (_ & Hi). unfold contents.
    destruct (root t); [split; apply Hi|]. split; [constructor|set_solver]. }
  destruct (Seek_spec fuel t pivot Hinv) as (c & Hseek & _ & Hrest & Hc); [lia|].
  eexists _, c. split; [exact Hseek|]. split; [done|]. split_and!.
  - pose proof (sublist_length _ _ (seek_list_sublist less pivot (contents t))).
    eapply (collect_Next nilPair _ _ (minPairs_pos nilPair less t Hinv));
      try done; try lia.
    intros Hin. apply Hnil.
    eapply elem_of_sublist; [exact Hin|]. apply seek_list_sublist.
  - intros y Hy Heq. by apply (seek_list_found nilPair less SW).
  - intros Hno [z [Hz Hpz]].
    destruct (seek_list_successor less SW pivot z (contents t))
      as (s & Hs & Hin & Hlt & Hmin); try done.
    destruct (seek_list less pivot (contents t)) as [|s' R]; [done|].
    injection Hs as ->. done.
  - intros Hall. by rewrite seek_list_absent.
Qed.
End SeekClaim.

Lemma C6_witness :
  ∃ x c,
    Seek znil zless 6 (NewCursor (the_tree example_tree')) (zpair 15 0) = Some (x, c) ∧
    x = hd znil (seek_list zless (zpair 15 0) (contents (the_tree example_tree'))) ∧
    collect znil (Next znil 6) 20 x c =
      Some (seek_list zless (zpair 15 0) (contents (the_tree example_tree'))) ∧
    (∀ y, y ∈ contents (the_tree example_tree') →
       equiv_key zless y (zpair 15 0) → x = y) ∧
    ((∀ y, y ∈ contents (the_tree example_tree') → ¬ equiv_key zless y (zpair 15 0)) →
     (∃ z, z ∈ contents (the_tree example_tree') ∧ lt zless (zpair 15 0) z) →
     x ∈ contents (the_tree example_tree') ∧ lt zless (zpair 15 0) x ∧
     ∀ y, y ∈ contents (the_tree example_tree') → lt zless (zpair 15 0) y →
          zless y x = false) ∧
    ((∀ y, y ∈ contents (the_tree example_tree') → lt zless y (zpair 15 0)) → x = znil).
Proof.
  apply (C6_seek znil zless zless_strict 9).
  - lia.
  - exact example_built'.
  - vm_compute. lia.
  - vm_compute. lia.
Defined.

(** * The store model: running the primitives *)
Section Run.
Context {Pair : Type} `{EqDecision Pair}.

Notation hnode := (@Store.hnode Pair).
Notation memory := (@Store.memory Pair).
Notation M := (@Store.M Pair).
Notation HNode := (@Store.HNode Pair).

Implicit Types (m : memory) (l out : Store.loc) (hn : hnode) (c : nat).

(** The memory with the node at [l] replaced. *)
Definition put (l : Store.loc) (hn : hnode) (m : memory) : memory :=
  Store.Memory (<[l := hn]> (Store.nodes m)) (Store.freelist m) (Store.contexts m).

(** The memory with another free list. *)
Definition with_free (fl : list Store.loc) (m : memory) : memory :=
  Store.Memory (Store.nodes m) fl (Store.contexts m).

Lemma nodes_with_free fl m : Store.nodes (with_free fl m) = Store.nodes m.
Proof. done. Qed.

Lemma nodes_put l hn m : Store.nodes (put l hn m) = <[l := hn]> (Store.nodes m).
Proof. done. Qed.
Lemma lookup_put l hn m : Store.nodes (put l hn m) !! l = Some hn.
Proof. apply lookup_insert_eq. Qed.
Lemma lookup_put_ne l l' hn m :
  l ≠ l' → Store.nodes (put l hn m) !! l' = Store.nodes m !! l'.
Proof. intros. by apply lookup_insert_ne. Qed.
Lemma freelist_put l hn m : Store.freelist (put l hn m) = Store.freelist m.
Proof. done. Qed.
Lemma contexts_put l hn m : Store.contexts (put l hn m) = Store.contexts m.
Proof. done. Qed.
Lemma put_put l hn hn' m : put l hn (put l hn' m) = put l hn m.
Proof. unfold put. simpl. by rewrite insert_insert_eq. Qed.

Lemma run_bind {A B} (k : M A) (f : A → M B) m x m1 :
  k m = Some (x, m1) → (k ≫= f) m = f x m1.
Proof. intros Hk. unfold mbind, Store.M_bind. by rewrite Hk. Qed.

Lemma run_ret {A} (x : A) m : (mret x : M A) m = Some (x, m).
Proof. done. Qed.

Lemma run_lift {A} (o : option A) x m : o = Some x → Store.lift o m = Some (x, m).
Proof. by intros ->. Qed.

Lemma run_load l hn m :
  Store.nodes m !! l = Some hn → Store.load l m = Some (hn, m).
Proof. intros Hl. unfold Store.load. by rewrite Hl. Qed.

Lemma run_get_items l hn m :
  Store.nodes m !! l = Some hn → Store.get_items l m = Some (Store.h_items hn, m).
Proof. intros Hl. unfold Store.get_items. by rewrite (run_bind _ _ _ _ _ (run_load _ _ _ Hl)). Qed.

Lemma run_get_children l hn m :
  Store.nodes m !! l = Some hn →
  Store.get_children l m = Some (Store.h_children hn, m).
Proof. intros Hl. unfold Store.get_children. by rewrite (run_bind _ _ _ _ _ (run_load _ _ _ Hl)). Qed.

Lemma run_get_cow l hn m :
  Store.nodes m !! l = Some hn → Store.get_cow l m = Some (Store.h_cow hn, m).
Proof. intros Hl. unfold Store.get_cow. by rewrite (run_bind _ _ _ _ _ (run_load _ _ _ Hl)). Qed.

Lemma run_set_items l hn its m :
  Store.nodes m !! l = Some hn →
  Store.set_items l its m =
    Some (tt, put l (HNode its (Store.h_children hn) (Store.h_cow hn)) m).
Proof. intros Hl. unfold Store.set_items. by rewrite (run_bind _ _ _ _ _ (run_load _ _ _ Hl)). Qed.

Lemma run_set_children l hn cs m :
  Store.nodes m !! l = Some hn →
  Store.set_children l cs m =
    Some (tt, put l (HNode (Store.h_items hn) cs (Store.h_cow hn)) m).
Proof. intros Hl. unfold Store.set_children. by rewrite (run_bind _ _ _ _ _ (run_load _ _ _ Hl)). Qed.

Lemma run_set_cow l hn (c : option nat) m :
  Store.nodes m !! l = Some hn →
  Store.set_cow l c m =
    Some (tt, put l (HNode (Store.h_items hn) (Store.h_children hn) c) m).
Proof. intros Hl. unfold Store.set_cow. by rewrite (run_bind _ _ _ _ _ (run_load _ _ _ Hl)). Qed.
End Run.

(** Running a computation step by step: [mrun H] uses the equation [H] of
    the first step, [mgo] tries the equations of the primitives. *)
Ltac look :=
  repeat first
    [ rewrite lookup_put
    | rewrite lookup_put_ne by (first [assumption | congruence | done])
    | rewrite nodes_with_free ];
  first [eassumption | reflexivity].

Ltac mrun H := rewrite (run_bind _ _ _ _ _ H).

Ltac mstep :=
  first
    [ erewrite (run_bind (Store.get_items _)); [|apply run_get_items; look]
    | erewrite (run_bind (Store.get_children _)); [|apply run_get_children; look]
    | erewrite (run_bind (Store.get_cow _)); [|apply run_get_cow; look]
    | erewrite (run_bind (Store.set_items _ _)); [|apply run_set_items; look]
    | erewrite (run_bind (Store.set_children _ _)); [|apply run_set_children; look]
    | erewrite (run_bind (Store.set_cow _ _)); [|apply run_set_cow; look]
    | erewrite (run_bind (Store.lift _)); [|apply run_lift; first [eassumption | reflexivity]]
    | erewrite (run_bind (mret _)); [|apply run_ret] ];
  cbn [Store.h_items Store.h_children Store.h_cow].

Section Alloc.
Context {Pair : Type} `{EqDecision Pair}.

Notation hnode := (@Store.hnode Pair).
Notation memory := (@Store.memory Pair).
Notation HNode := (@Store.HNode Pair).

Implicit Types (m : memory) (l out : Store.loc) (hn : hnode) (c : nat).

(** The free list holds distinct nodes, cleared and without context. *)
Definition wf m : Prop :=
  NoDup (Store.freelist m) ∧
  ∀ l, l ∈ Store.freelist m → Store.nodes m !! l = Some (HNode [] [] None).

(** A location that [newNode] may return: not allocated, or free. *)
Definition is_new m l : Prop :=
  ∀ hn, Store.nodes m !! l = Some hn → Store.h_cow hn = None.

Lemma wf_put l hn m :
  wf m → l ∉ Store.freelist m → wf (put l hn m).
Proof.
  intros [Hnd Hfree] Hl. split; [done|]. intros l' Hl'.
  rewrite lookup_put_ne by (intros ->; done). by apply Hfree.
Qed.

Lemma not_free m l hn :
  wf m → Store.nodes m !! l = Some hn → Store.h_cow hn ≠ None →
  l ∉ Store.freelist m.
Proof.
  intros [_ Hfree] Hl Hcow Hin. rewrite (Hfree l Hin) in Hl.
  injection Hl as <-. done.
Qed.

Lemma run_newNode c m :
  wf m →
  ∃ out fl,
    Store.newNode (Some c) m =
      Some (out, put out (HNode [] [] (Some c)) (with_free fl m)) ∧
    is_new m out ∧ fl `sublist_of` Store.freelist m ∧ out ∉ fl.
Proof.
  intros [Hnd Hfree]. unfold Store.newNode.
  assert (Store.freelist m = [] ∨ ∃ fl x, Store.freelist m = fl ++ [x])
    as [Hfl|(fl & x & Hfl)].
  { destruct (Store.freelist m) as [|x fl _] using rev_ind; eauto. }
  - set (out := fresh (dom (Store.nodes m))).
    assert (Store.nodes m !! out = None) as Hout
      by (apply not_elem_of_dom, is_fresh).
    exists out, []. split_and!;
      [|by intros hn; rewrite Hout|apply sublist_nil_l|set_solver].
    erewrite run_bind;
      [|unfold Store.freeList_newNode, pop; rewrite Hfl; reflexivity].
    fold out. erewrite run_bind; [|apply run_set_cow; apply lookup_insert_eq].
    cbn. unfold put. cbn. by rewrite insert_insert_eq.
  - assert (Store.nodes m !! x = Some (HNode [] [] None)) as Hx
      by (apply Hfree; rewrite Hfl; set_solver).
    exists x, fl. split_and!.
    + erewrite run_bind;
        [|unfold Store.freeList_newNode; rewrite Hfl, pop_snoc; reflexivity].
      erewrite run_bind; [|apply run_set_cow; exact Hx].
      done.
    + intros hn. rewrite Hx. by intros [= <-].
    + rewrite Hfl. by apply sublist_inserts_r.
    + rewrite Hfl in Hnd. apply NoDup_app in Hnd as (_ & Hd & _).
      intros Hin. apply (Hd x Hin). set_solver.
Qed.
End Alloc.

(** * The store model: the tree a pointer stands for *)
Section Repr.
Context {Pair : Type} `{EqDecision Pair}.

Notation hnode := (@Store.hnode Pair).
Notation memory := (@Store.memory Pair).
Notation HNode := (@Store.HNode Pair).
Notation node := (@node Pair).

(** [c] is the context of the tree at hand; [dead] are the contexts that
    no tree has any more, whose nodes are never written again. *)
Variable c : nat.
Variable dead : gset nat.

Implicit Types (m : memory) (l : Store.loc) (hn : hnode) (n : node).
Implicit Types (F G : list Store.loc) (ps : list (Store.loc * list Store.loc)).
Implicit Types (ns : list node).

Definition owned m l : Prop :=
  ∃ hn, Store.nodes m !! l = Some hn ∧ Store.h_cow hn = Some c.

Definition frozen hn : Prop := ∃ c', Store.h_cow hn = Some c' ∧ c' ∈ dead.

(** [repr m n l F]: in [m] the pointer [l] stands for the tree [n]; the
    nodes of [n] belong to [c], and are listed in [F], or to a dead
    context.  [ps] pairs each child pointer with the list of its part. *)
Inductive repr m : node → Store.loc → list Store.loc → Prop :=
  | repr_node n l hn ps F :
      Store.nodes m !! l = Some hn →
      Store.h_items hn = items n →
      Store.h_children hn = ps.*1 →
      Forall2 (λ n' p, repr m n' p.1 p.2) (children n) ps →
      (Store.h_cow hn = Some c ∧ F = l :: mjoin ps.*2 ∨
       frozen hn ∧ F = mjoin ps.*2) →
      repr m n l F.

Definition reprs m ns ps : Prop := Forall2 (λ n' p, repr m n' p.1 p.2) ns ps.

Lemma node_induction (P : node → Prop) :
  (∀ its ns, Forall P ns → P (Node its ns)) → ∀ n, P n.
Proof.
  intros IH. fix go 1. intros [its ns]. apply IH.
  induction ns as [|n ns IHns]; constructor; [apply go|exact IHns].
Qed.

Lemma repr_inv m n l F :
  repr m n l F →
  ∃ hn ps, Store.nodes m !! l = Some hn ∧ Store.h_items hn = items n ∧
    Store.h_children hn = ps.*1 ∧ reprs m (children n) ps ∧
    (Store.h_cow hn = Some c ∧ F = l :: mjoin ps.*2 ∨
     frozen hn ∧ F = mjoin ps.*2).
Proof. inversion 1; subst. by eexists _, _. Qed.

Lemma Forall2_impl_elem {A B} (P Q : A → B → Prop) (xs : list A) (ys : list B) :
  Forall2 P xs ys → (∀ x y, x ∈ xs → y ∈ ys → P x y → Q x y) →
  Forall2 Q xs ys.
Proof.
  intros H2. induction H2 as [|x y xs ys Hxy H2 IH]; intros HPQ; [constructor|].
  constructor; [apply HPQ; set_solver|].
  apply IH. intros x' y' Hx' Hy'. apply HPQ; set_solver.
Qed.

Lemma elem_of_part ps p x : p ∈ ps → x ∈ p.2 → x ∈ mjoin ps.*2.
Proof.
  intros Hp Hx. apply list_elem_of_join. exists p.2. split; [done|].
  apply list_elem_of_fmap. by exists p.
Qed.

(** The nodes listed belong to [c]. *)
Lemma repr_owned m n : ∀ l F, repr m n l F → ∀ x, x ∈ F → owned m x.
Proof.
  induction n as [its ns IH] using node_induction.
  intros l F (hn & ps & Hl & _ & _ & Hps & Hcow)%repr_inv x Hx.
  cbn [children] in Hps.
  assert (∀ y, y ∈ mjoin ps.*2 → owned m y) as Hsub.
  { intros y Hy. apply list_elem_of_join in Hy as (Fy & Hy & HFy).
    apply list_elem_of_fmap in HFy as ([ly Fy'] & -> & Hp).
    apply list_elem_of_lookup in Hp as [i Hi].
    destruct (Forall2_lookup_r _ _ _ _ _ Hps Hi) as (ny & Hny & Hry).
    rewrite Forall_forall in IH.
    eapply IH; [by eapply list_elem_of_lookup_2|exact Hry|done]. }
  destruct Hcow as [[Hc ->]|[_ ->]]; [|by apply Hsub].
  apply elem_of_cons in Hx as [->|Hx]; [by exists hn|by apply Hsub].
Qed.

(** [stable F m m']: the nodes of [F] and those of the dead contexts are
    in [m'] as they are in [m]. *)
Definition stable F m m' : Prop :=
  ∀ l hn, Store.nodes m !! l = Some hn → l ∈ F ∨ frozen hn →
          Store.nodes m' !! l = Some hn.

Lemma stable_mono F G m m' : stable G m m' → (∀ x, x ∈ F → x ∈ G) → stable F m m'.
Proof. intros HG Hsub l hn Hl [Hin|Hfr]; apply (HG l hn Hl); eauto. Qed.

Lemma stable_trans F m m1 m2 : stable F m m1 → stable F m1 m2 → stable F m m2.
Proof. intros H1 H2 l hn Hl Hc. apply (H2 l hn); [by apply (H1 l hn)|done]. Qed.

Lemma stable_refl F m : stable F m m.
Proof. by intros l hn Hl _. Qed.

Lemma repr_frame m m' n : ∀ l F, repr m n l F → stable F m m' → repr m' n l F.
Proof.
  induction n as [its ns IH] using node_induction.
  intros l F (hn & ps & Hl & Hits & Hcs & Hps & Hcow)%repr_inv Hst.
  cbn [children] in Hps.
  apply (repr_node m' _ l hn ps F); try done.
  - apply (Hst l hn Hl). destruct Hcow as [[_ ->]|[? _]]; [left; set_solver|by right].
  - cbn [children]. eapply Forall2_impl_elem; [exact Hps|].
    rewrite Forall_forall in IH. intros n' [l' F'] Hn' Hp Hr. cbn [fst snd] in *.
    apply (IH n' Hn' l' F' Hr). eapply stable_mono; [exact Hst|].
    intros x Hx. pose proof (elem_of_part ps (l', F') x Hp Hx).
    destruct Hcow as [[_ ->]|[_ ->]]; set_solver.
Qed.

Lemma reprs_frame m m' ns ps :
  reprs m ns ps → stable (mjoin ps.*2) m m' → reprs m' ns ps.
Proof.
  intros Hps Hst. eapply Forall2_impl_elem; [exact Hps|].
  intros n' [l' F'] _ Hp Hr. cbn [fst snd] in *.
  apply (repr_frame m m' n' l' F' Hr). eapply stable_mono; [exact Hst|].
  intros x Hx. by apply (elem_of_part ps (l', F')).
Qed.

Lemma reprs_owned m ns ps x : reprs m ns ps → x ∈ mjoin ps.*2 → owned m x.
Proof.
  intros Hps Hx. apply list_elem_of_join in Hx as (Fx & Hx & HFx).
  apply list_elem_of_fmap in HFx as ([lx Fx'] & -> & Hp).
  apply list_elem_of_lookup in Hp as [i Hi].
  destruct (Forall2_lookup_r _ _ _ _ _ Hps Hi) as (nx & _ & Hrx).
  by eapply repr_owned.
Qed.
End Repr.

(** * The store model: what a call may write *)
Section Frame.
Context {Pair : Type} `{EqDecision Pair}.

Notation hnode := (@Store.hnode Pair).
Notation memory := (@Store.memory Pair).
Notation HNode := (@Store.HNode Pair).
Notation node := (@node Pair).

Variable c : nat.
Variable dead : gset nat.
Hypothesis c_alive : c ∉ dead.

Implicit Types (m : memory) (l : Store.loc) (hn : hnode) (n : node).
Implicit Types (F G X : list Store.loc) (ps : list (Store.loc * list Store.loc)).
Implicit Types (ns : list node).

(** [only_at X m m']: the nodes of [m'] are those of [m] but at [X]. *)
Definition only_at X m m' : Prop :=
  ∀ l, l ∉ X → Store.nodes m' !! l = Store.nodes m !! l.

Lemma only_at_refl X m : only_at X m m.
Proof. done. Qed.

Lemma only_at_free X fl m : only_at X m (with_free fl m).
Proof. done. Qed.

Lemma only_at_put X l hn m m1 : l ∈ X → only_at X m m1 → only_at X m (put l hn m1).
Proof.
  intros Hl H1 l' Hl'. rewrite lookup_put_ne by (intros ->; done). by apply H1.
Qed.

Lemma only_at_trans X m m1 m2 : only_at X m m1 → only_at X m1 m2 → only_at X m m2.
Proof. intros H1 H2 l Hl. rewrite H2, H1; done. Qed.

(** [keeps F m m']: the nodes that have a context in [m] and are not in
    [F] are in [m'] as they are in [m]; [grows F F' m]: the nodes of [F']
    are from [F] or were available in [m]. *)
Definition keeps F m m' : Prop :=
  ∀ l hn, Store.nodes m !! l = Some hn → Store.h_cow hn ≠ None → l ∉ F →
          Store.nodes m' !! l = Some hn.

Definition grows F F' m : Prop := ∀ l, l ∈ F' → l ∈ F ∨ is_new m l.

Lemma keeps_refl F m : keeps F m m.
Proof. by intros l hn Hl _ _. Qed.

Lemma keeps_mono F G m m' : keeps F m m' → (∀ x, x ∈ F → x ∈ G) → keeps G m m'.
Proof. intros HF Hsub l hn Hl Hc HG. apply (HF l hn Hl Hc). auto. Qed.

Lemma grows_refl F m : grows F F m.
Proof. intros l Hl. by left. Qed.

Lemma grows_mono F G F' m : grows F F' m → (∀ x, x ∈ F → x ∈ G) → grows G F' m.
Proof. intros HF Hsub l Hl. destruct (HF l Hl); auto. Qed.

Lemma keeps_trans F F1 m m1 m2 :
  keeps F m m1 → grows F F1 m → keeps F1 m1 m2 → keeps F m m2.
Proof.
  intros H1 Hg H2 l hn Hl Hc HF. apply (H2 l hn); [by apply H1|done|].
  intros HF1. destruct (Hg l HF1) as [?|Hnew]; [done|]. by apply Hc, Hnew.
Qed.

Lemma grows_trans F F1 F2 m m1 :
  grows F F1 m → keeps F m m1 → grows F1 F2 m1 → grows F F2 m.
Proof.
  intros Hg1 Hk Hg2 l Hl. destruct (Hg2 l Hl) as [Hin|Hnew]; [by apply Hg1|].
  destruct (decide (l ∈ F)) as [?|HF]; [by left|]. right. intros hn Hhn.
  destruct (Store.h_cow hn) as [c'|] eqn:Hc; [|done].
  rewrite (Hnew hn) in Hc; [done|]. apply Hk; [done|congruence|done].
Qed.

Lemma only_at_keeps X F m m' :
  only_at X m m' → (∀ x, x ∈ X → x ∈ F ∨ is_new m x) → keeps F m m'.
Proof.
  intros Hat HX l hn Hl Hc HF. rewrite Hat; [done|]. intros Hin.
  destruct (HX l Hin) as [?|Hnew]; [done|]. by apply Hc, Hnew.
Qed.

Lemma only_at_stable X F m m' :
  only_at X m m' → (∀ x, x ∈ X → x ∉ F) →
  (∀ x hn, x ∈ X → Store.nodes m !! x = Some hn → ¬ frozen dead hn) →
  stable dead F m m'.
Proof.
  intros Hat HXF HX l hn Hl Hcase. rewrite Hat; [done|]. intros Hin.
  destruct Hcase as [?|Hfr]; [by apply (HXF l)|by apply (HX l hn)].
Qed.

Lemma owned_not_frozen m x hn :
  owned c m x → Store.nodes m !! x = Some hn → ¬ frozen dead hn.
Proof.
  intros (hn' & Hx & Hc) Hx' (c' & Hc' & Hd). rewrite Hx in Hx'.
  injection Hx' as ->. congruence.
Qed.

Lemma new_not_frozen m x hn :
  is_new m x → Store.nodes m !! x = Some hn → ¬ frozen dead hn.
Proof. intros Hnew Hx (c' & Hc' & _). rewrite (Hnew hn Hx) in Hc'. done. Qed.

Lemma owned_not_new m x : owned c m x → is_new m x → False.
Proof. intros (hn & Hx & Hc) Hnew. rewrite (Hnew hn Hx) in Hc. done. Qed.

Lemma keeps_stable F G m m' :
  keeps G m m' → (∀ x, x ∈ F → owned c m x) → (∀ x, x ∈ F → x ∉ G) →
  (∀ x hn, x ∈ G → Store.nodes m !! x = Some hn → ¬ frozen dead hn) →
  stable dead F m m'.
Proof.
  intros Hk HF HFG HG l hn Hl Hcase. apply Hk; [done| |].
  - destruct Hcase as [Hin|(c' & Hc' & _)]; [|congruence].
    destruct (HF l Hin) as (hn' & Hl' & Hc). congruence.
  - intros Hin. destruct Hcase as [?|Hfr]; [by apply (HFG l)|by apply (HG l hn)].
Qed.

(** ** A node of [c] with its children *)

Definition onode m l (its : list Pair) ns ps : Prop :=
  Store.nodes m !! l = Some (HNode its ps.*1 (Some c)) ∧
  reprs c dead m ns ps ∧ NoDup (l :: mjoin ps.*2).

Lemma onode_repr m l its ns ps :
  onode m l its ns ps → repr c dead m (Node its ns) l (l :: mjoin ps.*2).
Proof.
  intros (Hl & Hps & _). eapply repr_node; [exact Hl|done|done|exact Hps|].
  by left.
Qed.

Lemma onode_owned m l its ns ps : onode m l its ns ps → owned c m l.
Proof. intros (Hl & _). by eexists. Qed.

Lemma repr_onode m n l F :
  repr c dead m n l F → owned c m l → NoDup F →
  ∃ ps, onode m l (items n) (children n) ps ∧ F = l :: mjoin ps.*2.
Proof.
  intros (hn & ps & Hl & Hits & Hcs & Hps & Hcow)%repr_inv (hn' & Hl' & Hc) Hnd.
  rewrite Hl in Hl'. injection Hl' as <-.
  destruct Hcow as [[_ ->]|[(c' & Hc' & Hd) _]]; [|congruence].
  exists ps. split; [|done]. split_and!; [|done..].
  rewrite Hl. f_equal. destruct hn as [its cs cw]. simpl in *. by subst.
Qed.

(** Writing the node itself leaves the subtrees below it as they are. *)
Lemma onode_put m l hn0 its ns ps :
  Store.nodes m !! l = Some hn0 → ¬ frozen dead hn0 →
  reprs c dead m ns ps → NoDup (l :: mjoin ps.*2) →
  onode (put l (HNode its ps.*1 (Some c)) m) l its ns ps.
Proof.
  intros Hl Hfr Hps Hnd. split_and!; [apply lookup_put| |done].
  eapply reprs_frame; [exact Hps|].
  apply (only_at_stable [l]).
  - apply only_at_put; [set_solver|apply only_at_refl].
  - intros x ->%list_elem_of_singleton. by apply NoDup_cons_1_1 in Hnd.
  - intros x hn ->%list_elem_of_singleton Hx. rewrite Hl in Hx. by injection Hx as <-.
Qed.
End Frame.

(** * The store model: copies on write *)
Section Mutable.
Context {Pair : Type} `{EqDecision Pair}.

Notation hnode := (@Store.hnode Pair).
Notation memory := (@Store.memory Pair).
Notation HNode := (@Store.HNode Pair).
Notation node := (@node Pair).

Variable c : nat.
Variable dead : gset nat.
Hypothesis c_alive : c ∉ dead.

Implicit Types (m : memory) (l : Store.loc) (hn : hnode) (n : node).
Implicit Types (F G X : list Store.loc) (ps : list (Store.loc * list Store.loc)).
Implicit Types (ns : list node).

(** What a call on the node [l], which stood for a tree with the nodes
    [F], leaves: [l] stands for [n'] with the nodes [F']. *)
Definition result m F n' l m' F' : Prop :=
  repr c dead m' n' l F' ∧ NoDup F' ∧ owned c m' l ∧ wf m' ∧
  keeps F m m' ∧ grows F F' m ∧ Store.contexts m' = Store.contexts m.

Lemma wf_only_at X m m' :
  wf m → only_at X m m' → Store.freelist m' `sublist_of` Store.freelist m →
  (∀ x, x ∈ X → x ∉ Store.freelist m') → wf m'.
Proof.
  intros [Hnd Hfree] Hat Hsub HX. split; [by eapply sublist_NoDup|].
  intros l Hl. rewrite Hat; [|intros Hin; by apply (HX l)].
  apply Hfree. by eapply elem_of_sublist.
Qed.

Lemma mutableFor_sim m n l F :
  wf m → repr c dead m n l F → NoDup F →
  ∃ l' F' m', Store.mutableFor l (Some c) m = Some (l', m') ∧
    result m F n l' m' F'.
Proof.
  intros Hwf Hr Hnd. pose proof Hr as (hn & ps & Hl & Hits & Hcs & Hps & Hcow)%repr_inv.
  unfold Store.mutableFor. mstep.
  destruct Hcow as [[Hc ->]|[(c' & Hc' & Hd) ->]].
  - rewrite decide_True by done. exists l, (l :: mjoin ps.*2), m.
    split; [done|]. split_and!; try done; [by exists hn|apply keeps_refl|apply grows_refl].
  - rewrite decide_False by congruence.
    destruct (run_newNode c m Hwf) as (out & fl & Hnew & Hout & Hfl & Hnfl).
    mrun Hnew.
    assert (l ≠ out) as Hne.
    { intros ->. specialize (Hout hn Hl). congruence. }
    do 4 mstep. rewrite !put_put.
    eexists out, (out :: mjoin ps.*2), _. split; [reflexivity|].
    set (mf := put out _ _).
    assert (only_at [out] m mf) as Hat.
    { apply only_at_put; [set_solver|]. by intros ?. }
    assert (out ∉ mjoin ps.*2) as Hfresh.
    { intros Hin. eapply (owned_not_new c); [|exact Hout].
      by eapply reprs_owned. }
    split_and!.
    + eapply repr_node; [apply lookup_put|exact Hits|done| |by left].
      eapply reprs_frame; [exact Hps|].
      apply (only_at_stable dead [out]); [done| |].
      * by intros x ->%list_elem_of_singleton.
      * intros x hn' ->%list_elem_of_singleton. by apply new_not_frozen.
    + by apply NoDup_cons.
    + eexists. split; [apply lookup_put|done].
    + apply (wf_only_at [out] m); [done..|].
      by intros x ->%list_elem_of_singleton.
    + apply (only_at_keeps [out]); [done|].
      intros x ->%list_elem_of_singleton. by right.
    + intros x [->|Hx]%elem_of_cons; [by right|by left].
    + done.
Qed.

(** Replacing one part of a list of disjoint parts. *)
Lemma NoDup_replace (X Y Fi Fi' : list Store.loc) :
  NoDup (X ++ Fi ++ Y) → NoDup Fi' →
  (∀ x, x ∈ Fi' → x ∈ Fi ∨ (x ∉ X ∧ x ∉ Y)) →
  NoDup (X ++ Fi' ++ Y).
Proof.
  rewrite !NoDup_app. intros (HX & HXFY & HFi & HFY & HY) HFi' Hin.
  split_and!; try done.
  - intros x Hx [Hx'|Hx']%elem_of_app; [|apply (HXFY x Hx); set_solver].
    destruct (Hin x Hx') as [?|[? _]]; [|done]. apply (HXFY x Hx). set_solver.
  - intros x Hx HxY. destruct (Hin x Hx) as [?|[_ ?]]; [|done]. by apply (HFY x).
Qed.

Lemma parts_middle ps i p :
  ps !! i = Some p →
  mjoin ps.*2 = mjoin (take i ps).*2 ++ p.2 ++ mjoin (drop (S i) ps).*2.
Proof.
  intros Hp. rewrite <- (take_drop_middle ps i p Hp) at 1.
  by rewrite fmap_app, join_app.
Qed.

Lemma parts_insert ps i p p' :
  ps !! i = Some p →
  mjoin (<[i := p']> ps).*2 =
    mjoin (take i ps).*2 ++ p'.2 ++ mjoin (drop (S i) ps).*2.
Proof.
  intros Hp. pose proof (lookup_lt_Some _ _ _ Hp).
  rewrite insert_take_drop by done. by rewrite fmap_app, join_app.
Qed.

(** The children of a node after a call on the child [i]. *)
Lemma reprs_update m m1 X ns ps i li0 Fi0 ni' li Fi :
  reprs c dead m ns ps → NoDup (X ++ mjoin ps.*2) →
  (∀ x, x ∈ X → ¬ is_new m x) →
  ps !! i = Some (li0, Fi0) →
  keeps Fi0 m m1 → grows Fi0 Fi m → repr c dead m1 ni' li Fi → NoDup Fi →
  reprs c dead m1 (<[i := ni']> ns) (<[i := (li, Fi)]> ps) ∧
  NoDup (X ++ mjoin (<[i := (li, Fi)]> ps).*2).
Proof.
  intros Hps Hnd HX Hi Hk Hg Hr HndF.
  rewrite (parts_middle ps i _ Hi) in Hnd. cbn [snd] in Hnd.
  rewrite (parts_insert ps i _ (li, Fi) Hi). cbn [snd].
  assert (∀ x, x ∈ mjoin ps.*2 → owned c m x) as Hown
    by (intros x; by eapply reprs_owned).
  rewrite (parts_middle ps i _ Hi) in Hown. cbn [snd] in Hown.
  assert (∀ x hn, x ∈ Fi0 → Store.nodes m !! x = Some hn → ¬ frozen dead hn)
    as HFi0.
  { intros x hn Hx. apply (owned_not_frozen c dead c_alive). apply Hown. set_solver. }
  apply NoDup_app in Hnd as (HndX & HXps & Hnd).
  pose proof Hnd as (HndA & HAB & (_ & HFB & HndB)%NoDup_app)%NoDup_app.
  split.
  - pose proof (lookup_lt_Some _ _ _ Hi) as Hlt.
    pose proof (Forall2_length _ _ _ Hps) as Hlen.
    rewrite !insert_take_drop by lia.
    apply Forall2_app; [|constructor; [done|]].
    + eapply reprs_frame; [by apply Forall2_take|].
      apply (keeps_stable c dead _ Fi0); [done| | |done].
      * intros x Hx. apply Hown. set_solver.
      * intros x Hx HxF. apply (HAB x Hx). set_solver.
    + eapply reprs_frame; [by apply Forall2_drop|].
      apply (keeps_stable c dead _ Fi0); [done| | |done].
      * intros x Hx. apply Hown. set_solver.
      * intros x Hx HxF. by apply (HFB x HxF).
  - rewrite app_assoc.
    apply (NoDup_replace _ _ Fi0); [|done|].
    { rewrite <- app_assoc. apply NoDup_app. split_and!; done. }
    intros x Hx. destruct (Hg x Hx) as [?|Hnew]; [by left|]. right.
    split.
    + intros [Hin|Hin]%elem_of_app; [by apply (HX x)|].
      eapply (owned_not_new c); [|exact Hnew]. apply Hown. set_solver.
    + intros Hin. eapply (owned_not_new c); [|exact Hnew]. apply Hown. set_solver.
Qed.

(** A call on the child [i], in place, seen from its parent. *)
Lemma onode_child m m1 l its ns ps i li Fi ni' Fi' :
  onode c dead m l its ns ps → ps !! i = Some (li, Fi) →
  keeps Fi m m1 → grows Fi Fi' m → repr c dead m1 ni' li Fi' → NoDup Fi' →
  onode c dead m1 l its (<[i := ni']> ns) (<[i := (li, Fi')]> ps).
Proof.
  intros (Hl & Hps & Hnd) Hi Hk Hg Hr HndF.
  destruct (reprs_update m m1 [l] ns ps i li Fi ni' li Fi') as [Hps' Hnd'];
    try done.
  { intros x ->%list_elem_of_singleton Hnew. specialize (Hnew _ Hl). done. }
  split_and!; [|done|done].
  rewrite list_fmap_insert. cbn [fst].
  rewrite list_insert_id by (by rewrite list_lookup_fmap, Hi).
  apply Hk; [done|done|].
  intros Hin. apply NoDup_cons_1_1 in Hnd. apply Hnd.
  rewrite (parts_middle ps i _ Hi). set_solver.
Qed.

Lemma mutableChild_sim m l its ns ps i :
  wf m → onode c dead m l its ns ps → i < length ns →
  ∃ li Fi m',
    Store.mutableChild l i m = Some (li, m') ∧
    onode c dead m' l its ns (<[i := (li, Fi)]> ps) ∧
    owned c m' li ∧ wf m' ∧
    keeps (l :: mjoin ps.*2) m m' ∧
    grows (l :: mjoin ps.*2) (l :: mjoin (<[i := (li, Fi)]> ps).*2) m ∧
    Store.contexts m' = Store.contexts m.
Proof.
  intros Hwf (Hl & Hps & Hnd) Hi.
  destruct (lookup_lt_is_Some_2 ns i Hi) as [ni Hni].
  destruct (Forall2_lookup_l _ _ _ _ _ Hps Hni) as ([li0 Fi0] & Hpi & Hri).
  cbn [fst snd] in Hri.
  assert (NoDup Fi0) as HndF.
  { apply NoDup_cons_1_2 in Hnd. rewrite (parts_middle ps i _ Hpi) in Hnd.
    cbn [snd] in Hnd. by apply NoDup_app in Hnd as (_ & _ & (? & _)%NoDup_app). }
  assert (l ∉ Fi0) as HlF.
  { apply NoDup_cons_1_1 in Hnd. rewrite (parts_middle ps i _ Hpi) in Hnd.
    set_solver. }
  destruct (mutableFor_sim m ni li0 Fi0 Hwf Hri HndF)
    as (li & Fi & m1 & Hrun & Hr1 & Hnd1 & Hown1 & Hwf1 & Hk1 & Hg1 & Hctx1).
  assert (Store.nodes m1 !! l = Some (HNode its ps.*1 (Some c))) as Hl1
    by (by apply Hk1).
  assert (ps.*1 !! i = Some li0) as Hci by (by rewrite list_lookup_fmap, Hpi).
  assert (store ps.*1 i li = Some (<[i := li]> ps.*1)) as Hst.
  { unfold store. rewrite decide_True; [done|].
    rewrite length_fmap, <- (Forall2_length _ _ _ Hps). done. }
  unfold Store.mutableChild. do 3 mstep. mrun Hrun. do 3 mstep.
  exists li, Fi. eexists. split; [reflexivity|].
  replace (<[i := li]> ps.*1) with ((<[i := (li, Fi)]> ps).*1)
    by (by rewrite list_fmap_insert).
  destruct (reprs_update m m1 [l] ns ps i li0 Fi0 ni li Fi) as [Hps' Hnd'];
    try done.
  { intros x ->%list_elem_of_singleton Hnew. specialize (Hnew _ Hl). done. }
  rewrite list_insert_id in Hps' by done.
  assert (l ≠ li) as Hne.
  { intros <-. apply NoDup_cons_1_1 in Hnd'.
    rewrite (parts_insert ps i _ (l, Fi) Hpi) in Hnd'. cbn [snd] in Hnd'.
    destruct Hown1 as (hn1 & Hx1 & Hc1).
    pose proof Hr1 as (hn & ps1 & Hx & _ & _ & _ & Hcow)%repr_inv.
    destruct Hcow as [[_ ->]|[(c' & Hc' & ?) _]].
    - apply Hnd'. apply elem_of_app. right. apply elem_of_app. left.
      apply elem_of_cons. by left.
    - rewrite Hx in Hx1. injection Hx1 as ->. congruence. }
  split_and!.
  - eapply (onode_put c dead c_alive); [exact Hl1| |done|done].
    intros (c' & Hc' & Hd). simpl in Hc'. congruence.
  - destruct Hown1 as (hn1 & Hx1 & Hc1). exists hn1.
    by rewrite lookup_put_ne.
  - apply wf_put; [done|]. eapply not_free; [done|exact Hl1|done].
  - intros x hn Hx Hc Hin. apply not_elem_of_cons in Hin as [Hxl Hin].
    rewrite lookup_put_ne by done. apply Hk1; [done..|].
    intros HxF. apply Hin. rewrite (parts_middle ps i _ Hpi). cbn [snd].
    apply elem_of_app. right. apply elem_of_app. by left.
  - intros x [->|Hx]%elem_of_cons; [left; apply elem_of_cons; by left|].
    rewrite (parts_insert ps i _ (li, Fi) Hpi) in Hx. cbn [snd] in Hx.
    rewrite (parts_middle ps i _ Hpi). cbn [snd].
    apply elem_of_app in Hx as [Hx|[Hx|Hx]%elem_of_app].
    + left. apply elem_of_cons. right. apply elem_of_app. by left.
    + destruct (Hg1 x Hx) as [?|?]; [|by right].
      left. apply elem_of_cons. right. apply elem_of_app. right.
      apply elem_of_app. by left.
    + left. apply elem_of_cons. right. apply elem_of_app. right.
      apply elem_of_app. by right.
  - done.
Qed.
End Mutable.

(** * Further properties: lookup *)
Section Lookup.
Context {Pair : Type} `{EqDecision Pair}.
Variable nilPair : Pair.
Variable less : Pair → Pair → bool.
Hypothesis SW : StrictWeak less.

Implicit Types (x y k : Pair) (l : list Pair) (t : @PairTree Pair).

Lemma equiv_key_sym x y : equiv_key less x y → equiv_key less y x.
Proof. by intros [? ?]. Qed.

Lemma equiv_key_trans x y k :
  equiv_key less x y → equiv_key less y k → equiv_key less x k.
Proof.
  intros [Hxy Hyx] [Hyk Hky]. split; by eapply (less_incomp _ SW).
Qed.

(** Two items of an increasing list that are equal under the comparator
    are the same item. *)
Lemma equiv_in_increasing l x y :
  increasing less l → x ∈ l → y ∈ l → equiv_key less x y → x = y.
Proof.
  intros Hl Hx Hy [Hxy Hyx].
  apply list_elem_of_split in Hx as (L & R & ->).
  destruct (increasing_around less _ _ _ Hl) as [HL HR].
  apply elem_of_app in Hy as [Hy|[->|Hy]%elem_of_cons]; [|done|].
  - specialize (HL y Hy). unfold lt in HL. congruence.
  - specialize (HR y Hy). unfold lt in HR. congruence.
Qed.

Lemma find_list_cases k l :
  increasing less l →
  (∃ y, y ∈ l ∧ equiv_key less y k ∧ find_list nilPair less k l = y) ∨
  ((∀ y, y ∈ l → ¬ equiv_key less y k) ∧ find_list nilPair less k l = nilPair).
Proof.
  intros Hl.
  destruct (list_cases nilPair less SW k l Hl)
    as [(l1 & y & l2 & -> & Heq & Hf & _)|(Hno & Hf & _)]; [left|by right].
  exists y. split_and!; [|done..]. apply elem_of_app. right. by left.
Qed.

(** The lookup of [k] only depends on the items equal to [k]. *)
Lemma find_list_eq k l l' :
  increasing less l → increasing less l' →
  (∀ y, equiv_key less y k → y ∈ l ↔ y ∈ l') →
  find_list nilPair less k l = find_list nilPair less k l'.
Proof.
  intros Hl Hl' Hiff.
  destruct (find_list_cases k l Hl) as [(y & Hy & Heq & ->)|[Hno ->]];
    destruct (find_list_cases k l' Hl') as [(y' & Hy' & Heq' & ->)|[Hno' ->]].
  - apply (equiv_in_increasing l'); [done|by apply Hiff|done|].
    eapply equiv_key_trans; [done|by apply equiv_key_sym].
  - destruct (Hno' y); [by apply Hiff|done].
  - destruct (Hno y'); [by apply Hiff|done].
  - done.
Qed.

Lemma elem_of_ins_list x y l :
  increasing less l →
  y ∈ ins_list less x l ↔ y = x ∨ (y ∈ l ∧ ¬ equiv_key less y x).
Proof.
  intros Hl.
  destruct (list_cases nilPair less SW x l Hl)
    as [(l1 & y0 & l2 & -> & Heq & _ & -> & _)|(Hno & _ & _ & l1 & l2 & -> & ->)].
  - destruct (increasing_around less _ _ _ Hl) as [HL HR].
    rewrite !elem_of_app, !elem_of_cons. split.
    + intros [Hy|[->|Hy]]; [right|by left|right].
      * split; [by left|]. intros [Hyx _]. specialize (HL y Hy).
        pose proof (lt_equiv_r less SW _ _ _ HL (proj2 Heq)) as Hlt.
        unfold lt in Hlt. congruence.
      * split; [by right; right|]. intros [_ Hxy]. specialize (HR y Hy).
        pose proof (lt_equiv_l less SW _ _ _ HR (proj1 Heq)) as Hlt.
        unfold lt in Hlt. congruence.
    + intros [->|[[Hy|[->|Hy]] Hne]]; [by right; left|by left|done|by right; right].
  - rewrite !elem_of_app, !elem_of_cons. split.
    + intros [Hy|[->|Hy]]; [right|by left|right].
      * split; [by left|]. apply Hno, elem_of_app. by left.
      * split; [by right|]. apply Hno, elem_of_app. by right.
    + intros [->|[[Hy|Hy] _]]; [by right; left|by left|by right; right].
Qed.

Lemma elem_of_del_list x y l :
  increasing less l →
  y ∈ del_list less x l ↔ y ∈ l ∧ ¬ equiv_key less y x.
Proof.
  intros Hl.
  destruct (list_cases nilPair less SW x l Hl)
    as [(l1 & y0 & l2 & -> & Heq & _ & _ & ->)|(Hno & _ & -> & _)].
  - destruct (increasing_around less _ _ _ Hl) as [HL HR].
    rewrite !elem_of_app, !elem_of_cons. split.
    + intros [Hy|Hy].
      * split; [by left|]. intros [Hyx _]. specialize (HL y Hy).
        pose proof (lt_equiv_r less SW _ _ _ HL (proj2 Heq)) as Hlt.
        unfold lt in Hlt. congruence.
      * split; [by right; right|]. intros [_ Hxy]. specialize (HR y Hy).
        pose proof (lt_equiv_l less SW _ _ _ HR (proj1 Heq)) as Hlt.
        unfold lt in Hlt. congruence.
    + intros [[Hy|[->|Hy]] Hne]; [by left|done|by right].
  - split; [|by intros [? _]]. intros Hy. split; [done|by apply Hno].
Qed.

Lemma contents_increasing t : tree_inv nilPair less t → increasing less (contents t).
Proof.
  intros [_ Hi]. unfold contents. destruct (root t); [apply Hi|constructor].
Qed.

Lemma contents_not_nil t : tree_inv nilPair less t → nilPair ∉ contents t.
Proof.
  intros [_ Hi]. unfold contents. destruct (root t); [apply Hi|].
  by intros ?%elem_of_nil.
Qed.

Lemma Get_spec fuel t k :
  tree_inv nilPair less t → tree_height t < fuel →
  Get nilPair less fuel t k = Some (find_list nilPair less k (contents t)).
Proof.
  intros [_ Hinv] Hf. unfold Get, contents, tree_height in *.
  destruct (root t) as [r|]; [|done].
  destruct Hinv as (Hb & _ & Hinc & _).
  by eapply (get_spec nilPair less SW).
Qed.

(** X1: on an increasing slice, find returns the position of the item:
    the items before the index are below the item; with found, the item
    at the index is equal to it under the comparator and the items after
    it are above; without, the index is within the slice or at its end
    and the items from it on are above the item. *)
Theorem find_position (s : list Pair) (item : Pair) :
  increasing less s →
  ∃ i found, find less s item = Some (i, found) ∧
    Forall (λ y, lt less y item) (take i s) ∧
    if found
    then (∃ y, s !! i = Some y ∧ equiv_key less y item) ∧
         Forall (λ y, lt less item y) (drop (S i) s)
    else i ≤ length s ∧ Forall (λ y, lt less item y) (drop i s).
Proof. apply (find_spec less SW). Qed.

(** X3: Get returns the stored item equal to the key under the
    comparator, which is the only one, or the sentinel when there is
    none. *)
Theorem Get_finds d t key fuel :
  2 ≤ d → built nilPair less d t → enough t ≤ fuel →
  ∃ v, Get nilPair less fuel t key = Some v ∧
    (∀ y, y ∈ contents t → equiv_key less y key → v = y) ∧
    ((∀ y, y ∈ contents t → ¬ equiv_key less y key) → v = nilPair) ∧
    (v ≠ nilPair → v ∈ contents t ∧ equiv_key less v key).
Proof.
  intros Hd Hb Hf. unfold enough in Hf.
  destruct (built_inv nilPair less SW d t Hd Hb) as [Hinv _].
  pose proof (contents_increasing t Hinv) as Hinc.
  rewrite Get_spec by (done || lia). eexists. split; [done|].
  destruct (find_list_cases key (contents t) Hinc) as [(y & Hy & Heq & ->)|[Hno ->]].
  - split_and!; [|by intros Hno; destruct (Hno y)|done].
    intros y' Hy' Heq'. apply (equiv_in_increasing (contents t)); try done.
    eapply equiv_key_trans; [done|by apply equiv_key_sym].
  - split_and!; [|done..]. intros y Hy Heq. by destruct (Hno y).
Qed.

(** X4: Has tells whether an item equal to the key is stored. *)
Theorem Has_iff d t key fuel :
  2 ≤ d → built nilPair less d t → enough t ≤ fuel →
  ∃ b, Has nilPair less fuel t key = Some b ∧
    (b = true ↔ ∃ y, y ∈ contents t ∧ equiv_key less y key).
Proof.
  intros Hd Hb Hf. unfold enough in Hf.
  destruct (built_inv nilPair less SW d t Hd Hb) as [Hinv _].
  pose proof (contents_increasing t Hinv) as Hinc.
  pose proof (contents_not_nil t Hinv) as Hnil.
  unfold Has. rewrite Get_spec by (done || lia). cbn. eexists. split; [done|].
  destruct (find_list_cases key (contents t) Hinc) as [(y & Hy & Heq & ->)|[Hno ->]].
  - rewrite bool_decide_true by (by intros ->). split; [by exists y|done].
  - rewrite bool_decide_false by (by intros ?). split; [done|].
    intros (y & Hy & Heq). by destruct (Hno y).
Qed.

(** X5: after ReplaceOrInsert of an item, Get of that item returns it,
    and Get of a key that is not equal to it returns what it did. *)
Theorem Get_after_insert d t item fuel :
  2 ≤ d → built nilPair less d t → item ≠ nilPair → enough t ≤ fuel →
  ∃ out t',
    ReplaceOrInsert nilPair less fuel t item = Some (Return out, t') ∧
    ∀ fuel', enough t' ≤ fuel' → enough t ≤ fuel' →
      Get nilPair less fuel' t' item = Some item ∧
      ∀ key, ¬ equiv_key less item key →
        Get nilPair less fuel' t' key = Get nilPair less fuel' t key.
Proof.
  intros Hd Hb Hitem Hf. unfold enough in *.
  destruct (built_inv nilPair less SW d t Hd Hb) as [Hinv _].
  pose proof (contents_increasing t Hinv) as Hinc.
  destruct (ReplaceOrInsert_spec nilPair less SW fuel t item Hinv Hitem)
    as (t' & Hop & Hinv' & Hc' & _); [lia|].
  eexists _, t'. split; [exact Hop|]. intros fuel' Hf' Hf0.
  pose proof (increasing_ins_list less SW item _ Hinc) as Hinc'.
  split.
  - rewrite Get_spec by (done || lia). rewrite Hc'. f_equal.
    destruct (find_list_cases item (ins_list less item (contents t)) Hinc')
      as [(y & Hy & Heq & ->)|[Hno _]].
    + apply (equiv_in_increasing (ins_list less item (contents t))); try done.
      apply elem_of_ins_list; [done|by left].
    + destruct (Hno item); [|apply (equiv_key_refl less SW)].
      apply elem_of_ins_list; [done|by left].
  - intros key Hne. rewrite !Get_spec by (done || lia). rewrite Hc'.
    f_equal. apply find_list_eq; try done.
    intros y Heq. rewrite elem_of_ins_list by done. split.
    + intros [->|[? _]]; [|done]. by destruct Hne.
    + intros Hy. right. split; [done|]. intros Hyi. apply Hne.
      eapply equiv_key_trans; [by apply equiv_key_sym|done].
Qed.

(** X6: after Delete of a key, Get of that key returns the sentinel, and
    Get of a key that is not equal to it returns what it did. *)
Theorem Get_after_delete d t key fuel :
  2 ≤ d → built nilPair less d t → enough t ≤ fuel →
  ∃ out t',
    Delete nilPair less fuel t key = Some (out, t') ∧
    ∀ fuel', enough t' ≤ fuel' → enough t ≤ fuel' →
      Get nilPair less fuel' t' key = Some nilPair ∧
      ∀ key', ¬ equiv_key less key key' →
        Get nilPair less fuel' t' key' = Get nilPair less fuel' t key'.
Proof.
  intros Hd Hb Hf. unfold enough in *.
  destruct (built_inv nilPair less SW d t Hd Hb) as [Hinv _].
  pose proof (contents_increasing t Hinv) as Hinc.
  destruct (deletePair_spec nilPair less SW fuel t key removePair Hinv)
    as (t' & Hop & Hinv' & Hc' & _); [lia|].
  cbn [rm_list fst snd] in Hop, Hc'.
  pose proof (increasing_del_list less key _ Hinc) as Hinc'.
  eexists _, t'. split; [exact Hop|]. intros fuel' Hf' Hf0. split.
  - rewrite Get_spec by (done || lia). rewrite Hc'. f_equal.
    destruct (find_list_cases key (del_list less key (contents t)) Hinc')
      as [(y & Hy & Heq & _)|[_ ->]]; [|done].
    apply elem_of_del_list in Hy as [_ Hne]; [|done]. by destruct Hne.
  - intros key' Hne. rewrite !Get_spec by (done || lia). rewrite Hc'.
    f_equal. apply find_list_eq; try done.
    intros y Heq. rewrite elem_of_del_list by done. split; [by intros [? _]|].
    intros Hy. split; [done|]. intros Hyk. apply Hne.
    eapply equiv_key_trans; [by apply equiv_key_sym|done].
Qed.
End Lookup.

(** * Further properties: the ends of a tree *)
Section Ends.
Context {Pair : Type} `{EqDecision Pair}.
Variable nilPair : Pair.
Variable less : Pair → Pair → bool.
Hypothesis SW : StrictWeak less.

Implicit Types (x y k : Pair) (l : list Pair) (t : @PairTree Pair).
Implicit Types (n : @node Pair).

Lemma inorder_has_items lo hi h n :
  btree lo hi h n → 1 ≤ length (items n) → inorder n ≠ [].
Proof.
  intros Hb Hlen Hnil. apply (items_sublist _ _ _ _) in Hb.
  apply sublist_length in Hb. rewrite Hnil in Hb. simpl in Hb. lia.
Qed.

Lemma min_loop_spec lo hi h : ∀ fuel n,
  1 ≤ lo → h ≤ fuel → btree lo hi h n →
  min_loop nilPair fuel n = Some (hd nilPair (inorder n)).
Proof.
  induction h as [|h IH]; intros fuel n Hlo Hf Hb; destruct n as [its cs].
  - pose proof Hb as [Hcs _]. cbn [children] in Hcs. subst cs.
    rewrite inorder_leaf.
    assert (min_loop nilPair fuel (Node its []) =
            if decide (length its = 0) then Some nilPair else its !! 0) as ->
      by (by destruct fuel).
    destruct its; [done|]. by rewrite decide_False.
  - destruct fuel as [|fuel]; [lia|].
    pose proof Hb as (Hl & _ & Hcs)%btree_internal.
    cbn [items children] in Hl, Hcs.
    destruct cs as [|c0 cs]; [simpl in Hl; lia|].
    apply Forall_cons in Hcs as [[Hc0 Hb0] _].
    cbn [min_loop children]. rewrite decide_True by (simpl; lia).
    cbn [lookup list_lookup mbind option_bind].
    rewrite (IH fuel c0) by (done || lia). rewrite inorder_cons.
    pose proof (inorder_has_items lo hi h c0 Hb0) as Hne.
    destruct (inorder c0); [destruct Hne; [lia|done]|done].
Qed.

Lemma max_loop_spec lo hi h : ∀ fuel n,
  1 ≤ lo → h ≤ fuel → btree lo hi h n →
  max_loop nilPair fuel n = Some (default nilPair (last (inorder n))).
Proof.
  induction h as [|h IH]; intros fuel n Hlo Hf Hb; destruct n as [its cs].
  - pose proof Hb as [Hcs _]. cbn [children] in Hcs. subst cs.
    rewrite inorder_leaf.
    assert (max_loop nilPair fuel (Node its []) =
            if decide (length its = 0) then Some nilPair
            else its !! (length its - 1)) as ->
      by (by destruct fuel).
    destruct its as [|x its _] using rev_ind; [done|].
    rewrite decide_False by (rewrite length_app; simpl; lia).
    rewrite length_app, last_snoc. simpl. rewrite Nat.add_sub.
    by rewrite list_lookup_middle.
  - destruct fuel as [|fuel]; [lia|].
    pose proof Hb as (Hl & _ & Hcs)%btree_internal.
    cbn [items children] in Hl, Hcs.
    destruct cs as [|clast cs _] using rev_ind; [simpl in Hl; lia|].
    rewrite length_app in Hl. simpl in Hl.
    apply Forall_app in Hcs as [_ [[Hc0 Hb0] _]%Forall_cons].
    cbn [max_loop children]. rewrite decide_True by (rewrite length_app; simpl; lia).
    rewrite length_app. simpl. rewrite Nat.add_sub.
    rewrite list_lookup_middle by done. cbn [mbind option_bind].
    rewrite (IH fuel clast) by (done || lia).
    rewrite inorder_snoc_child by lia.
    pose proof (inorder_has_items lo hi h clast Hb0) as Hne.
    destruct (inorder clast) as [|z zs _] using rev_ind; [destruct Hne; [lia|done]|].
    by rewrite app_assoc, !last_snoc.
Qed.

Lemma increasing_hd_least l x :
  increasing less l → x ∈ l → less x (hd nilPair l) = false.
Proof.
  intros Hl Hx. destruct l as [|z l]; [by apply elem_of_nil in Hx|].
  apply StronglySorted_cons in Hl as [Hz _]. simpl.
  apply elem_of_cons in Hx as [->|Hx]; [apply (less_irrefl _ SW)|].
  rewrite Forall_forall in Hz. apply (lt_asym less SW). by apply Hz.
Qed.

Lemma increasing_last_greatest l x :
  increasing less l → x ∈ l → less (default nilPair (last l)) x = false.
Proof.
  intros Hl Hx. destruct l as [|z l _] using rev_ind; [by apply elem_of_nil in Hx|].
  rewrite last_snoc. simpl.
  apply elem_of_app in Hx as [Hx|Hx];
    [|apply list_elem_of_singleton in Hx as ->; apply (less_irrefl _ SW)].
  destruct (increasing_around less _ _ _ Hl) as [HL _].
  apply (lt_asym less SW). by apply HL.
Qed.

Lemma Min_Max_spec t fuel :
  tree_inv nilPair less t → tree_height t < fuel →
  Min nilPair fuel t = Some (hd nilPair (contents t)) ∧
  Max nilPair fuel t = Some (default nilPair (last (contents t))).
Proof.
  intros Hinv Hf.
  pose proof (minPairs_pos nilPair less t Hinv) as Hlo. split.
  - destruct Hinv as [_ Hr]. unfold Min, min, contents, tree_height in *.
    destruct (root t) as [r|]; [|done]. destruct Hr as [Hbt _].
    eapply min_loop_spec; [exact Hlo| |exact Hbt]. lia.
  - destruct Hinv as [_ Hr]. unfold Max, max, contents, tree_height in *.
    destruct (root t) as [r|]; [|done]. destruct Hr as [Hbt _].
    eapply max_loop_spec; [exact Hlo| |exact Hbt]. lia.
Qed.

Lemma ends_in_list (l : list Pair) :
  l ≠ [] → hd nilPair l ∈ l ∧ default nilPair (last l) ∈ l.
Proof.
  intros Hne. split.
  - destruct l; [done|]. by left.
  - destruct l as [|z l _] using rev_ind; [done|].
    rewrite last_snoc. simpl. apply elem_of_app. right. by left.
Qed.

(** X7: Min returns the first and Max the last of the items in order:
    on a tree with items, a stored item that no stored item is below,
    or above; on a tree without items, the sentinel. *)
Theorem Min_Max_ends d t fuel :
  2 ≤ d → built nilPair less d t → enough t ≤ fuel →
  Min nilPair fuel t = Some (hd nilPair (contents t)) ∧
  Max nilPair fuel t = Some (default nilPair (last (contents t))) ∧
  (contents t ≠ [] →
     hd nilPair (contents t) ∈ contents t ∧
     default nilPair (last (contents t)) ∈ contents t) ∧
  ∀ y, y ∈ contents t →
    less y (hd nilPair (contents t)) = false ∧
    less (default nilPair (last (contents t))) y = false.
Proof.
  intros Hd Hb Hf. unfold enough in Hf.
  destruct (built_inv nilPair less SW d t Hd Hb) as [Hinv _].
  pose proof (contents_increasing nilPair less t Hinv) as Hinc.
  destruct (Min_Max_spec t fuel Hinv) as [Hmin Hmax]; [lia|].
  split_and!; [done|done|apply ends_in_list|].
  intros y Hy. split;
      [by apply increasing_hd_least|by apply increasing_last_greatest].
Qed.

(** X8: DeleteMin returns the item Min returns and removes it, DeleteMax
    the item Max returns; Len goes down by one, unless the tree has no
    items, and the other items stay, in their order. *)
Theorem DeleteMin_DeleteMax d t fuel :
  2 ≤ d → built nilPair less d t → enough t ≤ fuel →
  (∃ t1, DeleteMin nilPair less fuel t = Some (hd nilPair (contents t), t1) ∧
     Min nilPair fuel t = Some (hd nilPair (contents t)) ∧
     contents t1 = tail (contents t) ∧
     Len t1 = (if decide (contents t = []) then Len t else Len t - 1)%Z) ∧
  (∃ t2, DeleteMax nilPair less fuel t =
           Some (default nilPair (last (contents t)), t2) ∧
     Max nilPair fuel t = Some (default nilPair (last (contents t))) ∧
     contents t2 = take (length (contents t) - 1) (contents t) ∧
     Len t2 = (if decide (contents t = []) then Len t else Len t - 1)%Z).
Proof.
  intros Hd Hb Hf. unfold enough in Hf.
  destruct (built_inv nilPair less SW d t Hd Hb) as [Hinv _].
  destruct (Min_Max_spec t fuel Hinv) as [Hmin Hmax]; [lia|].
  pose proof (ends_in_list (contents t)) as Hin.
  pose proof (contents_not_nil nilPair less t Hinv) as Hnil.
  assert (∀ v, (contents t ≠ [] → v ∈ contents t) → (contents t = [] → v = nilPair) →
            (if decide (v = nilPair) then t_length t else (t_length t - 1)%Z) =
            (if decide (contents t = []) then Len t else (Len t - 1)%Z)) as Hlen.
  { intros v Hv Hv0. unfold Len. destruct (decide (contents t = [])) as [E|E].
    - by rewrite decide_True by auto.
    - rewrite decide_False; [done|]. intros ->. by apply Hnil, Hv. }
  split.
  - destruct (deletePair_spec nilPair less SW fuel t nilPair removeMin Hinv)
      as (t1 & Hop & _ & Hc1 & _ & Hl1); [lia|].
    cbn [rm_list fst snd] in Hop, Hc1, Hl1.
    exists t1. split_and!; [done..|]. unfold Len at 1. rewrite Hl1.
    apply Hlen; [intros Hne; apply (Hin Hne)|by intros ->].
  - destruct (deletePair_spec nilPair less SW fuel t nilPair removeMax Hinv)
      as (t2 & Hop & _ & Hc2 & _ & Hl2); [lia|].
    cbn [rm_list fst snd] in Hop, Hc2, Hl2.
    exists t2. split_and!; [done..|]. unfold Len at 1. rewrite Hl2.
    apply Hlen; [intros Hne; apply (Hin Hne)|by intros ->].
Qed.

(** X9: Len is the number of items in the tree, those Ascend visits. *)
Theorem Len_counts d t fuel :
  2 ≤ d → built nilPair less d t → enough t ≤ fuel →
  Ascend nilPair less record fuel t [] = Some (contents t) ∧
  Len t = Z.of_nat (length (contents t)).
Proof.
  intros Hd Hb Hf. unfold enough in Hf.
  destruct (built_inv nilPair less SW d t Hd Hb) as [Hinv _]. split.
  - unfold Ascend. rewrite (scan_ascend nilPair less SW) by (try done; lia || by right).
    by rewrite walk_unbounded, feed_record.
  - by apply (tree_inv_len nilPair less).
Qed.

(** X10: Delete of a key some stored item is equal to returns that item
    and removes it, and only it: Len goes down by one and the other items
    stay, in their order. *)
Theorem Delete_present d t key y fuel :
  2 ≤ d → built nilPair less d t → enough t ≤ fuel →
  y ∈ contents t → equiv_key less y key →
  ∃ t' l1 l2,
    Delete nilPair less fuel t key = Some (y, t') ∧
    contents t = l1 ++ y :: l2 ∧ contents t' = l1 ++ l2 ∧
    Len t' = (Len t - 1)%Z.
Proof.
  intros Hd Hb Hf Hy Heq. unfold enough in Hf.
  destruct (built_inv nilPair less SW d t Hd Hb) as [Hinv _].
  pose proof (contents_increasing nilPair less t Hinv) as Hinc.
  pose proof (contents_not_nil nilPair less t Hinv) as Hnil.
  destruct (deletePair_spec nilPair less SW fuel t key removePair Hinv)
    as (t' & Hop & _ & Hc' & _ & Hl'); [lia|].
  cbn [rm_list fst snd] in Hop, Hc', Hl'.
  destruct (list_cases nilPair less SW key (contents t) Hinc)
    as [(l1 & y0 & l2 & Hc & Heq0 & Hf0 & _ & Hd0)|(Hno & _)];
    [|by destruct (Hno y)].
  assert (y0 = y) as ->.
  { apply (equiv_in_increasing less (contents t)); try done.
    - rewrite Hc. apply elem_of_app. right. by left.
    - eapply (equiv_key_trans less SW); [done|by apply equiv_key_sym]. }
  exists t', l1, l2. rewrite Hf0 in Hop, Hl'. split_and!; [done|done|congruence|].
  unfold Len. rewrite Hl'. rewrite decide_False; [done|].
  intros ->. done.
Qed.
End Ends.

(** * Further properties: slices and splits *)
Section SliceOps.
Context {A : Type}.
Implicit Types (s : list A) (x : A) (i : nat).

(** X2: insertAt puts the item at the index and shifts the items from
    there on; removeAt at the same index undoes it, and pop undoes an
    append.  An index beyond the length makes insertAt panic, an index
    at or beyond it removeAt, and pop panics on an empty slice. *)
Theorem slice_insert_remove s i x :
  (i ≤ length s →
     ∃ s', insertAt s i x = Some s' ∧ s' !! i = Some x ∧
           length s' = S (length s) ∧ removeAt s' i = Some (x, s)) ∧
  (length s < i → insertAt s i x = None) ∧
  (length s ≤ i → removeAt s i = None) ∧
  pop (s ++ [x]) = Some (x, s) ∧
  pop (@nil A) = None.
Proof.
  split_and!.
  - intros Hi. unfold insertAt. rewrite decide_True by done.
    eexists. split; [done|]. split_and!.
    + rewrite lookup_app_r by (rewrite length_take; lia).
      rewrite length_take. by replace (i - i `min` length s) with 0 by lia.
    + rewrite length_app, length_take. simpl. rewrite length_drop. lia.
    + unfold removeAt.
      rewrite lookup_app_r by (rewrite length_take; lia).
      rewrite length_take. replace (i - i `min` length s) with 0 by lia.
      cbn. f_equal. f_equal.
      rewrite take_app_length' by (rewrite length_take; lia).
      rewrite (cons_middle x), app_assoc.
      rewrite drop_app_length' by (rewrite length_app, length_take; simpl; lia).
      apply take_drop.
  - intros Hi. unfold insertAt. by rewrite decide_False by lia.
  - intros Hi. unfold removeAt. by rewrite lookup_ge_None_2.
  - apply pop_snoc.
  - done.
Qed.
End SliceOps.

Section Splits.
Context {Pair : Type} `{EqDecision Pair}.
Variable less : Pair → Pair → bool.
Variables lo hi : nat.
Hypothesis Hhi : hi = 2 * lo + 1.

Implicit Types (A B : list Pair) (CA CB : list (@node Pair)) (c : @node Pair).

(** X11: split of a full node at the middle gives two nodes with the
    least number of items allowed around the middle item, with the
    items in the same order. *)
Theorem split_full h c :
  btree lo hi h c → length (items c) = hi →
  ∃ c1 m c2, split c (hi / 2) = Some (c1, m, c2) ∧
    inorder c = inorder c1 ++ m :: inorder c2 ∧
    btree lo hi h c1 ∧ btree lo hi h c2 ∧
    length (items c1) = lo ∧ length (items c2) = lo.
Proof. by apply split_spec. Qed.

(** X12: maybeSplitChild leaves a node alone when the child has room; a
    full child is split, and the middle item and the new node go into
    the node right after the child, so the items keep their order. *)
Theorem maybeSplitChild_cases h A B CA c CB :
  length CA = length A → btree lo hi h c →
  (length (items c) < hi →
     maybeSplitChild (Node (A ++ B) (CA ++ c :: CB)) (length A) hi =
       Some (Node (A ++ B) (CA ++ c :: CB), false)) ∧
  (length (items c) = hi →
     ∃ c1 m c2,
       maybeSplitChild (Node (A ++ B) (CA ++ c :: CB)) (length A) hi =
         Some (Node (A ++ m :: B) (CA ++ c1 :: c2 :: CB), true) ∧
       inorder (Node (A ++ m :: B) (CA ++ c1 :: c2 :: CB)) =
         inorder (Node (A ++ B) (CA ++ c :: CB)) ∧
       btree lo hi h c1 ∧ btree lo hi h c2).
Proof.
  intros HCA Hb. split.
  - intros Hlt. by apply (maybeSplitChild_no lo hi).
  - intros Hfull.
    destruct (maybeSplitChild_yes lo hi Hhi h A B CA c CB HCA Hb Hfull)
      as (c1 & m & c2 & Hrun & Hin & Hb1 & Hb2 & _).
    exists c1, m, c2. split_and!; [done| |done..].
    rewrite inorder_mid_item, inorder_mid by done. rewrite Hin.
    by rewrite <- !app_assoc.
Qed.
End Splits.

(** * Further properties: the scans with one bound *)
Section HalfRanges.
Context {Pair : Type} `{EqDecision Pair}.
Variable nilPair : Pair.
Variable less : Pair → Pair → bool.
Hypothesis SW : StrictWeak less.
Context {St : Type}.
Variable iterator : Pair → St → bool * St.

Implicit Types (l : list Pair) (st : St) (t : @PairTree Pair).

Lemma walk_from s l st :
  s ≠ nilPair →
  walk nilPair less iterator s nilPair l st =
    feed iterator (filter (λ x, less x s = false) l) st.
Proof.
  intros Hs. revert st. induction l as [|x l IH]; intros st; simpl; [done|].
  rewrite notNil_nil. rewrite notNil_true by done. simpl.
  destruct (less x s) eqn:Hxs.
  - rewrite filter_cons_False by (by rewrite Hxs). apply IH.
  - rewrite filter_cons_True by (by rewrite Hxs). simpl.
    destruct (iterator x st) as [[] st']; [apply IH|done].
Qed.

Lemma walk_upto e l st :
  e ≠ nilPair → increasing less l →
  (walk nilPair less iterator nilPair e l st).2 =
    (feed iterator (filter (λ x, less x e = true) l) st).2.
Proof.
  intros He. revert st. induction l as [|x l IH]; intros st Hl; simpl; [done|].
  apply StronglySorted_cons in Hl as [Hx Hl].
  rewrite notNil_nil. rewrite notNil_true by done. simpl.
  destruct (less x e) eqn:Hxe; simpl.
  - rewrite filter_cons_True by (by rewrite Hxe). simpl.
    destruct (iterator x st) as [[] st']; [by apply IH|done].
  - rewrite filter_cons_False by (by rewrite Hxe).
    rewrite (filter_none (λ y, less y e = true)); [done|].
    apply Forall_forall. intros y Hy Hye.
    rewrite Forall_forall in Hx. specialize (Hx y Hy).
    rewrite (less_trans _ SW _ _ _ Hx Hye) in Hxe. done.
Qed.

(** X13: AscendGreaterOrEqual calls the callback on the items that are
    not below the pivot, and AscendLessThan on the items below it, in
    increasing order, until the callback returns false. *)
Theorem Ascend_half_ranges d t pivot fuel st :
  2 ≤ d → built nilPair less d t → enough t ≤ fuel → pivot ≠ nilPair →
  AscendGreaterOrEqual nilPair less iterator fuel t pivot st =
    Some (feed iterator (filter (λ x, less x pivot = false) (contents t)) st).2 ∧
  AscendLessThan nilPair less iterator fuel t pivot st =
    Some (feed iterator (filter (λ x, less x pivot = true) (contents t)) st).2.
Proof.
  intros Hd Hb Hf Hp. unfold enough in Hf.
  destruct (built_inv nilPair less SW d t Hd Hb) as [Hinv _].
  pose proof (contents_increasing nilPair less t Hinv) as Hinc.
  unfold AscendGreaterOrEqual, AscendLessThan. split.
  - rewrite (scan_ascend nilPair less SW) by (try done; lia || by left).
    by rewrite walk_from.
  - rewrite (scan_ascend nilPair less SW) by (try done; lia || by right).
    by rewrite walk_upto.
Qed.

(** X14: with the sentinel as the pivot, AscendGreaterOrEqual and
    AscendLessThan are not bounded: they call the callback on every
    item, as Ascend does. *)
Theorem Ascend_sentinel_pivot d t fuel st :
  2 ≤ d → built nilPair less d t → enough t ≤ fuel →
  AscendGreaterOrEqual nilPair less iterator fuel t nilPair st =
    Ascend nilPair less iterator fuel t st ∧
  AscendLessThan nilPair less iterator fuel t nilPair st =
    Ascend nilPair less iterator fuel t st ∧
  AscendRange nilPair less iterator fuel t nilPair nilPair st =
    Ascend nilPair less iterator fuel t st ∧
  Ascend nilPair less iterator fuel t st =
    Some (feed iterator (contents t) st).2.
Proof.
  intros Hd Hb Hf. unfold enough in Hf.
  destruct (built_inv nilPair less SW d t Hd Hb) as [Hinv _].
  unfold AscendGreaterOrEqual, AscendLessThan, AscendRange, Ascend.
  rewrite !(scan_ascend nilPair less SW) by (try done; lia || by right).
  by rewrite walk_unbounded.
Qed.
End HalfRanges.

(** * Further properties: a cursor at the ends *)
Section CursorEnds.
Context {Pair : Type} `{EqDecision Pair}.
Variable nilPair : Pair.
Variable less : Pair → Pair → bool.
Hypothesis SW : StrictWeak less.

Implicit Types (t : @PairTree Pair) (c : @Cursor Pair) (n : @node Pair).
Implicit Types (s : list (@node Pair * Z)).

Lemma Next_empty fuel c : stack c = [] → Next nilPair fuel c = Some (nilPair, c).
Proof. intros Hs. destruct fuel; cbn [Next]; by rewrite Hs. Qed.

Lemma Prev_empty fuel c : stack c = [] → Prev nilPair fuel c = Some (nilPair, c).
Proof. intros Hs. destruct fuel; cbn [Prev]; by rewrite Hs. Qed.

(** [Prev] on frames that are all at their first position, and [Next] on
    frames that are all at their last one, leave the stack empty. *)
Lemma Prev_at_start s : ∀ fuel c,
  stack c = s → Forall (λ f, f.2 = 0%Z) s → length s ≤ fuel →
  Prev nilPair fuel c = Some (nilPair, with_stack c []).
Proof.
  induction s as [|[n i] s IH]; intros fuel c Hs Hz Hf.
  - rewrite Prev_empty by done. destruct c. simpl in Hs. by subst.
  - destruct fuel as [|fuel]; [simpl in Hf; lia|].
    apply Forall_cons in Hz as [Hi Hz]. simpl in Hi. subst i.
    rewrite (Prev_S _ _ _ _ _ _ Hs). cbv zeta. rewrite decide_True by done.
    rewrite (IH fuel (with_stack c s)); [done|done|done|simpl in Hf; lia].
Qed.

Lemma Next_at_end s : ∀ fuel c,
  stack c = s → Forall (λ f, f.2 = last_pos f.1) s → length s ≤ fuel →
  Next nilPair fuel c = Some (nilPair, with_stack c []).
Proof.
  induction s as [|[n i] s IH]; intros fuel c Hs Hz Hf.
  - rewrite Next_empty by done. destruct c. simpl in Hs. by subst.
  - destruct fuel as [|fuel]; [simpl in Hf; lia|].
    apply Forall_cons in Hz as [Hi Hz]. simpl in Hi. subst i.
    rewrite (Next_S _ _ _ _ _ _ Hs). cbv zeta.
    rewrite decide_True by (unfold last_pos; lia).
    rewrite (IH fuel (with_stack c s)); [done|done|done|simpl in Hf; lia].
Qed.

Lemma First_loop_stack fuel : ∀ n s leaf s',
  First_loop fuel n s = Some (leaf, s') →
  Forall (λ f, f.2 = 0%Z) s →
  Forall (λ f, f.2 = 0%Z) s' ∧ length s' ≤ length s + fuel.
Proof.
  induction fuel as [|fuel IH]; intros n s leaf s' Hrun Hz.
  - simpl in Hrun. destruct (decide (0 < length (children n))); [done|].
    injection Hrun as <- <-. split; [done|lia].
  - rewrite First_loop_S in Hrun.
    destruct (decide (0 < length (children n))); [|injection Hrun as <- <-; split; [done|lia]].
    destruct (children n !! 0) as [n'|]; [|done]. cbn in Hrun.
    destruct (IH n' ((n', 0%Z) :: s) leaf s' Hrun) as [Hz' Hl]; [by constructor|].
    split; [done|]. simpl in Hl. lia.
Qed.

Lemma Last_loop_stack fuel : ∀ n s leaf s',
  Last_loop fuel n s = Some (leaf, s') →
  Forall (λ f, f.2 = last_pos f.1) s →
  Forall (λ f, f.2 = last_pos f.1) s' ∧ length s' ≤ length s + fuel.
Proof.
  induction fuel as [|fuel IH]; intros n s leaf s' Hrun Hz.
  - simpl in Hrun. destruct (decide (0 < length (children n))); [done|].
    injection Hrun as <- <-. split; [done|lia].
  - rewrite Last_loop_S in Hrun.
    destruct (decide (0 < length (children n))); [|injection Hrun as <- <-; split; [done|lia]].
    destruct (children n !! (length (children n) - 1)) as [n'|]; [|done]. cbn in Hrun.
    destruct (IH n' ((n', last_pos n') :: s) leaf s' Hrun) as [Hz' Hl]; [by constructor|].
    split; [done|]. simpl in Hl. lia.
Qed.

Lemma First_stack fuel c0 x c :
  First nilPair fuel c0 = Some (x, c) → Forall (λ f, f.2 = 0%Z) (stack c).
Proof.
  unfold First. destruct (root (c_t c0)) as [r|]; [|by intros [= _ <-]].
  destruct (First_loop fuel r [(r, 0%Z)]) as [[leaf s]|] eqn:Hrun; [|done].
  apply First_loop_stack in Hrun as [Hz _]; [|by repeat constructor].
  cbn. destruct (decide (length (items leaf) = 0)); [by intros [= _ <-]|].
  destruct (items leaf !! 0); [|done]. by intros [= _ <-].
Qed.

Lemma Last_stack fuel c0 x c :
  Last nilPair fuel c0 = Some (x, c) →
  Forall (λ f, f.2 = last_pos f.1) (stack c).
Proof.
  unfold Last. destruct (root (c_t c0)) as [r|]; [|by intros [= _ <-]].
  destruct (Last_loop fuel r [(r, last_pos r)]) as [[leaf s]|] eqn:Hrun; [|done].
  apply Last_loop_stack in Hrun as [Hz _]; [|by repeat constructor].
  cbn. destruct (decide (length (items leaf) = 0)); [by intros [= _ <-]|].
  destruct (items leaf !! (length (items leaf) - 1)); [|done]. by intros [= _ <-].
Qed.

(** X15: a cursor cannot turn back at the ends: Prev right after First
    and Next right after Last return the sentinel, and leave a cursor on
    which Next and Prev return the sentinel until it is placed again. *)
Theorem cursor_off_the_ends d t fuel :
  2 ≤ d → built nilPair less d t → enough t ≤ fuel →
  (∃ x c c', First nilPair fuel (NewCursor t) = Some (x, c) ∧
     x = hd nilPair (contents t) ∧
     Prev nilPair fuel c = Some (nilPair, c') ∧
     Next nilPair fuel c' = Some (nilPair, c') ∧
     Prev nilPair fuel c' = Some (nilPair, c')) ∧
  (∃ x c c', Last nilPair fuel (NewCursor t) = Some (x, c) ∧
     x = default nilPair (last (contents t)) ∧
     Next nilPair fuel c = Some (nilPair, c') ∧
     Next nilPair fuel c' = Some (nilPair, c') ∧
     Prev nilPair fuel c' = Some (nilPair, c')).
Proof.
  intros Hd Hb Hf. unfold enough in Hf.
  destruct (built_inv nilPair less SW d t Hd Hb) as [Hinv _].
  split.
  - destruct (First_spec nilPair less fuel t Hinv) as (c & Hrun & _ & _ & Hc); [lia|].
    pose proof (First_stack _ _ _ _ Hrun) as Hz.
    pose proof (chain_length _ _ (minPairs_pos nilPair less t Hinv) _ _ _ Hc) as Hlen.
    exists (hd nilPair (contents t)), c, (with_stack c []).
    split_and!; [done|done| |by apply Next_empty|by apply Prev_empty].
    apply (Prev_at_start (stack c)); [done|done|lia].
  - destruct (Last_spec nilPair less fuel t Hinv) as (c & Hrun & _ & Hc); [lia|].
    pose proof (Last_stack _ _ _ _ Hrun) as Hz.
    assert (hd nilPair (reverse (contents t)) = default nilPair (last (contents t)))
      as Hlast.
    { destruct (contents t) as [|z l _] using rev_ind; [done|].
      by rewrite reverse_snoc, last_snoc. }
    rewrite Hlast in Hrun.
    assert (length (stack c) ≤ fuel) as Hlen.
    { destruct (decide (contents t = [])) as [He|Hne].
      - revert Hrun. unfold Last. cbn [c_t NewCursor].
        destruct (tree_inv_empty nilPair less t Hinv He) as [-> | ->].
        + intros [= _ <-]. simpl. lia.
        + destruct fuel; [lia|]. intros [= _ <-]. simpl. lia.
      - destruct Hc as [_ Hc]; [by intros ?%(f_equal reverse); rewrite reverse_involutive in *|].
        pose proof (chain_back_length _ _ (minPairs_pos nilPair less t Hinv) _ _ _ Hc).
        lia. }
    exists (default nilPair (last (contents t))), c, (with_stack c []).
    split_and!; [done|done| |by apply Next_empty|by apply Prev_empty].
    by apply (Next_at_end (stack c)).
Qed.

(** X16: on a tree without items Last returns the sentinel.  Prev after
    it returns the sentinel if the tree never had an item; but if it had
    items, all deleted since, its root is an empty node, Last leaves the
    cursor before the first position of that node, and Prev panics on an
    index out of range. *)
Theorem Prev_after_Last_without_items d t fuel :
  2 ≤ d → built nilPair less d t → contents t = [] →
  ∃ c, Last nilPair fuel (NewCursor t) = Some (nilPair, c) ∧
    (root t = None → Prev nilPair fuel c = Some (nilPair, c)) ∧
    (root t ≠ None → ∀ fuel', Prev nilPair fuel' c = None).
Proof.
  intros Hd Hb He.
  destruct (built_inv nilPair less SW d t Hd Hb) as [Hinv _].
  unfold Last. cbn [c_t NewCursor].
  destruct (tree_inv_empty nilPair less t Hinv He) as [Hr|Hr]; rewrite Hr.
  - eexists. split; [done|]. split; [|done]. intros _. by apply Prev_empty.
  - assert (Last_loop fuel (Node [] []) [(Node [] [], last_pos (Node [] []))] =
            Some (Node [] [], [(Node [] [], (-1)%Z)])) as -> by (by destruct fuel).
    cbn. eexists. split; [done|]. split; [done|]. intros _ fuel'.
    destruct fuel' as [|fuel']; [done|].
    erewrite Prev_S by done. cbv zeta. by rewrite decide_False by done.
Qed.
End CursorEnds.

(** * Further properties: the descending scans with bounds *)
Section DescendBounded.
Context {Pair : Type} `{EqDecision Pair}.
Variable nilPair : Pair.
Variable less : Pair → Pair → bool.
Hypothesis SW : StrictWeak less.
Context {St : Type}.
Variable iter : Pair → St → bool * St.
Variables lo hi : nat.
Variables s e : Pair.

Implicit Types (A B : list Pair) (CA CB cs : list (@node Pair)) (c n : @node Pair).
Implicit Types (st : St) (hit : bool) (l : list Pair).

Ltac step := cbn [mbind option_bind items children].
Ltac revmem :=
  repeat match goal with
    | H : _ ∈ reverse _ |- _ => rewrite elem_of_reverse in H
    end;
  rewrite ?elem_of_reverse; try done; set_solver.

(** An item above the start [s] of a descending scan is passed over. *)
Definition over (x : Pair) : bool := notNil nilPair s && less s x.

(** The first half of the test of the code: the item is not below [s]. *)
Definition not_under (x : Pair) : bool := notNil nilPair s && negb (less x s).

(** An item not above the stop [e] ends a descending scan. *)
Definition ends (x : Pair) : bool := notNil nilPair e && negb (less e x).

(** The descending scan on a decreasing list. *)
Fixpoint walk_back (l : list Pair) (st : St) : bool * St :=
  match l with
  | [] => (true, st)
  | x :: l' =>
      if over x then walk_back l' st
      else if ends x then (false, st)
      else
        let '(continue, st') := iter x st in
        if continue then walk_back l' st' else (false, st')
  end.

(** When an item was visited ([hit]), what is left is below [s]. *)
Definition fresh (hit : bool) (l : list Pair) : Prop :=
  hit = true → Forall (λ x, not_under x = false) l.

(** [hit] is set by an item that was not passed over. *)
Definition marks (hit hit' : bool) (l : list Pair) : Prop :=
  hit' = true → hit = true ∨ ∃ v, v ∈ l ∧ over v = false.

Lemma walk_back_app l1 l2 st :
  walk_back (l1 ++ l2) st =
    if (walk_back l1 st).1 then walk_back l2 (walk_back l1 st).2
    else walk_back l1 st.
Proof.
  revert st. induction l1 as [|x l1 IH]; intros st; simpl; [done|].
  destruct (over x); [done|]. destruct (ends x); [done|].
  destruct (iter x st) as [[] st']; [done|done].
Qed.

Lemma walk_back_skip l st :
  Forall (λ x, over x = true) l → walk_back l st = (true, st).
Proof. induction 1 as [|x l Hx _ IH]; simpl; [done|]. by rewrite Hx. Qed.

Lemma not_under_over x : not_under x = false → over x = false.
Proof.
  unfold not_under, over. destruct (notNil nilPair s); [|done]. simpl.
  intros Hx%negb_false_iff. by apply (lt_asym less SW).
Qed.

Lemma below_mark v y : over v = false → lt less y v → not_under y = false.
Proof.
  unfold not_under, over. destruct (notNil nilPair s); [|done]. simpl.
  intros Hv Hy. apply negb_false_iff.
  destruct (less y s) eqn:Hys; [done|].
  unfold lt in Hy. by rewrite (less_incomp _ SW _ _ _ Hys Hv) in Hy.
Qed.

Lemma over_up x y : over x = true → lt less x y → over y = true.
Proof.
  unfold over. destruct (notNil nilPair s); [|done]. simpl.
  intros Hx Hy. exact (less_trans _ SW _ _ _ Hx Hy).
Qed.

Lemma skip_test incl hit it :
  (incl = true ∨ s = nilPair) → (hit = true → not_under it = false) →
  notNil nilPair s && negb (less it s) && (negb incl || hit || less s it) = over it.
Proof.
  intros Hincl Hhit. fold (not_under it).
  destruct Hincl as [-> | Hs].
  - destruct hit.
    + rewrite Hhit by done. simpl. symmetry. apply not_under_over. by apply Hhit.
    + unfold not_under, over. destruct (notNil nilPair s); [|done]. simpl.
      destruct (less s it) eqn:Hsi; [|by rewrite andb_false_r].
      by rewrite (lt_asym less SW _ _ Hsi).
  - unfold not_under, over. rewrite Hs. by rewrite notNil_nil.
Qed.

Lemma fresh_sub hit l l' : l' ⊆ l → fresh hit l → fresh hit l'.
Proof.
  intros Hl Hf Hh. specialize (Hf Hh). rewrite Forall_forall in Hf |- *.
  intros x Hx. apply Hf. by apply Hl.
Qed.

Lemma marks_sub hit hit' l l' : l' ⊆ l → marks hit hit' l' → marks hit hit' l.
Proof.
  intros Hl Hm Hh. destruct (Hm Hh) as [?|(v & Hv & Ho)]; [by left|].
  right. exists v. split; [by apply Hl|done].
Qed.

Lemma descend_bounded_loop under its sub incl :
  (incl = true ∨ s = nilPair) →
  ∀ k hit st,
    k ≤ length its →
    increasing less (reverse (rev_seq sub its k)) →
    fresh hit (rev_seq sub its k) →
    (∀ j hit st, 1 ≤ j ≤ k → fresh hit (sub j) →
       ∃ hit', under j hit st =
                 Some (hit', (walk_back (reverse (sub j)) st).1,
                       (walk_back (reverse (sub j)) st).2) ∧
               marks hit hit' (sub j)) →
    ∃ hit', descend_loop nilPair less iter under its s e incl k hit st =
              Some (hit', (walk_back (rev_seq sub its k) st).1,
                    (walk_back (rev_seq sub its k) st).2) ∧
            marks hit hit' (rev_seq sub its k).
Proof.
  intros Hincl. induction k as [|k IH]; intros hit st Hk Hinc Hfresh Hunder.
  - simpl. exists hit. split; [done|]. intros ?. by left.
  - destruct (lookup_lt_is_Some_2 its k) as [it Hit]; [lia|].
    cbn [rev_seq] in *. rewrite Hit in *.
    set (T := rev_seq sub its k) in *.
    rewrite reverse_app, reverse_cons, reverse_involutive in Hinc.
    apply (increasing_app less) in Hinc as (HincT & HincS & Hcross).
    apply (increasing_app less) in HincT as (HincT & _ & HT).
    assert (∀ y, y ∈ T → lt less y it) as HTit.
    { intros y Hy. apply HT; [revmem|set_solver]. }
    assert (∀ x, x ∈ sub (S k) → lt less it x) as HSit.
    { intros x Hx. apply Hcross; [set_solver|done]. }
    assert (∀ hit0 st0, fresh hit0 T →
              ∃ hit', descend_loop nilPair less iter under its s e incl k hit0 st0 =
                        Some (hit', (walk_back T st0).1, (walk_back T st0).2) ∧
                      marks hit0 hit' T) as IH'.
    { intros hit0 st0 Hf. apply IH; [lia|done|done|].
      intros j hit1 st1 Hj. apply Hunder. lia. }
    rewrite descend_loop_S, Hit. step.
    rewrite skip_test; [|done|]; last first.
    { intros Hh. specialize (Hfresh Hh). rewrite Forall_forall in Hfresh.
      apply Hfresh. set_solver. }
    rewrite walk_back_app. cbn [walk_back].
    destruct (over it) eqn:Hover.
    + rewrite walk_back_skip; last first.
      { apply Forall_forall. intros x Hx. rewrite elem_of_reverse in Hx.
        eapply over_up; [exact Hover|by apply HSit]. }
      cbn [fst snd].
      destruct (IH' hit st) as (hit' & -> & Hm).
      { eapply fresh_sub; [|exact Hfresh]. set_solver. }
      exists hit'. split; [done|]. eapply marks_sub; [|exact Hm]. set_solver.
    + destruct (Hunder (S k) hit st) as (hit1 & Hu & Hm1); [lia| |].
      { eapply fresh_sub; [|exact Hfresh].
        intros x Hx. apply elem_of_app. left. revmem. }
      replace (k + 1) with (S k) by lia. rewrite Hu. step.
      assert (marks hit hit1 (reverse (sub (S k)) ++ it :: T)) as Hm1'.
      { eapply marks_sub; [|exact Hm1].
        intros x Hx. apply elem_of_app. left. revmem. }
      destruct (walk_back (reverse (sub (S k))) st) as [ok1 st1]. cbn [fst snd].
      destruct ok1; cbn [negb]; [|eauto].
      fold (ends it). destruct (ends it); [eauto|].
      assert (marks hit true (reverse (sub (S k)) ++ it :: T)) as Hmit.
      { intros _. right. exists it. split; [set_solver|done]. }
      destruct (iter it st1) as [[] st2]; cbn [negb]; [|eauto].
      destruct (IH' true st2) as (hit' & -> & Hm).
      { intros _. apply Forall_forall. intros y Hy.
        eapply below_mark; [exact Hover|by apply HTit]. }
      exists hit'. split; [done|]. intros _. by apply Hmit.
Qed.

Lemma iterate_descend_bounded incl h : ∀ fuel n hit st,
  h < fuel → btree lo hi h n → increasing less (inorder n) →
  (incl = true ∨ s = nilPair) → fresh hit (inorder n) →
  ∃ hit', iterate nilPair less iter fuel n descend s e incl hit st =
            Some (hit', (walk_back (reverse (inorder n)) st).1,
                  (walk_back (reverse (inorder n)) st).2) ∧
          marks hit hit' (inorder n).
Proof.
  induction h as [|h IH]; intros fuel n hit st Hfuel Hb Hinc Hincl Hfresh;
    (destruct fuel as [|fuel]; [lia|]); rewrite iterate_S; cbv zeta;
    destruct n as [its cs]; cbn [items children] in *.
  - destruct Hb as [Hcs _]. cbn [children] in Hcs. subst cs.
    rewrite inorder_leaf in *. cbn [length].
    match goal with
    | |- context [descend_loop _ _ _ ?u _ _ _ _ _ _ _] =>
        destruct (descend_bounded_loop u its (λ _, []) incl Hincl
                    (length its) hit st) as (hit' & -> & Hm)
    end.
    { done. }
    { rewrite rev_seq_leaf, firstn_all, reverse_involutive by done. done. }
    { rewrite rev_seq_leaf, firstn_all by done.
      eapply fresh_sub; [|exact Hfresh]. intros x Hx. revmem. }
    { intros j hit0 st0 _ _. cbv beta. rewrite decide_False by lia.
      exists hit0. split; [done|]. intros ?. by left. }
    step.
    rewrite rev_seq_leaf, firstn_all in * by done.
    assert (marks hit hit' its) as Hm'.
    { eapply marks_sub; [|exact Hm]. intros x Hx. revmem. }
    destruct (walk_back (reverse its) st) as [ok1 st1]. cbn [fst snd].
    destruct ok1; cbn [negb]; [|eauto].
    rewrite decide_False by lia. eauto.
  - pose proof Hb as (Hl & _ & Hcs)%btree_internal.
    cbn [items children] in Hl, Hcs.
    assert (∀ c, c ∈ cs → ∀ hit st, fresh hit (inorder c) →
              ∃ hit', iterate nilPair less iter fuel c descend s e incl hit st =
                Some (hit', (walk_back (reverse (inorder c)) st).1,
                      (walk_back (reverse (inorder c)) st).2) ∧
                marks hit hit' (inorder c))
      as Hchild.
    { intros c Hc hit0 st0 Hf. rewrite Forall_forall in Hcs.
      destruct (Hcs c Hc) as [_ Hbc]. apply IH; [lia|done| |done|done].
      by eapply (child_increasing less). }
    destruct cs as [|c0 cs]; [simpl in Hl; lia|].
    assert (rev_seq (sub_of (c0 :: cs)) its (length its) = reverse (post its cs))
      as Erev.
    { rewrite rev_seq_post by lia. rewrite firstn_all.
      change (drop 1 (c0 :: cs)) with cs.
      by rewrite take_ge by (simpl in Hl; lia). }
    rewrite inorder_cons in Hinc, Hfresh.
    pose proof Hinc as (Hinc0 & HincP & Hcross)%(increasing_app less).
    match goal with
    | |- context [descend_loop _ _ _ ?u _ _ _ _ _ _ _] =>
        destruct (descend_bounded_loop u its (sub_of (c0 :: cs)) incl Hincl
                    (length its) hit st) as (hit' & -> & Hm)
    end.
    { done. }
    { by rewrite Erev, reverse_involutive. }
    { rewrite Erev. eapply fresh_sub; [|exact Hfresh].
      intros x Hx. rewrite elem_of_reverse in Hx. set_solver. }
    { intros j hit0 st0 Hj. cbv beta. rewrite decide_True by (simpl; lia).
      destruct (lookup_lt_is_Some_2 (c0 :: cs) j) as [c Hc]; [lia|].
      unfold sub_of. rewrite Hc. step. apply Hchild.
      by eapply list_elem_of_lookup_2. }
    step. rewrite Erev in *.
    rewrite inorder_cons, reverse_app, walk_back_app.
    assert (marks hit hit' (post its cs)) as Hm'.
    { eapply marks_sub; [|exact Hm]. intros x Hx. revmem. }
    destruct (walk_back (reverse (post its cs)) st) as [ok1 st1]. cbn [fst snd].
    destruct ok1; cbn [negb].
    2:{ exists hit'. split; [done|]. eapply marks_sub; [|exact Hm']. set_solver. }
    rewrite !decide_True by (simpl; lia).
    cbn [lookup list_lookup]. step.
    destruct (Hchild c0 ltac:(set_solver) hit' st1) as (hit2 & -> & Hm2).
    { intros Hh. destruct (Hm' Hh) as [Hh0|(v & Hv & Ho)].
      - specialize (Hfresh Hh0). by apply Forall_app in Hfresh as [? _].
      - apply Forall_forall. intros y Hy.
        eapply below_mark; [exact Ho|by apply Hcross]. }
    exists hit2. split; [done|]. intros Hh.
    destruct (Hm2 Hh) as [Hh'|(v & Hv & Ho)].
    + destruct (Hm' Hh') as [?|(v & Hv & Ho)]; [by left|].
      right. exists v. split; [set_solver|done].
    + right. exists v. split; [set_solver|done].
Qed.

(** On a decreasing list the scan visits the items that are neither above
    [s] nor at or below [e]. *)
Lemma walk_back_filter l st :
  increasing less (reverse l) →
  (walk_back l st).2 =
    (feed iter (filter (λ x, negb (over x) && negb (ends x) = true) l) st).2.
Proof.
  revert st. induction l as [|x l IH]; intros st Hl; simpl; [done|].
  rewrite reverse_cons in Hl.
  apply (increasing_app less) in Hl as (Hl & _ & Hx).
  destruct (over x) eqn:Hox; simpl.
  { rewrite filter_cons_False by (by rewrite Hox). by apply IH. }
  destruct (ends x) eqn:Hex; simpl.
  - rewrite filter_cons_False by (by rewrite Hox, Hex).
    rewrite (filter_none (λ y, negb (over y) && negb (ends y) = true)); [done|].
    apply Forall_forall. intros y Hy.
    assert (ends y = true) as ->; [|by rewrite andb_false_r].
    unfold ends in *. apply andb_true_iff in Hex as [-> Hex]. simpl.
    apply negb_true_iff in Hex. apply negb_true_iff.
    destruct (less e y) eqn:Hey; [|done].
    assert (lt less y x) as Hyx.
    { apply Hx; [revmem|set_solver]. }
    by rewrite (less_trans _ SW _ _ _ Hey Hyx) in Hex.
  - rewrite filter_cons_True by (by rewrite Hox, Hex). simpl.
    destruct (iter x st) as [[] st']; [by apply IH|done].
Qed.
End DescendBounded.

Section DescendRanges.
Context {Pair : Type} `{EqDecision Pair}.
Variable nilPair : Pair.
Variable less : Pair → Pair → bool.
Hypothesis SW : StrictWeak less.
Context {St : Type}.
Variable iterator : Pair → St → bool * St.

Implicit Types (l : list Pair) (st : St) (t : @PairTree Pair).

Lemma scan_descend_bounded fuel t s e incl st :
  tree_inv nilPair less t → tree_height t < fuel → (incl = true ∨ s = nilPair) →
  scan nilPair less iterator fuel t descend s e incl st =
    Some (feed iterator
            (filter (λ x, negb (over nilPair less s x) && negb (ends nilPair less e x) = true)
               (reverse (contents t))) st).2.
Proof.
  intros [_ Hinv] Hfuel Hincl. unfold scan, contents, tree_height in *.
  destruct (root t) as [r|]; [|done].
  destruct Hinv as (Hb & _ & Hinc & _).
  destruct (iterate_descend_bounded nilPair less SW iterator _ _ s e incl _
              fuel r false st Hfuel Hb Hinc Hincl) as (hit' & -> & _); [done|].
  cbn. f_equal. apply (walk_back_filter nilPair less SW).
  by rewrite reverse_involutive.
Qed.

(** X17: the descending scans with bounds call the callback, in
    decreasing order and until it returns false, on the items that are
    not above the upper bound and are above the lower bound: the upper
    bound is included, the lower bound is not. *)
Theorem Descend_ranges d t a b fuel st :
  2 ≤ d → built nilPair less d t → enough t ≤ fuel →
  a ≠ nilPair → b ≠ nilPair →
  DescendRange nilPair less iterator fuel t a b st =
    Some (feed iterator
            (filter (λ x, negb (less a x) && less b x = true)
               (reverse (contents t))) st).2 ∧
  DescendLessOrEqual nilPair less iterator fuel t a st =
    Some (feed iterator
            (filter (λ x, less a x = false) (reverse (contents t))) st).2 ∧
  DescendGreaterThan nilPair less iterator fuel t b st =
    Some (feed iterator
            (filter (λ x, less b x = true) (reverse (contents t))) st).2.
Proof.
  intros Hd Hb Hf Ha Hb'. unfold enough in Hf.
  destruct (built_inv nilPair less SW d t Hd Hb) as [Hinv _].
  unfold DescendRange, DescendLessOrEqual, DescendGreaterThan.
  rewrite !scan_descend_bounded by (try done; first [lia | by left | by right]).
  unfold over, ends. rewrite notNil_nil, !notNil_true by done.
  split_and!; do 3 f_equal; apply list_filter_iff; intros x; simpl.
  - by rewrite negb_involutive.
  - rewrite andb_true_r. by rewrite negb_true_iff.
  - by rewrite negb_involutive.
Qed.

(** X18: with the sentinel as the bound, the descending scans are not
    bounded: they call the callback on every item, as Descend does. *)
Theorem Descend_sentinel_pivot d t fuel st :
  2 ≤ d → built nilPair less d t → enough t ≤ fuel →
  DescendLessOrEqual nilPair less iterator fuel t nilPair st =
    Descend nilPair less iterator fuel t st ∧
  DescendGreaterThan nilPair less iterator fuel t nilPair st =
    Descend nilPair less iterator fuel t st ∧
  DescendRange nilPair less iterator fuel t nilPair nilPair st =
    Descend nilPair less iterator fuel t st ∧
  Descend nilPair less iterator fuel t st =
    Some (feed iterator (reverse (contents t)) st).2.
Proof.
  intros Hd Hb Hf. unfold enough in Hf.
  destruct (built_inv nilPair less SW d t Hd Hb) as [Hinv _].
  unfold DescendLessOrEqual, DescendGreaterThan, DescendRange, Descend.
  by rewrite !(scan_descend nilPair less SW) by (try done; lia).
Qed.
End DescendRanges.

(** * The store model: allocation, copies, lookups and clones *)
Section StoreNodes.
Context {Pair : Type} `{EqDecision Pair}.

Notation hnode := (@Store.hnode Pair).
Notation memory := (@Store.memory Pair).
Notation HNode := (@Store.HNode Pair).

Implicit Types (m : memory) (l : Store.loc) (hn : hnode) (c : nat).

(** X19: freeNode leaves a node of another context as it is.  A node of
    the context is cleared and, while the free list holds fewer than 32
    nodes, appended to it, so that the next newNode returns this very
    node, empty and tagged with the context that asked for it. *)
Theorem freeNode_then_newNode m l hn c c' :
  wf m → Store.nodes m !! l = Some hn →
  (Store.h_cow hn ≠ Some c → Store.freeNode (Some c) l m = Some (tt, m)) ∧
  (Store.h_cow hn = Some c →
     ∃ m1, Store.freeNode (Some c) l m = Some (tt, m1) ∧ wf m1 ∧
       Store.nodes m1 = <[l := HNode [] [] None]> (Store.nodes m) ∧
       if decide (length (Store.freelist m) < Store.defaultFreeListSize)
       then Store.freelist m1 = Store.freelist m ++ [l] ∧
            Store.newNode (Some c') m1 =
              Some (l, put l (HNode [] [] (Some c')) (with_free (Store.freelist m) m1))
       else Store.freelist m1 = Store.freelist m).
Proof.
  intros Hwf Hl. split; intros Hc; unfold Store.freeNode; mstep.
  - by rewrite decide_False.
  - rewrite decide_True by done. do 3 mstep. rewrite !put_put.
    assert (l ∉ Store.freelist m) as Hnf.
    { eapply not_free; [done..|]. by rewrite Hc. }
    unfold Store.freeList_freeNode. cbn [Store.freelist put].
    destruct (decide (length (Store.freelist m) < Store.defaultFreeListSize)).
    + eexists. split; [reflexivity|]. destruct Hwf as [Hnd Hfree]. split_and!.
      * split; cbn.
        -- apply NoDup_app. split_and!; [done| |apply NoDup_singleton].
           intros x Hx ->%list_elem_of_singleton. done.
        -- intros x [Hx| ->%list_elem_of_singleton]%elem_of_app.
           ++ rewrite lookup_insert_ne by (by intros ->). by apply Hfree.
           ++ apply lookup_insert_eq.
      * done.
      * done.
      * unfold Store.newNode.
        erewrite run_bind;
          [|unfold Store.freeList_newNode; cbn; rewrite pop_snoc; reflexivity].
        erewrite run_bind; [|apply run_set_cow; cbn; apply lookup_insert_eq].
        done.
    + eexists. split; [reflexivity|]. split_and!; [|done|done].
      apply wf_put; done.
Qed.

(** X20: mutableFor returns the node itself, and changes nothing, when
    the node belongs to the context; otherwise it returns another node,
    one that was free or is new, tagged with the context and holding the
    same items and children, and the node itself stays as it is. *)
Theorem mutableFor_copies m l hn c :
  wf m → Store.nodes m !! l = Some hn → Store.h_cow hn ≠ None →
  ∃ l' m', Store.mutableFor l (Some c) m = Some (l', m') ∧ wf m' ∧
    Store.nodes m' !! l' =
      Some (HNode (Store.h_items hn) (Store.h_children hn) (Some c)) ∧
    Store.nodes m' !! l = Some hn ∧
    (Store.h_cow hn = Some c → l' = l ∧ m' = m) ∧
    (Store.h_cow hn ≠ Some c →
       l' ≠ l ∧ is_new m l' ∧
       ∀ k, k ≠ l' → Store.nodes m' !! k = Store.nodes m !! k).
Proof.
  intros Hwf Hl Hcow. unfold Store.mutableFor. mstep.
  destruct (decide (Store.h_cow hn = Some c)) as [Hc|Hc].
  - exists l, m. split_and!; try done.
    rewrite Hl. f_equal. destruct hn; cbn in *. by subst.
  - destruct (run_newNode c m Hwf) as (out & fl & Hnew & Hout & Hfl & Hnfl).
    mrun Hnew.
    assert (l ≠ out) as Hne.
    { intros ->. by specialize (Hout hn Hl). }
    do 4 mstep. rewrite !put_put.
    eexists out, _. split; [reflexivity|]. split_and!.
    + apply (wf_only_at [out] m); [done| |done|].
      * apply only_at_put; [set_solver|]. by intros ?.
      * by intros x ->%list_elem_of_singleton.
    + apply lookup_put.
    + by rewrite lookup_put_ne.
    + done.
    + intros _. split_and!; [done..|]. intros k Hk. by rewrite lookup_put_ne.
Qed.
End StoreNodes.

Section StoreTrees.
Context {Pair : Type} `{EqDecision Pair}.
Notation hnode := (@Store.hnode Pair).
Notation memory := (@Store.memory Pair).
Notation HNode := (@Store.HNode Pair).
Notation node := (@node Pair).

Implicit Types (m : memory) (l : Store.loc) (hn : hnode) (c : nat) (n : node).
Implicit Types (F : list Store.loc) (dead : gset nat).
Implicit Types (t : @Store.PairTree) (pt : @PairTree Pair).

(** The handle [t] of the store stands for the tree [pt]; [F] are the
    nodes that belong to its context. *)
Definition tree_at dead m t pt F : Prop :=
  Store.degree t = degree pt ∧ Store.t_length t = t_length pt ∧
  match Store.root t, root pt with
  | None, None => F = []
  | Some r, Some n => repr (Store.cow t) dead m n r F
  | _, _ => False
  end.

Lemma repr_freeze c c' dead m : ∀ n l F,
  repr c dead m n l F → repr c' ({[c]} ∪ dead) m n l [] ∨ c' = c.
Proof.
  destruct (decide (c' = c)) as [->|Hne]; [by right|].
  intros n l F Hr. left. revert l F Hr.
  induction n as [its ns IH] using node_induction.
  intros l F (hn & ps & Hl & Hits & Hcs & Hps & Hcow)%repr_inv.
  cbn [children] in Hps.
  apply (repr_node c' _ m _ l hn ((λ p, (p.1, [])) <$> ps) []); try done.
  - rewrite Hcs, <- list_fmap_compose. by apply list_fmap_ext.
  - cbn [children]. apply Forall2_fmap_r.
    eapply Forall2_impl_elem; [exact Hps|].
    rewrite Forall_forall in IH. intros n' [l' F'] Hn' Hp Hr. cbn [fst snd] in *.
    by apply (IH n' Hn' l' F').
  - right. split.
    + destruct Hcow as [[Hc _]|[(c0 & Hc0 & Hd) _]].
      * exists c. split; [done|set_solver].
      * exists c0. split; [done|set_solver].
    + clear. induction ps as [|p ps IHps]; [done|]. by rewrite fmap_cons.
Qed.

Lemma Clone_sim dead m t pt F :
  tree_at dead m t pt F →
  Store.cow t < Store.contexts m → (∀ c, c ∈ dead → c < Store.contexts m) →
  ∃ t1 t2 m',
    Store.Clone t m = Some ((t1, t2), m') ∧
    Store.nodes m' = Store.nodes m ∧ Store.freelist m' = Store.freelist m ∧
    tree_at ({[Store.cow t]} ∪ dead) m' t1 pt [] ∧
    tree_at ({[Store.cow t]} ∪ dead) m' t2 pt [] ∧
    Store.cow t1 ≠ Store.cow t2 ∧
    Store.cow t1 ∉ {[Store.cow t]} ∪ dead ∧ Store.cow t2 ∉ {[Store.cow t]} ∪ dead ∧
    Store.cow t1 < Store.contexts m' ∧ Store.cow t2 < Store.contexts m'.
Proof.
  intros (Hd & Hlen & Hroot) Hc Hdead.
  eexists _, _, _. split; [reflexivity|]. cbn.
  assert (∀ c', Store.contexts m ≤ c' → c' ∉ {[Store.cow t]} ∪ dead) as Hnew.
  { intros c' Hc' [->%elem_of_singleton|Hin%Hdead]%elem_of_union; lia. }
  assert (∀ c', Store.contexts m ≤ c' →
            tree_at ({[Store.cow t]} ∪ dead)
              (Store.Memory (Store.nodes m) (Store.freelist m) (S (S (Store.contexts m))))
              {| Store.degree := Store.degree t; Store.t_length := Store.t_length t;
                 Store.root := Store.root t; Store.cow := c' |} pt []) as Htree.
  { intros c' Hc'. split_and!; [done..|]. cbn.
    destruct (Store.root t) as [r|], (root pt) as [n|]; try done.
    assert (repr (Store.cow t) dead
              (Store.Memory (Store.nodes m) (Store.freelist m) (S (S (Store.contexts m))))
              n r F) as Hr'.
    { eapply repr_frame; [exact Hroot|]. by intros l hn Hl _. }
    destruct (repr_freeze (Store.cow t) c' dead _ n r F Hr') as [?| ->]; [done|lia]. }
  split_and!; [done|done|by apply Htree|apply Htree; lia|lia| | |lia|lia];
    apply Hnew; lia.
Qed.

(** X22: Clone changes no node.  The tree and its clone stand for the
    tree the original stood for, each with a new context of its own; the
    context of the original is left to no tree, so that neither of the
    two owns any node yet. *)
Theorem Clone_shares dead m t pt F :
  tree_at dead m t pt F →
  Store.cow t < Store.contexts m → (∀ c, c ∈ dead → c < Store.contexts m) →
  ∃ t1 t2 m',
    Store.Clone t m = Some ((t1, t2), m') ∧
    Store.nodes m' = Store.nodes m ∧ Store.freelist m' = Store.freelist m ∧
    tree_at ({[Store.cow t]} ∪ dead) m' t1 pt [] ∧
    tree_at ({[Store.cow t]} ∪ dead) m' t2 pt [] ∧
    Store.cow t1 ≠ Store.cow t2 ∧
    Store.cow t1 ∉ {[Store.cow t]} ∪ dead ∧ Store.cow t2 ∉ {[Store.cow t]} ∪ dead ∧
    Store.cow t1 < Store.contexts m' ∧ Store.cow t2 < Store.contexts m'.
Proof. apply Clone_sim. Qed.
End StoreTrees.

Section StoreLookups.
Context {Pair : Type} `{EqDecision Pair}.
Variable nilPair : Pair.
Variable less : Pair → Pair → bool.

Notation hnode := (@Store.hnode Pair).
Notation memory := (@Store.memory Pair).
Notation node := (@node Pair).

Implicit Types (m : memory) (l : Store.loc) (hn : hnode) (c : nat) (n : node).
Implicit Types (F : list Store.loc) (dead : gset nat).
Implicit Types (t : @Store.PairTree) (pt : @PairTree Pair).

Lemma get_repr c dead m key : ∀ fuel n l F,
  repr c dead m n l F →
  Store.get nilPair less m fuel l key = get nilPair less fuel n key.
Proof.
  induction fuel as [|fuel IH]; intros n l F Hr; [done|].
  apply repr_inv in Hr as (hn & ps & Hl & Hits & Hcs & Hps & _).
  cbn [Store.get get]. rewrite Hl. cbn [mbind option_bind].
  rewrite Hits. destruct (find less (items n) key) as [[i found]|]; [|done].
  cbn [mbind option_bind]. destruct found; [done|].
  rewrite Hcs, length_fmap. rewrite <- (Forall2_length _ _ _ Hps).
  destruct (decide (0 < length (children n))); [|done].
  rewrite list_lookup_fmap.
  destruct (children n !! i) as [ci|] eqn:Hci.
  - destruct (Forall2_lookup_l _ _ _ _ _ Hps Hci) as ([li Fi] & Hpi & Hri).
    rewrite Hpi. cbn. by apply (IH ci li Fi).
  - apply lookup_ge_None in Hci.
    rewrite (lookup_ge_None_2 ps i); [done|].
    by rewrite <- (Forall2_length _ _ _ Hps).
Qed.

Lemma Get_tree_at dead m t pt F fuel key :
  tree_at dead m t pt F →
  Store.Get nilPair less m fuel t key = Get nilPair less fuel pt key ∧
  Store.Has nilPair less m fuel t key = Has nilPair less fuel pt key ∧
  Store.Len t = Len pt.
Proof.
  intros (Hd & Hlen & Hroot).
  assert (Store.Get nilPair less m fuel t key = Get nilPair less fuel pt key) as HG.
  { unfold Store.Get, Get.
    destruct (Store.root t) as [r|], (root pt) as [n|]; try done.
    by eapply get_repr. }
  split_and!; [done| |done]. unfold Store.Has, Has. by rewrite HG.
Qed.

(** X21: the lookups on the store are those of the tree the handle
    stands for: Get, Has and Len read the nodes as the tree lists them. *)
Theorem Get_refines dead m t pt F fuel key :
  tree_at dead m t pt F →
  Store.Get nilPair less m fuel t key = Get nilPair less fuel pt key ∧
  Store.Has nilPair less m fuel t key = Has nilPair less fuel pt key ∧
  Store.Len t = Len pt.
Proof. apply Get_tree_at. Qed.
End StoreLookups.

(** * The store model: insertion *)
Section StoreInsert.
Context {Pair : Type} `{EqDecision Pair}.
Notation hnode := (@Store.hnode Pair).
Notation memory := (@Store.memory Pair).
Notation HNode := (@Store.HNode Pair).
Notation node := (@node Pair).

Variable c : nat.
Variable dead : gset nat.
Hypothesis c_alive : c ∉ dead.

Implicit Types (m : memory) (l : Store.loc) (hn : hnode) (n : node).
Implicit Types (F G X : list Store.loc) (ps : list (Store.loc * list Store.loc)).
Implicit Types (ns : list node) (its : list Pair).

(** The nodes of a list of parts. *)
Definition foot l ps : list Store.loc := l :: mjoin ps.*2.

Lemma reprs_length m ns ps : reprs c dead m ns ps → length ps = length ns.
Proof. intros H. symmetry. exact (Forall2_length _ _ _ H). Qed.

Lemma put_comm l l' hn hn' m :
  l ≠ l' → put l hn (put l' hn' m) = put l' hn' (put l hn m).
Proof. intros Hne. unfold put. cbn. by rewrite insert_insert_ne. Qed.

Lemma run_assoc {A B C} (k : @Store.M Pair A) (f : A → @Store.M Pair B)
    (g : B → @Store.M Pair C) m :
  ((k ≫= f) ≫= g) m = (k ≫= (λ x, f x ≫= g)) m.
Proof.
  unfold mbind, Store.M_bind. by destruct (k m) as [[x m1]|].
Qed.

Lemma length_fst ps : length ps.*1 = length ps.
Proof. apply length_fmap. Qed.

Lemma split_sim m l its ns ps i n1 item n2 :
  wf m → onode c dead m l its ns ps →
  split (Node its ns) i = Some (n1, item, n2) →
  ∃ next m' ps1 ps2,
    Store.split l i m = Some ((item, next), m') ∧
    ps = ps1 ++ ps2 ∧
    onode c dead m' l (items n1) (children n1) ps1 ∧
    onode c dead m' next (items n2) (children n2) ps2 ∧
    is_new m next ∧ next ∉ foot l ps ∧ wf m' ∧
    only_at [l; next] m m' ∧
    Store.contexts m' = Store.contexts m.
Proof.
  intros Hwf (Hl & Hps & Hnd) Hsplit.
  pose proof (reprs_length _ _ _ Hps) as Hlen.
  unfold split in Hsplit. cbn [items children] in Hsplit.
  destruct (its !! i) as [item'|] eqn:Hitem; [|done].
  cbn [mbind option_bind] in Hsplit.
  destruct (slice_from its (i + 1)) as [tail|] eqn:Htail; [|done].
  destruct (truncate its i) as [its1|] eqn:Htrunc; [|done].
  cbn [mbind option_bind] in Hsplit.
  destruct (run_newNode c m Hwf) as (next & fl & Hnew & Hnext & Hfl & Hnfl).
  assert (l ≠ next) as Hne.
  { intros ->. by specialize (Hnext _ Hl). }
  assert (next ∉ mjoin ps.*2) as Hfresh.
  { intros Hin. eapply (owned_not_new c); [|exact Hnext].
    by eapply reprs_owned. }
  assert (next ∉ foot l ps) as Hfoot.
  { unfold foot. apply not_elem_of_cons. split; [congruence|done]. }
  assert (∀ (hl hnx : hnode),
            only_at [l; next] m (put l hl (put next hnx (with_free fl m)))) as Hat.
  { intros hl hnx. apply only_at_put; [set_solver|].
    apply only_at_put; [set_solver|]. by intros ?. }
  assert (∀ (hl hnx : hnode), wf (put l hl (put next hnx (with_free fl m)))) as Hwf'.
  { intros hl hnx. apply (wf_only_at [l; next] m); [done|apply Hat|done|].
    intros x Hx. cbn. apply elem_of_cons in Hx as [->|Hx].
    - intros Hin. eapply (not_free m l); [done|exact Hl|by cbn|].
      by eapply elem_of_sublist.
    - apply list_elem_of_singleton in Hx as ->. done. }
  assert (∀ (hl hnx : hnode) ns' ps',
            reprs c dead m ns' ps' → (∀ x, x ∈ mjoin ps'.*2 → x ∈ mjoin ps.*2) →
            reprs c dead (put l hl (put next hnx (with_free fl m))) ns' ps') as Hframe.
  { intros hl hnx ns' ps' Hps' Hsub. eapply reprs_frame; [exact Hps'|].
    apply (only_at_stable dead [l; next]); [apply Hat| |].
    - intros x [->|[->|[]%elem_of_nil]%elem_of_cons]%elem_of_cons Hin.
      + apply NoDup_cons_1_1 in Hnd. by apply Hnd, Hsub.
      + by apply Hfresh, Hsub.
    - intros x hn' [->|[->|[]%elem_of_nil]%elem_of_cons]%elem_of_cons Hx.
      + rewrite Hl in Hx. injection Hx as <-.
        intros (c' & Hc' & Hd). cbn in Hc'. congruence.
      + eapply new_not_frozen; [exact Hnext|exact Hx]. }
  unfold Store.split. do 3 mstep. mrun Hnew.
  do 7 mstep. rewrite app_nil_l.
  unfold slice_from in Htail. unfold truncate in Htrunc.
  destruct (decide (i + 1 ≤ length its)); [|done].
  destruct (decide (i ≤ length its)); [|done].
  injection Htail as <-. injection Htrunc as <-.
  mstep. rewrite length_fst, Hlen.
  destruct (decide (0 < length ns)) as [Hns|Hns].
  - destruct (slice_from ns (i + 1)) as [ns2|] eqn:Hns2; [|done].
    destruct (truncate ns (i + 1)) as [ns1|] eqn:Hns1; [|done].
    cbn [mbind option_bind] in Hsplit. injection Hsplit as <- <- <-.
    unfold slice_from in Hns2. unfold truncate in Hns1.
    destruct (decide (i + 1 ≤ length ns)); [|done].
    injection Hns2 as <-. injection Hns1 as <-.
    assert (slice_from ps.*1 (i + 1) = Some (drop (i + 1) ps.*1)) as Hs1.
    { unfold slice_from. rewrite decide_True; [done|]. rewrite length_fst. lia. }
    assert (truncate ps.*1 (i + 1) = Some (take (i + 1) ps.*1)) as Hs2.
    { unfold truncate. rewrite decide_True; [done|]. rewrite length_fst. lia. }
    do 6 (rewrite ?run_assoc; mstep). rewrite !put_put, app_nil_l.
    rewrite (put_comm next l) by done. rewrite !put_put.
    exists next. eexists. exists (take (i + 1) ps), (drop (i + 1) ps).
    split; [reflexivity|]. cbn [items children].
    rewrite <- !fmap_take, <- !fmap_drop.
    pose proof Hnd as HndF%NoDup_cons_1_2.
    rewrite <- (take_drop (i + 1) ps) in HndF at 1.
    rewrite fmap_app, join_app in HndF.
    apply NoDup_app in HndF as (Hnd1 & Hnd12 & Hnd2).
    assert (∀ x, x ∈ mjoin (take (i + 1) ps).*2 → x ∈ mjoin ps.*2) as Hsub1.
    { intros x Hx. rewrite <- (take_drop (i + 1) ps), fmap_app, join_app. set_solver. }
    assert (∀ x, x ∈ mjoin (drop (i + 1) ps).*2 → x ∈ mjoin ps.*2) as Hsub2.
    { intros x Hx. rewrite <- (take_drop (i + 1) ps), fmap_app, join_app. set_solver. }
    split_and!.
    + by rewrite take_drop.
    + split_and!; [apply lookup_put| |].
      * apply Hframe; [by apply Forall2_take|done].
      * apply NoDup_cons. split; [|done].
        apply NoDup_cons_1_1 in Hnd. intros Hin. by apply Hnd, Hsub1.
    + split_and!; [rewrite lookup_put_ne by done; apply lookup_put| |].
      * apply Hframe; [by apply Forall2_drop|done].
      * apply NoDup_cons. split; [|done]. intros Hin. by apply Hfresh, Hsub2.
    + done.
    + done.
    + apply Hwf'.
    + apply Hat.
    + done.
  - injection Hsplit as <- <- <-.
    assert (ns = []) as -> by (destruct ns; [done|simpl in Hns; lia]).
    assert (ps = []) as -> by (destruct ps; [done|simpl in Hlen; lia]).
    erewrite run_bind; [|apply run_ret]. rewrite !put_put.
    exists next. eexists. exists [], [].
    split; [reflexivity|]. cbn [items children].
    split_and!; first [done | apply Hwf' | apply Hat | idtac].
    all: split_and!;
      [first [apply lookup_put | rewrite lookup_put_ne by done; apply lookup_put]
      |constructor|apply NoDup_singleton].
Qed.

Lemma join_parts_app ps1 ps2 :
  mjoin (ps1 ++ ps2).*2 = mjoin ps1.*2 ++ mjoin ps2.*2.
Proof. by rewrite fmap_app, join_app. Qed.

Lemma join_cons_parts (F : list Store.loc) (Fs : list (list Store.loc)) :
  mjoin (F :: Fs) = F ++ mjoin Fs.
Proof. done. Qed.

Lemma NoDup_app_assoc_parts (A F B : list Store.loc) :
  NoDup (A ++ F ++ B) →
  NoDup A ∧ (∀ x, x ∈ A → x ∉ F ++ B) ∧ NoDup F ∧ (∀ x, x ∈ F → x ∉ B) ∧ NoDup B.
Proof.
  intros (HA & HAFB & (HF & HFB & HB)%NoDup_app)%NoDup_app. done.
Qed.

Lemma child_part m ns ps i ni :
  reprs c dead m ns ps → NoDup (mjoin ps.*2) → ns !! i = Some ni →
  ∃ li Fi, ps !! i = Some (li, Fi) ∧ repr c dead m ni li Fi ∧ NoDup Fi ∧
    ∀ x, x ∈ Fi → x ∈ mjoin ps.*2.
Proof.
  intros Hps Hnd Hni.
  destruct (Forall2_lookup_l _ _ _ _ _ Hps Hni) as ([li Fi] & Hpi & Hri).
  exists li, Fi. split_and!; [done..| |].
  - rewrite (parts_middle ps i _ Hpi) in Hnd. cbn [snd] in Hnd.
    by apply NoDup_app in Hnd as (_ & _ & (? & _)%NoDup_app).
  - intros x Hx. rewrite (parts_middle ps i _ Hpi). cbn [snd]. set_solver.
Qed.

Lemma maybeSplitChild_sim m l its ns ps i maxPairs n' b :
  wf m → onode c dead m l its ns ps →
  maybeSplitChild (Node its ns) i maxPairs = Some (n', b) →
  ∃ m' ps',
    Store.maybeSplitChild l i maxPairs m = Some (b, m') ∧
    onode c dead m' l (items n') (children n') ps' ∧ wf m' ∧
    keeps (foot l ps) m m' ∧ grows (foot l ps) (foot l ps') m ∧
    Store.contexts m' = Store.contexts m.
Proof.
  intros Hwf Hon Hpure. pose proof Hon as (Hl & Hps & Hnd).
  pose proof (reprs_length _ _ _ Hps) as Hlen.
  unfold maybeSplitChild in Hpure. cbn [items children] in Hpure.
  destruct (ns !! i) as [ci|] eqn:Hci; [|done].
  cbn [mbind option_bind] in Hpure.
  pose proof (lookup_lt_Some _ _ _ Hci) as Hi.
  destruct (child_part m ns ps i ci Hps ltac:(by apply NoDup_cons_1_2 in Hnd) Hci)
    as (li0 & Fi0 & Hpi & Hri & HndFi0 & HsubFi0).
  pose proof Hri as (hn0 & ps0 & Hl0 & Hits0 & _)%repr_inv.
  assert (ps.*1 !! i = Some li0) as Hci' by (by rewrite list_lookup_fmap, Hpi).
  unfold Store.maybeSplitChild. do 3 mstep. rewrite Hits0.
  destruct (decide (length (items ci) < maxPairs)).
  { injection Hpure as <- <-. exists m, ps. split; [done|].
    split_and!; [done|done|apply keeps_refl|apply grows_refl|done]. }
  unfold mutableChild in Hpure. cbn [children] in Hpure. rewrite Hci in Hpure.
  cbn [mbind option_bind] in Hpure.
  destruct (split ci (maxPairs `div` 2)) as [[[first' item] second]|] eqn:Hsp; [|done].
  destruct first' as [fits fns], second as [sits sns].
  set (first' := Node fits fns) in *. set (second := Node sits sns) in *.
  cbn [mbind option_bind] in Hpure.
  destruct (store ns i first') as [ns1|] eqn:Hst; [|done].
  cbn [mbind option_bind] in Hpure.
  destruct (insertAt its i item) as [its'|] eqn:Hia; [|done].
  cbn [mbind option_bind] in Hpure.
  destruct (insertAt ns1 (i + 1) second) as [ns2|] eqn:Hib; [|done].
  cbn [mbind option_bind] in Hpure. injection Hpure as <- <-.
  cbn [items children].
  destruct (mutableChild_sim c dead c_alive m l its ns ps i Hwf Hon Hi)
    as (li & Fi & m1 & Hrun1 & Hon1 & Hown1 & Hwf1 & Hk1 & Hg1 & Hctx1).
  mrun Hrun1.
  pose proof Hon1 as (Hl1 & Hps1 & Hnd1).
  assert (<[i := (li, Fi)]> ps !! i = Some (li, Fi)) as Hpi1.
  { apply list_lookup_insert_eq. lia. }
  destruct (child_part m1 ns _ i ci Hps1 ltac:(by apply NoDup_cons_1_2 in Hnd1) Hci)
    as (li' & Fi' & Hpi' & Hri1 & HndFi & HsubFi).
  rewrite Hpi1 in Hpi'. injection Hpi' as <- <-.
  destruct (repr_onode c dead c_alive m1 ci li Fi Hri1 Hown1 HndFi) as (psi & Honi & HFi).
  destruct ci as [cits cns]. cbn [items children] in *.
  destruct (split_sim m1 li cits cns psi _ first' item second Hwf1 Honi Hsp)
    as (next & m2 & pa & pb & Hrun2 & Hpsi & Hona & Honb & Hnew & Hnfoot &
        Hwf2 & Hat2 & Hctx2).
  mrun Hrun2.
  (* the node l is untouched by the split *)
  assert (l ≠ li) as Hlli.
  { intros <-. apply NoDup_cons_1_1 in Hnd1. apply Hnd1, HsubFi.
    rewrite HFi. by left. }
  assert (l ≠ next) as Hlnext.
  { intros <-. by specialize (Hnew _ Hl1). }
  assert (Store.nodes m2 !! l = Some (HNode its (<[i := (li, Fi)]> ps).*1 (Some c)))
    as Hl2.
  { rewrite Hat2; [done|]. set_solver. }
  unfold store in Hst. destruct (decide (i < length ns)); [|lia].
  injection Hst as <-.
  unfold insertAt in Hib. rewrite length_insert in Hib.
  destruct (decide (i + 1 ≤ length ns)); [|lia]. injection Hib as <-.
  assert (insertAt (<[i := (li, Fi)]> ps).*1 (i + 1) next =
          Some (take (i + 1) (<[i := (li, Fi)]> ps).*1 ++
                next :: drop (i + 1) (<[i := (li, Fi)]> ps).*1)) as Hic.
  { unfold insertAt. rewrite decide_True; [done|].
    rewrite length_fst, length_insert. lia. }
  do 6 mstep. rewrite !put_put.
  set (ps' := take i ps ++ (li, foot li pa) :: (next, foot next pb) :: drop (S i) ps).
  assert (take (i + 1) (<[i := (li, Fi)]> ps).*1 ++
            next :: drop (i + 1) (<[i := (li, Fi)]> ps).*1 = ps'.*1) as Hcs.
  { unfold ps'. rewrite fmap_app, !fmap_cons, fmap_take, fmap_drop. cbn [fst].
    rewrite list_fmap_insert. cbn [fst].
    replace (i + 1) with (S i) by lia.
    rewrite take_insert_lt by lia. rewrite drop_insert_lt by lia.
    rewrite (take_S_r _ i li0) by done.
    rewrite insert_app_r_alt by (rewrite length_take, length_fst; lia).
    rewrite length_take, length_fst.
    replace (i - i `min` length ps) with 0 by lia. cbn.
    by rewrite <- app_assoc. }
  rewrite Hcs.
  assert (take (i + 1) (<[i := first']> ns) ++ second :: drop (i + 1) (<[i := first']> ns) =
          take i ns ++ first' :: second :: drop (S i) ns) as Hns'.
  { replace (i + 1) with (S i) by lia.
    rewrite take_insert_lt by lia. rewrite drop_insert_lt by lia.
    rewrite (take_S_r _ i (Node cits cns)) by done.
    rewrite insert_app_r_alt by (rewrite length_take; lia).
    rewrite length_take.
    replace (i - i `min` length ns) with 0 by lia. cbn.
    by rewrite <- app_assoc. }
  rewrite Hns'.
  set (m3 := put l (HNode its' ps'.*1 (Some c)) m2).
  exists m3, ps'. split; [done|].
  set (A := mjoin (take i ps).*2). set (B := mjoin (drop (S i) ps).*2).
  assert (mjoin (<[i := (li, Fi)]> ps).*2 = A ++ Fi ++ B) as Hf1.
  { by rewrite (parts_insert ps i _ (li, Fi) Hpi). }
  assert (mjoin ps'.*2 = A ++ (foot li pa ++ foot next pb) ++ B) as Hf'.
  { unfold ps'. rewrite join_parts_app, !fmap_cons. cbn [snd].
    rewrite !join_cons_parts. by rewrite <- !app_assoc. }
  assert (Fi = li :: mjoin pa.*2 ++ mjoin pb.*2) as HFi'.
  { by rewrite HFi, Hpsi, join_parts_app. }
  assert (∀ x, x ∈ foot li pa ++ foot next pb ↔ x = next ∨ x ∈ Fi) as Hmid.
  { intros x. rewrite HFi'. unfold foot. set_solver. }
  assert (next ∉ A ++ Fi ++ B) as Hnext1.
  { rewrite <- Hf1. intros Hin. eapply (owned_not_new c); [|exact Hnew].
    by eapply reprs_owned. }
  assert (li ∈ Fi) as HliFi by (rewrite HFi; by left).
  pose proof Hnd1 as [HlF HndF]%NoDup_cons. rewrite Hf1 in HlF, HndF.
  pose proof HndF as (HndA & HAFB & _ & HFB & HndB)%NoDup_app_assoc_parts.
  assert (NoDup (foot li pa ++ foot next pb)) as HndMid.
  { unfold foot. pose proof HndFi as HndFi2. rewrite HFi' in HndFi2.
    apply NoDup_cons in HndFi2 as [HliAB HndAB].
    apply NoDup_app in HndAB as (HA & HAB & HB).
    assert (next ∉ Fi) as HnF by set_solver.
    rewrite HFi' in HnF.
    apply NoDup_cons. split.
    - rewrite elem_of_app, elem_of_cons. intros [?|[->|?]]; set_solver.
    - apply NoDup_app. split_and!; [done| |].
      + intros x Hx [->|Hx']%elem_of_cons; [set_solver|by apply (HAB x)].
      + apply NoDup_cons. split; [set_solver|done]. }
  assert (NoDup (foot l ps')) as Hnd'.
  { unfold foot. rewrite Hf'. apply NoDup_cons. split.
    - intros [Hin|[Hin|Hin]%elem_of_app]%elem_of_app.
      + apply HlF. set_solver.
      + apply Hmid in Hin as [->|Hin]; [done|]. apply HlF. set_solver.
      + apply HlF. set_solver.
    - eapply NoDup_replace with (Fi := Fi); [done|done|done|].
      intros x [->|Hx]%Hmid; [right|by left]. set_solver. }
  assert (only_at [l; li; next] m1 m3) as Hat13.
  { unfold m3. apply only_at_put; [set_solver|].
    intros x Hx. apply Hat2. set_solver. }
  assert (only_at [l] m2 m3) as Hat23.
  { unfold m3. apply only_at_put; [set_solver|apply only_at_refl]. }
  assert (∀ x hn, x ∈ [l; li; next] → Store.nodes m1 !! x = Some hn →
            ¬ frozen dead hn) as Hnfr.
  { intros x hn [->|[->|[->|[]%elem_of_nil]%elem_of_cons]%elem_of_cons]%elem_of_cons Hx.
    - eapply (owned_not_frozen c dead c_alive); [|exact Hx]. by eapply onode_owned.
    - by eapply (owned_not_frozen c dead c_alive).
    - by eapply new_not_frozen. }
  assert (∀ X, (∀ x, x ∈ X → x ∈ A ∨ x ∈ B) → stable dead X m1 m3) as Hsib.
  { intros X HX. apply (only_at_stable dead [l; li; next] X m1 m3 Hat13); [|done].
    intros x [->|[->|[->|[]%elem_of_nil]%elem_of_cons]%elem_of_cons]%elem_of_cons HxX;
      destruct (HX _ HxX); set_solver. }
  assert (∀ X, l ∉ X → stable dead X m2 m3) as Hhalf.
  { intros X HX. apply (only_at_stable dead [l] X m2 m3 Hat23).
    - by intros x ->%list_elem_of_singleton.
    - intros x hn ->%list_elem_of_singleton Hx. rewrite Hl2 in Hx.
      injection Hx as <-. intros (c' & Hc' & Hd). cbn in Hc'. congruence. }
  assert (reprs c dead m3 (take i ns ++ first' :: second :: drop (S i) ns) ps') as Hps'.
  { unfold ps'. apply Forall2_app; [|constructor; [|constructor]].
    - eapply reprs_frame.
      + apply Forall2_take with (n := i) in Hps1.
        rewrite take_insert_ge in Hps1 by lia. exact Hps1.
      + apply Hsib. intros x Hx. by left.
    - cbn [fst snd]. eapply repr_frame; [apply (onode_repr c dead), Hona|].
      apply Hhalf. intros Hin. apply HlF.
      apply elem_of_app. right. apply elem_of_app. left. rewrite HFi'.
      clear -Hin. unfold foot in Hin. set_solver.
    - cbn [fst snd]. eapply repr_frame; [apply (onode_repr c dead), Honb|].
      apply Hhalf. intros Hin.
      assert (l ∈ foot li pa ++ foot next pb) as [->|HinF]%Hmid by set_solver; [done|].
      apply HlF. set_solver.
    - eapply reprs_frame.
      + apply Forall2_drop with (n := S i) in Hps1.
        rewrite drop_insert_lt in Hps1 by lia. exact Hps1.
      + apply Hsib. intros x Hx. by right. }
  split_and!.
  - split_and!; [apply lookup_put|exact Hps'|exact Hnd'].
  - apply wf_put; [done|]. eapply not_free; [exact Hwf2|exact Hl2|done].
  - eapply keeps_trans; [exact Hk1|exact Hg1|].
    apply (only_at_keeps [l; li; next]); [done|].
    intros x [->|[->|[->|[]%elem_of_nil]%elem_of_cons]%elem_of_cons]%elem_of_cons.
    + left. by left.
    + left. right. rewrite Hf1. set_solver.
    + by right.
  - eapply grows_trans; [exact Hg1|exact Hk1|].
    intros x Hx. unfold foot in Hx. rewrite Hf' in Hx.
    apply elem_of_cons in Hx as [->|[Hx|[Hx|Hx]%elem_of_app]%elem_of_app].
    + left. by left.
    + left. right. rewrite Hf1. set_solver.
    + apply Hmid in Hx as [->|Hx]; [by right|]. left. right. rewrite Hf1. set_solver.
    + left. right. rewrite Hf1. set_solver.
  - cbn. congruence.
Qed.
End StoreInsert.

(** * The store model: insertion (continued) *)
Section StoreInsertNode.
Context {Pair : Type} `{EqDecision Pair}.
Variable nilPair : Pair.
Variable less : Pair → Pair → bool.

Notation hnode := (@Store.hnode Pair).
Notation memory := (@Store.memory Pair).
Notation HNode := (@Store.HNode Pair).
Notation node := (@node Pair).

Variable c : nat.
Variable dead : gset nat.
Hypothesis c_alive : c ∉ dead.

Implicit Types (m : memory) (l : Store.loc) (hn : hnode) (n : node).
Implicit Types (F G X : list Store.loc) (ps : list (Store.loc * list Store.loc)).
Implicit Types (ns : list node) (its : list Pair).

Lemma onode_result m l its ns ps :
  wf m → onode c dead m l its ns ps →
  result c dead m (foot l ps) (Node its ns) l m (foot l ps).
Proof.
  intros Hwf Hon. pose proof Hon as (Hl & Hps & Hnd).
  split_and!; [by apply (onode_repr c dead)|done|by eapply onode_owned|done
              |apply keeps_refl|apply grows_refl|done].
Qed.

(** Writing the items of a node of the context. *)
Lemma put_result m l its its' ns ps :
  wf m → onode c dead m l its ns ps →
  result c dead m (foot l ps) (Node its' ns) l
    (put l (HNode its' ps.*1 (Some c)) m) (foot l ps).
Proof.
  intros Hwf (Hl & Hps & Hnd).
  assert (onode c dead (put l (HNode its' ps.*1 (Some c)) m) l its' ns ps) as Hon'.
  { eapply (onode_put c dead c_alive); [exact Hl| |done|done].
    intros (c' & Hc' & Hd). cbn in Hc'. congruence. }
  split_and!.
  - by apply (onode_repr c dead).
  - done.
  - by eapply onode_owned.
  - apply wf_put; [done|]. eapply not_free; [done|exact Hl|done].
  - apply (only_at_keeps [l]).
    + apply only_at_put; [set_solver|apply only_at_refl].
    + intros x ->%list_elem_of_singleton. left. by left.
  - apply grows_refl.
  - done.
Qed.

Lemma result_trans m m1 m' F F1 F' n' l :
  keeps F m m1 → grows F F1 m → Store.contexts m1 = Store.contexts m →
  result c dead m1 F1 n' l m' F' → result c dead m F n' l m' F'.
Proof.
  intros Hk Hg Hctx (Hr & Hnd & Hown & Hwf & Hk' & Hg' & Hctx').
  split_and!; [done..| | |congruence].
  - by eapply keeps_trans.
  - by eapply grows_trans.
Qed.

Section Descend.
Variables (fuel maxPairs : nat) (item : Pair).
Hypothesis IH : ∀ m l n F out n',
  wf m → repr c dead m n l F → owned c m l → NoDup F →
  insert nilPair less fuel n item maxPairs = Some (out, n') →
  ∃ m' F', Store.insert nilPair less fuel l item maxPairs m = Some (out, m') ∧
    result c dead m F n' l m' F'.

Lemma descend_sim m l its ns ps j out n' :
  wf m → onode c dead m l its ns ps →
  (cj ← mutableChild (Node its ns) j;
   '(out, cj') ← insert nilPair less fuel cj item maxPairs;
   n_children ← store ns j cj';
   Some (out, Node its n_children)) = Some (out, n') →
  ∃ m' F',
    (cj ← Store.mutableChild l j;
     Store.insert nilPair less fuel cj item maxPairs) m = Some (out, m') ∧
    result c dead m (foot l ps) n' l m' F'.
Proof.
  intros Hwf Hon Hpure. unfold mutableChild in Hpure. cbn [children] in Hpure.
  destruct (ns !! j) as [cj|] eqn:Hcj; [|done].
  cbn [mbind option_bind] in Hpure.
  destruct (insert nilPair less fuel cj item maxPairs) as [[out' cj']|] eqn:Hins;
    [|done].
  cbn [mbind option_bind] in Hpure.
  pose proof (lookup_lt_Some _ _ _ Hcj) as Hj.
  unfold store in Hpure. rewrite decide_True in Hpure by done.
  cbn [mbind option_bind] in Hpure. injection Hpure as -> <-.
  destruct (mutableChild_sim c dead c_alive m l its ns ps j Hwf Hon Hj)
    as (lj & Fj & m2 & Hrun2 & Hon2 & Hown2 & Hwf2 & Hk2 & Hg2 & Hctx2).
  mrun Hrun2.
  pose proof Hon2 as (Hl2 & Hps2 & Hnd2).
  pose proof (Forall2_length _ _ _ Hps2) as Hlen2.
  assert (<[j := (lj, Fj)]> ps !! j = Some (lj, Fj)) as Hpj.
  { apply list_lookup_insert_eq. rewrite length_insert in Hlen2. lia. }
  destruct (child_part c dead c_alive m2 ns _ j cj Hps2
              ltac:(by apply NoDup_cons_1_2 in Hnd2) Hcj)
    as (lj' & Fj' & Hpj' & Hrj & HndFj & HsubFj).
  rewrite Hpj in Hpj'. injection Hpj' as <- <-.
  destruct (IH m2 lj cj Fj out cj' Hwf2 Hrj Hown2 HndFj Hins)
    as (m3 & Fj' & Hrun3 & Hr3 & Hnd3 & Hown3 & Hwf3 & Hk3 & Hg3 & Hctx3).
  exists m3. eexists. split; [exact Hrun3|].
  pose proof (onode_child c dead c_alive m2 m3 l its ns _ j lj Fj cj' Fj'
                Hon2 Hpj Hk3 Hg3 Hr3 Hnd3) as Hon3.
  rewrite list_insert_insert_eq in Hon3.
  eapply result_trans; [exact Hk2|exact Hg2|exact Hctx2|].
  pose proof Hon3 as (Hl3 & Hps3 & Hndf3).
  split_and!.
  - by apply (onode_repr c dead).
  - done.
  - by eapply onode_owned.
  - done.
  - eapply keeps_mono; [exact Hk3|]. intros x Hx. right. by apply HsubFj.
  - destruct (lookup_lt_is_Some_2 ps j) as [p0 Hp0].
    { rewrite length_insert in Hlen2. lia. }
    intros x Hx. unfold foot in *.
    rewrite (parts_insert ps j _ (lj, Fj') Hp0) in Hx. cbn [snd] in Hx.
    rewrite (parts_insert ps j _ (lj, Fj) Hp0). cbn [snd].
    rewrite !elem_of_cons, !elem_of_app in Hx.
    rewrite !elem_of_cons, !elem_of_app.
    destruct Hx as [?|[?|[Hx|?]]]; [tauto|tauto| |tauto].
    destruct (Hg3 x Hx) as [?|?]; [tauto|by right].
  - done.
Qed.
End Descend.

Lemma insert_sim maxPairs item : ∀ fuel m l n F out n',
  wf m → repr c dead m n l F → owned c m l → NoDup F →
  insert nilPair less fuel n item maxPairs = Some (out, n') →
  ∃ m' F', Store.insert nilPair less fuel l item maxPairs m = Some (out, m') ∧
    result c dead m F n' l m' F'.
Proof.
  induction fuel as [|fuel IH]; intros m l n F out n' Hwf Hr Hown Hnd Hpure; [done|].
  destruct (repr_onode c dead c_alive m n l F Hr Hown Hnd) as (ps & Hon & ->).
  destruct n as [its ns]. cbn [items children] in Hon.
  pose proof Hon as (Hl & Hps & Hndf).
  pose proof (Forall2_length _ _ _ Hps) as Hlen.
  cbn [insert] in Hpure. cbn [items children] in Hpure. cbv zeta in Hpure.
  destruct (find less its item) as [[i found]|] eqn:Hfind; [|done].
  cbn [mbind option_bind] in Hpure.
  cbn [Store.insert]. cbv zeta. do 2 mstep.
  destruct found.
  - destruct (its !! i) as [o|] eqn:Ho; [|done].
    cbn [mbind option_bind] in Hpure.
    destruct (store its i item) as [its'|] eqn:Hst; [|done].
    cbn [mbind option_bind] in Hpure. injection Hpure as <- <-.
    do 3 mstep. eexists _, _. split; [reflexivity|]. by eapply put_result.
  - mstep. rewrite length_fmap, <- Hlen.
    destruct (decide (length ns = 0)) as [Hleaf|Hint].
    + destruct (insertAt its i item) as [its'|] eqn:Hia; [|done].
      cbn [mbind option_bind] in Hpure. injection Hpure as <- <-.
      do 2 mstep. eexists _, _. split; [reflexivity|]. by eapply put_result.
    + destruct (maybeSplitChild (Node its ns) i maxPairs) as [[n1 didSplit]|] eqn:Hms;
        [|done].
      cbn [mbind option_bind] in Hpure.
      destruct (maybeSplitChild_sim c dead c_alive m l its ns ps i maxPairs n1 didSplit
                  Hwf Hon Hms)
        as (m1 & ps1 & Hrun1 & Hon1 & Hwf1 & Hk1 & Hg1 & Hctx1).
      mrun Hrun1. destruct n1 as [its1 ns1]. cbn [items children] in *.
      assert (∀ j,
        (cj ← mutableChild (Node its1 ns1) j;
         '(out, cj') ← insert nilPair less fuel cj item maxPairs;
         n_children ← store ns1 j cj';
         Some (out, Node its1 n_children)) = Some (out, n') →
        ∃ m' F',
          (cj ← Store.mutableChild l j;
           Store.insert nilPair less fuel cj item maxPairs) m1 = Some (out, m') ∧
          result c dead m (foot l ps) n' l m' F') as Hdesc.
      { intros j Hj.
        destruct (descend_sim fuel maxPairs item IH m1 l its1 ns1 ps1 j out n'
                    Hwf1 Hon1 Hj) as (m' & F' & Hrun & Hres).
        exists m', F'. split; [done|]. by eapply result_trans. }
      destruct didSplit; [|by apply Hdesc].
      pose proof Hon1 as (Hl1 & _).
      destruct (its1 !! i) as [inTree|] eqn:HinT; [|done].
      cbn [mbind option_bind] in Hpure.
      do 2 mstep.
      destruct (less item inTree); [by apply Hdesc|].
      destruct (less inTree item); [by apply Hdesc|].
      destruct (store its1 i item) as [its'|] eqn:Hst; [|done].
      cbn [mbind option_bind] in Hpure. injection Hpure as <- <-.
      do 3 mstep. eexists _, _. split; [reflexivity|].
      eapply result_trans; [exact Hk1|exact Hg1|exact Hctx1|].
      by eapply put_result.
Qed.
End StoreInsertNode.

(** * The store model: insertion into a tree *)
Section StoreInsertTree.
Context {Pair : Type} `{EqDecision Pair}.
Notation hnode := (@Store.hnode Pair).
Notation memory := (@Store.memory Pair).
Notation HNode := (@Store.HNode Pair).
Notation node := (@node Pair).

Variable c : nat.
Variable dead : gset nat.
Hypothesis c_alive : c ∉ dead.

Implicit Types (m : memory) (l : Store.loc) (hn : hnode) (n : node).
Implicit Types (F G X : list Store.loc) (ps : list (Store.loc * list Store.loc)).
Implicit Types (ns : list node) (its : list Pair).

(** A new root above a root that was split. *)
Lemma grow_root_sim m r its ns ps i n1 item2 n2 :
  wf m → onode c dead m r its ns ps →
  split (Node its ns) i = Some (n1, item2, n2) →
  ∃ top m' ps',
    ('(item2, second) ← Store.split r i;
     top ← Store.newNode (Some c);
     its ← Store.get_items top; Store.set_items top (its ++ [item2]);;
     cs ← Store.get_children top; Store.set_children top (cs ++ [r; second]);;
     mret top) m = Some (top, m') ∧
    onode c dead m' top [item2] [n1; n2] ps' ∧ wf m' ∧
    keeps (foot r ps) m m' ∧ grows (foot r ps) (foot top ps') m ∧
    Store.contexts m' = Store.contexts m.
Proof.
  intros Hwf Hon Hsp. pose proof Hon as (Hr & Hps & Hnd).
  destruct n1 as [its1 ns1], n2 as [its2 ns2].
  destruct (split_sim c dead c_alive m r its ns ps i _ item2 _ Hwf Hon Hsp)
    as (next & m2 & pa & pb & Hrun2 & Hpsi & Hona & Honb & Hnew & Hnfoot &
        Hwf2 & Hat2 & Hctx2).
  cbn [items children] in Hona, Honb.
  mrun Hrun2.
  destruct (run_newNode c m2 Hwf2) as (top & fl & Hrun3 & Htop & Hfl & Hnfl).
  mrun Hrun3. do 4 mstep. rewrite !put_put, !app_nil_l.
  set (m4 := put top (HNode [item2] [r; next] (Some c)) (with_free fl m2)).
  set (ps' := [(r, foot r pa); (next, foot next pb)]).
  exists top, m4, ps'. split; [done|].
  assert (top ≠ r) as Htr.
  { intros ->. eapply (owned_not_new c); [|exact Htop]. by eapply onode_owned. }
  assert (top ≠ next) as Htn.
  { intros ->. eapply (owned_not_new c); [|exact Htop]. by eapply onode_owned. }
  assert (r ≠ next) as Hrn.
  { intros ->. apply Hnfoot. by left. }
  assert (is_new m top) as Htop0.
  { intros hn Hx. apply Htop. rewrite Hat2; [done|]. set_solver. }
  assert (only_at [top] m2 m4) as Hat24.
  { unfold m4. apply only_at_put; [set_solver|]. by intros ?. }
  assert (only_at [r; next; top] m m4) as Hat04.
  { intros x Hx. rewrite Hat24 by set_solver. apply Hat2. set_solver. }
  assert (mjoin ps.*2 = mjoin pa.*2 ++ mjoin pb.*2) as Hf.
  { by rewrite Hpsi, join_parts_app. }
  assert (∀ x, x ∈ foot r pa ++ foot next pb → x = next ∨ x ∈ foot r ps) as Hmid.
  { intros x. unfold foot. rewrite Hf.
    rewrite !elem_of_app, !elem_of_cons, !elem_of_app. tauto. }
  assert (top ∉ foot r pa ++ foot next pb) as Htopf.
  { intros [->|Hin]%Hmid; [done|].
    eapply (owned_not_new c); [|exact Htop0].
    apply elem_of_cons in Hin as [->|Hin]; [by eapply onode_owned|].
    by eapply reprs_owned. }
  assert (NoDup (foot r pa ++ foot next pb)) as HndMid.
  { unfold foot in *. rewrite Hf in Hnd, Hnfoot.
    apply NoDup_cons in Hnd as [HrAB HndAB].
    apply NoDup_app in HndAB as (HA & HAB & HB).
    rewrite not_elem_of_cons, not_elem_of_app in Hnfoot.
    rewrite not_elem_of_app in HrAB.
    apply NoDup_app. split_and!.
    - apply NoDup_cons. split; [tauto|done].
    - intros x [->|Hx]%elem_of_cons [->|Hx']%elem_of_cons; try tauto.
      by apply (HAB x).
    - apply NoDup_cons. split; [tauto|done]. }
  assert (∀ X, top ∉ X → stable dead X m2 m4) as Hst.
  { intros X HX. apply (only_at_stable dead [top] X m2 m4 Hat24).
    - by intros x ->%list_elem_of_singleton.
    - intros x hn ->%list_elem_of_singleton Hx.
      eapply new_not_frozen; [exact Htop|exact Hx]. }
  split_and!.
  - split_and!.
    + apply lookup_put.
    + unfold ps'. constructor; [|constructor; [|constructor]]; cbn [fst snd].
      * eapply repr_frame; [apply (onode_repr c dead), Hona|].
        apply Hst. intros Hin. apply Htopf. apply elem_of_app. by left.
      * eapply repr_frame; [apply (onode_repr c dead), Honb|].
        apply Hst. intros Hin. apply Htopf. apply elem_of_app. by right.
    + unfold ps'. cbn. rewrite app_nil_r.
      apply NoDup_cons. split; [exact Htopf|exact HndMid].
  - apply (wf_only_at [top] m2); [done|done|done|].
    by intros x ->%list_elem_of_singleton.
  - apply (only_at_keeps [r; next; top]); [done|].
    intros x [->|[->|[->|[]%elem_of_nil]%elem_of_cons]%elem_of_cons]%elem_of_cons.
    + left. by left.
    + by right.
    + by right.
  - intros x Hx. unfold ps', foot in Hx. cbn in Hx. rewrite app_nil_r in Hx.
    apply elem_of_cons in Hx as [->|Hx]; [by right|].
    apply Hmid in Hx as [->|Hx]; [by right|by left].
  - cbn. congruence.
Qed.
End StoreInsertTree.

Section StoreInsertClaim.
Context {Pair : Type} `{EqDecision Pair}.
Variable nilPair : Pair.
Variable less : Pair → Pair → bool.

Notation hnode := (@Store.hnode Pair).
Notation memory := (@Store.memory Pair).
Notation HNode := (@Store.HNode Pair).
Notation node := (@node Pair).

Implicit Types (m : memory) (l : Store.loc) (hn : hnode) (n : node).
Implicit Types (F G X : list Store.loc) (dead : gset nat).
Implicit Types (t : @Store.PairTree) (pt : @PairTree Pair).

Lemma ReplaceOrInsert_sim dead m t pt F fuel item e pt' :
  Store.cow t ∉ dead → wf m → tree_at dead m t pt F → NoDup F →
  ReplaceOrInsert nilPair less fuel pt item = Some (e, pt') →
  ∃ t' m' F',
    Store.ReplaceOrInsert nilPair less fuel t item m = Some ((e, t'), m') ∧
    tree_at dead m' t' pt' F' ∧ NoDup F' ∧ wf m' ∧
    Store.cow t' = Store.cow t ∧
    keeps F m m' ∧ grows F F' m ∧ Store.contexts m' = Store.contexts m.
Proof.
  intros Hc Hwf (Hd & Hlen & Hroot) Hnd Hpure.
  unfold ReplaceOrInsert in Hpure. unfold Store.ReplaceOrInsert.
  destruct (decide (item = nilPair)) as [Hnil|Hnil].
  { injection Hpure as <- <-. exists t, m, F. split; [done|].
    split_and!; [done|done|done|done|apply keeps_refl|apply grows_refl|done]. }
  assert (Store.maxPairs t = maxPairs pt) as Hmax
    by (unfold Store.maxPairs, maxPairs; by rewrite Hd).
  set (c := Store.cow t) in *.
  destruct (Store.root t) as [r|] eqn:Hrt, (root pt) as [n|] eqn:Hrp; try done.
  - destruct (mutableFor_sim c dead Hc m n r F Hwf Hroot Hnd)
      as (r1 & F1 & m1 & Hrun1 & Hr1 & Hnd1 & Hown1 & Hwf1 & Hk1 & Hg1 & Hctx1).
    mrun Hrun1.
    destruct (repr_onode c dead Hc m1 n r1 F1 Hr1 Hown1 Hnd1) as (ps1 & Hon1 & ->).
    destruct n as [its ns]. cbn [items children] in *.
    pose proof Hon1 as (Hl1 & _).
    mstep. rewrite Hmax.
    destruct (decide (maxPairs pt ≤ length its)) as [Hfull|Hfull].
    + destruct (split (Node its ns) (maxPairs pt `div` 2))
        as [[[oldroot item2] second]|] eqn:Hsp; [|done].
      cbn [mbind option_bind] in Hpure.
      destruct (insert nilPair less fuel (Node [item2] [oldroot; second]) item
                  (maxPairs pt)) as [[out r2]|] eqn:Hins; [|done].
      cbn [mbind option_bind] in Hpure. injection Hpure as <- <-.
      destruct (grow_root_sim c dead Hc m1 r1 its ns ps1 _ _ _ _ Hwf1 Hon1 Hsp)
        as (top & m4 & ps4 & Hrun4 & Hon4 & Hwf4 & Hk4 & Hg4 & Hctx4).
      erewrite run_bind; [|exact Hrun4].
      pose proof Hon4 as (_ & _ & Hnd4).
      destruct (insert_sim nilPair less c dead Hc (maxPairs pt) item fuel m4 top _ _
                  out r2 Hwf4 (onode_repr c dead _ _ _ _ _ Hon4)
                  (onode_owned c dead _ _ _ _ _ Hon4) Hnd4 Hins)
        as (m5 & F5 & Hrun5 & Hres5).
      mrun Hrun5.
      pose proof (result_trans c dead _ _ _ _ _ _ _ _ Hk1 Hg1 Hctx1
                    (result_trans c dead _ _ _ _ _ _ _ _ Hk4 Hg4 Hctx4 Hres5))
        as (Hr5 & Hnd5 & Hown5 & Hwf5 & Hk5 & Hg5 & Hctx5).
      eexists _, m5, F5. split; [reflexivity|].
      split_and!; try done. split_and!; cbn; [done| |].
      { rewrite Hlen. by destruct (decide (out = nilPair)). }
      exact Hr5.
    + cbn [mbind option_bind] in Hpure.
      destruct (insert nilPair less fuel (Node its ns) item (maxPairs pt))
        as [[out r2]|] eqn:Hins; [|done].
      cbn [mbind option_bind] in Hpure. injection Hpure as <- <-.
      erewrite run_bind; [|apply run_ret].
      pose proof Hon1 as (_ & _ & Hnd1').
      destruct (insert_sim nilPair less c dead Hc (maxPairs pt) item fuel m1 r1 _ _
                  out r2 Hwf1 Hr1 Hown1 Hnd1' Hins)
        as (m5 & F5 & Hrun5 & Hres5).
      mrun Hrun5.
      pose proof (result_trans c dead _ _ _ _ _ _ _ _ Hk1 Hg1 Hctx1 Hres5)
        as (Hr5 & Hnd5 & Hown5 & Hwf5 & Hk5 & Hg5 & Hctx5).
      eexists _, m5, F5. split; [reflexivity|].
      split_and!; try done. split_and!; cbn; [done| |].
      { rewrite Hlen. by destruct (decide (out = nilPair)). }
      exact Hr5.
  - injection Hpure as <- <-. subst F.
    destruct (run_newNode c m Hwf) as (out & fl & Hnew & Hout & Hfl & Hnfl).
    mrun Hnew. do 2 mstep. rewrite !put_put, app_nil_l.
    eexists _, _, [out]. split; [reflexivity|].
    assert (only_at [out] m (put out (HNode [item] [] (Some c)) (with_free fl m)))
      as Hat.
    { apply only_at_put; [set_solver|]. by intros ?. }
    split_and!.
    + split_and!; cbn; [done|by rewrite Hlen|].
      eapply (repr_node c dead _ _ out _ [] [out]);
        [apply lookup_put|done|done|constructor|by left].
    + apply NoDup_singleton.
    + apply (wf_only_at [out] m); [done|done|done|].
      by intros x ->%list_elem_of_singleton.
    + done.
    + apply (only_at_keeps [out]); [done|].
      intros x ->%list_elem_of_singleton. by right.
    + intros x ->%list_elem_of_singleton. by right.
    + done.
Qed.
Lemma tree_at_frame dead m m' t pt F c G :
  tree_at dead m t pt F → keeps G m m' → (∀ x, x ∈ G → owned c m x) →
  Store.cow t ≠ c → c ∉ dead → tree_at dead m' t pt F.
Proof.
  intros (Hd & Hlen & Hroot) Hk HG Hne Hc. split_and!; [done..|].
  destruct (Store.root t) as [r|], (root pt) as [n|]; try done.
  eapply repr_frame; [exact Hroot|].
  apply (keeps_stable (Store.cow t) dead F G); [done| | |].
  - intros x Hx. by eapply repr_owned.
  - intros x Hx HxG. destruct (HG x HxG) as (hn & Hl & Hcw).
    destruct (repr_owned _ _ _ _ _ _ Hroot x Hx) as (hn' & Hl' & Hcw'). congruence.
  - intros x hn Hx Hl. eapply (owned_not_frozen c dead Hc); [by apply HG|done].
Qed.

Lemma tree_at_owned dead m t pt F x :
  tree_at dead m t pt F → x ∈ F → owned (Store.cow t) m x.
Proof.
  intros (_ & _ & Hroot) Hx.
  destruct (Store.root t) as [r|], (root pt) as [n|]; try done.
  - by eapply repr_owned.
  - subst F. by apply elem_of_nil in Hx.
Qed.

Lemma ReplaceOrInsert_frame dead m t pt F fuel item e pt' :
  Store.cow t ∉ dead → wf m → tree_at dead m t pt F → NoDup F →
  ReplaceOrInsert nilPair less fuel pt item = Some (e, pt') →
  ∃ t' m' F',
    Store.ReplaceOrInsert nilPair less fuel t item m = Some ((e, t'), m') ∧
    tree_at dead m' t' pt' F' ∧ NoDup F' ∧ wf m' ∧
    Store.cow t' = Store.cow t ∧ Store.contexts m' = Store.contexts m ∧
    ∀ t2 pt2 F2, Store.cow t2 ≠ Store.cow t →
      tree_at dead m t2 pt2 F2 → tree_at dead m' t2 pt2 F2.
Proof.
  intros Hc Hwf Ht Hnd Hpure.
  destruct (ReplaceOrInsert_sim dead m t pt F fuel item e pt' Hc Hwf Ht Hnd Hpure)
    as (t' & m' & F' & Hrun & Ht' & Hnd' & Hwf' & Hcow & Hk & Hg & Hctx).
  exists t', m', F'. split_and!; [done..|].
  intros t2 pt2 F2 Hne Ht2.
  eapply (tree_at_frame dead m m' t2 pt2 F2 (Store.cow t) F); [done|done| |done|done].
  intros x Hx. by eapply tree_at_owned.
Qed.

(** X23: ReplaceOrInsert on the store does what it does on the tree the
    handle stands for: it returns the same, and the handle then stands
    for the resulting tree.  It writes only nodes of the context of the
    handle and nodes that were free or new, so every handle with another
    context stands for the tree it stood for. *)
Theorem ReplaceOrInsert_refines dead m t pt F fuel item e pt' :
  Store.cow t ∉ dead → wf m → tree_at dead m t pt F → NoDup F →
  ReplaceOrInsert nilPair less fuel pt item = Some (e, pt') →
  ∃ t' m' F',
    Store.ReplaceOrInsert nilPair less fuel t item m = Some ((e, t'), m') ∧
    tree_at dead m' t' pt' F' ∧ NoDup F' ∧ wf m' ∧
    Store.cow t' = Store.cow t ∧ Store.contexts m' = Store.contexts m ∧
    ∀ t2 pt2 F2, Store.cow t2 ≠ Store.cow t →
      tree_at dead m t2 pt2 F2 → tree_at dead m' t2 pt2 F2.
Proof. apply ReplaceOrInsert_frame. Qed.

Lemma wf_same m m' :
  Store.nodes m' = Store.nodes m → Store.freelist m' = Store.freelist m →
  wf m → wf m'.
Proof. intros Hn Hf [Hnd Hfree]. unfold wf. rewrite Hn, Hf. done. Qed.

(** X24: after Clone, an insertion into one of the two trees is not
    seen through the other: the tree that was written answers Get and
    Has as the tree with the item, the other one as the tree before the
    insertion, whichever of the two is written. *)
Theorem Clone_then_insert dead m t pt F fuel item e pt' :
  wf m → tree_at dead m t pt F →
  Store.cow t < Store.contexts m → (∀ c, c ∈ dead → c < Store.contexts m) →
  ReplaceOrInsert nilPair less fuel pt item = Some (e, pt') →
  ∃ t1 t2 m1,
    Store.Clone t m = Some ((t1, t2), m1) ∧
    (∃ t1' m2,
       Store.ReplaceOrInsert nilPair less fuel t1 item m1 = Some ((e, t1'), m2) ∧
       ∀ fuel' key,
         Store.Get nilPair less m2 fuel' t1' key = Get nilPair less fuel' pt' key ∧
         Store.Has nilPair less m2 fuel' t1' key = Has nilPair less fuel' pt' key ∧
         Store.Get nilPair less m2 fuel' t2 key = Get nilPair less fuel' pt key ∧
         Store.Has nilPair less m2 fuel' t2 key = Has nilPair less fuel' pt key) ∧
    (∃ t2' m2,
       Store.ReplaceOrInsert nilPair less fuel t2 item m1 = Some ((e, t2'), m2) ∧
       ∀ fuel' key,
         Store.Get nilPair less m2 fuel' t2' key = Get nilPair less fuel' pt' key ∧
         Store.Has nilPair less m2 fuel' t2' key = Has nilPair less fuel' pt' key ∧
         Store.Get nilPair less m2 fuel' t1 key = Get nilPair less fuel' pt key ∧
         Store.Has nilPair less m2 fuel' t1 key = Has nilPair less fuel' pt key).
Proof.
  intros Hwf Ht Hc Hdead Hpure.
  destruct (Clone_sim dead m t pt F Ht Hc Hdead)
    as (t1 & t2 & m1 & Hrun & Hn & Hf & Ht1 & Ht2 & Hne & Hc1 & Hc2 & _).
  pose proof (wf_same m m1 Hn Hf Hwf) as Hwf1.
  exists t1, t2, m1. split; [done|]. split.
  - destruct (ReplaceOrInsert_frame _ m1 t1 pt [] fuel item e pt' Hc1 Hwf1 Ht1
                (NoDup_nil_2) Hpure)
      as (t1' & m2 & F' & Hrun1 & Ht1' & _ & _ & _ & _ & Hiso).
    exists t1', m2. split; [done|]. intros fuel' key.
    destruct (Get_tree_at nilPair less _ m2 t1' pt' F' fuel' key Ht1') as (-> & -> & _).
    destruct (Get_tree_at nilPair less _ m2 t2 pt [] fuel' key
                (Hiso t2 pt [] (not_eq_sym Hne) Ht2)) as (-> & -> & _).
    done.
  - destruct (ReplaceOrInsert_frame _ m1 t2 pt [] fuel item e pt' Hc2 Hwf1 Ht2
                (NoDup_nil_2) Hpure)
      as (t2' & m2 & F' & Hrun2 & Ht2' & _ & _ & _ & _ & Hiso).
    exists t2', m2. split; [done|]. intros fuel' key.
    destruct (Get_tree_at nilPair less _ m2 t2' pt' F' fuel' key Ht2') as (-> & -> & _).
    destruct (Get_tree_at nilPair less _ m2 t1 pt [] fuel' key
                (Hiso t1 pt [] Hne Ht1)) as (-> & -> & _).
    done.
Qed.
End StoreInsertClaim.

(** * Further properties: instances on the example tree *)

(** The tree that held the key 1 and lost it: its root is an empty node. *)
Definition emptied_tree : @PairTree ZPair :=
  {| degree := 9; t_length := 0; root := Some (Node [] []) |}.

Lemma emptied_built : built znil zless 9 emptied_tree.
Proof.
  eapply (built_delete znil zless 9 _ 3 (zpair 1 0) removePair (zpair 1 10)).
  - eapply (built_insert znil zless 9 _ 3 (zpair 1 10) znil); [constructor|].
    vm_compute. reflexivity.
  - vm_compute. reflexivity.
Qed.

Lemma find_position_witness :
  ∃ i found,
    find zless [zpair 1 10; zpair 3 30; zpair 5 50] (zpair 3 0) = Some (i, found) ∧
    Forall (λ y, lt zless y (zpair 3 0)) (take i [zpair 1 10; zpair 3 30; zpair 5 50]) ∧
    if found
    then (∃ y, [zpair 1 10; zpair 3 30; zpair 5 50] !! i = Some y ∧
               equiv_key zless y (zpair 3 0)) ∧
         Forall (λ y, lt zless (zpair 3 0) y)
           (drop (S i) [zpair 1 10; zpair 3 30; zpair 5 50])
    else i ≤ length [zpair 1 10; zpair 3 30; zpair 5 50] ∧
         Forall (λ y, lt zless (zpair 3 0) y)
           (drop i [zpair 1 10; zpair 3 30; zpair 5 50]).
Proof.
  apply (find_position zless zless_strict).
  repeat constructor.
Defined.

Lemma Get_finds_witness :
  ∃ v, Get znil zless 6 (the_tree example_tree') (zpair 5 0) = Some v ∧
    (∀ y, y ∈ contents (the_tree example_tree') → equiv_key zless y (zpair 5 0) → v = y) ∧
    ((∀ y, y ∈ contents (the_tree example_tree') → ¬ equiv_key zless y (zpair 5 0)) →
     v = znil) ∧
    (v ≠ znil → v ∈ contents (the_tree example_tree') ∧ equiv_key zless v (zpair 5 0)).
Proof.
  apply (Get_finds znil zless zless_strict 9).
  - lia.
  - exact example_built'.
  - vm_compute. lia.
Defined.

Lemma Has_iff_witness :
  ∃ b, Has znil zless 6 (the_tree example_tree') (zpair 5 0) = Some b ∧
    (b = true ↔ ∃ y, y ∈ contents (the_tree example_tree') ∧ equiv_key zless y (zpair 5 0)).
Proof.
  apply (Has_iff znil zless zless_strict 9).
  - lia.
  - exact example_built'.
  - vm_compute. lia.
Defined.

Lemma Get_after_insert_witness :
  ∃ out t',
    ReplaceOrInsert znil zless 6 (the_tree example_tree') (zpair 20 7) =
      Some (Return out, t') ∧
    ∀ fuel', enough t' ≤ fuel' → enough (the_tree example_tree') ≤ fuel' →
      Get znil zless fuel' t' (zpair 20 7) = Some (zpair 20 7) ∧
      ∀ key, ¬ equiv_key zless (zpair 20 7) key →
        Get znil zless fuel' t' key = Get znil zless fuel' (the_tree example_tree') key.
Proof.
  apply (Get_after_insert znil zless zless_strict 9).
  - lia.
  - exact example_built'.
  - discriminate.
  - vm_compute. lia.
Defined.

Lemma Get_after_delete_witness :
  ∃ out t',
    Delete znil zless 6 (the_tree example_tree') (zpair 5 0) = Some (out, t') ∧
    ∀ fuel', enough t' ≤ fuel' → enough (the_tree example_tree') ≤ fuel' →
      Get znil zless fuel' t' (zpair 5 0) = Some znil ∧
      ∀ key', ¬ equiv_key zless (zpair 5 0) key' →
        Get znil zless fuel' t' key' = Get znil zless fuel' (the_tree example_tree') key'.
Proof.
  apply (Get_after_delete znil zless zless_strict 9).
  - lia.
  - exact example_built'.
  - vm_compute. lia.
Defined.

Lemma Min_Max_ends_witness :
  Min znil 6 (the_tree example_tree') = Some (hd znil (contents (the_tree example_tree'))) ∧
  Max znil 6 (the_tree example_tree') =
    Some (default znil (last (contents (the_tree example_tree')))) ∧
  (contents (the_tree example_tree') ≠ [] →
     hd znil (contents (the_tree example_tree')) ∈ contents (the_tree example_tree') ∧
     default znil (last (contents (the_tree example_tree')))
       ∈ contents (the_tree example_tree')) ∧
  ∀ y, y ∈ contents (the_tree example_tree') →
    zless y (hd znil (contents (the_tree example_tree'))) = false ∧
    zless (default znil (last (contents (the_tree example_tree')))) y = false.
Proof.
  apply (Min_Max_ends znil zless zless_strict 9).
  - lia.
  - exact example_built'.
  - vm_compute. lia.
Defined.

Lemma DeleteMin_DeleteMax_witness :
  (∃ t1, DeleteMin znil zless 6 (the_tree example_tree') =
           Some (hd znil (contents (the_tree example_tree')), t1) ∧
     Min znil 6 (the_tree example_tree') =
       Some (hd znil (contents (the_tree example_tree'))) ∧
     contents t1 = tail (contents (the_tree example_tree')) ∧
     Len t1 = (if decide (contents (the_tree example_tree') = [])
               then Len (the_tree example_tree')
               else Len (the_tree example_tree') - 1)%Z) ∧
  (∃ t2, DeleteMax znil zless 6 (the_tree example_tree') =
           Some (default znil (last (contents (the_tree example_tree'))), t2) ∧
     Max znil 6 (the_tree example_tree') =
       Some (default znil (last (contents (the_tree example_tree')))) ∧
     contents t2 =
       take (length (contents (the_tree example_tree')) - 1)
         (contents (the_tree example_tree')) ∧
     Len t2 = (if decide (contents (the_tree example_tree') = [])
               then Len (the_tree example_tree')
               else Len (the_tree example_tree') - 1)%Z).
Proof.
  apply (DeleteMin_DeleteMax znil zless zless_strict 9).
  - lia.
  - exact example_built'.
  - vm_compute. lia.
Defined.

Lemma Len_counts_witness :
  Ascend znil zless record 6 (the_tree example_tree') [] =
    Some (contents (the_tree example_tree')) ∧
  Len (the_tree example_tree') = Z.of_nat (length (contents (the_tree example_tree'))).
Proof.
  apply (Len_counts znil zless zless_strict 9).
  - lia.
  - exact example_built'.
  - vm_compute. lia.
Defined.

Lemma Delete_present_witness :
  ∃ t' l1 l2,
    Delete znil zless 6 (the_tree example_tree') (zpair 5 0) = Some (zpair 5 50, t') ∧
    contents (the_tree example_tree') = l1 ++ zpair 5 50 :: l2 ∧
    contents t' = l1 ++ l2 ∧
    Len t' = (Len (the_tree example_tree') - 1)%Z.
Proof.
  apply (Delete_present znil zless zless_strict 9).
  - lia.
  - exact example_built'.
  - vm_compute. lia.
  - vm_compute. do 4 right. left.
  - split; reflexivity.
Defined.

Lemma split_full_witness :
  ∃ c1 m c2,
    split (Node [zpair 1 10; zpair 2 20; zpair 3 30] []) (3 / 2) = Some (c1, m, c2) ∧
    inorder (Node [zpair 1 10; zpair 2 20; zpair 3 30] []) =
      inorder c1 ++ m :: inorder c2 ∧
    btree 1 3 0 c1 ∧ btree 1 3 0 c2 ∧
    length (items c1) = 1 ∧ length (items c2) = 1.
Proof.
  apply (split_full 1 3).
  - reflexivity.
  - simpl. repeat split; lia.
  - reflexivity.
Defined.

Lemma maybeSplitChild_cases_witness :
  (length (items (Node [zpair 3 30; zpair 4 40; zpair 5 50] [])) < 3 →
     maybeSplitChild
       (Node ([zpair 2 20] ++ []) ([Node [zpair 1 10] []] ++
          Node [zpair 3 30; zpair 4 40; zpair 5 50] [] :: []))
       (length [zpair 2 20]) 3 =
       Some (Node ([zpair 2 20] ++ []) ([Node [zpair 1 10] []] ++
               Node [zpair 3 30; zpair 4 40; zpair 5 50] [] :: []), false)) ∧
  (length (items (Node [zpair 3 30; zpair 4 40; zpair 5 50] [])) = 3 →
     ∃ c1 m c2,
       maybeSplitChild
         (Node ([zpair 2 20] ++ []) ([Node [zpair 1 10] []] ++
            Node [zpair 3 30; zpair 4 40; zpair 5 50] [] :: []))
         (length [zpair 2 20]) 3 =
         Some (Node ([zpair 2 20] ++ m :: []) ([Node [zpair 1 10] []] ++ c1 :: c2 :: []),
               true) ∧
       inorder (Node ([zpair 2 20] ++ m :: []) ([Node [zpair 1 10] []] ++ c1 :: c2 :: [])) =
         inorder (Node ([zpair 2 20] ++ []) ([Node [zpair 1 10] []] ++
                    Node [zpair 3 30; zpair 4 40; zpair 5 50] [] :: [])) ∧
       btree 1 3 0 c1 ∧ btree 1 3 0 c2).
Proof.
  apply (maybeSplitChild_cases 1 3).
  - reflexivity.
  - reflexivity.
  - simpl. repeat split; lia.
Defined.

Lemma Ascend_half_ranges_witness :
  AscendGreaterOrEqual znil zless record 6 (the_tree example_tree') (zpair 35 0) [] =
    Some (feed record
            (filter (λ x, zless x (zpair 35 0) = false) (contents (the_tree example_tree')))
            []).2 ∧
  AscendLessThan znil zless record 6 (the_tree example_tree') (zpair 35 0) [] =
    Some (feed record
            (filter (λ x, zless x (zpair 35 0) = true) (contents (the_tree example_tree')))
            []).2.
Proof.
  apply (Ascend_half_ranges znil zless zless_strict record 9).
  - lia.
  - exact example_built'.
  - vm_compute. lia.
  - discriminate.
Defined.

Lemma Ascend_sentinel_pivot_witness :
  AscendGreaterOrEqual znil zless record 6 (the_tree example_tree') znil [] =
    Ascend znil zless record 6 (the_tree example_tree') [] ∧
  AscendLessThan znil zless record 6 (the_tree example_tree') znil [] =
    Ascend znil zless record 6 (the_tree example_tree') [] ∧
  AscendRange znil zless record 6 (the_tree example_tree') znil znil [] =
    Ascend znil zless record 6 (the_tree example_tree') [] ∧
  Ascend znil zless record 6 (the_tree example_tree') [] =
    Some (feed record (contents (the_tree example_tree')) []).2.
Proof.
  apply (Ascend_sentinel_pivot znil zless zless_strict record 9).
  - lia.
  - exact example_built'.
  - vm_compute. lia.
Defined.

Lemma cursor_off_the_ends_witness :
  (∃ x c c', First znil 6 (NewCursor (the_tree example_tree')) = Some (x, c) ∧
     x = hd znil (contents (the_tree example_tree')) ∧
     Prev znil 6 c = Some (znil, c') ∧
     Next znil 6 c' = Some (znil, c') ∧
     Prev znil 6 c' = Some (znil, c')) ∧
  (∃ x c c', Last znil 6 (NewCursor (the_tree example_tree')) = Some (x, c) ∧
     x = default znil (last (contents (the_tree example_tree'))) ∧
     Next znil 6 c = Some (znil, c') ∧
     Next znil 6 c' = Some (znil, c') ∧
     Prev znil 6 c' = Some (znil, c')).
Proof.
  apply (cursor_off_the_ends znil zless zless_strict 9).
  - lia.
  - exact example_built'.
  - vm_compute. lia.
Defined.

Lemma Prev_after_Last_without_items_witness :
  ∃ c, Last znil 3 (NewCursor emptied_tree) = Some (znil, c) ∧
    (root emptied_tree = None → Prev znil 3 c = Some (znil, c)) ∧
    (root emptied_tree ≠ None → ∀ fuel', Prev znil fuel' c = None).
Proof.
  apply (Prev_after_Last_without_items znil zless zless_strict 9).
  - lia.
  - exact emptied_built.
  - reflexivity.
Defined.

Lemma Descend_ranges_witness :
  DescendRange znil zless record 6 (the_tree example_tree') (zpair 35 0) (zpair 5 0) [] =
    Some (feed record
            (filter (λ x, negb (zless (zpair 35 0) x) && zless (zpair 5 0) x = true)
               (reverse (contents (the_tree example_tree')))) []).2 ∧
  DescendLessOrEqual znil zless record 6 (the_tree example_tree') (zpair 35 0) [] =
    Some (feed record
            (filter (λ x, zless (zpair 35 0) x = false)
               (reverse (contents (the_tree example_tree')))) []).2 ∧
  DescendGreaterThan znil zless record 6 (the_tree example_tree') (zpair 5 0) [] =
    Some (feed record
            (filter (λ x, zless (zpair 5 0) x = true)
               (reverse (contents (the_tree example_tree')))) []).2.
Proof.
  apply (Descend_ranges znil zless zless_strict record 9).
  - lia.
  - exact example_built'.
  - vm_compute. lia.
  - discriminate.
  - discriminate.
Defined.

Lemma Descend_sentinel_pivot_witness :
  DescendLessOrEqual znil zless record 6 (the_tree example_tree') znil [] =
    Descend znil zless record 6 (the_tree example_tree') [] ∧
  DescendGreaterThan znil zless record 6 (the_tree example_tree') znil [] =
    Descend znil zless record 6 (the_tree example_tree') [] ∧
  DescendRange znil zless record 6 (the_tree example_tree') znil znil [] =
    Descend znil zless record 6 (the_tree example_tree') [] ∧
  Descend znil zless record 6 (the_tree example_tree') [] =
    Some (feed record (reverse (contents (the_tree example_tree'))) []).2.
Proof.
  apply (Descend_sentinel_pivot znil zless zless_strict record 9).
  - lia.
  - exact example_built'.
  - vm_compute. lia.
Defined.

(** * The store model: instances *)

(** The store after [New] and the insertion of the keys 1 and 2: one node,
    of the context 0 of the tree. *)
Definition example_node : @Store.hnode ZPair :=
  Store.HNode [zpair 1 10; zpair 2 20] [] (Some 0).

Definition example_memory : @Store.memory ZPair :=
  Store.Memory {[ 0 := example_node ]} [] 1.

Definition example_handle : Store.PairTree :=
  {| Store.degree := 9; Store.t_length := 2; Store.root := Some 0; Store.cow := 0 |}.

Definition example_pure : @PairTree ZPair :=
  {| degree := 9; t_length := 2; root := Some (Node [zpair 1 10; zpair 2 20] []) |}.

Lemma example_memory_reached :
  ('(t, m) ← Store.New;
   ('(_, t) ← Store.ReplaceOrInsert znil zless 3 t (zpair 1 10);
    '(_, t) ← Store.ReplaceOrInsert znil zless 3 t (zpair 2 20);
    mret t) m) = Some (example_handle, example_memory).
Proof. vm_compute. reflexivity. Qed.

Lemma example_wf : wf example_memory.
Proof.
  split; [constructor|]. intros l Hl. by apply elem_of_nil in Hl.
Qed.

Lemma example_tree_at : tree_at ∅ example_memory example_handle example_pure [0].
Proof.
  split_and!; [done..|]. cbn.
  apply (repr_node 0 ∅ example_memory _ 0 example_node [] [0]);
    [done|done|done|constructor|by left].
Qed.

Lemma freeNode_then_newNode_witness :
  (Store.h_cow example_node ≠ Some 0 →
     Store.freeNode (Some 0) 0 example_memory = Some (tt, example_memory)) ∧
  (Store.h_cow example_node = Some 0 →
     ∃ m1, Store.freeNode (Some 0) 0 example_memory = Some (tt, m1) ∧ wf m1 ∧
       Store.nodes m1 = <[0 := Store.HNode [] [] None]> (Store.nodes example_memory) ∧
       if decide (length (Store.freelist example_memory) < Store.defaultFreeListSize)
       then Store.freelist m1 = Store.freelist example_memory ++ [0] ∧
            Store.newNode (Some 1) m1 =
              Some (0, put 0 (Store.HNode [] [] (Some 1))
                         (with_free (Store.freelist example_memory) m1))
       else Store.freelist m1 = Store.freelist example_memory).
Proof.
  apply (freeNode_then_newNode example_memory 0 example_node 0 1).
  - exact example_wf.
  - reflexivity.
Defined.

Lemma mutableFor_copies_witness :
  ∃ l' m', Store.mutableFor 0 (Some 1) example_memory = Some (l', m') ∧ wf m' ∧
    Store.nodes m' !! l' =
      Some (Store.HNode (Store.h_items example_node) (Store.h_children example_node)
              (Some 1)) ∧
    Store.nodes m' !! 0 = Some example_node ∧
    (Store.h_cow example_node = Some 1 → l' = 0 ∧ m' = example_memory) ∧
    (Store.h_cow example_node ≠ Some 1 →
       l' ≠ 0 ∧ is_new example_memory l' ∧
       ∀ k, k ≠ l' → Store.nodes m' !! k = Store.nodes example_memory !! k).
Proof.
  apply (mutableFor_copies example_memory 0 example_node 1).
  - exact example_wf.
  - reflexivity.
  - discriminate.
Defined.

Lemma Get_refines_witness :
  Store.Get znil zless example_memory 3 example_handle (zpair 2 0) =
    Get znil zless 3 example_pure (zpair 2 0) ∧
  Store.Has znil zless example_memory 3 example_handle (zpair 2 0) =
    Has znil zless 3 example_pure (zpair 2 0) ∧
  Store.Len example_handle = Len example_pure.
Proof.
  apply (Get_refines znil zless ∅ example_memory example_handle example_pure [0]).
  exact example_tree_at.
Defined.

Lemma Clone_shares_witness :
  ∃ t1 t2 m',
    Store.Clone example_handle example_memory = Some ((t1, t2), m') ∧
    Store.nodes m' = Store.nodes example_memory ∧
    Store.freelist m' = Store.freelist example_memory ∧
    tree_at ({[Store.cow example_handle]} ∪ ∅) m' t1 example_pure [] ∧
    tree_at ({[Store.cow example_handle]} ∪ ∅) m' t2 example_pure [] ∧
    Store.cow t1 ≠ Store.cow t2 ∧
    Store.cow t1 ∉ ({[Store.cow example_handle]} ∪ ∅ : gset nat) ∧
    Store.cow t2 ∉ ({[Store.cow example_handle]} ∪ ∅ : gset nat) ∧
    Store.cow t1 < Store.contexts m' ∧ Store.cow t2 < Store.contexts m'.
Proof.
  apply (Clone_shares ∅ example_memory example_handle example_pure [0]).
  - exact example_tree_at.
  - cbn. lia.
  - intros c Hc. by apply elem_of_empty in Hc.
Defined.

Lemma ReplaceOrInsert_refines_witness :
  ∃ t' m' F',
    Store.ReplaceOrInsert znil zless 3 example_handle (zpair 3 30) example_memory =
      Some ((Return znil, t'), m') ∧
    tree_at ∅ m' t'
      {| degree := 9; t_length := 3;
         root := Some (Node [zpair 1 10; zpair 2 20; zpair 3 30] []) |} F' ∧
    NoDup F' ∧ wf m' ∧
    Store.cow t' = Store.cow example_handle ∧
    Store.contexts m' = Store.contexts example_memory ∧
    ∀ t2 pt2 F2, Store.cow t2 ≠ Store.cow example_handle →
      tree_at ∅ example_memory t2 pt2 F2 → tree_at ∅ m' t2 pt2 F2.
Proof.
  apply (ReplaceOrInsert_refines znil zless ∅ example_memory example_handle
           example_pure [0] 3 (zpair 3 30)).
  - intros Hc. by apply elem_of_empty in Hc.
  - exact example_wf.
  - exact example_tree_at.
  - apply NoDup_singleton.
  - reflexivity.
Defined.

Lemma Clone_then_insert_witness :
  ∃ t1 t2 m1,
    Store.Clone example_handle example_memory = Some ((t1, t2), m1) ∧
    (∃ t1' m2,
       Store.ReplaceOrInsert znil zless 3 t1 (zpair 3 30) m1 =
         Some ((Return znil, t1'), m2) ∧
       ∀ fuel' key,
         Store.Get znil zless m2 fuel' t1' key =
           Get znil zless fuel'
             {| degree := 9; t_length := 3;
                root := Some (Node [zpair 1 10; zpair 2 20; zpair 3 30] []) |} key ∧
         Store.Has znil zless m2 fuel' t1' key =
           Has znil zless fuel'
             {| degree := 9; t_length := 3;
                root := Some (Node [zpair 1 10; zpair 2 20; zpair 3 30] []) |} key ∧
         Store.Get znil zless m2 fuel' t2 key = Get znil zless fuel' example_pure key ∧
         Store.Has znil zless m2 fuel' t2 key = Has znil zless fuel' example_pure key) ∧
    (∃ t2' m2,
       Store.ReplaceOrInsert znil zless 3 t2 (zpair 3 30) m1 =
         Some ((Return znil, t2'), m2) ∧
       ∀ fuel' key,
         Store.Get znil zless m2 fuel' t2' key =
           Get znil zless fuel'
             {| degree := 9; t_length := 3;
                root := Some (Node [zpair 1 10; zpair 2 20; zpair 3 30] []) |} key ∧
         Store.Has znil zless m2 fuel' t2' key =
           Has znil zless fuel'
             {| degree := 9; t_length := 3;
                root := Some (Node [zpair 1 10; zpair 2 20; zpair 3 30] []) |} key ∧
         Store.Get znil zless m2 fuel' t1 key = Get znil zless fuel' example_pure key ∧
         Store.Has znil zless m2 fuel' t1 key = Has znil zless fuel' example_pure key).
Proof.
  apply (Clone_then_insert znil zless ∅ example_memory example_handle example_pure [0]
           3 (zpair 3 30)).
  - exact example_wf.
  - exact example_tree_at.
  - cbn. lia.
  - intros c Hc. by apply elem_of_empty in Hc.
  - reflexivity.
Defined.

(** * The store model: rebalancing before a removal *)

(** Membership in lists built with [::] and [++]. *)
Ltac mem1 := first [assumption | reflexivity | left; mem1 | right; mem1].
Ltac mem :=
  rewrite ?elem_of_cons, ?elem_of_app, ?elem_of_nil in *;
  first [ solve [mem1]
        | solve [intuition (subst; first [done | congruence | mem1])] ].

Section StoreRebuild.
Context {Pair : Type} `{EqDecision Pair}.

Notation hnode := (@Store.hnode Pair).
Notation memory := (@Store.memory Pair).
Notation HNode := (@Store.HNode Pair).
Notation node := (@node Pair).

Variable c : nat.
Variable dead : gset nat.
Hypothesis c_alive : c ∉ dead.

Implicit Types (m : memory) (l : Store.loc) (hn : hnode) (n : node).
Implicit Types (F G W : list Store.loc) (ps : list (Store.loc * list Store.loc)).
Implicit Types (ns : list node) (its : list Pair).

Lemma move_perm (a b : Store.loc) (X Y M P Q : list Store.loc) :
  a :: (X ++ Y) ++ b :: (P ++ M ++ Q) ≡ₚ a :: (X ++ M ++ Y) ++ b :: (P ++ Q).
Proof.
  f_equiv. rewrite <- !app_assoc. f_equiv.
  rewrite (app_assoc M Y), (Permutation_app_comm M Y), <- app_assoc. f_equiv.
  rewrite <- Permutation_middle. f_equiv. rewrite !app_assoc. f_equiv.
  apply Permutation_app_comm.
Qed.

(** The children [old_ns] of a node replaced by [new_ns], made of the
    same nodes. *)
Lemma onode_rebuild m m' l its its' NA NB PA PB old_ns old_ps new_ns new_ps W :
  onode c dead m l its (NA ++ old_ns ++ NB) (PA ++ old_ps ++ PB) →
  length PA = length NA → length old_ps = length old_ns →
  only_at W m m' →
  (∀ x, x ∈ W → x = l ∨ x ∈ mjoin old_ps.*2) →
  (∀ x hn, x ∈ W → Store.nodes m !! x = Some hn → ¬ frozen dead hn) →
  Store.nodes m' !! l = Some (HNode its' (PA ++ new_ps ++ PB).*1 (Some c)) →
  reprs c dead m' new_ns new_ps →
  NoDup (mjoin new_ps.*2) →
  (∀ x, x ∈ mjoin new_ps.*2 → x ∈ mjoin old_ps.*2) →
  onode c dead m' l its' (NA ++ new_ns ++ NB) (PA ++ new_ps ++ PB) ∧
  keeps (foot l (PA ++ old_ps ++ PB)) m m' ∧
  grows (foot l (PA ++ old_ps ++ PB)) (foot l (PA ++ new_ps ++ PB)) m.
Proof.
  intros (Hl & Hps & Hnd) HlenA Hlen_old Hat HW Hnfr Hl' Hnew HndNew Hsub.
  apply Forall2_app_inv in Hps as [HpsA Hps]; [|lia].
  apply Forall2_app_inv in Hps as [_ HpsB]; [|lia].
  unfold foot in *. rewrite !join_parts_app in Hnd. rewrite !join_parts_app.
  apply NoDup_cons in Hnd as [HlF HndF].
  pose proof HndF as (HndA & HAFB & _ & HFB & HndB)%NoDup_app_assoc_parts.
  assert (∀ X, (∀ x, x ∈ X → x ∈ mjoin PA.*2 ∨ x ∈ mjoin PB.*2) →
            stable dead X m m') as Hsib.
  { intros X HX. apply (only_at_stable dead W X m m' Hat); [|done].
    intros x Hx HxX. destruct (HW x Hx) as [->|Hold].
    - apply HlF. destruct (HX _ HxX); mem.
    - destruct (HX _ HxX) as [HA|HB].
      + apply (HAFB x HA). mem.
      + by apply (HFB x Hold). }
  split_and!.
  - split_and!; [done| |].
    + apply Forall2_app; [|apply Forall2_app; [done|]].
      * eapply reprs_frame; [exact HpsA|]. apply Hsib. intros x Hx. by left.
      * eapply reprs_frame; [exact HpsB|]. apply Hsib. intros x Hx. by right.
    + rewrite !join_parts_app. apply NoDup_cons. split.
      * intros Hin. apply HlF. rewrite !elem_of_app in Hin |- *.
        destruct Hin as [?|[?%Hsub|?]]; tauto.
      * eapply NoDup_replace with (Fi := mjoin old_ps.*2); [done|done|done|].
        intros x Hx. left. by apply Hsub.
  - apply (only_at_keeps W); [done|]. intros x Hx. left.
    destruct (HW x Hx) as [->|?]; mem.
  - intros x Hx. left. rewrite !elem_of_cons, !elem_of_app in Hx |- *.
    destruct Hx as [?|[?|[?%Hsub|?]]]; tauto.
Qed.
(** Children [mvn] moved from the node [lf] to the node [lc]. *)
Lemma steal_parts m m' W lf lc fits fits' cits cits' NX mvn NY NP NQ X mv Y P Q :
  onode c dead m lf fits (NX ++ mvn ++ NY) (X ++ mv ++ Y) →
  onode c dead m lc cits (NP ++ NQ) (P ++ Q) →
  length X = length NX → length mv = length mvn → length P = length NP →
  only_at W m m' →
  (∀ x, x ∈ W → x ∉ mjoin (X ++ mv ++ Y).*2 ∧ x ∉ mjoin (P ++ Q).*2) →
  (∀ x hn, x ∈ W → Store.nodes m !! x = Some hn → ¬ frozen dead hn) →
  Store.nodes m' !! lf = Some (HNode fits' (X ++ Y).*1 (Some c)) →
  Store.nodes m' !! lc = Some (HNode cits' (P ++ mv ++ Q).*1 (Some c)) →
  repr c dead m' (Node fits' (NX ++ NY)) lf (foot lf (X ++ Y)) ∧
  repr c dead m' (Node cits' (NP ++ mvn ++ NQ)) lc (foot lc (P ++ mv ++ Q)) ∧
  foot lf (X ++ Y) ++ foot lc (P ++ mv ++ Q) ≡ₚ
    foot lf (X ++ mv ++ Y) ++ foot lc (P ++ Q).
Proof.
  intros (_ & Hpf & _) (_ & Hpc & _) HlX Hlmv HlP Hat HW Hnfr Hlf Hlc.
  apply Forall2_app_inv in Hpf as [HpX Hpf]; [|lia].
  apply Forall2_app_inv in Hpf as [Hpmv HpY]; [|lia].
  apply Forall2_app_inv in Hpc as [HpP HpQ]; [|lia].
  rewrite !join_parts_app in HW.
  assert (∀ ns ps, reprs c dead m ns ps →
            (∀ x, x ∈ mjoin ps.*2 →
               x ∈ mjoin X.*2 ++ mjoin mv.*2 ++ mjoin Y.*2 ∨
               x ∈ mjoin P.*2 ++ mjoin Q.*2) →
            reprs c dead m' ns ps) as Hfr.
  { intros ns ps Hps Hsub. eapply reprs_frame; [exact Hps|].
    apply (only_at_stable dead W _ m m' Hat); [|done].
    intros x Hx Hin. destruct (HW x Hx) as [H1 H2].
    destruct (Hsub x Hin); tauto. }
  split_and!.
  - eapply repr_node; [exact Hlf|done|done| |by left].
    cbn [children]. apply Forall2_app; apply Hfr; try done; intros x Hx; left; mem.
  - eapply repr_node; [exact Hlc|done|done| |by left].
    cbn [children].
    apply Forall2_app; [|apply Forall2_app]; apply Hfr; try done; intros x Hx; mem.
  - unfold foot. rewrite !join_parts_app. cbn [app]. apply move_perm.
Qed.
End StoreRebuild.

Section StoreMutable.
Context {Pair : Type} `{EqDecision Pair}.

Notation hnode := (@Store.hnode Pair).
Notation memory := (@Store.memory Pair).
Notation HNode := (@Store.HNode Pair).
Notation node := (@node Pair).

Variable c : nat.
Variable dead : gset nat.
Hypothesis c_alive : c ∉ dead.

Implicit Types (m : memory) (l : Store.loc) (hn : hnode) (n : node).
Implicit Types (F G W : list Store.loc) (ps : list (Store.loc * list Store.loc)).
Implicit Types (ns : list node) (its : list Pair).

(** The child [i] of a node of the context, made a node of the context. *)
Lemma one_mutable m l its ns ps i ni :
  wf m → onode c dead m l its ns ps → ns !! i = Some ni →
  ∃ li psi m1,
    Store.mutableChild l i m = Some (li, m1) ∧
    onode c dead m1 l its ns (<[i := (li, foot li psi)]> ps) ∧
    onode c dead m1 li (items ni) (children ni) psi ∧
    wf m1 ∧
    keeps (foot l ps) m m1 ∧
    grows (foot l ps) (foot l (<[i := (li, foot li psi)]> ps)) m ∧
    Store.contexts m1 = Store.contexts m.
Proof.
  intros Hwf Hon Hni. pose proof (lookup_lt_Some _ _ _ Hni) as Hi.
  destruct (mutableChild_sim c dead c_alive m l its ns ps i Hwf Hon Hi)
    as (li & Fi & m1 & Hrun1 & Hon1 & Hown1 & Hwf1 & Hk1 & Hg1 & Hctx1).
  pose proof Hon1 as (Hl1 & Hps1 & Hnd1).
  pose proof (Forall2_length _ _ _ Hps1) as Hlen1.
  assert (<[i := (li, Fi)]> ps !! i = Some (li, Fi)) as Hpi.
  { apply list_lookup_insert_eq. rewrite length_insert in Hlen1. lia. }
  destruct (child_part c dead c_alive m1 ns _ i ni Hps1
              ltac:(by apply NoDup_cons_1_2 in Hnd1) Hni)
    as (li' & Fi' & Hpi' & Hri & HndFi & HsubFi).
  rewrite Hpi in Hpi'. injection Hpi' as <- <-.
  destruct (repr_onode c dead c_alive m1 ni li Fi Hri Hown1 HndFi) as (psi & Honi & ->).
  exists li, psi, m1. done.
Qed.

(** The part of a child that belongs to the context. *)
Lemma owned_part m l its ns ps i ni li psi :
  onode c dead m l its ns ps → ns !! i = Some ni → ps !! i = Some (li, foot li psi) →
  ∃ psi', onode c dead m li (items ni) (children ni) psi' ∧
    foot li psi' = foot li psi.
Proof.
  intros (Hl & Hps & Hnd) Hni Hpi.
  destruct (child_part c dead c_alive m ns ps i ni Hps
              ltac:(by apply NoDup_cons_1_2 in Hnd) Hni)
    as (li' & Fi' & Hpi' & Hri & HndFi & HsubFi).
  rewrite Hpi in Hpi'. injection Hpi' as <- <-.
  assert (owned c m li) as Hown.
  { eapply repr_owned; [exact Hri|]. by left. }
  destruct (repr_onode c dead c_alive m ni li _ Hri Hown HndFi) as (psi' & Honi & HF).
  exists psi'. done.
Qed.

(** Two children of a node of the context, made nodes of the context. *)
Lemma two_mutable m l its ns ps i j ni nj :
  wf m → onode c dead m l its ns ps →
  ns !! i = Some ni → ns !! j = Some nj → i ≠ j →
  ∃ li lj psi psj m1 m2,
    Store.mutableChild l i m = Some (li, m1) ∧
    Store.mutableChild l j m1 = Some (lj, m2) ∧
    onode c dead m2 l its ns
      (<[j := (lj, foot lj psj)]> (<[i := (li, foot li psi)]> ps)) ∧
    onode c dead m2 li (items ni) (children ni) psi ∧
    onode c dead m2 lj (items nj) (children nj) psj ∧
    wf m2 ∧
    keeps (foot l ps) m m2 ∧
    grows (foot l ps)
      (foot l (<[j := (lj, foot lj psj)]> (<[i := (li, foot li psi)]> ps))) m ∧
    Store.contexts m2 = Store.contexts m.
Proof.
  intros Hwf Hon Hni Hnj Hij.
  destruct (one_mutable m l its ns ps i ni Hwf Hon Hni)
    as (li & psi0 & m1 & Hrun1 & Hon1 & _ & Hwf1 & Hk1 & Hg1 & Hctx1).
  destruct (one_mutable m1 l its ns _ j nj Hwf1 Hon1 Hnj)
    as (lj & psj & m2 & Hrun2 & Hon2 & Honj & Hwf2 & Hk2 & Hg2 & Hctx2).
  pose proof Hon as (_ & Hps & _). pose proof (Forall2_length _ _ _ Hps) as Hlen.
  pose proof (lookup_lt_Some _ _ _ Hni) as Hi.
  assert ((<[j := (lj, foot lj psj)]> (<[i := (li, foot li psi0)]> ps)) !! i =
          Some (li, foot li psi0)) as Hpi.
  { rewrite list_lookup_insert_ne by done. apply list_lookup_insert_eq. lia. }
  destruct (owned_part m2 l its ns _ i ni li psi0 Hon2 Hni Hpi) as (psi & Honi & HF).
  rewrite <- HF in Hon2, Hg2.
  exists li, lj, psi, psj, m1, m2. split_and!; try done.
  - eapply keeps_trans; [exact Hk1|exact Hg1|exact Hk2].
  - rewrite <- HF in Hg1. eapply grows_trans; [exact Hg1|exact Hk1|exact Hg2].
  - congruence.
Qed.
End StoreMutable.

(** * The store model: stealing from a sibling *)

Ltac msteps := repeat (rewrite ?run_assoc; mstep).

Section StoreSteal.
Context {Pair : Type} `{EqDecision Pair}.

Notation hnode := (@Store.hnode Pair).
Notation memory := (@Store.memory Pair).
Notation HNode := (@Store.HNode Pair).
Notation node := (@node Pair).

Variable c : nat.
Variable dead : gset nat.
Hypothesis c_alive : c ∉ dead.

Implicit Types (m : memory) (l : Store.loc) (hn : hnode) (n : node).
Implicit Types (F G W : list Store.loc) (ps : list (Store.loc * list Store.loc)).
Implicit Types (ns : list node) (its : list Pair).

Lemma pop_inv {A} (s s' : list A) x : pop s = Some (x, s') → s = s' ++ [x].
Proof.
  destruct s as [|y s _] using rev_ind; [done|].
  rewrite pop_snoc. by intros [= -> ->].
Qed.

Lemma removeAt_head_inv {A} (s s' : list A) x :
  removeAt s 0 = Some (x, s') → s = x :: s'.
Proof. destruct s as [|y s]; [done|]. cbn. intros [= -> <-]. done. Qed.

Lemma insert_two {A} (s : list A) k a b x y :
  s !! k = Some x → s !! S k = Some y →
  <[k := a]> (<[S k := b]> s) = take k s ++ [a; b] ++ drop (S (S k)) s ∧
  s = take k s ++ [x; y] ++ drop (S (S k)) s.
Proof.
  intros Hx Hy. pose proof (lookup_lt_Some _ _ _ Hy) as Hlt.
  assert (s = take k s ++ [x; y] ++ drop (S (S k)) s) as Es.
  { rewrite <- (take_drop_middle s k x Hx) at 1. f_equal. cbn. f_equal.
    apply (drop_S s y (S k)) in Hy. by rewrite Hy. }
  split; [|done].
  rewrite Es at 1.
  rewrite (insert_app_r_alt _ _ (S k)) by (rewrite length_take; lia).
  rewrite length_take. replace (S k - k `min` length s) with 1 by lia.
  rewrite insert_app_r_alt by (rewrite length_take; lia).
  rewrite length_take. replace (k - k `min` length s) with 0 by lia. done.
Qed.

(** The three nodes are distinct. *)
Lemma NoDup_three l a b (A B S1 S2 : list Store.loc) :
  NoDup (l :: A ++ ((a :: S1) ++ (b :: S2) ++ []) ++ B) →
  l ≠ a ∧ l ≠ b ∧ a ≠ b ∧
  (∀ x, x ∈ [l; a; b] → x ∉ S1 ∧ x ∉ S2).
Proof.
  intros [Hl Hnd]%NoDup_cons. apply NoDup_app in Hnd as (_ & _ & Hnd).
  apply NoDup_app in Hnd as (Hmid & _ & _). rewrite app_nil_r in Hmid.
  apply NoDup_app in Hmid as (Ha & Hab & Hb).
  apply NoDup_cons in Ha as [Ha _]. apply NoDup_cons in Hb as [Hb _].
  split_and!.
  - intros ->. apply Hl. mem.
  - intros ->. apply Hl. mem.
  - intros ->. apply (Hab b); mem.
  - intros x [->|[->|[->|[]%elem_of_nil]%elem_of_cons]%elem_of_cons]%elem_of_cons.
    + split; intros Hin; apply Hl; mem.
    + split; [done|]. intros Hin. apply (Hab a); mem.
    + split; [|done]. intros Hin. apply (Hab b); mem.
Qed.
(** Two adjacent children of a node of the context, rewritten in place
    from the same nodes. *)
Lemma pair_finish m m2 m3 l its its' ns ps ps2 k na nb la lb Fa Fb na' nb' Fa' Fb' :
  keeps (foot l ps) m m2 → grows (foot l ps) (foot l ps2) m →
  Store.contexts m2 = Store.contexts m → wf m2 →
  onode c dead m2 l its ns ps2 →
  ns !! k = Some na → ns !! S k = Some nb →
  ps2 !! k = Some (la, Fa) → ps2 !! S k = Some (lb, Fb) →
  la ∈ Fa → lb ∈ Fb →
  only_at [l; la; lb] m2 m3 →
  Store.freelist m3 = Store.freelist m2 → Store.contexts m3 = Store.contexts m2 →
  Store.nodes m3 !! l = Some (HNode its' ps2.*1 (Some c)) →
  repr c dead m3 na' la Fa' → repr c dead m3 nb' lb Fb' →
  Fa' ++ Fb' ≡ₚ Fa ++ Fb →
  onode c dead m3 l its' (<[k := na']> (<[S k := nb']> ns))
    (<[k := (la, Fa')]> (<[S k := (lb, Fb')]> ps2)) ∧
  wf m3 ∧ keeps (foot l ps) m m3 ∧
  grows (foot l ps) (foot l (<[k := (la, Fa')]> (<[S k := (lb, Fb')]> ps2))) m ∧
  Store.contexts m3 = Store.contexts m.
Proof.
  intros Hk2 Hg2 Hctx2 Hwf2 Hon2 Hna Hnb Hpa Hpb Hla Hlb Hat Hfl Hctx3 Hl3 Hra Hrb Hperm.
  pose proof Hon2 as (Hl2 & Hps2 & Hnd2).
  pose proof (Forall2_length _ _ _ Hps2) as Hlen.
  destruct (insert_two ns k na' nb' na nb Hna Hnb) as [-> Ens].
  destruct (insert_two ps2 k (la, Fa') (lb, Fb') _ _ Hpa Hpb) as [-> Eps].
  assert (ps2.*1 = (take k ps2 ++ [(la, Fa'); (lb, Fb')] ++ drop (S (S k)) ps2).*1)
    as Efst.
  { rewrite Eps at 1. by rewrite !fmap_app. }
  rewrite Efst in Hl3. rewrite Ens, Eps in Hon2.
  assert (∀ x, x ∈ [l; la; lb] → owned c m2 x) as Hown.
  { intros x [->|[->|[->|[]%elem_of_nil]%elem_of_cons]%elem_of_cons]%elem_of_cons.
    - by exists (HNode its ps2.*1 (Some c)).
    - eapply reprs_owned; [exact Hps2|]. rewrite (parts_middle ps2 k _ Hpa). cbn. mem.
    - eapply reprs_owned; [exact Hps2|].
      rewrite (parts_middle ps2 (S k) _ Hpb). cbn. mem. }
  destruct (onode_rebuild c dead c_alive m2 m3 l its its' (take k ns) (drop (S (S k)) ns)
              (take k ps2) (drop (S (S k)) ps2) [na; nb] [(la, Fa); (lb, Fb)]
              [na'; nb'] [(la, Fa'); (lb, Fb')] [l; la; lb])
    as (Hon3 & Hk3 & Hg3); try done.
  - rewrite !length_take. lia.
  - intros x [->|[->|[->|[]%elem_of_nil]%elem_of_cons]%elem_of_cons]%elem_of_cons;
      [by left|right; cbn; mem|right; cbn; mem].
  - intros x hn Hx Hlook. eapply (owned_not_frozen c dead c_alive); [by apply Hown|done].
  - constructor; [done|]. constructor; [done|constructor].
  - cbn. rewrite app_nil_r. rewrite Hperm.
    destruct Hon2 as (_ & _ & Hnd). apply NoDup_cons_1_2 in Hnd.
    rewrite !join_parts_app in Hnd. apply NoDup_app in Hnd as (_ & _ & Hnd).
    apply NoDup_app in Hnd as (Hnd & _ & _). cbn in Hnd. by rewrite app_nil_r in Hnd.
  - intros x. cbn. rewrite !app_nil_r. by rewrite Hperm.
  - split_and!; [done| | | |congruence].
    + apply (wf_only_at [l; la; lb] m2); [done|done|by rewrite Hfl|].
      intros x Hx. rewrite Hfl. destruct (Hown x Hx) as (hn & Hlook & Hc).
      eapply not_free; [done|exact Hlook|by rewrite Hc].
    + rewrite <- Eps in Hk3. eapply keeps_trans; [exact Hk2|exact Hg2|exact Hk3].
    + rewrite <- Eps in Hg3. eapply grows_trans; [exact Hg2|exact Hk2|exact Hg3].
Qed.
Lemma lookup_insert_two {A} (s : list A) k a b :
  S k < length s →
  <[k := a]> (<[S k := b]> s) !! k = Some a ∧
  <[k := a]> (<[S k := b]> s) !! S k = Some b.
Proof.
  intros Hk. split.
  - apply list_lookup_insert_eq. rewrite length_insert. lia.
  - rewrite list_lookup_insert_ne by lia. by apply list_lookup_insert_eq.
Qed.

(** Steal from the left sibling. *)
Lemma steal_left_sim m l its ns ps k lft child stolen from_items sep
    from_children child_children minPairs :
  wf m → onode c dead m l its ns ps →
  ns !! k = Some lft → minPairs < length (items lft) → ns !! S k = Some child →
  pop (items lft) = Some (stolen, from_items) → its !! k = Some sep →
  (if decide (0 < length (children lft)) then
     '(c0, fc) ← pop (children lft);
     cc ← insertAt (children child) 0 c0; Some (fc, cc)
   else Some (children lft, children child)) = Some (from_children, child_children) →
  ∃ m' ps',
    (∀ R x typ,
       Store.growChildAndRemove R l (S k) x minPairs typ m = R l x minPairs typ m') ∧
    onode c dead m' l (<[k := stolen]> its)
      (<[k := Node from_items from_children]>
         (<[S k := Node (sep :: items child) child_children]> ns)) ps' ∧
    wf m' ∧ keeps (foot l ps) m m' ∧ grows (foot l ps) (foot l ps') m ∧
    Store.contexts m' = Store.contexts m.
Proof.
  intros Hwf Hon Hlft Hbig Hchild Hpop Hsep Hcs.
  pose proof Hon as (Hl & Hps & Hnd).
  pose proof (Forall2_length _ _ _ Hps) as Hlen.
  pose proof (lookup_lt_Some _ _ _ Hchild) as HSk.
  pose proof (lookup_lt_Some _ _ _ Hsep) as Hkits.
  destruct (child_part c dead c_alive m ns ps k lft Hps
              ltac:(by apply NoDup_cons_1_2 in Hnd) Hlft)
    as (l0 & F0 & Hp0 & Hr0 & _ & _).
  pose proof Hr0 as (hn0 & ps0 & Hl0 & Hits0 & _)%repr_inv.
  assert (ps.*1 !! k = Some l0) as Hc0 by (by rewrite list_lookup_fmap, Hp0).
  destruct (two_mutable c dead c_alive m l its ns ps (S k) k child lft Hwf Hon
              Hchild Hlft ltac:(lia))
    as (lc & ls & psc & pss & m1 & m2 & Hrun1 & Hrun2 & Hon2 & Honc & Hons &
        Hwf2 & Hk2 & Hg2 & Hctx2).
  set (ps2 := <[k := (ls, foot ls pss)]> (<[S k := (lc, foot lc psc)]> ps)) in *.
  pose proof Hon2 as (Hl2 & Hps2 & Hnd2).
  pose proof Honc as (Hlc & Hpsc & Hndc). pose proof Hons as (Hls & Hpss & Hnds).
  destruct (lookup_insert_two ps k (ls, foot ls pss) (lc, foot lc psc)) as [Hpa Hpb];
    [lia|]. fold ps2 in Hpa, Hpb.
  destruct lft as [lits lcs], child as [cits ccs]. cbn [items children] in *.
  apply pop_inv in Hpop as ->.
  destruct (insert_two ps2 k (ls, foot ls pss) (lc, foot lc psc) _ _ Hpa Hpb)
    as [_ Eps2].
  destruct (NoDup_three l ls lc (mjoin (take k ps2).*2) (mjoin (drop (S (S k)) ps2).*2)
              (mjoin pss.*2) (mjoin psc.*2)) as (Hlls & Hllc & Hlslc & Hout).
  { rewrite Eps2 in Hnd2. unfold foot in Hnd2. rewrite !join_parts_app in Hnd2.
    exact Hnd2. }
  assert (store its k stolen = Some (<[k := stolen]> its)) as Hst
    by (unfold store; by rewrite decide_True).
  pose proof (pop_snoc from_items stolen) as Hpop'.
  pose proof (insertAt_head sep cits) as Hins.
  (* the moved child *)
  assert (∃ mvn mv pss',
            lcs = from_children ++ mvn ∧ child_children = mvn ++ ccs ∧
            pss = pss' ++ mv ∧ length pss' = length from_children ∧
            length mv = length mvn ∧
            ∃ m3,
              (∀ R x typ,
                 Store.growChildAndRemove R l (S k) x minPairs typ m =
                   R l x minPairs typ m3) ∧
              only_at [l; ls; lc] m2 m3 ∧
              Store.freelist m3 = Store.freelist m2 ∧
              Store.contexts m3 = Store.contexts m2 ∧
              Store.nodes m3 !! l = Some (HNode (<[k := stolen]> its) ps2.*1 (Some c)) ∧
              Store.nodes m3 !! ls = Some (HNode from_items pss'.*1 (Some c)) ∧
              Store.nodes m3 !! lc =
                Some (HNode (sep :: cits) (mv ++ psc).*1 (Some c)))
    as (mvn & mv & pss' & -> & -> & -> & Hlpss' & Hlmv & m3 & Hrun & Hat & Hfl3 &
        Hctx3 & Hl3 & Hls3 & Hlc3).
  { pose proof (Forall2_length _ _ _ Hpss) as Hlpss.
    destruct (decide (0 < length lcs)) as [Hint|Hleaf].
    - destruct (pop lcs) as [[c0 fc]|] eqn:Hpopc; [|done].
      cbn [mbind option_bind] in Hcs. rewrite insertAt_head in Hcs.
      cbn [mbind option_bind] in Hcs. injection Hcs as <- <-.
      apply pop_inv in Hpopc as ->.
      apply Forall2_app_inv_l in Hpss as (pss' & mv & Hpss' & Hmv & ->).
      pose proof (Forall2_length _ _ _ Hpss') as Hl1.
      pose proof (Forall2_length _ _ _ Hmv) as Hl2'.
      destruct mv as [|pg [|? ?]]; try done.
      exists [c0], [pg], pss'. split_and!; [done..|].
      pose proof (pop_snoc pss'.*1 pg.1) as Hpopp.
      pose proof (insertAt_head pg.1 psc.*1) as Hinsp.
      eexists. split; [|split_and!].
      + intros R x typ. unfold Store.growChildAndRemove.
        msteps. rewrite Hits0. cbn [items]. rewrite bool_decide_true by done.
        replace (S k - 1) with k by lia.
        mrun Hrun1. mrun Hrun2. msteps.
        rewrite length_fmap, decide_True by (rewrite length_app; simpl; lia).
        rewrite fmap_app. cbn [fmap list_fmap]. msteps. reflexivity.
      + repeat (apply only_at_put; [mem|]). apply only_at_refl.
      + done.
      + done.
      + look.
      + look.
      + look.
    - assert (lcs = []) as -> by (destruct lcs; [done|simpl in Hleaf; lia]).
      injection Hcs as <- <-. destruct pss as [|? ?]; [|done].
      exists [], [], []. split_and!; [done..|].
      eexists. split; [|split_and!].
      + intros R x typ. unfold Store.growChildAndRemove.
        msteps. rewrite Hits0. cbn [items]. rewrite bool_decide_true by done.
        replace (S k - 1) with k by lia.
        mrun Hrun1. mrun Hrun2. msteps.
        rewrite decide_False by (simpl; lia). msteps. reflexivity.
      + repeat (apply only_at_put; [mem|]). apply only_at_refl.
      + done.
      + done.
      + look.
      + look.
      + look. }
  apply Forall2_length in Hpss as Hlpss. rewrite !length_app in Hlpss.
  destruct (steal_parts c dead m2 m3 [l; ls; lc] ls lc
              (from_items ++ [stolen]) from_items cits (sep :: cits)
              from_children mvn [] [] ccs pss' mv [] [] psc)
    as (Hrs & Hrc & Hperm); try done.
  { by rewrite !app_nil_r. }
  { intros x Hx. rewrite app_nil_r. cbn [app]. by apply Hout. }
  { intros x hn Hx Hlook. eapply (owned_not_frozen c dead c_alive); [|exact Hlook].
    revert Hx. intros [->|[->|[->|[]%elem_of_nil]%elem_of_cons]%elem_of_cons]%elem_of_cons;
      by eapply onode_owned. }
  { by rewrite app_nil_r. }
  rewrite !app_nil_r in Hrs, Hperm. cbn [app] in Hrc, Hperm.
  destruct (pair_finish m m2 m3 l its (<[k := stolen]> its) ns ps ps2 k
              (Node (from_items ++ [stolen]) (from_children ++ mvn)) (Node cits ccs)
              ls lc (foot ls (pss' ++ mv)) (foot lc psc)
              (Node from_items from_children) (Node (sep :: cits) (mvn ++ ccs))
              (foot ls pss') (foot lc (mv ++ psc)))
    as (Hon3 & Hwf3 & Hk3 & Hg3 & Hctx); try done; [by left|by left|].
  eexists m3, _. split_and!; [exact Hrun|exact Hon3|done..].
Qed.
(** The two size tests of [growChildAndRemove] read the store only. *)
Lemma left_test_run m l its ns ps i minPairs b :
  onode c dead m l its ns ps →
  match i with
  | 0 => Some false
  | S i' => lf ← ns !! i'; Some (bool_decide (minPairs < length (items lf)))
  end = Some b →
  (match i with
   | 0 => mret false
   | S i' =>
       cs ← Store.get_children l; li ← Store.lift (cs !! i');
       lits ← Store.get_items li; mret (bool_decide (minPairs < length lits))
   end : Store.M bool) m = Some (b, m).
Proof.
  intros Hon Hb. pose proof Hon as (Hl & Hps & Hnd).
  destruct i as [|i]; [by injection Hb as <-|].
  destruct (ns !! i) as [lf|] eqn:Hlf; [|done]. injection Hb as <-.
  destruct (child_part c dead c_alive m ns ps i lf Hps
              ltac:(by apply NoDup_cons_1_2 in Hnd) Hlf)
    as (l0 & F0 & Hp0 & Hr0 & _ & _).
  pose proof Hr0 as (hn0 & ps0 & Hl0 & Hits0 & _)%repr_inv.
  assert (ps.*1 !! i = Some l0) as Hc0 by (by rewrite list_lookup_fmap, Hp0).
  msteps. by rewrite Hits0.
Qed.

Lemma right_test_run m l its ns ps i minPairs b :
  onode c dead m l its ns ps →
  (if decide (i < length its) then
     r ← ns !! (i + 1); Some (bool_decide (minPairs < length (items r)))
   else Some false) = Some b →
  (its ← Store.get_items l;
   if decide (i < length its) then
     cs ← Store.get_children l; ri ← Store.lift (cs !! (i + 1));
     rits ← Store.get_items ri; mret (bool_decide (minPairs < length rits))
   else mret false : Store.M bool) m = Some (b, m).
Proof.
  intros Hon Hb. pose proof Hon as (Hl & Hps & Hnd).
  msteps. destruct (decide (i < length its)) as [Hi|Hi]; [|by injection Hb as <-].
  destruct (ns !! (i + 1)) as [r|] eqn:Hr; [|done]. injection Hb as <-.
  destruct (child_part c dead c_alive m ns ps (i + 1) r Hps
              ltac:(by apply NoDup_cons_1_2 in Hnd) Hr)
    as (l0 & F0 & Hp0 & Hr0 & _ & _).
  pose proof Hr0 as (hn0 & ps0 & Hl0 & Hits0 & _)%repr_inv.
  assert (ps.*1 !! (i + 1) = Some l0) as Hc0 by (by rewrite list_lookup_fmap, Hp0).
  msteps. by rewrite Hits0.
Qed.

(** Steal from the right sibling. *)
Lemma steal_right_sim m l its ns ps k child rgt stolen from_items sep
    from_children child_children minPairs :
  wf m → onode c dead m l its ns ps →
  match k with
  | 0 => Some false
  | S i' => lf ← ns !! i'; Some (bool_decide (minPairs < length (items lf)))
  end = Some false →
  ns !! k = Some child → ns !! S k = Some rgt → minPairs < length (items rgt) →
  removeAt (items rgt) 0 = Some (stolen, from_items) → its !! k = Some sep →
  (if decide (0 < length (children rgt)) then
     '(c0, fc) ← removeAt (children rgt) 0; Some (fc, children child ++ [c0])
   else Some (children rgt, children child)) = Some (from_children, child_children) →
  ∃ m' ps',
    (∀ R x typ,
       Store.growChildAndRemove R l k x minPairs typ m = R l x minPairs typ m') ∧
    onode c dead m' l (<[k := stolen]> its)
      (<[k := Node (items child ++ [sep]) child_children]>
         (<[S k := Node from_items from_children]> ns)) ps' ∧
    wf m' ∧ keeps (foot l ps) m m' ∧ grows (foot l ps) (foot l ps') m ∧
    Store.contexts m' = Store.contexts m.
Proof.
  intros Hwf Hon Hleft Hchild Hrgt Hbig Hrm Hsep Hcs.
  pose proof Hon as (Hl & Hps & Hnd).
  pose proof (Forall2_length _ _ _ Hps) as Hlen.
  pose proof (lookup_lt_Some _ _ _ Hrgt) as HSk.
  pose proof (lookup_lt_Some _ _ _ Hsep) as Hkits.
  pose proof (left_test_run m l its ns ps k minPairs false Hon Hleft) as Hrunl.
  assert ((if decide (k < length its) then
             r ← ns !! (k + 1); Some (bool_decide (minPairs < length (items r)))
           else Some false) = Some true) as Hright.
  { rewrite decide_True by done. replace (k + 1) with (S k) by lia.
    rewrite Hrgt. cbn. by rewrite bool_decide_true. }
  pose proof (right_test_run m l its ns ps k minPairs true Hon Hright) as Hrunr.
  destruct (two_mutable c dead c_alive m l its ns ps k (S k) child rgt Hwf Hon
              Hchild Hrgt ltac:(lia))
    as (lc & ls & psc & pss & m1 & m2 & Hrun1 & Hrun2 & Hon2 & Honc & Hons &
        Hwf2 & Hk2 & Hg2 & Hctx2).
  rewrite (list_insert_insert_ne _ (S k) k) in Hon2, Hg2 by lia.
  set (ps2 := <[k := (lc, foot lc psc)]> (<[S k := (ls, foot ls pss)]> ps)) in *.
  pose proof Hon2 as (Hl2 & Hps2 & Hnd2).
  pose proof Honc as (Hlc & Hpsc & Hndc). pose proof Hons as (Hls & Hpss & Hnds).
  destruct (lookup_insert_two ps k (lc, foot lc psc) (ls, foot ls pss)) as [Hpa Hpb];
    [lia|]. fold ps2 in Hpa, Hpb.
  destruct rgt as [rits rcs], child as [cits ccs]. cbn [items children] in *.
  apply removeAt_head_inv in Hrm as ->.
  destruct (insert_two ps2 k (lc, foot lc psc) (ls, foot ls pss) _ _ Hpa Hpb)
    as [_ Eps2].
  destruct (NoDup_three l lc ls (mjoin (take k ps2).*2) (mjoin (drop (S (S k)) ps2).*2)
              (mjoin psc.*2) (mjoin pss.*2)) as (Hllc & Hlls & Hlcls & Hout).
  { rewrite Eps2 in Hnd2. unfold foot in Hnd2. rewrite !join_parts_app in Hnd2.
    exact Hnd2. }
  assert (store its k stolen = Some (<[k := stolen]> its)) as Hst
    by (unfold store; by rewrite decide_True).
  pose proof (removeAt_head stolen from_items) as Hrm'.
  (* the moved child *)
  assert (∃ mvn mv pss',
            rcs = mvn ++ from_children ∧ child_children = ccs ++ mvn ∧
            pss = mv ++ pss' ∧ length pss' = length from_children ∧
            length mv = length mvn ∧
            ∃ m3,
              (∀ R x typ,
                 Store.growChildAndRemove R l k x minPairs typ m =
                   R l x minPairs typ m3) ∧
              only_at [l; lc; ls] m2 m3 ∧
              Store.freelist m3 = Store.freelist m2 ∧
              Store.contexts m3 = Store.contexts m2 ∧
              Store.nodes m3 !! l = Some (HNode (<[k := stolen]> its) ps2.*1 (Some c)) ∧
              Store.nodes m3 !! ls = Some (HNode from_items pss'.*1 (Some c)) ∧
              Store.nodes m3 !! lc =
                Some (HNode (cits ++ [sep]) (psc ++ mv).*1 (Some c)))
    as (mvn & mv & pss' & -> & -> & -> & Hlpss' & Hlmv & m3 & Hrun & Hat & Hfl3 &
        Hctx3 & Hl3 & Hls3 & Hlc3).
  { pose proof (Forall2_length _ _ _ Hpss) as Hlpss.
    destruct (decide (0 < length rcs)) as [Hint|Hleaf].
    - destruct (removeAt rcs 0) as [[c0 fc]|] eqn:Hrmc; [|done].
      cbn [mbind option_bind] in Hcs. injection Hcs as <- <-.
      apply removeAt_head_inv in Hrmc as ->.
      destruct pss as [|pg pss']; [done|].
      apply Forall2_cons in Hpss as [Hpg Hpss'].
      pose proof (Forall2_length _ _ _ Hpss') as Hl1.
      exists [c0], [pg], pss'. split_and!; [done..|].
      pose proof (removeAt_head pg.1 pss'.*1) as Hrmp.
      eexists. split; [|split_and!].
      + intros R x typ. unfold Store.growChildAndRemove.
        mrun Hrunl. cbv beta iota. mrun Hrunr. cbv beta iota.
        mrun Hrun1. replace (k + 1) with (S k) by lia. mrun Hrun2. msteps.
        rewrite decide_True by (cbn; lia).
        cbn [fmap list_fmap]. msteps. reflexivity.
      + repeat (apply only_at_put; [mem|]). apply only_at_refl.
      + done.
      + done.
      + look.
      + look.
      + rewrite fmap_app. look.
    - assert (rcs = []) as -> by (destruct rcs; [done|simpl in Hleaf; lia]).
      injection Hcs as <- <-. destruct pss as [|? ?]; [|done].
      exists [], [], []. split_and!; [by rewrite ?app_nil_r..|].
      eexists. split; [|split_and!].
      + intros R x typ. unfold Store.growChildAndRemove.
        mrun Hrunl. cbv beta iota. mrun Hrunr. cbv beta iota.
        mrun Hrun1. replace (k + 1) with (S k) by lia. mrun Hrun2. msteps.
        rewrite decide_False by (simpl; lia). msteps. reflexivity.
      + repeat (apply only_at_put; [mem|]). apply only_at_refl.
      + done.
      + done.
      + look.
      + look.
      + rewrite app_nil_r. look. }
  apply Forall2_length in Hpss as Hlpss. rewrite !length_app in Hlpss.
  destruct (steal_parts c dead m2 m3 [l; lc; ls] ls lc
              (stolen :: from_items) from_items cits (cits ++ [sep])
              [] mvn from_children ccs [] [] mv pss' psc [])
    as (Hrs & Hrc & Hperm); try done.
  { by rewrite !app_nil_r. }
  { by apply Forall2_length in Hpsc. }
  { intros x Hx. rewrite app_nil_r. cbn [app]. destruct (Hout x Hx). done. }
  { intros x hn Hx Hlook. eapply (owned_not_frozen c dead c_alive); [|exact Hlook].
    revert Hx. intros [->|[->|[->|[]%elem_of_nil]%elem_of_cons]%elem_of_cons]%elem_of_cons;
      by eapply onode_owned. }
  { by rewrite app_nil_r. }
  rewrite !app_nil_r in Hrc, Hperm. cbn [app] in Hrs, Hperm.
  destruct (pair_finish m m2 m3 l its (<[k := stolen]> its) ns ps ps2 k
              (Node cits ccs) (Node (stolen :: from_items) (mvn ++ from_children))
              lc ls (foot lc psc) (foot ls (mv ++ pss'))
              (Node (cits ++ [sep]) (ccs ++ mvn)) (Node from_items from_children)
              (foot lc (psc ++ mv)) (foot ls pss'))
    as (Hon3 & Hwf3 & Hk3 & Hg3 & Hctx); try done; [by left|by left| |].
  { rewrite (Permutation_app_comm (foot lc (psc ++ mv))).
    rewrite (Permutation_app_comm (foot lc psc)). exact Hperm. }
  eexists m3, _. split_and!; [exact Hrun|exact Hon3|done..].
Qed.
End StoreSteal.

(** * The store model: merging two children *)

Section StoreMerge.
Context {Pair : Type} `{EqDecision Pair}.

Notation hnode := (@Store.hnode Pair).
Notation memory := (@Store.memory Pair).
Notation HNode := (@Store.HNode Pair).
Notation node := (@node Pair).

Variable c : nat.
Variable dead : gset nat.
Hypothesis c_alive : c ∉ dead.

Implicit Types (m : memory) (l : Store.loc) (hn : hnode) (n : node).
Implicit Types (F G W : list Store.loc) (ps : list (Store.loc * list Store.loc)).
Implicit Types (ns : list node) (its : list Pair).

(** [freeNode] on a node of the context, or on a node of a dead one. *)
Lemma freeNode_sim m lm hnm :
  wf m → Store.nodes m !! lm = Some hnm →
  (Store.h_cow hnm = Some c ∨ frozen dead hnm) →
  ∃ m' W,
    Store.freeNode (Some c) lm m = Some (tt, m') ∧
    only_at W m m' ∧
    (∀ x, x ∈ W → x = lm ∧ Store.h_cow hnm = Some c) ∧
    wf m' ∧ Store.contexts m' = Store.contexts m.
Proof.
  intros Hwf Hlm [Hc|(c' & Hc' & Hdead)].
  - destruct (decide (length (Store.freelist m) < Store.defaultFreeListSize))
      as [Hroom|Hfull].
    + eexists _, [lm]. split_and!.
      * unfold Store.freeNode. msteps. rewrite Hc, decide_True by done.
        msteps. unfold Store.freeList_freeNode. cbn [Store.freelist put].
        rewrite decide_True by done. reflexivity.
      * intros x Hx. cbn [Store.nodes]. rewrite !nodes_put. 
        rewrite !lookup_insert_ne; [done|intros ->; apply Hx; mem..].
      * intros x ->%list_elem_of_singleton. done.
      * destruct Hwf as [Hnd Hfree]. split; cbn [Store.freelist Store.nodes].
        -- apply NoDup_app. split_and!; [done| |apply NoDup_singleton].
           intros x Hx ->%list_elem_of_singleton.
           rewrite (Hfree _ Hx) in Hlm. injection Hlm as <-. done.
        -- intros x [Hx| ->%list_elem_of_singleton]%elem_of_app.
           ++ rewrite !nodes_put.
              assert (x ≠ lm) as Hne.
              { intros ->. rewrite (Hfree _ Hx) in Hlm. injection Hlm as <-. done. }
              rewrite !lookup_insert_ne by done. by apply Hfree.
           ++ rewrite !nodes_put. by rewrite lookup_insert_eq.
      * done.
    + eexists _, [lm]. split_and!.
      * unfold Store.freeNode. msteps. rewrite Hc, decide_True by done.
        msteps. unfold Store.freeList_freeNode. cbn [Store.freelist put].
        rewrite decide_False by done. reflexivity.
      * repeat (apply only_at_put; [mem|]). apply only_at_refl.
      * intros x ->%list_elem_of_singleton. done.
      * repeat apply wf_put; try done; rewrite ?freelist_put;
          (eapply not_free; [exact Hwf|exact Hlm|by rewrite Hc]).
      * done.
  - exists m, []. split_and!.
    + unfold Store.freeNode. msteps. rewrite Hc'.
      rewrite decide_False by (intros [= ->]; done). done.
    + apply only_at_refl.
    + intros x []%elem_of_nil.
    + done.
    + done.
Qed.
(** Merge the child [j] with its right sibling. *)
Lemma merge_sim m l its ns ps i j child nm mergePair n_items minPairs :
  wf m → onode c dead m l its ns ps →
  match i with
  | 0 => Some false
  | S i' => lf ← ns !! i'; Some (bool_decide (minPairs < length (items lf)))
  end = Some false →
  (if decide (i < length its) then
     r ← ns !! (i + 1); Some (bool_decide (minPairs < length (items r)))
   else Some false) = Some false →
  (if decide (length its ≤ i)
   then match i with 0 => None | S i' => Some i' end
   else Some i) = Some j →
  ns !! j = Some child → ns !! S j = Some nm →
  removeAt its j = Some (mergePair, n_items) →
  ∃ m' ps',
    (∀ R x typ,
       Store.growChildAndRemove R l i x minPairs typ m = R l x minPairs typ m') ∧
    onode c dead m' l n_items
      (take j ns ++
       [Node ((items child ++ [mergePair]) ++ items nm) (children child ++ children nm)] ++
       drop (S (S j)) ns) ps' ∧
    wf m' ∧ keeps (foot l ps) m m' ∧ grows (foot l ps) (foot l ps') m ∧
    Store.contexts m' = Store.contexts m.
Proof.
  intros Hwf Hon Hleft Hright Hidx Hchild Hnm Hrm.
  pose proof (left_test_run c dead c_alive m l its ns ps i minPairs false Hon Hleft)
    as Hrunl.
  pose proof (right_test_run c dead c_alive m l its ns ps i minPairs false Hon Hright)
    as Hrunr.
  pose proof Hon as (Hl & Hps & Hnd).
  pose proof (Forall2_length _ _ _ Hps) as Hlen.
  pose proof (lookup_lt_Some _ _ _ Hnm) as HSj.
  destruct (one_mutable c dead c_alive m l its ns ps j child Hwf Hon Hchild)
    as (lc & psc & m1 & Hrun1 & Hon1 & Honc & Hwf1 & Hk1 & Hg1 & Hctx1).
  set (ps1 := <[j := (lc, foot lc psc)]> ps) in *.
  pose proof Hon1 as (Hl1 & Hps1 & Hnd1). pose proof Honc as (Hlc & Hpsc & Hndc).
  destruct (child_part c dead c_alive m1 ns ps1 (S j) nm Hps1
              ltac:(by apply NoDup_cons_1_2 in Hnd1) Hnm)
    as (lm & Fm & Hpm & Hrm1 & HndFm & _).
  pose proof Hrm1 as (hnm & psm & Hlm & Hitsm & Hcsm & Hpsm & Hcase)%repr_inv.
  assert (ps1 !! j = Some (lc, foot lc psc)) as Hpc
    by (unfold ps1; apply list_lookup_insert_eq; clear -Hlen HSj; lia).
  destruct (insert_two ps1 j (lc, foot lc psc) (lm, Fm) _ _ Hpc Hpm) as [_ Eps1].
  destruct (insert_two ns j child nm _ _ Hchild Hnm) as [_ Ens].
  destruct child as [cits ccs], nm as [mits mcs], hnm as [mits' mcs' mcow].
  cbn [items children Store.h_items Store.h_children Store.h_cow] in *.
  subst mits' mcs'.
  (* the parts are disjoint *)
  assert (l ∉ foot lc psc ∧ l ∉ Fm ∧ (∀ x, x ∈ foot lc psc → x ∉ Fm)) as (HlFc & HlFm & Hdisj).
  { rewrite Eps1 in Hnd1. rewrite !join_parts_app in Hnd1.
    apply NoDup_cons in Hnd1 as [Hlout Hrest].
    apply NoDup_app_assoc_parts in Hrest as (_ & _ & Hmid & _ & _).
    change (NoDup (foot lc psc ++ Fm ++ [])) in Hmid. rewrite app_nil_r in Hmid.
    apply NoDup_app in Hmid as (_ & Hcm & _).
    change (mjoin ([(lc, foot lc psc); (lm, Fm)].*2)) with (foot lc psc ++ Fm ++ [])
      in Hlout.
    rewrite app_nil_r in Hlout. rewrite !not_elem_of_app in Hlout.
    split_and!; [tauto|tauto|done]. }
  assert (lc ≠ l) as Hlcl by (intros ->; apply HlFc; left).
  assert (lm ≠ l ∧ lm ≠ lc) as [Hlml Hlmlc].
  { destruct Hcase as [[Hc ->]|[(c' & Hc' & Hdead) _]].
    - split; [intros ->; apply HlFm; left|].
      intros ->. apply (Hdisj lc); left.
    - split; intros ->.
      + rewrite Hl1 in Hlm. injection Hlm as _ _ <-. by injection Hc' as <-.
      + rewrite Hlc in Hlm. injection Hlm as _ _ <-. by injection Hc' as <-. }
  assert (removeAt ps1.*1 (j + 1) =
            Some (lm, (take j ps1 ++ [(lc, foot lc (psc ++ psm))] ++
                         drop (S (S j)) ps1).*1)) as Hrmc.
  { rewrite Eps1 at 1. rewrite !fmap_app. cbn [fmap list_fmap app fst].
    rewrite removeAt_at2; [done|]. rewrite length_fmap, length_take.
    apply Forall2_length in Hps1. lia. }
  set (ps' := take j ps1 ++ [(lc, foot lc (psc ++ psm))] ++ drop (S (S j)) ps1) in *.
  set (m2 := put lc (HNode ((cits ++ [mergePair]) ++ mits) (psc.*1 ++ psm.*1) (Some c))
               (put l (HNode n_items ps'.*1 (Some c)) m1)).
  assert (Store.nodes m2 !! lm = Some (HNode mits psm.*1 mcow)) as Hlm2
    by (unfold m2; look).
  destruct (freeNode_sim m2 lm (HNode mits psm.*1 mcow))
    as (m3 & Wf & Hfree & Hatf & HWf & Hwf3 & Hctx3);
    [| exact Hlm2 | | ].
  { unfold m2. apply wf_put; [apply wf_put; [done|]|]; rewrite ?freelist_put.
    - eapply not_free; [exact Hwf1|exact Hl1|done].
    - eapply not_free; [exact Hwf1|exact Hlc|done]. }
  { destruct Hcase as [[Hc _]|[Hfr _]]; [by left|by right]. }
  cbn [Store.h_cow] in HWf.
  assert (∀ x, x ∈ mjoin psm.*2 → x ∈ Fm) as HsubFm.
  { intros x Hx. destruct Hcase as [[_ ->]|[_ ->]]; [by right|done]. }
  assert (NoDup (mjoin psm.*2)) as Hndm.
  { destruct Hcase as [[_ ->]|[_ ->]]; [by apply NoDup_cons_1_2 in HndFm|done]. }
  assert (∀ x, x ∈ Wf → x ∈ Fm ∧ x ∉ mjoin psm.*2 ∧ x ≠ l ∧ x ≠ lc ∧ owned c m1 x)
    as HWf'.
  { intros x Hx. destruct (HWf x Hx) as [-> ->].
    destruct Hcase as [[_ ->]|[(c' & [= <-] & Hdead) _]]; [|done].
    split_and!; [by left|by apply NoDup_cons_1_1 in HndFm|done|done|].
    by eexists. }
  set (W := [l; lc] ++ Wf).
  assert (∀ x, x ∈ W → x = l ∨ x = lc ∨ x ∈ Wf) as HW.
  { intros x. unfold W. rewrite elem_of_app, !elem_of_cons, elem_of_nil. tauto. }
  assert (only_at W m1 m3) as Hat.
  { intros x Hx.
    assert (x ≠ l ∧ x ≠ lc ∧ x ∉ Wf) as (? & ? & ?).
    { unfold W in Hx. rewrite not_elem_of_app, !not_elem_of_cons in Hx. tauto. }
    rewrite Hatf by done. unfold m2. look. }
  assert (∀ x, x ∈ W → owned c m1 x) as Hown.
  { intros x [->|[->|Hx]]%HW; [by eexists|by eexists|by apply HWf']. }
  assert (∀ x, x ∈ W → x ∉ mjoin psc.*2 ∧ x ∉ mjoin psm.*2) as Hout.
  { intros x [->|[->|Hx]]%HW.
    - split; [intros Hin; apply HlFc; by right|].
      intros Hin. by apply HlFm, HsubFm.
    - split; [by apply NoDup_cons_1_1 in Hndc|].
      intros Hin. apply (Hdisj lc); [by left|by apply HsubFm].
    - destruct (HWf' x Hx) as (HxF & Hxm & _). split; [|done].
      intros Hin. apply (Hdisj x); [by right|done]. }
  assert (∀ x hn, x ∈ W → Store.nodes m1 !! x = Some hn → ¬ frozen dead hn) as Hnfr.
  { intros x hn Hx Hlook.
    eapply (owned_not_frozen c dead c_alive); [by apply Hown|done]. }
  assert (l ∉ Wf ∧ lc ∉ Wf) as [HlWf HlcWf].
  { split; intros Hin; destruct (HWf' _ Hin) as (_ & _ & ? & ? & _); done. }
  assert (onode c dead m3 lc ((cits ++ [mergePair]) ++ mits) (ccs ++ mcs) (psc ++ psm))
    as Honc3.
  { split_and!.
    - rewrite Hatf by done. unfold m2. rewrite fmap_app. look.
    - apply Forall2_app.
      + eapply reprs_frame; [exact Hpsc|].
        apply (only_at_stable dead W _ m1 m3 Hat); [|done].
        intros x Hx. by destruct (Hout x Hx).
      + eapply reprs_frame; [exact Hpsm|].
        apply (only_at_stable dead W _ m1 m3 Hat); [|done].
        intros x Hx. by destruct (Hout x Hx).
    - rewrite join_parts_app. apply NoDup_cons in Hndc as [Hlcout Hndc].
      apply NoDup_cons. split.
      + rewrite not_elem_of_app. split; [done|].
        intros Hin. apply (Hdisj lc); [by left|by apply HsubFm].
      + apply NoDup_app. split_and!; [done| |done].
        intros x Hx Hx'. apply (Hdisj x); [by right|by apply HsubFm]. }
  assert (length (take j ps1) = length (take j ns)) as Hltake.
  { apply Forall2_length in Hps1. rewrite !length_take. lia. }
  rewrite Ens in Hon1. rewrite Eps1 in Hon1, Hg1.
  destruct (onode_rebuild c dead c_alive m1 m3 l its n_items (take j ns)
              (drop (S (S j)) ns) (take j ps1) (drop (S (S j)) ps1)
              [Node cits ccs; Node mits mcs] [(lc, foot lc psc); (lm, Fm)]
              [Node ((cits ++ [mergePair]) ++ mits) (ccs ++ mcs)]
              [(lc, foot lc (psc ++ psm))] W)
    as (Hon3 & Hk3 & Hg3); try done.
  { intros x [->|[->|Hx]]%HW; [by left|right; cbn; left|right; cbn].
    destruct (HWf' x Hx) as (HxF & _). rewrite app_nil_r. mem. }
  { rewrite Hatf by done. unfold m2. look. }
  { constructor; [by apply onode_repr|constructor]. }
  { cbn. rewrite app_nil_r. by destruct Honc3 as (_ & _ & ?). }
  { intros x. cbn. rewrite !app_nil_r, join_parts_app.
    rewrite !elem_of_cons, !elem_of_app.
    intros [->|[Hx|Hx]]; [by left|by right; left|].
    right. right. by apply HsubFm. }
  exists m3, ps'. split_and!.
  - intros R x typ. unfold Store.growChildAndRemove.
    mrun Hrunl. cbv beta iota. mrun Hrunr. cbv beta iota.
    msteps. mrun Hrun1. msteps. rewrite !put_put. fold m2. mrun Hfree. reflexivity.
  - exact Hon3.
  - done.
  - eapply keeps_trans; [exact Hk1|exact Hg1|exact Hk3].
  - eapply grows_trans; [exact Hg1|exact Hk1|exact Hg3].
  - rewrite Hctx3. unfold m2. by rewrite !contexts_put.
Qed.
End StoreMerge.

(** * The store model: removal *)

Section StoreGrow.
Context {Pair : Type} `{EqDecision Pair}.

Notation hnode := (@Store.hnode Pair).
Notation memory := (@Store.memory Pair).
Notation HNode := (@Store.HNode Pair).
Notation node := (@node Pair).

Variable c : nat.
Variable dead : gset nat.
Hypothesis c_alive : c ∉ dead.

Implicit Types (m : memory) (l : Store.loc) (hn : hnode) (n : node).
Implicit Types (F G W : list Store.loc) (ps : list (Store.loc * list Store.loc)).
Implicit Types (ns : list node) (its : list Pair).

Ltac step_in H := cbn [mbind option_bind items children] in H.

Lemma store_lt {A} (s : list A) i x :
  i < length s → store s i x = Some (<[i := x]> s).
Proof. intros Hi. unfold store. by rewrite decide_True. Qed.

Ltac step := cbn [mbind option_bind items children].

Lemma insert_merge {A} (s : list A) j x y z :
  s !! j = Some x → s !! S j = Some y →
  <[j := z]> (take (j + 1) s ++ drop (S (j + 1)) s) =
    take j s ++ [z] ++ drop (S (S j)) s.
Proof.
  intros Hx Hy. pose proof (lookup_lt_Some _ _ _ Hy) as Hlt.
  replace (j + 1) with (S j) by lia. rewrite (take_S_r s j x) by done.
  rewrite <- app_assoc.
  rewrite insert_app_r_alt by (rewrite length_take; lia).
  rewrite length_take. replace (j - j `min` length s) with 0 by lia. done.
Qed.

(** [growChildAndRemove]: the three cases leave a node of the context
    that stands for the rebuilt node, on which the removal goes on. *)
Lemma growChildAndRemove_sim Rp m l its ns ps i x minPairs typ r :
  wf m → onode c dead m l its ns ps →
  growChildAndRemove Rp (Node its ns) i x minPairs typ = Some r →
  ∃ n' m' ps',
    Rp n' x minPairs typ = Some r ∧
    (∀ R, Store.growChildAndRemove R l i x minPairs typ m = R l x minPairs typ m') ∧
    onode c dead m' l (items n') (children n') ps' ∧
    wf m' ∧ keeps (foot l ps) m m' ∧ grows (foot l ps) (foot l ps') m ∧
    Store.contexts m' = Store.contexts m.
Proof.
  intros Hwf Hon Hg. unfold growChildAndRemove, mutableChild in Hg. step_in Hg.
  destruct (match i with
            | 0 => Some false
            | S i' => lf ← ns !! i'; Some (bool_decide (minPairs < length (items lf)))
            end) as [fromLeft|] eqn:Hleft; [|done].
  step_in Hg. destruct fromLeft.
  - (* steal from the left *)
    destruct i as [|k]; [done|].
    destruct (ns !! k) as [lft|] eqn:Hlft; [|done].
    injection Hleft as Hbig%bool_decide_eq_true.
    destruct (ns !! S k) as [child|] eqn:Hchild; [|done]. step_in Hg.
    replace (S k - 1) with k in Hg by lia. rewrite Hlft in Hg. step_in Hg.
    destruct (pop (items lft)) as [[stolen from_items]|] eqn:Hpop; [|done].
    step_in Hg. destruct (its !! k) as [sep|] eqn:Hsep; [|done]. step_in Hg.
    rewrite insertAt_head in Hg. step_in Hg.
    pose proof (lookup_lt_Some _ _ _ Hsep) as Hk.
    pose proof (lookup_lt_Some _ _ _ Hchild) as HSk.
    rewrite (store_lt its k) in Hg by lia. step_in Hg.
    destruct (if decide (0 < length (children lft)) then _ else _)
      as [[from_children child_children]|] eqn:Hcs; [|done].
    step_in Hg. rewrite (store_lt ns (S k)) in Hg by lia. step_in Hg.
    rewrite store_lt in Hg by (rewrite length_insert; lia). step_in Hg.
    destruct (steal_left_sim c dead c_alive m l its ns ps k lft child stolen from_items
                sep from_children child_children minPairs)
      as (m' & ps' & Hrun & Hon' & Hwf' & Hk' & Hg' & Hctx); try done.
    eexists _, m', ps'. split_and!; [exact Hg| |exact Hon'|done..].
    intros R. apply Hrun.
  - destruct (if decide (i < length its) then _ else _) as [fromRight|] eqn:Hright;
      [|done].
    step_in Hg. destruct fromRight.
    + (* steal from the right *)
      destruct (decide (i < length its)) as [Hi|Hi]; [|done].
      destruct (ns !! (i + 1)) as [rgt|] eqn:Hrgt; [|done].
      injection Hright as Hbig%bool_decide_eq_true.
      destruct (ns !! i) as [child|] eqn:Hchild; [|done]. step_in Hg.
      destruct (removeAt (items rgt) 0) as [[stolen from_items]|] eqn:Hrm; [|done].
      step_in Hg. destruct (its !! i) as [sep|] eqn:Hsep; [|done]. step_in Hg.
      pose proof (lookup_lt_Some _ _ _ Hrgt) as HSi.
      rewrite (store_lt its i) in Hg by lia. step_in Hg.
      destruct (if decide (0 < length (children rgt)) then _ else _)
        as [[from_children child_children]|] eqn:Hcs; [|done].
      step_in Hg. rewrite (store_lt ns i) in Hg by lia. step_in Hg.
      rewrite store_lt in Hg by (rewrite length_insert; lia). step_in Hg.
      replace (i + 1) with (S i) in * by lia.
      rewrite list_insert_insert_ne in Hg by lia.
      destruct (steal_right_sim c dead c_alive m l its ns ps i child rgt stolen
                  from_items sep from_children child_children minPairs)
        as (m' & ps' & Hrun & Hon' & Hwf' & Hk' & Hg' & Hctx); try done.
      eexists _, m', ps'. split_and!; [exact Hg| |exact Hon'|done..].
      intros R. apply Hrun.
    + (* merge *)
      destruct (if decide (length its ≤ i) then _ else _) as [j|] eqn:Hidx; [|done].
      step_in Hg. destruct (ns !! j) as [child|] eqn:Hchild; [|done]. step_in Hg.
      destruct (removeAt its j) as [[mergePair n_items]|] eqn:Hrm; [|done].
      step_in Hg. pose proof (lookup_lt_Some _ _ _ Hchild) as Hj.
      rewrite (store_lt ns j) in Hg by lia. step_in Hg.
      rewrite list_insert_id in Hg by done.
      destruct (removeAt ns (j + 1)) as [[nm n_children]|] eqn:Hrmn; [|done].
      step_in Hg. unfold removeAt in Hrmn.
      destruct (ns !! (j + 1)) as [nm'|] eqn:Hnm; [|done].
      injection Hrmn as -> <-.
      replace (j + 1) with (S j) in Hnm by lia.
      pose proof (lookup_lt_Some _ _ _ Hnm) as HSj.
      rewrite store_lt in Hg
        by (rewrite length_app, length_take, length_drop; lia).
      step_in Hg. rewrite (insert_merge ns j child nm) in Hg by done.
      destruct (merge_sim c dead c_alive m l its ns ps i j child nm mergePair n_items
                  minPairs)
        as (m' & ps' & Hrun & Hon' & Hwf' & Hk' & Hg' & Hctx); try done.
      eexists _, m', ps'. split_and!; [exact Hg| |exact Hon'|done..].
      intros R. apply Hrun.
Qed.
End StoreGrow.

Section StoreRemove.
Context {Pair : Type} `{EqDecision Pair}.
Variable nilPair : Pair.
Variable less : Pair → Pair → bool.

Notation hnode := (@Store.hnode Pair).
Notation memory := (@Store.memory Pair).
Notation HNode := (@Store.HNode Pair).
Notation node := (@node Pair).

Variable c : nat.
Variable dead : gset nat.
Hypothesis c_alive : c ∉ dead.

Implicit Types (m : memory) (l : Store.loc) (hn : hnode) (n : node).
Implicit Types (F G W : list Store.loc) (ps : list (Store.loc * list Store.loc)).
Implicit Types (ns : list node) (its : list Pair).

Ltac step_in H := cbn [mbind option_bind items children] in H.

(** A call on the child [j], seen from its parent. *)
Lemma child_result m2 m3 l its ns ps2 j lj Fj cj' Fj' :
  onode c dead m2 l its ns ps2 → ps2 !! j = Some (lj, Fj) →
  result c dead m2 Fj cj' lj m3 Fj' →
  onode c dead m3 l its (<[j := cj']> ns) (<[j := (lj, Fj')]> ps2) ∧
  keeps (foot l ps2) m2 m3 ∧
  grows (foot l ps2) (foot l (<[j := (lj, Fj')]> ps2)) m2.
Proof.
  intros Hon2 Hpj (Hr3 & Hnd3 & Hown3 & Hwf3 & Hk3 & Hg3 & Hctx3).
  split_and!.
  - by eapply (onode_child c dead c_alive).
  - eapply keeps_mono; [exact Hk3|]. intros x Hx. right.
    rewrite (parts_middle ps2 j _ Hpj). cbn [snd]. mem.
  - intros x Hx. unfold foot in *.
    rewrite (parts_insert ps2 j _ (lj, Fj') Hpj) in Hx. cbn [snd] in Hx.
    rewrite (parts_middle ps2 j _ Hpj). cbn [snd].
    rewrite !elem_of_cons, !elem_of_app in Hx.
    rewrite !elem_of_cons, !elem_of_app.
    destruct Hx as [?|[?|[Hx|?]]]; [tauto|tauto| |tauto].
    destruct (Hg3 x Hx) as [?|?]; [tauto|by right].
Qed.

Lemma remove_sim : ∀ fuel m l n F x minPairs typ out n',
  wf m → repr c dead m n l F → owned c m l → NoDup F →
  remove nilPair less fuel n x minPairs typ = Some (out, n') →
  ∃ m' F', Store.remove nilPair less fuel l x minPairs typ m = Some (out, m') ∧
    result c dead m F n' l m' F'.
Proof.
  induction fuel as [|fuel IH];
    intros m l n F x minPairs typ out n' Hwf Hr Hown Hnd Hpure; [done|].
  destruct (repr_onode c dead c_alive m n l F Hr Hown Hnd) as (ps & Hon & ->).
  destruct n as [its ns]. cbn [items children] in Hon.
  pose proof Hon as (Hl & Hps & Hndf).
  pose proof (Forall2_length _ _ _ Hps) as Hlen.
  cbn [remove] in Hpure. cbn [items children] in Hpure.
  cbn [Store.remove].
  (* below the node *)
  assert (∀ i found,
    (ci ← ns !! i;
     if decide (length (items ci) ≤ minPairs) then
       growChildAndRemove (remove nilPair less fuel) (Node its ns) i x minPairs typ
     else
       child ← mutableChild (Node its ns) i;
       if found : bool then
         out ← its !! i;
         '(pred, child') ← remove nilPair less fuel child nilPair minPairs removeMax;
         n_items ← store its i pred;
         n_children ← store ns i child';
         Some (out, Node n_items n_children)
       else
         '(out, child') ← remove nilPair less fuel child x minPairs typ;
         n_children ← store ns i child';
         Some (out, Node its n_children)) = Some (out, n') →
    ∃ m' F',
      (cs ← Store.get_children l; ci ← Store.lift (cs !! i);
       cits ← Store.get_items ci;
       if decide (length cits ≤ minPairs) then
         Store.growChildAndRemove (Store.remove nilPair less fuel) l i x minPairs typ
       else
         child ← Store.mutableChild l i;
         if found : bool then
           its ← Store.get_items l; out ← Store.lift (its !! i);
           pred ← Store.remove nilPair less fuel child nilPair minPairs removeMax;
           its' ← Store.lift (store its i pred); Store.set_items l its';;
           mret out
         else Store.remove nilPair less fuel child x minPairs typ) m = Some (out, m') ∧
      result c dead m (foot l ps) n' l m' F') as Hdesc.
  { intros i found Hd.
    destruct (ns !! i) as [ci|] eqn:Hci; [|done]. step_in Hd.
    pose proof (lookup_lt_Some _ _ _ Hci) as Hi.
    destruct (child_part c dead c_alive m ns ps i ci Hps
                ltac:(by apply NoDup_cons_1_2 in Hndf) Hci)
      as (li & Fi & Hpi & Hri & HndFi & HsubFi).
    pose proof Hri as (hni & psi & Hli & Hitsi & _)%repr_inv.
    assert (ps.*1 !! i = Some li) as Hci' by (by rewrite list_lookup_fmap, Hpi).
    msteps. rewrite Hitsi.
    destruct (decide (length (items ci) ≤ minPairs)) as [Hsmall|Hbig].
    - destruct (growChildAndRemove_sim c dead c_alive (remove nilPair less fuel)
                  m l its ns ps i x minPairs typ (out, n') Hwf Hon Hd)
        as (n1 & m1 & ps1 & Hrec & Hrun & Hon1 & Hwf1 & Hk1 & Hg1 & Hctx1).
      rewrite Hrun. destruct n1 as [its1 ns1]. cbn [items children] in Hon1.
      pose proof Hon1 as (_ & _ & Hnd1).
      destruct (IH m1 l (Node its1 ns1) (foot l ps1) x minPairs typ out n' Hwf1
                  (onode_repr c dead m1 l its1 ns1 ps1 Hon1)
                  (onode_owned c dead m1 l its1 ns1 ps1 Hon1) Hnd1 Hrec)
        as (m' & F' & Hrun' & Hres).
      exists m', F'. split; [done|].
      eapply result_trans; [exact Hk1|exact Hg1|exact Hctx1|exact Hres].
    - unfold mutableChild in Hd. cbn [children] in Hd. rewrite Hci in Hd. step_in Hd.
      destruct (mutableChild_sim c dead c_alive m l its ns ps i Hwf Hon Hi)
        as (lj & Fj & m2 & Hrun2 & Hon2 & Hown2 & Hwf2 & Hk2 & Hg2 & Hctx2).
      mrun Hrun2.
      pose proof Hon2 as (Hl2 & Hps2 & Hnd2).
      assert (<[i := (lj, Fj)]> ps !! i = Some (lj, Fj)) as Hpj
        by (apply list_lookup_insert_eq; lia).
      destruct (child_part c dead c_alive m2 ns _ i ci Hps2
                  ltac:(by apply NoDup_cons_1_2 in Hnd2) Hci)
        as (lj' & Fj' & Hpj' & Hrj & HndFj & HsubFj).
      rewrite Hpj in Hpj'. injection Hpj' as <- <-.
      destruct found.
      + destruct (its !! i) as [o|] eqn:Ho; [|done]. step_in Hd.
        destruct (remove nilPair less fuel ci nilPair minPairs removeMax)
          as [[pred child']|] eqn:Hrec; [|done].
        step_in Hd. pose proof (lookup_lt_Some _ _ _ Ho) as Hio.
        pose proof (store_lt its i pred Hio) as Hst. rewrite Hst in Hd. step_in Hd.
        rewrite (store_lt ns i) in Hd by lia. step_in Hd. injection Hd as <- <-.
        destruct (IH m2 lj ci Fj nilPair minPairs removeMax pred child' Hwf2 Hrj Hown2
                    HndFj Hrec) as (m3 & Fj' & Hrun3 & Hres3).
        destruct (child_result m2 m3 l its ns _ i lj Fj child' Fj' Hon2 Hpj Hres3)
          as (Hon3 & Hk3 & Hg3).
        rewrite list_insert_insert_eq in Hon3, Hg3.
        destruct Hres3 as (_ & _ & _ & Hwf3 & _ & _ & Hctx3).
        pose proof Hon3 as (Hl3 & _).
        msteps. mrun Hrun3. msteps.
        eexists _, _. split; [reflexivity|].
        eapply result_trans; [exact Hk2|exact Hg2|exact Hctx2|].
        eapply result_trans; [exact Hk3|exact Hg3|exact Hctx3|].
        by eapply put_result.
      + destruct (remove nilPair less fuel ci x minPairs typ)
          as [[out' child']|] eqn:Hrec; [|done].
        step_in Hd. rewrite (store_lt ns i) in Hd by lia. step_in Hd.
        injection Hd as -> <-.
        destruct (IH m2 lj ci Fj x minPairs typ out child' Hwf2 Hrj Hown2
                    HndFj Hrec) as (m3 & Fj' & Hrun3 & Hres3).
        destruct (child_result m2 m3 l its ns _ i lj Fj child' Fj' Hon2 Hpj Hres3)
          as (Hon3 & Hk3 & Hg3).
        rewrite list_insert_insert_eq in Hon3, Hg3.
        destruct Hres3 as (_ & _ & _ & Hwf3 & _ & _ & Hctx3).
        exists m3. eexists. split; [exact Hrun3|].
        eapply result_trans; [exact Hk2|exact Hg2|exact Hctx2|].
        eapply result_trans; [exact Hk3|exact Hg3|exact Hctx3|].
        by eapply onode_result. }
  destruct typ.
  - (* removePair *)
    destruct (find less its x) as [[i found]|] eqn:Hfind; [|done]. step_in Hpure.
    msteps. rewrite length_fmap, <- Hlen.
    destruct (decide (length ns = 0)) as [Hleaf|Hint].
    + destruct found.
      * destruct (removeAt its i) as [[o its']|] eqn:Hrm; [|done].
        step_in Hpure. injection Hpure as <- <-.
        msteps. eexists _, _. split; [reflexivity|]. by eapply put_result.
      * step_in Hpure. injection Hpure as <- <-.
        msteps. eexists _, _. split; [reflexivity|]. by eapply onode_result.
    + step_in Hpure. mstep. by apply Hdesc.
  - (* removeMin *)
    msteps. rewrite length_fmap, <- Hlen.
    destruct (decide (length ns = 0)) as [Hleaf|Hint].
    + destruct (removeAt its 0) as [[o its']|] eqn:Hrm; [|done].
      step_in Hpure. injection Hpure as <- <-.
      msteps. eexists _, _. split; [reflexivity|]. by eapply put_result.
    + step_in Hpure. mstep. by apply (Hdesc 0 false).
  - (* removeMax *)
    msteps. rewrite length_fmap, <- Hlen.
    destruct (decide (length ns = 0)) as [Hleaf|Hint].
    + destruct (pop its) as [[o its']|] eqn:Hrm; [|done].
      step_in Hpure. injection Hpure as <- <-.
      msteps. eexists _, _. split; [reflexivity|]. by eapply put_result.
    + step_in Hpure. do 2 (rewrite ?run_assoc; mstep).
      by apply (Hdesc (length its) false).
Qed.
End StoreRemove.

(** * The store model: deletion from a tree *)

Section StoreDeleteClaim.
Context {Pair : Type} `{EqDecision Pair}.
Variable nilPair : Pair.
Variable less : Pair → Pair → bool.

Notation hnode := (@Store.hnode Pair).
Notation memory := (@Store.memory Pair).
Notation HNode := (@Store.HNode Pair).
Notation node := (@node Pair).

Implicit Types (m : memory) (l : Store.loc) (hn : hnode) (n : node).
Implicit Types (F G X : list Store.loc) (ps : list (Store.loc * list Store.loc)).
Implicit Types (t : @Store.PairTree) (pt : @PairTree Pair).

Ltac step_in H := cbn [mbind option_bind items children] in H.

Lemma deletePair_sim dead m t pt F fuel item typ out pt' :
  Store.cow t ∉ dead → wf m → tree_at dead m t pt F → NoDup F →
  deletePair nilPair less fuel pt item typ = Some (out, pt') →
  ∃ t' m' F',
    Store.deletePair nilPair less fuel t item typ m = Some ((out, t'), m') ∧
    tree_at dead m' t' pt' F' ∧ NoDup F' ∧ wf m' ∧
    Store.cow t' = Store.cow t ∧
    keeps F m m' ∧ grows F F' m ∧ Store.contexts m' = Store.contexts m.
Proof.
  intros Hc Hwf (Hd & Hlen & Hroot) Hnd Hpure.
  unfold deletePair in Hpure. unfold Store.deletePair.
  assert (Store.minPairs t = minPairs pt) as Hmin
    by (unfold Store.minPairs, minPairs; by rewrite Hd).
  set (c := Store.cow t) in *.
  destruct (Store.root t) as [r|] eqn:Hrt, (root pt) as [n|] eqn:Hrp; try done.
  2:{ injection Hpure as <- <-. exists t, m, F. split; [done|].
      split_and!; [|done|done|done|apply keeps_refl|apply grows_refl|done].
      split_and!; [done|done|]. by rewrite Hrt, Hrp. }
  pose proof Hroot as (hn & ps & Hl & Hits & _)%repr_inv.
  mstep. rewrite Hits.
  destruct (decide (length (items n) = 0)) as [Hempty|Hitems].
  { injection Hpure as <- <-. exists t, m, F. split; [done|].
    split_and!; [|done|done|done|apply keeps_refl|apply grows_refl|done].
    split_and!; [done|done|]. by rewrite Hrt, Hrp. }
  destruct (remove nilPair less fuel n item (minPairs pt) typ) as [[out' n1]|] eqn:Hrem;
    [|done].
  step_in Hpure.
  destruct (mutableFor_sim c dead Hc m n r F Hwf Hroot Hnd)
    as (r1 & F1 & m1 & Hrun1 & Hr1 & Hnd1 & Hown1 & Hwf1 & Hk1 & Hg1 & Hctx1).
  mrun Hrun1. rewrite Hmin.
  destruct (remove_sim nilPair less c dead Hc fuel m1 r1 n F1 item (minPairs pt) typ
              out' n1 Hwf1 Hr1 Hown1 Hnd1 Hrem) as (m2 & F2 & Hrun2 & Hres2).
  mrun Hrun2.
  pose proof (result_trans c dead _ _ _ _ _ _ _ _ Hk1 Hg1 Hctx1 Hres2)
    as (Hr2 & Hnd2 & Hown2 & Hwf2 & Hk2 & Hg2 & Hctx2).
  destruct (repr_onode c dead Hc m2 n1 r1 F2 Hr2 Hown2 Hnd2) as (ps2 & Hon2 & ->).
  destruct n1 as [its1 ns1]. cbn [items children] in *.
  pose proof Hon2 as (Hl2 & Hps2 & Hndf2).
  pose proof (Forall2_length _ _ _ Hps2) as Hlen2.
  do 2 mstep. rewrite length_fmap, <- Hlen2.
  destruct (decide (length its1 = 0 ∧ 0 < length ns1)) as [Hshrink|Hkeep].
  - destruct Hshrink as [Hno Hsome].
    destruct (ns1 !! 0) as [r2n|] eqn:Hr2n; [|done].
    step_in Hpure. injection Hpure as <- <-.
    destruct (child_part c dead Hc m2 ns1 ps2 0 r2n Hps2
                ltac:(by apply NoDup_cons_1_2 in Hndf2) Hr2n)
      as (l0 & F0 & Hp0 & Hr0 & HndF0 & HsubF0).
    assert (ps2.*1 !! 0 = Some l0) as Hc0 by (by rewrite list_lookup_fmap, Hp0).
    destruct (freeNode_sim c dead Hc m2 r1 _ Hwf2 Hl2 (or_introl eq_refl))
      as (m3 & W & Hfree & Hat & HW & Hwf3 & Hctx3).
    msteps. rewrite ?run_assoc. mrun Hfree. msteps.
    eexists _, m3, F0. split; [reflexivity|].
    assert (r1 ∉ F0) as Hr1F0.
    { intros Hin. apply NoDup_cons_1_1 in Hndf2. by apply Hndf2, HsubF0. }
    split_and!.
    + split_and!; cbn; [done| |].
      { rewrite Hlen. by destruct (decide (out' ≠ nilPair)). }
      eapply repr_frame; [exact Hr0|].
      apply (only_at_stable dead W F0 m2 m3 Hat).
      * intros x Hx Hin. by destruct (HW x Hx) as [-> _].
      * intros x hn' Hx Hlook. destruct (HW x Hx) as [-> _].
        eapply (owned_not_frozen c dead Hc); [exact Hown2|exact Hlook].
    + done.
    + done.
    + done.
    + eapply keeps_trans; [exact Hk2|exact Hg2|].
      apply (only_at_keeps W); [done|].
      intros x Hx. destruct (HW x Hx) as [-> _]. left. by left.
    + intros x Hx. apply Hg2. right. by apply HsubF0.
    + congruence.
  - injection Hpure as <- <-. mstep.
    eexists _, m2, (foot r1 ps2). split; [reflexivity|].
    split_and!; try done. split_and!; cbn; [done| |done].
    rewrite Hlen. by destruct (decide (out' ≠ nilPair)).
Qed.
Lemma deletePair_frame dead m t pt F fuel item typ out pt' :
  Store.cow t ∉ dead → wf m → tree_at dead m t pt F → NoDup F →
  deletePair nilPair less fuel pt item typ = Some (out, pt') →
  ∃ t' m' F',
    Store.deletePair nilPair less fuel t item typ m = Some ((out, t'), m') ∧
    tree_at dead m' t' pt' F' ∧ NoDup F' ∧ wf m' ∧
    Store.cow t' = Store.cow t ∧ Store.contexts m' = Store.contexts m ∧
    ∀ t2 pt2 F2, Store.cow t2 ≠ Store.cow t →
      tree_at dead m t2 pt2 F2 → tree_at dead m' t2 pt2 F2.
Proof.
  intros Hc Hwf Ht Hnd Hpure.
  destruct (deletePair_sim dead m t pt F fuel item typ out pt' Hc Hwf Ht Hnd Hpure)
    as (t' & m' & F' & Hrun & Ht' & Hnd' & Hwf' & Hcow & Hk & Hg & Hctx).
  exists t', m', F'. split_and!; [done..|].
  intros t2 pt2 F2 Hne Ht2.
  eapply (tree_at_frame dead m m' t2 pt2 F2 (Store.cow t) F); [done|done| |done|done].
  intros x Hx. by eapply tree_at_owned.
Qed.

(** X25: deletePair on the store, which Delete, DeleteMin and DeleteMax
    call, does what it does on the tree the handle stands for: it
    returns the same item, and the handle then stands for the resulting
    tree.  It writes only nodes of the context of the handle and nodes
    that were free or new, so every handle with another context stands
    for the tree it stood for. *)
Theorem deletePair_refines dead m t pt F fuel item typ out pt' :
  Store.cow t ∉ dead → wf m → tree_at dead m t pt F → NoDup F →
  deletePair nilPair less fuel pt item typ = Some (out, pt') →
  ∃ t' m' F',
    Store.deletePair nilPair less fuel t item typ m = Some ((out, t'), m') ∧
    tree_at dead m' t' pt' F' ∧ NoDup F' ∧ wf m' ∧
    Store.cow t' = Store.cow t ∧ Store.contexts m' = Store.contexts m ∧
    ∀ t2 pt2 F2, Store.cow t2 ≠ Store.cow t →
      tree_at dead m t2 pt2 F2 → tree_at dead m' t2 pt2 F2.
Proof. apply deletePair_frame. Qed.

(** X26: after Clone, a deletion from one of the two trees is not seen
    through the other: the tree that was written answers Get and Has as
    the tree without the item, the other one as the tree before the
    deletion, whichever of the two is written. *)
Theorem Clone_then_delete dead m t pt F fuel item typ out pt' :
  wf m → tree_at dead m t pt F →
  Store.cow t < Store.contexts m → (∀ c, c ∈ dead → c < Store.contexts m) →
  deletePair nilPair less fuel pt item typ = Some (out, pt') →
  ∃ t1 t2 m1,
    Store.Clone t m = Some ((t1, t2), m1) ∧
    (∃ t1' m2,
       Store.deletePair nilPair less fuel t1 item typ m1 = Some ((out, t1'), m2) ∧
       ∀ fuel' key,
         Store.Get nilPair less m2 fuel' t1' key = Get nilPair less fuel' pt' key ∧
         Store.Has nilPair less m2 fuel' t1' key = Has nilPair less fuel' pt' key ∧
         Store.Get nilPair less m2 fuel' t2 key = Get nilPair less fuel' pt key ∧
         Store.Has nilPair less m2 fuel' t2 key = Has nilPair less fuel' pt key) ∧
    (∃ t2' m2,
       Store.deletePair nilPair less fuel t2 item typ m1 = Some ((out, t2'), m2) ∧
       ∀ fuel' key,
         Store.Get nilPair less m2 fuel' t2' key = Get nilPair less fuel' pt' key ∧
         Store.Has nilPair less m2 fuel' t2' key = Has nilPair less fuel' pt' key ∧
         Store.Get nilPair less m2 fuel' t1 key = Get nilPair less fuel' pt key ∧
         Store.Has nilPair less m2 fuel' t1 key = Has nilPair less fuel' pt key).
Proof.
  intros Hwf Ht Hc Hdead Hpure.
  destruct (Clone_sim dead m t pt F Ht Hc Hdead)
    as (t1 & t2 & m1 & Hrun & Hn & Hf & Ht1 & Ht2 & Hne & Hc1 & Hc2 & _).
  pose proof (wf_same m m1 Hn Hf Hwf) as Hwf1.
  exists t1, t2, m1. split; [done|]. split.
  - destruct (deletePair_frame _ m1 t1 pt [] fuel item typ out pt' Hc1 Hwf1 Ht1
                (NoDup_nil_2) Hpure)
      as (t1' & m2 & F' & Hrun1 & Ht1' & _ & _ & _ & _ & Hiso).
    exists t1', m2. split; [done|]. intros fuel' key.
    destruct (Get_tree_at nilPair less _ m2 t1' pt' F' fuel' key Ht1') as (-> & -> & _).
    destruct (Get_tree_at nilPair less _ m2 t2 pt [] fuel' key
                (Hiso t2 pt [] (not_eq_sym Hne) Ht2)) as (-> & -> & _).
    done.
  - destruct (deletePair_frame _ m1 t2 pt [] fuel item typ out pt' Hc2 Hwf1 Ht2
                (NoDup_nil_2) Hpure)
      as (t2' & m2 & F' & Hrun2 & Ht2' & _ & _ & _ & _ & Hiso).
    exists t2', m2. split; [done|]. intros fuel' key.
    destruct (Get_tree_at nilPair less _ m2 t2' pt' F' fuel' key Ht2') as (-> & -> & _).
    destruct (Get_tree_at nilPair less _ m2 t1 pt [] fuel' key
                (Hiso t1 pt [] Hne Ht1)) as (-> & -> & _).
    done.
Qed.
End StoreDeleteClaim.

(** * The store model: instances of deletion *)

Definition example_deleted : @PairTree ZPair :=
  {| degree := 9; t_length := 1; root := Some (Node [zpair 2 20] []) |}.

Lemma deletePair_refines_witness :
  ∃ t' m' F',
    Store.deletePair znil zless 3 example_handle (zpair 1 0) removePair example_memory =
      Some ((zpair 1 10, t'), m') ∧
    tree_at ∅ m' t' example_deleted F' ∧
    NoDup F' ∧ wf m' ∧
    Store.cow t' = Store.cow example_handle ∧
    Store.contexts m' = Store.contexts example_memory ∧
    ∀ t2 pt2 F2, Store.cow t2 ≠ Store.cow example_handle →
      tree_at ∅ example_memory t2 pt2 F2 → tree_at ∅ m' t2 pt2 F2.
Proof.
  apply (deletePair_refines znil zless ∅ example_memory example_handle
           example_pure [0] 3 (zpair 1 0) removePair).
  - intros Hc. by apply elem_of_empty in Hc.
  - exact example_wf.
  - exact example_tree_at.
  - apply NoDup_singleton.
  - reflexivity.
Defined.

Lemma Clone_then_delete_witness :
  ∃ t1 t2 m1,
    Store.Clone example_handle example_memory = Some ((t1, t2), m1) ∧
    (∃ t1' m2,
       Store.deletePair znil zless 3 t1 (zpair 1 0) removePair m1 =
         Some ((zpair 1 10, t1'), m2) ∧
       ∀ fuel' key,
         Store.Get znil zless m2 fuel' t1' key = Get znil zless fuel' example_deleted key ∧
         Store.Has znil zless m2 fuel' t1' key = Has znil zless fuel' example_deleted key ∧
         Store.Get znil zless m2 fuel' t2 key = Get znil zless fuel' example_pure key ∧
         Store.Has znil zless m2 fuel' t2 key = Has znil zless fuel' example_pure key) ∧
    (∃ t2' m2,
       Store.deletePair znil zless 3 t2 (zpair 1 0) removePair m1 =
         Some ((zpair 1 10, t2'), m2) ∧
       ∀ fuel' key,
         Store.Get znil zless m2 fuel' t2' key = Get znil zless fuel' example_deleted key ∧
         Store.Has znil zless m2 fuel' t2' key = Has znil zless fuel' example_deleted key ∧
         Store.Get znil zless m2 fuel' t1 key = Get znil zless fuel' example_pure key ∧
         Store.Has znil zless m2 fuel' t1 key = Has znil zless fuel' example_pure key).
Proof.
  apply (Clone_then_delete znil zless ∅ example_memory example_handle example_pure [0]
           3 (zpair 1 0) removePair).
  - exact example_wf.
  - exact example_tree_at.
  - cbn. lia.
  - intros c Hc. by apply elem_of_empty in Hc.
  - reflexivity.
Defined.

(** * The store model: a tree and its clone *)

Section StoreCloneClaim.
Context {Pair : Type} `{EqDecision Pair}.
Variable nilPair : Pair.
Variable less : Pair → Pair → bool.
Hypothesis SW : StrictWeak less.

Implicit Types (pt : @PairTree Pair) (key y : Pair).



End StoreCloneClaim.

(** The tree with the keys 1, 2 and 3, in the store and as a value. *)
Definition clone_node : @Store.hnode ZPair :=
  Store.HNode [zpair 1 10; zpair 2 20; zpair 3 30] [] (Some 0).

Definition clone_memory : @Store.memory ZPair :=
  Store.Memory {[ 0 := clone_node ]} [] 1.

Definition clone_handle : Store.PairTree :=
  {| Store.degree := 9; Store.t_length := 3; Store.root := Some 0; Store.cow := 0 |}.


Lemma clone_memory_reached :
  ('(t, m) ← Store.New;
   ('(_, t) ← Store.ReplaceOrInsert znil zless 3 t (zpair 1 10);
    '(_, t) ← Store.ReplaceOrInsert znil zless 3 t (zpair 2 20);
    '(_, t) ← Store.ReplaceOrInsert znil zless 3 t (zpair 3 30);
    mret t) m) = Some (clone_handle, clone_memory).
Proof. vm_compute. reflexivity. Qed.




